(** * GTG task core: a shallow embedding of [GTG/core/task.py]

    The [Task] class of Getting Things GNOME is embedded as functions over an
    explicit store of task records.  A method [self.m(args)] becomes
    [m s self args], where [s] is the store and [self] the task id; the
    objects a method reaches through [self.req.get_task] are looked up in
    the same store, so two references to one task always see one record.

    Recursive methods take a [fuel] argument and return [option]: [None]
    stands for a call that does not return normally (an exception
    propagates, or the recursion does not end). *)

From Stdlib Require Import ZArith String Ascii List Bool Lia.
From stdpp Require Import gmap strings list fin_maps option.

(** ** Python strings

    [str] values are modelled as [string]; the functions below follow the
    documented behaviour of the [str] methods the task code calls. *)

Module PyStr.

Definition chr (n : nat) : string := String (ascii_of_nat n) EmptyString.

Definition LF : ascii := ascii_of_nat 10.
Definition nl : string := String LF EmptyString.

(** [s.startswith(p)] *)
Definition startswith (s p : string) : bool := String.prefix p s.

(** [p in s] *)
Fixpoint contains (s p : string) : bool :=
  String.prefix p s ||
  match s with
  | EmptyString => false
  | String _ s' => contains s' p
  end.

(** [s.replace(old, new)] for a non-empty [old]: the occurrences are found
    left to right and do not overlap.  [skip] counts the characters of a
    match that are still to be dropped. *)
Fixpoint replace_from (old new : string) (skip : nat) (s : string) : string :=
  match s with
  | EmptyString => EmptyString
  | String c s' =>
      match skip with
      | S k => replace_from old new k s'
      | O =>
          if String.prefix old s
          then new +:+ replace_from old new (String.length old - 1) s'
          else String c (replace_from old new 0 s')
      end
  end.

(** [s.replace('', new)]: [new] goes before every character and at the end. *)
Fixpoint intersperse (new s : string) : string :=
  match s with
  | EmptyString => new
  | String c s' => new +:+ String c (intersperse new s')
  end.

Definition replace (s old new : string) : string :=
  match old with
  | EmptyString => intersperse new s
  | _ => replace_from old new 0 s
  end.

(** [s[:n]] and [s[n:]] for [n >= 0] *)
Fixpoint take (n : nat) (s : string) : string :=
  match n, s with
  | S k, String c s' => String c (take k s')
  | _, _ => EmptyString
  end.

Fixpoint drop (n : nat) (s : string) : string :=
  match n, s with
  | S k, String _ s' => drop k s'
  | _, _ => s
  end.

(** [l[:n]] on a list, for any integer [n] (a negative [n] counts from the
    end). *)
Definition slice_to {A} (n : Z) (l : list A) : list A :=
  if (0 <=? n)%Z then firstn (Z.to_nat n) l
  else firstn (length l - Z.to_nat (- n)) l.

Definition str_slice_to (n : Z) (s : string) : string :=
  if (0 <=? n)%Z then take (Z.to_nat n) s
  else take (String.length s - Z.to_nat (- n)) s.

(** [str.isspace] on one character (code points below 256) *)
Definition is_space (c : ascii) : bool :=
  let n := nat_of_ascii c in
  ((9 <=? n) && (n <=? 13)) || ((28 <=? n) && (n <=? 32))
  || (n =? 133) || (n =? 160).

Fixpoint lstrip (s : string) : string :=
  match s with
  | EmptyString => EmptyString
  | String c s' => if is_space c then lstrip s' else s
  end.

Fixpoint rstrip (s : string) : string :=
  match s with
  | EmptyString => EmptyString
  | String c s' =>
      match rstrip s' with
      | EmptyString => if is_space c then EmptyString else String c EmptyString
      | r => String c r
      end
  end.

(** [s.strip()] *)
Definition strip (s : string) : string := rstrip (lstrip s).

(** [s.strip(chars)] *)
Fixpoint lstrip_chars (chars : list ascii) (s : string) : string :=
  match s with
  | EmptyString => EmptyString
  | String c s' =>
      if bool_decide (c ∈ chars) then lstrip_chars chars s' else s
  end.

Fixpoint rstrip_chars (chars : list ascii) (s : string) : string :=
  match s with
  | EmptyString => EmptyString
  | String c s' =>
      match rstrip_chars chars s' with
      | EmptyString =>
          if bool_decide (c ∈ chars) then EmptyString else String c EmptyString
      | r => String c r
      end
  end.

Definition strip_chars (chars : list ascii) (s : string) : string :=
  rstrip_chars chars (lstrip_chars chars s).

(** Line boundaries of [str.splitlines] (code points below 256). *)
Definition is_linebreak (c : ascii) : bool :=
  let n := nat_of_ascii c in
  ((10 <=? n) && (n <=? 13)) || ((28 <=? n) && (n <=? 30)) || (n =? 133).

(** [splitlines_from cur s]: [cur] is the line being read, reversed.  A
    carriage return followed by a line feed is one boundary, and a final
    boundary opens no empty last line. *)
Fixpoint splitlines_from (cur : list ascii) (s : string) : list string :=
  match s with
  | EmptyString =>
      match cur with
      | [] => []
      | _ => [string_of_list_ascii (rev cur)]
      end
  | String c s' =>
      if is_linebreak c then
        string_of_list_ascii (rev cur) ::
          match s' with
          | String c' s'' =>
              if (nat_of_ascii c =? 13) && (nat_of_ascii c' =? 10)
              then splitlines_from [] s''
              else splitlines_from [] s'
          | EmptyString => []
          end
      else splitlines_from (c :: cur) s'
  end.

Definition splitlines (s : string) : list string := splitlines_from [] s.

(** [sep.join(l)] *)
Fixpoint join (sep : string) (l : list string) : string :=
  match l with
  | [] => EmptyString
  | [x] => x
  | x :: l' => x +:+ sep +:+ join sep l'
  end.

Definition is_empty (s : string) : bool :=
  match s with EmptyString => true | _ => false end.

(** [xml.sax.saxutils.escape] *)
Definition sax_escape (s : string) : string :=
  replace (replace (replace s "&" "&amp;") ">" "&gt;") "<" "&lt;".

(** [html.escape] (with [quote=True]) *)
Definition html_escape (s : string) : string :=
  replace (replace (replace (replace (replace s "&" "&amp;")
    "<" "&lt;") ">" "&gt;") (chr 34) "&quot;") "'" "&#x27;".

(** [re.sub(r'\{\!.+\!\}', '', s)]: a match opens with the two characters
    [{!], takes at least one character other than a line feed, and closes
    with the last [!}] of the same line. *)
Fixpoint line_of (s : string) : string :=
  match s with
  | EmptyString => EmptyString
  | String c s' =>
      if (nat_of_ascii c =? 10) then EmptyString else String c (line_of s')
  end.

Fixpoint last_close (idx : nat) (line : string) : option nat :=
  match line with
  | EmptyString => None
  | String c rest =>
      match last_close (S idx) rest with
      | Some k => Some k
      | None =>
          if (1 <=? idx) && String.prefix "!}" line then Some idx else None
      end
  end.

Definition marker_length (s : string) : option nat :=
  if String.prefix "{!" s
  then k ← last_close 0 (line_of (drop 2 s)); Some (2 + k + 2)
  else None.

Fixpoint sub_markers_from (skip : nat) (s : string) : string :=
  match s with
  | EmptyString => EmptyString
  | String c s' =>
      match skip with
      | S k => sub_markers_from k s'
      | O =>
          match marker_length s with
          | Some n => sub_markers_from (n - 1) s'
          | None => String c (sub_markers_from 0 s')
          end
      end
  end.

Definition sub_subtask_markers (s : string) : string := sub_markers_from 0 s.

End PyStr.

(** ** Dates *)

(** Modelled from the spec: the [Date] class of [GTG.core.dates], which the
    task code imports.  A date is no date, one of the fuzzy dates, or a
    calendar day (a day number).  [is_fuzzy] holds of the fuzzy dates and of
    no date (the task code tests "undefined or fuzzy" with [is_fuzzy]
    alone).  In the order, no date and the fuzzy dates are infinitely late;
    equality is that of the values. *)
Inductive fuzzy_tag := Now | Soon | Someday.

Inductive Date :=
  | NoDate
  | Fuzzy (f : fuzzy_tag)
  | Concrete (day : Z).

#[global] Instance fuzzy_tag_eq_dec : EqDecision fuzzy_tag.
Proof. solve_decision. Defined.

#[global] Instance Date_eq_dec : EqDecision Date.
Proof. solve_decision. Defined.

Definition is_fuzzy (d : Date) : bool :=
  match d with
  | Concrete _ => false
  | _ => true
  end.

(** [a < b] *)
Definition date_ltb (a b : Date) : bool :=
  match a, b with
  | Concrete x, Concrete y => (x <? y)%Z
  | Concrete _, _ => true
  | _, _ => false
  end.

(** [a <= b] *)
Definition date_leb (a b : Date) : bool := negb (date_ltb b a).

(** [a != b] *)
Definition date_neqb (a b : Date) : bool := negb (bool_decide (a = b)).

(** A [datetime] instant, or a [Date]: the two kinds of value the code
    stores in its time stamps. *)
Inductive Stamp :=
  | StampDate (d : Date)
  | StampTime (t : Z).

(** ** Tasks and the store *)

(** The three status strings of the class: ["Active"], ["Dismiss"] and
    ["Done"]. *)
Inductive Status := STA_ACTIVE | STA_DISMISSED | STA_DONE.

#[global] Instance Status_eq_dec : EqDecision Status.
Proof. solve_decision. Defined.

(** [status in [STA_DONE, STA_DISMISSED]] *)
Definition is_closed (st : Status) : bool :=
  match st with
  | STA_ACTIVE => false
  | _ => true
  end.

(** [status in [STA_ACTIVE]]; also [status in (STA_ACTIVE)], a substring
    test against ["Active"] that only ["Active"] passes among the three
    status strings. *)
Definition is_active (st : Status) : bool :=
  match st with
  | STA_ACTIVE => true
  | _ => false
  end.

(** The attributes of a [Task], with the [parents] and [children] id lists
    it inherits from liblarch's [TreeNode]. *)
Record Task := mkTask {
  tid : string;
  uuid : string;
  title : string;
  content : string;
  status : Status;
  added_date : Date;
  closed_date : Date;
  due_date : Date;
  start_date : Date;
  can_be_deleted : bool;
  tags : list string;
  loaded : bool;
  sync_disabled : bool;
  attributes : list (string * string * string);
  last_modified : Stamp;
  recurring : bool;
  recurring_term : option string;
  recurring_updated_date : Stamp;
  parents : list string;
  children : list string
}.

(** Field assignments: [with_f v t] is the record after [t.f = v]. *)

Definition with_title (v : string) (t : Task) : Task :=
  mkTask (tid t) (uuid t) v (content t) (status t) (added_date t)
    (closed_date t) (due_date t) (start_date t) (can_be_deleted t) (tags t)
    (loaded t) (sync_disabled t) (attributes t) (last_modified t)
    (recurring t) (recurring_term t) (recurring_updated_date t) (parents t)
    (children t).

Definition with_content (v : string) (t : Task) : Task :=
  mkTask (tid t) (uuid t) (title t) v (status t) (added_date t)
    (closed_date t) (due_date t) (start_date t) (can_be_deleted t) (tags t)
    (loaded t) (sync_disabled t) (attributes t) (last_modified t)
    (recurring t) (recurring_term t) (recurring_updated_date t) (parents t)
    (children t).

Definition with_status (v : Status) (t : Task) : Task :=
  mkTask (tid t) (uuid t) (title t) (content t) v (added_date t)
    (closed_date t) (due_date t) (start_date t) (can_be_deleted t) (tags t)
    (loaded t) (sync_disabled t) (attributes t) (last_modified t)
    (recurring t) (recurring_term t) (recurring_updated_date t) (parents t)
    (children t).

Definition with_closed_date (v : Date) (t : Task) : Task :=
  mkTask (tid t) (uuid t) (title t) (content t) (status t) (added_date t) v
    (due_date t) (start_date t) (can_be_deleted t) (tags t) (loaded t)
    (sync_disabled t) (attributes t) (last_modified t) (recurring t)
    (recurring_term t) (recurring_updated_date t) (parents t) (children t).

Definition with_due_date (v : Date) (t : Task) : Task :=
  mkTask (tid t) (uuid t) (title t) (content t) (status t) (added_date t)
    (closed_date t) v (start_date t) (can_be_deleted t) (tags t) (loaded t)
    (sync_disabled t) (attributes t) (last_modified t) (recurring t)
    (recurring_term t) (recurring_updated_date t) (parents t) (children t).

Definition with_start_date (v : Date) (t : Task) : Task :=
  mkTask (tid t) (uuid t) (title t) (content t) (status t) (added_date t)
    (closed_date t) (due_date t) v (can_be_deleted t) (tags t) (loaded t)
    (sync_disabled t) (attributes t) (last_modified t) (recurring t)
    (recurring_term t) (recurring_updated_date t) (parents t) (children t).

Definition with_can_be_deleted (v : bool) (t : Task) : Task :=
  mkTask (tid t) (uuid t) (title t) (content t) (status t) (added_date t)
    (closed_date t) (due_date t) (start_date t) v (tags t) (loaded t)
    (sync_disabled t) (attributes t) (last_modified t) (recurring t)
    (recurring_term t) (recurring_updated_date t) (parents t) (children t).

Definition with_tags (v : list string) (t : Task) : Task :=
  mkTask (tid t) (uuid t) (title t) (content t) (status t) (added_date t)
    (closed_date t) (due_date t) (start_date t) (can_be_deleted t) v
    (loaded t) (sync_disabled t) (attributes t) (last_modified t)
    (recurring t) (recurring_term t) (recurring_updated_date t) (parents t)
    (children t).

Definition with_loaded (v : bool) (t : Task) : Task :=
  mkTask (tid t) (uuid t) (title t) (content t) (status t) (added_date t)
    (closed_date t) (due_date t) (start_date t) (can_be_deleted t) (tags t)
    v (sync_disabled t) (attributes t) (last_modified t) (recurring t)
    (recurring_term t) (recurring_updated_date t) (parents t) (children t).

Definition with_last_modified (v : Stamp) (t : Task) : Task :=
  mkTask (tid t) (uuid t) (title t) (content t) (status t) (added_date t)
    (closed_date t) (due_date t) (start_date t) (can_be_deleted t) (tags t)
    (loaded t) (sync_disabled t) (attributes t) v (recurring t)
    (recurring_term t) (recurring_updated_date t) (parents t) (children t).

Definition with_recurring (v : bool) (t : Task) : Task :=
  mkTask (tid t) (uuid t) (title t) (content t) (status t) (added_date t)
    (closed_date t) (due_date t) (start_date t) (can_be_deleted t) (tags t)
    (loaded t) (sync_disabled t) (attributes t) (last_modified t) v
    (recurring_term t) (recurring_updated_date t) (parents t) (children t).

Definition with_recurring_term (v : option string) (t : Task) : Task :=
  mkTask (tid t) (uuid t) (title t) (content t) (status t) (added_date t)
    (closed_date t) (due_date t) (start_date t) (can_be_deleted t) (tags t)
    (loaded t) (sync_disabled t) (attributes t) (last_modified t)
    (recurring t) v (recurring_updated_date t) (parents t) (children t).

Definition with_recurring_updated_date (v : Stamp) (t : Task) : Task :=
  mkTask (tid t) (uuid t) (title t) (content t) (status t) (added_date t)
    (closed_date t) (due_date t) (start_date t) (can_be_deleted t) (tags t)
    (loaded t) (sync_disabled t) (attributes t) (last_modified t)
    (recurring t) (recurring_term t) v (parents t) (children t).

Definition with_parents (v : list string) (t : Task) : Task :=
  mkTask (tid t) (uuid t) (title t) (content t) (status t) (added_date t)
    (closed_date t) (due_date t) (start_date t) (can_be_deleted t) (tags t)
    (loaded t) (sync_disabled t) (attributes t) (last_modified t)
    (recurring t) (recurring_term t) (recurring_updated_date t) v
    (children t).

Definition with_children (v : list string) (t : Task) : Task :=
  mkTask (tid t) (uuid t) (title t) (content t) (status t) (added_date t)
    (closed_date t) (due_date t) (start_date t) (can_be_deleted t) (tags t)
    (loaded t) (sync_disabled t) (attributes t) (last_modified t)
    (recurring t) (recurring_term t) (recurring_updated_date t) (parents t)
    v.

(** What the task code sends out: [Modified] is [TreeNode.modified()],
    [StatusChanged] the ["status-changed"] signal queued with
    [GLib.idle_add], the last two are calls on a tag of the registry. *)
Inductive Event :=
  | Modified (t : string)
  | StatusChanged (t : string) (old new : Status)
  | TagModified (name : string)
  | TagUpdateTask (name : string) (t : string).

(** The requester: the task lookup, the tag registry (the names for which
    [get_tag] finds a tag), and the events sent so far, latest first. *)
Record State := mkState {
  tasks : gmap string Task;
  tag_registry : gset string;
  events : list Event
}.

Definition get_task (s : State) (id : string) : option Task := tasks s !! id.

(** An attribute assignment on the task object [self]. *)
Definition update_task (f : Task → Task) (self : string) (s : State) : State :=
  mkState (alter f self (tasks s)) (tag_registry s) (events s).

Definition emit (e : Event) (s : State) : State :=
  mkState (tasks s) (tag_registry s) (e :: events s).

(** A [for x in l: ...] loop whose body updates the store and may fail. *)
Fixpoint for_each {A} (body : State → A → option State) (l : list A)
    (s : State) : option State :=
  match l with
  | [] => Some s
  | x :: l' => s' ← body s x; for_each body l' s'
  end.

(** ** The methods of [Task] *)

Section TaskOps.

(** The clock: [datetime.now()] and the day of [date.today()], taken as
    fixed during one call. *)
Variable now : Z.
Variable today : Z.

(** [date.parse_from_date(term, newtask)] of [GTG.core.dates], which is
    not part of the task code: [None] is its [ValueError]. *)
Variable parse_from_date : Date → string → bool → option Date.

(** *** Sync *)

Definition sync (s : State) (self : string) : State :=
  match get_task s self with
  | None => s
  | Some t =>
      if sync_disabled t then s
      else
        let s1 := update_task (with_last_modified (StampTime now)) self s in
        if loaded t then emit (Modified self) s1 else s1
  end.

Fixpoint recursive_sync (fuel : nat) (s : State) (self : string)
    : option State :=
  match fuel with
  | O => None
  | S fuel' =>
      t ← get_task s self;
      for_each (λ s sub_id, recursive_sync fuel' s sub_id) (children t)
        (sync s self)
  end.

(** *** Start, due and closed dates *)

Definition set_start_date (s : State) (self : string) (fulldate : Date)
    : State :=
  sync (update_task (with_start_date fulldate) self s) self.

Definition set_closed_date (s : State) (self : string) (fulldate : Date)
    : State :=
  sync (update_task (with_closed_date fulldate) self s) self.

(** [__get_defined_parent_list]: the tasks are returned by id. *)
Fixpoint get_defined_parent_list (fuel : nat) (s : State) (task : string)
    : option (list string) :=
  match fuel with
  | O => None
  | S fuel' =>
      t ← get_task s task;
      mjoin <$> mapM (λ par_id,
        par ← get_task s par_id;
        if is_fuzzy (due_date par)
        then get_defined_parent_list fuel' s par_id
        else Some [par_id]) (parents t)
  end.

(** [__get_defined_child_list] *)
Fixpoint get_defined_child_list (fuel : nat) (s : State) (task : string)
    : option (list string) :=
  match fuel with
  | O => None
  | S fuel' =>
      t ← get_task s task;
      mjoin <$> mapM (λ child_id,
        child ← get_task s child_id;
        if is_fuzzy (due_date child)
        then get_defined_child_list fuel' s child_id
        else Some [child_id]) (children t)
  end.

Fixpoint set_due_date (fuel : nat) (s : State) (self : string)
    (new_duedate : Date) : option State :=
  match fuel with
  | O => None
  | S fuel' =>
      t ← get_task s self;
      let old_due_date := due_date t in
      let s := update_task (with_due_date new_duedate) self s in
      s ← (if negb (is_fuzzy new_duedate) then
             pars ← get_defined_parent_list fuel' s self;
             s ← for_each (λ s par,
                    p ← get_task s par;
                    if date_ltb (due_date p) new_duedate
                    then set_due_date fuel' s par new_duedate
                    else Some s) pars s;
             subs ← get_defined_child_list fuel' s self;
             for_each (λ s sub,
               c ← get_task s sub;
               let sub_duedate := due_date c in
               s ← (if date_ltb new_duedate sub_duedate
                    then set_due_date fuel' s sub new_duedate
                    else Some s);
               c ← get_task s sub;
               let sub_startdate := start_date c in
               if negb (is_fuzzy sub_startdate)
                  && date_ltb new_duedate sub_startdate
               then Some (set_start_date s sub new_duedate)
               else Some s) subs s
           else Some s);
      if date_neqb old_due_date new_duedate
      then recursive_sync fuel' s self
      else Some s
  end.

(** *** Recurrence *)

(** The inner [is_valid_term] of [set_recurring]. *)
Definition is_valid_term (t : Task) (recurring_term : option string)
    (newtask : bool) : bool * option Date :=
  match recurring_term with
  | None => (false, None)
  | Some term =>
      let start_from :=
        if bool_decide (start_date t = NoDate) then Concrete today
        else start_date t in
      match parse_from_date start_from term newtask with
      | Some newdate => (true, Some newdate)
      | None => (false, None)
      end
  end.

Fixpoint set_recurring (fuel : nat) (s : State) (self : string)
    (recurring_arg : bool) (recurring_term_arg : option string)
    (newtask : bool) : option State :=
  match fuel with
  | O => None
  | S fuel' =>
      t ← get_task s self;
      let s := update_task (with_recurring recurring_arg) self s in
      let '(valid, newdate) := is_valid_term t recurring_term_arg newtask in
      let recurring_term_arg :=
        if valid then recurring_term_arg else None in
      s ← (if recurring_arg then
             if negb valid then
               Some (update_task (with_recurring false)
                       self (update_task (with_recurring_term None) self s))
             else
               let s := update_task
                          (with_recurring_updated_date (StampTime now)) self
                          (update_task (with_recurring_term recurring_term_arg)
                             self s) in
               if newtask
               then set_due_date fuel' s self (default NoDate newdate)
               else Some s
           else
             if valid then
               Some (update_task
                       (with_recurring_updated_date (StampTime now)) self
                       (update_task (with_recurring_term recurring_term_arg)
                          self s))
             else Some s);
      let s := sync s self in
      t ← get_task s self;
      for_each (λ s c_tid,
        child ← get_task s c_tid;
        if loaded child && is_active (status child) then
          me ← get_task s self;
          s ← set_recurring fuel' s c_tid (recurring me) (recurring_term me)
                false;
          me ← get_task s self;
          if recurring me
          then set_due_date fuel' s c_tid (default NoDate newdate)
          else Some s
        else Some s) (children t) s
  end.

(** The two [while] loops of [get_next_occurrence]: advance while [cond]
    holds. *)
Fixpoint advance_while (fuel : nat) (cond : Date → bool) (term : string)
    (d : Date) : option Date :=
  match fuel with
  | O => None
  | S fuel' =>
      if cond d
      then d' ← parse_from_date d term false;
           advance_while fuel' cond term d'
      else Some d
  end.

(** [None] is the [ValueError] (or a loop that does not end).  A stored
    term of [None] makes [parse_from_date] fail, which the method turns
    into the same [ValueError]. *)
Definition get_next_occurrence (fuel : nat) (s : State) (self : string)
    : option Date :=
  t ← get_task s self;
  let due := due_date t in
  if date_leb (Concrete today) due then
    term ← recurring_term t;
    nextdate ← parse_from_date due term false;
    advance_while fuel (λ d, date_leb d due) term nextdate
  else if date_ltb due (Concrete today) then
    term ← recurring_term t;
    next_date ← parse_from_date due term false;
    advance_while fuel (λ d, date_ltb d (Concrete today)) term next_date
  else Some NoDate.

Definition has_parent (t : Task) : bool :=
  match parents t with [] => false | _ => true end.

Definition has_child (t : Task) : bool :=
  match children t with [] => false | _ => true end.

Definition inherit_recursion (fuel : nat) (s : State) (self : string)
    : option State :=
  t ← get_task s self;
  if has_parent t then
    for_each (λ s p_tid,
      par ← get_task s p_tid;
      if recurring par && loaded par then
        s ← set_recurring fuel s self true (recurring_term par) false;
        par ← get_task s p_tid;
        set_due_date fuel s self (due_date par)
      else Some s) (parents t) s
  else set_recurring fuel s self false None false.

Fixpoint any_parent_recurring (s : State) (ps : list string)
    : option bool :=
  match ps with
  | [] => Some false
  | p_tid :: ps' =>
      p ← get_task s p_tid;
      if loaded p && is_active (status p) && recurring p then Some true
      else any_parent_recurring s ps'
  end.

Definition is_parent_recurring (s : State) (self : string) : option bool :=
  t ← get_task s self;
  any_parent_recurring s (parents t).

(** *** Title *)

(** The method's boolean result (whether the title changed) is not
    modelled. *)
Definition set_title (s : State) (self : string) (title_arg : string)
    : State :=
  let title_arg :=
    if PyStr.is_empty title_arg then "(no title task)"
    else PyStr.strip_chars [ascii_of_nat 9; ascii_of_nat 10] title_arg in
  match get_task s self with
  | None => s
  | Some t =>
      if bool_decide (title_arg = title t) then s
      else sync (update_task (with_title title_arg) self s) self
  end.

(** *** Tags *)

(** [get_tag(name)] finds a tag iff the name is registered; [new_tag]
    registers it. *)
Definition register_tag (name : string) (s : State) : State :=
  mkState (tasks s) ({[name]} ∪ tag_registry s) (events s).

(** [list.remove(x)]: the first occurrence goes. *)
Fixpoint remove_first (x : string) (l : list string) : list string :=
  match l with
  | [] => []
  | y :: l' => if bool_decide (y = x) then l' else y :: remove_first x l'
  end.

(** The result pairs the store with whether the tag was added (the
    method returns [True] then, and [None] otherwise). *)
Fixpoint tag_added (fuel : nat) (s : State) (self : string)
    (tagname : string) : option (State * bool) :=
  match fuel with
  | O => None
  | S fuel' =>
      t ← get_task s self;
      if bool_decide (tagname ∈ tags t) then Some (s, false)
      else
        let s := update_task (λ t, with_tags (tags t ++ [tagname]) t) self s in
        s ← (if loaded t then
               s ← for_each (λ s c_tid,
                      child ← get_task s c_tid;
                      if can_be_deleted child
                      then fst <$> tag_added fuel' s c_tid tagname
                      else Some s) (children t) s;
               Some (emit (TagModified tagname) (register_tag tagname s))
             else Some s);
        Some (s, true)
  end.

Definition add_tag (fuel : nat) (s : State) (self : string)
    (tagname : string) : option State :=
  '(s, added) ← tag_added fuel s self tagname;
  if added : bool then
    t ← get_task s self;
    let c := content t in
    let tagname := PyStr.html_escape tagname in
    let tagname :=
      if PyStr.startswith tagname "@" then tagname else "@" +:+ tagname in
    let sep :=
      if PyStr.is_empty c then EmptyString
      else if PyStr.startswith c "@" then ", "
      else PyStr.nl +:+ PyStr.nl in
    Some (sync (update_task (with_content (tagname +:+ sep +:+ c)) self s)
            self)
  else Some s.

Definition _strip_tag (text tagname newtag : string) : string :=
  let inline_tag :=
    if PyStr.startswith tagname "@" then PyStr.drop 1 tagname
    else tagname in
  let r := PyStr.replace in
  r (r (r (r (r (r (r (r text
    ("@" +:+ tagname +:+ PyStr.nl +:+ PyStr.nl) newtag)
    ("@" +:+ tagname +:+ PyStr.nl) newtag)
    ("@" +:+ tagname +:+ ", ") newtag)
    ("@" +:+ tagname) newtag)
    (tagname +:+ PyStr.nl +:+ PyStr.nl) newtag)
    (tagname +:+ ", ") newtag)
    (tagname +:+ ",") inline_tag)
    tagname inline_tag.

Fixpoint remove_tag (fuel : nat) (s : State) (self : string)
    (tagname : string) : option State :=
  match fuel with
  | O => None
  | S fuel' =>
      t ← get_task s self;
      let modified := bool_decide (tagname ∈ tags t) in
      s ← (if modified then
             let s := update_task
                        (λ t, with_tags (remove_first tagname (tags t)) t)
                        self s in
             for_each (λ s c_tid,
               child ← get_task s c_tid;
               if can_be_deleted child
               then remove_tag fuel' s c_tid tagname
               else Some s) (children t) s
           else Some s);
      let s := update_task
                 (λ t, with_content (_strip_tag (content t) tagname EmptyString) t)
                 self s in
      Some (if modified && bool_decide (tagname ∈ tag_registry s)
            then emit (TagModified tagname)
                   (emit (TagUpdateTask tagname self) s)
            else s)
  end.

(** *** Excerpt *)

Definition get_excerpt (t : Task) (lines char : Z)
    (strip_tags strip_subtasks : bool) : string :=
  if PyStr.is_empty (content t) then EmptyString
  else
    let txt := PyStr.strip (PyStr.sax_escape (content t)) in
    let txt :=
      if strip_tags then
        fold_left (λ txt tag,
          PyStr.replace (PyStr.replace (PyStr.replace txt
            ("@" +:+ tag +:+ ", ") EmptyString)
            ("@" +:+ tag +:+ ",") EmptyString)
            ("@" +:+ tag) EmptyString) (tags t) txt
      else txt in
    let txt :=
      if strip_subtasks then PyStr.sub_subtask_markers txt else txt in
    let txt := filter (λ line, PyStr.is_empty line = false)
                 (PyStr.splitlines txt) in
    let txt := PyStr.slice_to lines txt in
    let txt := PyStr.join PyStr.nl txt in
    if (0 <? char)%Z then PyStr.take (Z.to_nat char) txt else txt.

(** *** New tasks and subtasks *)

(** [Task.__init__(task_id, requester, newtask=True)], before its final
    [inherit_recursion()]. *)
Definition init_task (task_id : string) : Task :=
  mkTask task_id task_id "My new task" EmptyString STA_ACTIVE
    (Concrete today) NoDate NoDate NoDate true [] true false []
    (StampTime now) false None (StampDate NoDate) [] [].

(** Modelled from the spec: [new_task() -> Task] of the task lookup (the
    datastore is not part of the task code).  It builds a [Task] under an
    id no task has yet and makes it known to the lookup. *)
Definition new_task (fuel : nat) (s : State) : option (State * string) :=
  let task_id := fresh (dom (tasks s)) in
  let s := mkState (<[task_id := init_task task_id]> (tasks s))
             (tag_registry s) (events s) in
  s ← inherit_recursion fuel s task_id;
  Some (s, task_id).

(** Modelled from the spec: [add_child(id)] of the tree node (liblarch is
    not part of the task code).  The child id joins the node's children
    and the node's id joins the child's parents, once each. *)
Definition tree_add_child (s : State) (self child_id : string) : State :=
  let add x l := if bool_decide (x ∈ l) then l else l ++ [x] in
  update_task (λ c, with_parents (add self (parents c)) c) child_id
    (update_task (λ t, with_children (add child_id (children t)) t) self s).

(** [get_tags()] makes a registry entry for every tag name that has
    none. *)
Definition register_tags (names : list string) (s : State) : State :=
  fold_left (λ s name, register_tag name s) names s.

Definition add_child (fuel : nat) (s : State) (self child_id : string)
    : option State :=
  let s := update_task (with_can_be_deleted false) self s in
  let s := tree_add_child s self child_id in
  me ← get_task s self;
  s ← match get_task s child_id with
      | Some child =>
          if loaded me && can_be_deleted child then
            s ← (if negb (recurring child) then
                   let s := set_start_date s child_id (start_date me) in
                   me ← get_task s self;
                   set_due_date fuel s child_id (due_date me)
                 else Some s);
            me ← get_task s self;
            let s := register_tags (tags me) s in
            s ← for_each (λ s name, add_tag fuel s child_id name) (tags me) s;
            inherit_recursion fuel s child_id
          else Some s
      | None => Some s
      end;
  Some (sync s self).

(** [copy.tags = self.tags] makes the two tasks share one list object;
    the copy is modelled with a list of its own, equal to the original's
    at this point. *)
Definition duplicate (fuel : nat) (s : State) (self : string)
    : option (State * string) :=
  '(s, copy) ← new_task fuel s;
  me ← get_task s self;
  s ← set_recurring fuel s copy true (recurring_term me) false;
  nextdate ← get_next_occurrence fuel s self;
  s ← set_due_date fuel s copy nextdate;
  me ← get_task s self;
  let s := set_title s copy (title me) in
  me ← get_task s self;
  let s := update_task (with_content (content me)) copy s in
  let s := update_task (with_tags (tags me)) copy s in
  Some (s, copy).

Fixpoint duplicate_recursively (fuel : nat) (s : State) (self : string)
    : option (State * string) :=
  match fuel with
  | O => None
  | S fuel' =>
      '(s, newtask) ← duplicate fuel' s self;
      me ← get_task s self;
      s ← (if has_child me then
             for_each (λ s c_tid,
               child ← get_task s c_tid;
               if loaded child then
                 '(s, dup) ← duplicate_recursively fuel' s c_tid;
                 add_child fuel' s newtask dup
               else Some s) (children me) s
           else Some s);
      Some (sync s newtask, newtask)
  end.

(** *** Status *)

(** [status_arg = None] stands for a status of [None] or of the empty
    string, [donedate = None] for a done date that was not supplied. *)
Fixpoint set_status (fuel : nat) (s : State) (self : string)
    (status_arg : option Status) (donedate : option Date)
    (propagation init : bool) : option State :=
  match fuel with
  | O => None
  | S fuel' =>
      t ← get_task s self;
      let old_status := status t in
      let s := update_task (with_can_be_deleted false) self s in
      s ← match status_arg with
          | Some st =>
              if loaded t then
                if is_closed st then
                  s ← for_each (λ s c_tid,
                         c ← get_task s c_tid;
                         if is_active (status c)
                         then set_status fuel' s c_tid (Some st) donedate
                                true false
                         else Some s) (children t) s;
                  me ← get_task s self;
                  if recurring me && negb propagation then
                    parent_recurring ← is_parent_recurring s self;
                    if negb parent_recurring then
                      '(s, nexttask_tid) ← duplicate_recursively fuel' s self;
                      me ← get_task s self;
                      if has_parent me then
                        for_each (λ s p_tid,
                          par ← get_task s p_tid;
                          if loaded par && is_active (status par) then
                            s ← add_child fuel' s p_tid nexttask_tid;
                            Some (sync s p_tid)
                          else Some s) (parents me) s
                      else Some s
                    else Some s
                  else Some s
                else if is_active st && is_closed old_status then
                  me ← get_task s self;
                  if has_parent me then
                    for_each (λ s p_tid,
                      par ← get_task s p_tid;
                      if loaded par && is_closed (status par)
                      then set_status fuel' s p_tid (Some STA_ACTIVE) None
                             false false
                      else Some s) (parents me) s
                  else Some s
                else Some s
              else Some s
          | None => Some s
          end;
      me ← get_task s self;
      let s :=
        match status_arg with
        | Some st =>
            let s := if init then s
                     else emit (StatusChanged self (status me) st) s in
            update_task (with_status st) self s
        | None => s
        end in
      let s :=
        match status_arg with
        | Some st =>
            if is_closed st then
              update_task
                (with_closed_date (default (Concrete today) donedate)) self s
            else s
        | None => s
        end in
      Some (sync s self)
  end.

End TaskOps.

(** * Sample data *)

(** A recurrence parser for the examples: the terms [day] and [week] on a
    calendar day. *)
Definition sample_parse (d : Date) (term : string) (newtask : bool)
    : option Date :=
  match d with
  | Concrete day =>
      if bool_decide (term = "day") then Some (Concrete (day + 1))
      else if bool_decide (term = "week") then Some (Concrete (day + 7))
      else None
  | _ => None
  end.

Definition sample_task (id : string) (st : Status) (due : Date)
    (ps cs : list string) : Task :=
  mkTask id id id EmptyString st NoDate NoDate due NoDate false [] true false
    [] (StampTime 0) false None (StampDate NoDate) ps cs.

Definition store_of (l : list Task) : State :=
  mkState (list_to_map (map (λ t, (tid t, t)) l)) ∅ [].

Definition fresh_store : State := store_of [init_task 0 0 "t"].


Definition five_lines : string :=
  "one" +:+ PyStr.nl +:+ PyStr.nl +:+ "two" +:+ PyStr.nl +:+ "three"
  +:+ PyStr.nl +:+ "four" +:+ PyStr.nl +:+ "five".

(** * Relations between stores *)

(** Every task of [s] is still in [s'], and related to what it was by [R]. *)
Definition preserves (R : Task → Task → Prop) (s s' : State) : Prop :=
  ∀ id t, get_task s id = Some t →
    ∃ t', get_task s' id = Some t' ∧ R t t'.

(** A task that is not recurring stays so. *)
Definition stays_off (t t' : Task) : Prop :=
  recurring t = false → recurring t' = false.

(** * Recurrence and due-date relations *)

(** [advance_n parse term n d]: [d] advanced [n] times with
    [parse_from_date(term, newtask=False)]. *)
Fixpoint advance_n (parse : Date → string → bool → option Date)
    (term : string) (n : nat) (d : Date) : option Date :=
  match n with
  | O => Some d
  | S k => d' ← parse d term false; advance_n parse term k d'
  end.

(** [r] is the first date, among those reached from [d] in one step or
    more, on which [cond] fails. *)
Definition first_advance (parse : Date → string → bool → option Date)
    (term : string) (cond : Date → bool) (d r : Date) : Prop :=
  ∃ n, 1 ≤ n ∧ advance_n parse term n d = Some r ∧ cond r = false ∧
       ∀ k d', 1 ≤ k < n → advance_n parse term k d = Some d' →
               cond d' = true.

Definition task_due_in (day : Z) (term : string) : Task :=
  with_recurring_term (Some term) (with_recurring true
    (sample_task "t" STA_ACTIVE (Concrete day) [] [])).

(** * Sample tasks for the tag methods *)

Definition task_with_content (c : string) (tgs : list string) : Task :=
  with_tags tgs (with_content c (sample_task "t" STA_ACTIVE NoDate [] [])).

(** * Relations for the tag methods *)

(** What [tag_added name] may do to a task: append [name] to tags that
    lack it; the content stays. *)
Definition tag_step (name : string) (t t' : Task) : Prop :=
  content t' = content t ∧
  (tags t' = tags t ∨ ((name ∉ tags t) ∧ tags t' = tags t ++ [name])).

(** What [remove_tag name] may do to a task: strip the content and remove
    the tag, any number of times. *)
Definition untag_step (name : string) (t t' : Task) : Prop :=
  (∃ n, content t' =
        Nat.iter n (λ c, _strip_tag c name EmptyString) (content t)) ∧
  (∃ m, tags t' = Nat.iter m (remove_first name) (tags t)).

(** The marker and the separator [add_tag] puts before the content [c]. *)
Definition tag_marker (tagname : string) : string :=
  let tagname := PyStr.html_escape tagname in
  if PyStr.startswith tagname "@" then tagname else "@" +:+ tagname.

Definition tag_separator (c : string) : string :=
  if PyStr.is_empty c then EmptyString
  else if PyStr.startswith c "@" then ", "
  else PyStr.nl +:+ PyStr.nl.

(** An observation [p] of a task is kept. *)
Definition same_on {B} (p : Task → B) (t t' : Task) : Prop := p t' = p t.

(** * Relations for the status methods *)

(** The two stores hold the same task ids, and each task is related to what
    it was by [R]. *)
Definition evolves (R : Task → Task → Prop) (s s' : State) : Prop :=
  ∀ id,
    match get_task s id, get_task s' id with
    | Some t, Some t' => R t t'
    | None, None => True
    | _, _ => False
    end.

(** [ancestor s x a]: [a] is reached from [x] by one parent link or more. *)
Inductive ancestor (s : State) : string → string → Prop :=
  | ancestor_parent x t a :
      get_task s x = Some t → a ∈ parents t → ancestor s x a
  | ancestor_step x t p a :
      get_task s x = Some t → p ∈ parents t → ancestor s p a →
      ancestor s x a.

(** [descendant s x d]: [d] is below [x]. [sibling s x y]: another task
    with a parent of [x] among its parents. *)
Definition descendant (s : State) (x d : string) : Prop := ancestor s d x.

Definition sibling (s : State) (x y : string) : Prop :=
  y ≠ x ∧
  ∃ tx ty p, get_task s x = Some tx ∧ get_task s y = Some ty ∧
             p ∈ parents tx ∧ p ∈ parents ty.

(** [bubbles s x a]: the reactivation of [x] reaches [a], through loaded
    tasks that are done or dismissed. *)
Inductive bubbles (s : State) : string → string → Prop :=
  | bubbles_parent x t p tp :
      get_task s x = Some t → loaded t = true →
      is_closed (status t) = true →
      p ∈ parents t →
      get_task s p = Some tp → loaded tp = true →
      is_closed (status tp) = true →
      bubbles s x p
  | bubbles_step x p a : bubbles s x p → bubbles s p a → bubbles s x a.

(** What a reactivation may do to a task: the links and the loaded flag
    stay, the status stays or becomes Active. *)
Definition reactivation_step (t t' : Task) : Prop :=
  parents t' = parents t ∧ children t' = children t ∧
  loaded t' = loaded t ∧
  (status t' = status t ∨ status t' = STA_ACTIVE).

(** Every loaded task whose status changed has no loaded parent left done
    or dismissed. *)
Definition parents_reopened (s0 s : State) : Prop :=
  ∀ x t0 t p tp,
    get_task s0 x = Some t0 → get_task s x = Some t →
    status t ≠ status t0 → loaded t0 = true →
    p ∈ parents t0 → get_task s p = Some tp → loaded tp = true →
    is_closed (status tp) = false.

Definition status_of (s : State) (id : string) : option Status :=
  status <$> get_task s id.

(** A done parent with a done child that is not loaded, and with a done
    child that is. *)
Definition closed_family : State :=
  store_of [
    sample_task "parent" STA_DONE NoDate [] ["cold"; "kid"; "other"];
    with_loaded false (sample_task "cold" STA_DONE NoDate ["parent"] []);
    sample_task "kid" STA_DONE NoDate ["parent"] ["leaf"];
    sample_task "other" STA_DONE NoDate ["parent"] [];
    sample_task "leaf" STA_DONE NoDate ["kid"] []
  ].

(** The status and the closed date of a task are kept. *)
Definition closing_kept (t t' : Task) : Prop :=
  status t' = status t ∧ closed_date t' = closed_date t.

(** [cascades s x d]: the closing of the loaded task [x] reaches [d],
    through children that are Active, going on from those that are
    loaded. *)
Inductive cascades (s : State) : string → string → Prop :=
  | cascades_child x t c tc :
      get_task s x = Some t → loaded t = true →
      c ∈ children t →
      get_task s c = Some tc → is_active (status tc) = true →
      cascades s x c
  | cascades_step x c d : cascades s x c → cascades s c d → cascades s x d.

(** What the closing cascade may do to a task: an Active task gets the
    status [st] and the closed date [cd]. *)
Definition closing_step (st : Status) (cd : Date) (t t' : Task) : Prop :=
  children t' = children t ∧ loaded t' = loaded t ∧
  ((status t' = status t ∧ closed_date t' = closed_date t) ∨
   (status t = STA_ACTIVE ∧ status t' = st ∧ closed_date t' = cd)).

(** Every loaded task whose status changed has no Active child left. *)
Definition children_closed (s0 s : State) : Prop :=
  ∀ x t0 t c tc,
    get_task s0 x = Some t0 → get_task s x = Some t →
    status t ≠ status t0 → loaded t0 = true →
    c ∈ children t0 → get_task s c = Some tc →
    is_active (status tc) = false.

(** The body of the loop over the subtasks in [set_status]. *)
Definition close_child (now today : Z)
    (parse : Date → string → bool → option Date) (fuel : nat) (st : Status)
    (donedate : option Date) (s : State) (c_tid : string) : option State :=
  c ← get_task s c_tid;
  if is_active (status c)
  then set_status now today parse fuel s c_tid (Some st) donedate true false
  else Some s.

(** An Active task over a done task over an Active task, and an Active
    task over an Active task that is not loaded over an Active task. *)
Definition broken_chain : State :=
  store_of [
    sample_task "top" STA_ACTIVE NoDate [] ["mid"; "cold"];
    sample_task "mid" STA_DONE NoDate ["top"] ["low"];
    sample_task "low" STA_ACTIVE NoDate ["mid"] [];
    with_loaded false (sample_task "cold" STA_ACTIVE NoDate ["top"] ["deep"]);
    sample_task "deep" STA_ACTIVE NoDate ["cold"] []
  ].

(** An Active task over two Active tasks, one below the other. *)
Definition open_chain : State :=
  store_of [
    sample_task "top" STA_ACTIVE NoDate [] ["mid"];
    sample_task "mid" STA_ACTIVE NoDate ["top"] ["low"];
    sample_task "low" STA_ACTIVE NoDate ["mid"] []
  ].

(** * Relations for the due-date methods *)

(** [defined_parent s c a]: [a] is an ancestor of [c] with a due date that
    is not fuzzy, reached by parent links through tasks whose due dates are
    fuzzy.  [defined_child s a c] is the same along the child links. *)
Inductive defined_parent (s : State) : string → string → Prop :=
  | defined_parent_here c tc a ta :
      get_task s c = Some tc → a ∈ parents tc →
      get_task s a = Some ta → is_fuzzy (due_date ta) = false →
      defined_parent s c a
  | defined_parent_skip c tc m tm a :
      get_task s c = Some tc → m ∈ parents tc →
      get_task s m = Some tm → is_fuzzy (due_date tm) = true →
      defined_parent s m a →
      defined_parent s c a.

Inductive defined_child (s : State) : string → string → Prop :=
  | defined_child_here a ta c tc :
      get_task s a = Some ta → c ∈ children ta →
      get_task s c = Some tc → is_fuzzy (due_date tc) = false →
      defined_child s a c
  | defined_child_skip a ta m tm c :
      get_task s a = Some ta → m ∈ children ta →
      get_task s m = Some tm → is_fuzzy (due_date tm) = true →
      defined_child s m c →
      defined_child s a c.

(** The parent and the child links say the same. *)
Definition links_ok (s : State) : Prop :=
  (∀ c tc p, get_task s c = Some tc → p ∈ parents tc →
             ∃ tp, get_task s p = Some tp ∧ c ∈ children tp) ∧
  (∀ p tp c, get_task s p = Some tp → c ∈ children tp →
             ∃ tc, get_task s c = Some tc ∧ p ∈ parents tc).

(** [c], with a due date that is not fuzzy, is due later than its defined
    ancestor [a]. *)
Definition due_violation (s : State) (c a : string) : Prop :=
  defined_parent s c a ∧
  ∃ tc ta, get_task s c = Some tc ∧ get_task s a = Some ta ∧
           is_fuzzy (due_date tc) = false ∧
           date_ltb (due_date ta) (due_date tc) = true.

Definition due_dates_ok (s : State) : Prop := ∀ c a, ¬ due_violation s c a.

(** What the propagation of the due date [d] may do to a task: the links
    stay; a start date stays or becomes [d]; a due date stays, or becomes
    [d] when it was not fuzzy. *)
Definition due_step (d : Date) (t t' : Task) : Prop :=
  parents t' = parents t ∧ children t' = children t ∧
  (start_date t' = start_date t ∨ start_date t' = d) ∧
  (due_date t' = due_date t ∨
   (due_date t' = d ∧ is_fuzzy (due_date t) = false)).

(** The start date needs no repair under the due date [d]. *)
Definition start_ok (d : Date) (start : Date) : Prop :=
  negb (is_fuzzy start) && date_ltb d start = false.

(** The bodies of the two loops of [set_due_date]. *)
Definition pull_parent (now : Z) (fuel : nat) (d : Date) (s : State)
    (par : string) : option State :=
  p ← get_task s par;
  if date_ltb (due_date p) d then set_due_date now fuel s par d else Some s.

Definition pull_child (now : Z) (fuel : nat) (d : Date) (s : State)
    (sub : string) : option State :=
  c ← get_task s sub;
  s ← (if date_ltb d (due_date c) then set_due_date now fuel s sub d
       else Some s);
  c ← get_task s sub;
  if negb (is_fuzzy (start_date c)) && date_ltb d (start_date c)
  then Some (set_start_date now s sub d)
  else Some s.

(** Boolean checks of [links_ok] and [due_dates_ok], for stores given
    explicitly. *)
Definition links_ok_b (s : State) : bool :=
  forallb (λ '(id, t),
    forallb (λ p, match get_task s p with
                  | Some tp => bool_decide (id ∈ children tp)
                  | None => false
                  end) (parents t) &&
    forallb (λ c, match get_task s c with
                  | Some tc => bool_decide (id ∈ parents tc)
                  | None => false
                  end) (children t)) (map_to_list (tasks s)).

Definition due_dates_ok_b (fuel : nat) (s : State) : bool :=
  forallb (λ '(id, t),
    is_fuzzy (due_date t) ||
    match get_defined_parent_list fuel s id with
    | Some pars =>
        forallb (λ a, match get_task s a with
                      | Some ta => negb (date_ltb (due_date ta) (due_date t))
                      | None => false
                      end) pars
    | None => false
    end) (map_to_list (tasks s)).

(** The example of the specification: a grandparent due on day 5, a parent
    with a fuzzy due date, a child due on day 3. *)
Definition three_generations : State :=
  store_of [
    sample_task "grandparent" STA_ACTIVE (Concrete 5) [] ["parent"];
    sample_task "parent" STA_ACTIVE (Fuzzy Someday) ["grandparent"] ["child"];
    sample_task "child" STA_ACTIVE (Concrete 3) ["parent"] []
  ].

Definition due_of (s : State) (id : string) : option Date :=
  due_date <$> get_task s id.

(** [fuzzy_descent s a x]: [x] is reached from [a] by child links, through
    tasks whose due dates are fuzzy. *)
Inductive fuzzy_descent (s : State) : string → string → Prop :=
  | fuzzy_descent_child a ta x :
      get_task s a = Some ta → x ∈ children ta → fuzzy_descent s a x
  | fuzzy_descent_step a m tm x :
      fuzzy_descent s a m →
      get_task s m = Some tm → is_fuzzy (due_date tm) = true →
      x ∈ children tm →
      fuzzy_descent s a x.

(** What a call of [set_due_date] with the date [d] does to the violations
    of the constraint: it leaves none at the task itself and brings none
    about. *)
Definition repairs (now : Z) (d : Date) (fuel : nat) : Prop :=
  ∀ s self s',
    links_ok s → set_due_date now fuel s self d = Some s' →
    ∀ c a, due_violation s' c a →
           due_violation (update_task (with_due_date d) self s) c a
           ∧ c ≠ self ∧ a ≠ self.

(** * Observations for the frame properties *)

(** Everything of a task but its start and due dates and its time stamp. *)
Definition but_dates (t : Task) :=
  (tid t, uuid t, title t, content t, status t, added_date t, closed_date t,
   can_be_deleted t, tags t, loaded t, sync_disabled t, attributes t,
   recurring t, recurring_term t, recurring_updated_date t, parents t,
   children t).

(** Everything of a task but its time stamp. *)
Definition but_stamp (t : Task) :=
  (but_dates t, start_date t, due_date t).

(** Only [TreeNode.modified()] notifications. *)
Definition is_modified (e : Event) : bool :=
  match e with Modified _ => true | _ => false end.

(** A parent due on day 10 with a child due on day 8 that starts on day 7. *)
Definition parent_and_child : State :=
  store_of [
    sample_task "p" STA_ACTIVE (Concrete 10) [] ["c"];
    with_start_date (Concrete 7)
      (sample_task "c" STA_ACTIVE (Concrete 8) ["p"] [])
  ].

(** * The due date getters *)

(** A [for x in l: ...] loop that updates a local variable and may fail. *)
Fixpoint fold_each {A B} (body : B → A → option B) (l : list A) (acc : B)
    : option B :=
  match l with
  | [] => Some acc
  | x :: l' => acc' ← body acc x; fold_each body l' acc'
  end.

(** [get_due_date_constraint] *)
Fixpoint get_due_date_constraint (fuel : nat) (s : State) (self : string)
    : option Date :=
  match fuel with
  | O => None
  | S fuel' =>
      t ← get_task s self;
      let strongest_const_date := due_date t in
      if is_fuzzy strongest_const_date then
        fold_each (λ strongest_const_date par_id,
          par ← get_task s par_id;
          let par_duedate := due_date par in
          par_duedate ← (if is_fuzzy par_duedate
                         then get_due_date_constraint fuel' s par_id
                         else Some par_duedate);
          if is_fuzzy par_duedate then Some strongest_const_date
          else if is_fuzzy strongest_const_date then Some par_duedate
          else if date_ltb par_duedate strongest_const_date
               then Some par_duedate
               else Some strongest_const_date)
          (parents t) strongest_const_date
      else Some strongest_const_date
  end.

(** [min(a, b)] on dates: [b] when it is earlier, else [a]. *)
Definition date_min (a b : Date) : Date := if date_ltb b a then b else a.

(** [get_urgent_date] *)
Fixpoint get_urgent_date (fuel : nat) (s : State) (self : string)
    : option Date :=
  match fuel with
  | O => None
  | S fuel' =>
      t ← get_task s self;
      fold_each (λ urgent_date sub_id,
        subtask ← get_task s sub_id;
        if bool_decide (status subtask = STA_ACTIVE) then
          u ← get_urgent_date fuel' s sub_id;
          Some (date_min urgent_date u)
        else Some urgent_date) (children t) (due_date t)
  end.

(** [defined_from s p a]: the parent [p] leads to the defined ancestor
    [a]: it is [a], or its due date is fuzzy and [a] is one of its defined
    ancestors. *)
Definition defined_from (s : State) (p a : string) : Prop :=
  ∃ tp, get_task s p = Some tp ∧
        if is_fuzzy (due_date tp) then defined_parent s p a else a = p.

(** [active_below s x d]: [d] is reached from [x] by child links through
    Active tasks, and is Active. *)
Inductive active_below (s : State) : string → string → Prop :=
  | active_below_child x t c tc :
      get_task s x = Some t → c ∈ children t →
      get_task s c = Some tc → status tc = STA_ACTIVE →
      active_below s x c
  | active_below_step x t c tc d :
      get_task s x = Some t → c ∈ children t →
      get_task s c = Some tc → status tc = STA_ACTIVE →
      active_below s c d →
      active_below s x d.

(** A fuzzy parent below two grandparents due on days 5 and 3. *)
Definition two_grandparents : State :=
  store_of [
    sample_task "g1" STA_ACTIVE (Concrete 5) [] ["p"];
    sample_task "g2" STA_ACTIVE (Concrete 3) [] ["p"];
    sample_task "p" STA_ACTIVE (Fuzzy Soon) ["g1"; "g2"] ["c"];
    sample_task "c" STA_ACTIVE NoDate ["p"] []
  ].

(** A task due on day 9 with an Active child due on day 4 and a done child
    due on day 2. *)
Definition urgent_family : State :=
  store_of [
    sample_task "top" STA_ACTIVE (Concrete 9) [] ["a"; "b"];
    sample_task "a" STA_ACTIVE (Concrete 4) ["top"] [];
    sample_task "b" STA_DONE (Concrete 2) ["top"] []
  ].

(** The loop of [get_due_date_constraint] keeps the earliest due date found
    so far. *)
Definition constraint_so_far (s : State) (own acc : Date) (l : list string)
    : Prop :=
  (∀ p a ta, p ∈ l → defined_from s p a → get_task s a = Some ta →
             date_leb acc (due_date ta) = true) ∧
  ((is_fuzzy acc = false ∧
    ∃ p a ta, p ∈ l ∧ defined_from s p a ∧ get_task s a = Some ta
              ∧ acc = due_date ta) ∨
   (acc = own ∧ ∀ p a, p ∈ l → ¬ defined_from s p a)).

(** [r] is the constraint on a task with the fuzzy due date [own]: the
    earliest due date among its defined ancestors, or [own] when it has
    none. *)
Definition is_constraint (s : State) (self : string) (own r : Date) : Prop :=
  (∀ a ta, defined_parent s self a → get_task s a = Some ta →
           date_leb r (due_date ta) = true) ∧
  ((∃ a ta, defined_parent s self a ∧ get_task s a = Some ta
            ∧ r = due_date ta) ∨
   (r = own ∧ ∀ a, ¬ defined_parent s self a)).

(** [active_from s c d]: the child [c] is Active and [d] is [c] or below
    it. *)
Definition active_from (s : State) (c d : string) : Prop :=
  ∃ tc, get_task s c = Some tc ∧ status tc = STA_ACTIVE ∧
        (d = c ∨ active_below s c d).

(** No date of [l], a list of ids with what they lead to, is earlier than
    [acc], and [acc] is [own] or one of those dates. *)
Definition urgent_so_far (s : State) (own acc : Date) (l : list string)
    : Prop :=
  date_ltb own acc = false ∧
  (∀ c d td, c ∈ l → active_from s c d → get_task s d = Some td →
             date_ltb (due_date td) acc = false) ∧
  (acc = own ∨
   ∃ c d td, c ∈ l ∧ active_from s c d ∧ get_task s d = Some td
             ∧ acc = due_date td).

(** [r] is the most urgent date of the task [self] due on [own]: no due
    date of the task or of an Active task below it is earlier, and it is
    one of them. *)
Definition is_urgent_date (s : State) (self : string) (own r : Date)
    : Prop :=
  date_ltb own r = false ∧
  (∀ d td, active_below s self d → get_task s d = Some td →
           date_ltb (due_date td) r = false) ∧
  (r = own ∨
   ∃ d td, active_below s self d ∧ get_task s d = Some td
           ∧ r = due_date td).

(** * Synchronisation contexts and attributes *)

Definition with_sync_disabled (v : bool) (t : Task) : Task :=
  mkTask (tid t) (uuid t) (title t) (content t) (status t) (added_date t)
    (closed_date t) (due_date t) (start_date t) (can_be_deleted t) (tags t)
    (loaded t) v (attributes t) (last_modified t) (recurring t)
    (recurring_term t) (recurring_updated_date t) (parents t) (children t).

Definition with_attributes (v : list (string * string * string)) (t : Task)
    : Task :=
  mkTask (tid t) (uuid t) (title t) (content t) (status t) (added_date t)
    (closed_date t) (due_date t) (start_date t) (can_be_deleted t) (tags t)
    (loaded t) (sync_disabled t) v (last_modified t) (recurring t)
    (recurring_term t) (recurring_updated_date t) (parents t) (children t).

(** [DisabledSyncCtx.__enter__] and [__exit__] *)
Definition DisabledSyncCtx_enter (s : State) (task : string) : State :=
  update_task (with_sync_disabled true) task s.

Definition DisabledSyncCtx_exit (now : Z) (sync_on_exit : bool) (s : State)
    (task : string) : State :=
  let s := update_task (with_sync_disabled false) task s in
  if sync_on_exit then sync now s task else s.

(** Calls a [with DisabledSyncCtx(task):] block may make on its task. *)
Inductive edit :=
  | Edit_title (title : string)
  | Edit_start_date (d : Date)
  | Edit_closed_date (d : Date).

Definition run_edit (now : Z) (task : string) (s : State) (e : edit)
    : State :=
  match e with
  | Edit_title x => set_title now s task x
  | Edit_start_date d => set_start_date now s task d
  | Edit_closed_date d => set_closed_date now s task d
  end.

(** [with DisabledSyncCtx(task, sync_on_exit): edits] *)
Definition with_disabled_sync (now : Z) (sync_on_exit : bool)
    (edits : list edit) (s : State) (task : string) : State :=
  DisabledSyncCtx_exit now sync_on_exit
    (fold_left (run_edit now task) edits (DisabledSyncCtx_enter s task)) task.

(** [d[k] = v] and [d.get(k, None)] on a [dict] kept as the list of its
    items, in insertion order. *)
Fixpoint dict_set {K V} `{EqDecision K} (k : K) (v : V) (l : list (K * V))
    : list (K * V) :=
  match l with
  | [] => [(k, v)]
  | (k', v') :: l' =>
      if decide (k' = k) then (k, v) :: l' else (k', v') :: dict_set k v l'
  end.

Fixpoint dict_get {K V} `{EqDecision K} (k : K) (l : list (K * V))
    : option V :=
  match l with
  | [] => None
  | (k', v') :: l' => if decide (k' = k) then Some v' else dict_get k l'
  end.

(** [set_attribute(att_name, att_value, namespace)]: the value is given as
    the string [str(att_value)]. *)
Definition set_attribute (now : Z) (s : State) (self : string)
    (att_name att_value namespace : string) : State :=
  sync now
    (update_task
       (λ t, with_attributes
               (dict_set (namespace, att_name) att_value (attributes t)) t)
       self s) self.

Definition get_attribute (t : Task) (att_name namespace : string)
    : option string :=
  dict_get (namespace, att_name) (attributes t).

(** * Status *)

(** Everything of a task but its status, its [can_be_deleted] flag and its
    time stamp. *)
Definition but_status (t : Task) :=
  (tid t, uuid t, title t, content t, added_date t, closed_date t,
   due_date t, start_date t, tags t, loaded t, sync_disabled t,
   attributes t, recurring t, recurring_term t, recurring_updated_date t,
   parents t, children t).

(** [toggle_status] *)
Definition toggle_status (now today : Z)
    (parse_from_date : Date → string → bool → option Date) (fuel : nat)
    (s : State) (self : string) : option State :=
  t ← get_task s self;
  if is_closed (status t)
  then set_status now today parse_from_date fuel s self (Some STA_ACTIVE)
         None false false
  else set_status now today parse_from_date fuel s self (Some STA_DONE)
         None false false.

(** * Recurrence *)

(** [toggle_recurring] *)
Definition toggle_recurring (now today : Z)
    (parse_from_date : Date → string → bool → option Date) (fuel : nat)
    (s : State) (self : string) : option State :=
  t ← get_task s self;
  let '(s, newtask) :=
    match recurring_term t with
    | None => (update_task (with_recurring_term (Some "day")) self s, true)
    | Some _ => (s, false)
    end in
  me ← get_task s self;
  set_recurring now today parse_from_date fuel s self (negb (recurring me))
    (recurring_term me) newtask.

(** What [set_recurring] reads and writes on a task, with the children it
    goes on to. *)
Definition recurrence_of (t : Task) :=
  (recurring t, recurring_term t, children t).

(** A recurring task due on day 3, with no start date and no term yet. *)
Definition lone_task : State :=
  store_of [sample_task "t" STA_ACTIVE (Concrete 3) [] []].

(** * Samples and counts for the tag and text properties *)

(** A loaded task tagged [work] with a new subtask. *)
Definition tagged_family : State :=
  store_of [
    with_tags ["work"]
      (with_content "@work" (sample_task "p" STA_ACTIVE NoDate [] ["c"]));
    with_can_be_deleted true (sample_task "c" STA_ACTIVE NoDate ["p"] [])
  ].

(** The number of line feeds of a string. *)
Fixpoint count_LF (s : string) : nat :=
  match s with
  | EmptyString => 0
  | String c s' =>
      (if Nat.eqb (nat_of_ascii c) 10 then 1 else 0) + count_LF s'
  end.

(** The child links of [s] lead to tasks of [s], down the [rank]. *)
Definition ranked_children (rank : string → nat) (s : State) : Prop :=
  ∀ x t c, get_task s x = Some t → c ∈ children t →
           is_Some (get_task s c) ∧ rank c < rank x.

Definition ranked_children_b (rank : string → nat) (s : State) : bool :=
  forallb (λ '(x, t),
    forallb (λ c, match get_task s c with
                  | Some _ => rank c <? rank x
                  | None => false
                  end) (children t)) (map_to_list (tasks s)).

(** A rank for the tasks of [three_generations]. *)
Definition generation (x : string) : nat :=
  if bool_decide (x = "grandparent") then 2
  else if bool_decide (x = "parent") then 1 else 0.

(** * Duplicating a task *)

(** The title [set_title] stores for the argument [x]. *)
Definition clean_title (x : string) : string :=
  if PyStr.is_empty x then "(no title task)"
  else PyStr.strip_chars [ascii_of_nat 9; ascii_of_nat 10] x.

(** What the steps of [duplicate] after the creation leave alone on the
    copy. *)
Definition copy_frame (t : Task) :=
  (status t, parents t, children t, loaded t, can_be_deleted t).

(** A recurring task due on day 3 that repeats every day, titled, tagged
    and with a text. *)
Definition daily_task : State :=
  store_of [
    with_tags ["work"] (with_content "@work" (task_due_in 3 "day"))
  ].

(** Everything of a task but its recurrence, its start and due dates and
    its time stamp. *)
Definition but_recurrence (t : Task) :=
  (tid t, uuid t, title t, content t, status t, added_date t, closed_date t,
   can_be_deleted t, tags t, loaded t, sync_disabled t, attributes t,
   parents t, children t).

(** * More tag methods *)

(** [xml.sax.saxutils.unescape] *)
Definition sax_unescape (s : string) : string :=
  PyStr.replace (PyStr.replace (PyStr.replace s "&lt;" "<") "&gt;" ">")
    "&amp;" "&".

(** [rename_tag]: [oldt.modified()] and [get_tag(new).modified()] fail on a
    name the registry does not hold. *)
Definition rename_tag (now : Z) (fuel : nat) (s : State) (self : string)
    (old new : string) : option State :=
  _ ← get_task s self;
  let eold := PyStr.sax_escape (sax_unescape old) in
  let enew := PyStr.sax_escape (sax_unescape new) in
  let s := update_task
             (λ t, with_content (PyStr.replace (content t) eold enew) t)
             self s in
  let oldt := bool_decide (old ∈ tag_registry s) in
  s ← remove_tag fuel s self old;
  if negb oldt then None
  else
    let s := emit (TagModified old) s in
    '(s, _) ← tag_added fuel s self new;
    if bool_decide (new ∈ tag_registry s)
    then Some (sync now (emit (TagModified new) s) self)
    else None.

Section Tag_tree.

(** [tag.get_children()]: the child names of a tag of the registry, which
    is not part of the task code. *)
Variable tag_children : string → list string.

(** The inner [children_tag] of [has_tags]. *)
Fixpoint children_tag (fuel : nat) (s : State) (t : Task) (tagname : string)
    : option bool :=
  match fuel with
  | O => None
  | S fuel' =>
      if bool_decide (tagname ∈ tags t) then Some true
      else if bool_decide (tagname ∈ tag_registry s) then
        fold_each (λ toreturn tagc_name,
          if negb toreturn then children_tag fuel' s t tagc_name
          else Some toreturn) (tag_children tagname) false
      else Some false
  end.

(** [has_tags(tag_list, notag_only)]: [tag_list = None] is the default. *)
Definition has_tags (fuel : nat) (s : State) (t : Task)
    (tag_list : option (list string)) (notag_only : bool) : option bool :=
  if notag_only then Some (bool_decide (tags t = []))
  else
    match tag_list with
    | None | Some [] => Some true
    | Some l =>
        fold_each (λ toreturn tagname,
          if negb toreturn then children_tag fuel s t tagname
          else Some toreturn) l false
    end.

(** [tag_reaches s t x]: the name [x] is a tag of the task, or a tag of
    the registry with a child that reaches one. *)
Inductive tag_reaches (s : State) (t : Task) : string → Prop :=
  | tag_reaches_here x : x ∈ tags t → tag_reaches s t x
  | tag_reaches_child x c :
      x ∈ tag_registry s → c ∈ tag_children x → tag_reaches s t c →
      tag_reaches s t x.

End Tag_tree.

(** A task tagged [a] and [b]. *)
Definition two_tags : State :=
  store_of [task_with_content "@a, @b" ["a"; "b"]].

(** A registry that holds the tag [a], for the task of [two_tags]. *)
Definition two_tags_registered : State :=
  mkState (tasks two_tags) {["a"]} [].

(** A tag tree: [project] has the child [work]. *)
Definition sample_tag_children (x : string) : list string :=
  if bool_decide (x = "project") then ["work"] else [].

Definition project_registry : State :=
  mkState (tasks tagged_family) {["project"]} [].

(** * Adding a subtask *)

(** Everything of a task but its tags, its text and its time stamp. *)
Definition but_tags (t : Task) :=
  (tid t, uuid t, title t, status t, added_date t, closed_date t,
   due_date t, start_date t, can_be_deleted t, loaded t, sync_disabled t,
   attributes t, recurring t, recurring_term t, recurring_updated_date t,
   parents t, children t).

(** The dates and the links of a task. *)
Definition dates_and_links (t : Task) :=
  (start_date t, due_date t, parents t, children t).

(** [new_subtask]: the new task is the one the task lookup makes. *)
Definition new_subtask (now today : Z)
    (parse_from_date : Date → string → bool → option Date) (fuel : nat)
    (s : State) (self : string) : option (State * string) :=
  '(s, subt) ← new_task now today parse_from_date fuel s;
  s ← add_child now today parse_from_date fuel s self subt;
  Some (s, subt).

(** A loaded task tagged [work] that starts on day 2 and is due on day 9,
    and a new task. *)
Definition parent_and_new : State :=
  store_of [
    with_tags ["work"]
      (with_start_date (Concrete 2)
         (sample_task "p" STA_ACTIVE (Concrete 9) [] []));
    with_can_be_deleted true (sample_task "n" STA_ACTIVE NoDate [] [])
  ].

(** While [add_child] works on the new subtask [c] of [self]: the other
    tasks are those of [s0]; [c] has the dates [start] and [due], the
    parent [self], no child, and the tags of [T]. *)
Definition subtask_state (s0 sx : State) (c self : string)
    (start due : Date) (T : list string) : Prop :=
  (∀ x, x ≠ c → get_task sx x = get_task s0 x) ∧
  ∃ tcx, get_task sx c = Some tcx ∧
         dates_and_links tcx = (start, due, [self], []) ∧
         ∀ y, y ∈ tags tcx ↔ y ∈ T.

(** * Stores on which the getters return *)

(** The parent links of [s] lead to tasks of [s], down the [rank]. *)
Definition ranked_parents (rank : string → nat) (s : State) : Prop :=
  ∀ x t p, get_task s x = Some t → p ∈ parents t →
           is_Some (get_task s p) ∧ rank p < rank x.

Definition ranked_parents_b (rank : string → nat) (s : State) : bool :=
  forallb (λ '(x, t),
    forallb (λ p, match get_task s p with
                  | Some _ => rank p <? rank x
                  | None => false
                  end) (parents t)) (map_to_list (tasks s)).

(** A rank for the tasks of [two_grandparents], and one for those of
    [urgent_family]. *)
Definition grandparents_rank (x : string) : nat :=
  if bool_decide (x = "c") then 2
  else if bool_decide (x = "p") then 1 else 0.

Definition family_rank (x : string) : nat :=
  if bool_decide (x = "top") then 1 else 0.

(** The children of the tags of the registry go down the [rank]. *)
Definition ranked_tags (tag_children : string → list string)
    (rank : string → nat) (s : State) : Prop :=
  ∀ x c, x ∈ tag_registry s → c ∈ tag_children x → rank c < rank x.

(** A rank for the tags of [sample_tag_children]. *)
Definition tag_rank (x : string) : nat :=
  if bool_decide (x = "project") then 1 else 0.

(** A task due some day that recurs every day, and a parser that knows
    the term [day] on every date. *)
Definition task_due_someday : Task :=
  with_recurring_term (Some "day") (with_recurring true
    (sample_task "t" STA_ACTIVE (Fuzzy Someday) [] [])).

Definition daily_parse (d : Date) (term : string) (newtask : bool)
    : option Date :=
  if bool_decide (term = "day") then
    match d with
    | Concrete day => Some (Concrete (day + 1))
    | _ => Some (Concrete 0)
    end
  else None.

(** * What the closing cascade leaves alone *)

(** The tasks the closing of [self] does not reach have in [sx] the status
    and the closed date they had in [s0]. *)
Definition outside_kept (s0 : State) (self : string) (sx : State) : Prop :=
  ∀ y ty, ¬ cascades s0 self y → get_task s0 y = Some ty →
          ∃ ty', get_task sx y = Some ty' ∧ closing_kept ty ty'.

(** An Active task over an Active task and a done task, both over the
    same Active task; an Active task beside them. *)
Definition two_paths : State :=
  store_of [
    sample_task "top" STA_ACTIVE NoDate [] ["a"; "mid"];
    sample_task "a" STA_ACTIVE NoDate ["top"] ["low"];
    sample_task "mid" STA_DONE NoDate ["top"] ["low"; "under"];
    sample_task "low" STA_ACTIVE NoDate ["a"; "mid"] [];
    sample_task "under" STA_ACTIVE NoDate ["mid"] [];
    sample_task "aside" STA_ACTIVE NoDate [] []
  ].

(** * Markers that the stripping can rebuild *)




(** * Properties *)

(** ** Python strings *)

Example replace_ex1 : PyStr.replace "a, b, a" "a" "xy" = "xy, b, xy".
Proof. reflexivity. Qed.
Example replace_ex2 : PyStr.replace "aaa" "aa" "b" = "ba".
Proof. reflexivity. Qed.
Example replace_ex3 : PyStr.replace "ab" EmptyString "-" = "-a-b-".
Proof. reflexivity. Qed.
Example splitlines_ex :
  PyStr.splitlines ("a" +:+ PyStr.nl +:+ PyStr.nl +:+ "b" +:+ PyStr.nl) = ["a"; EmptyString; "b"].
Proof. reflexivity. Qed.
Example sub_markers_ex :
  PyStr.sub_subtask_markers ("x{!ab!}y{!c!}z" +:+ PyStr.nl +:+ "u{!!}v{!w!}")
  = "xz" +:+ PyStr.nl +:+ "u".
Proof. reflexivity. Qed.
Example sub_markers_ex2 : PyStr.sub_subtask_markers "a{!!}b{!x" = "a{!!}b{!x".
Proof. reflexivity. Qed.
Example strip_ex : PyStr.strip "  a b  " = "a b".
Proof. reflexivity. Qed.

(** ** The store *)

Lemma get_task_update_eq f self s :
  get_task (update_task f self s) self = f <$> get_task s self.
Proof.
  unfold get_task, update_task; simpl. rewrite lookup_alter.
  by rewrite decide_True.
Qed.

Lemma get_task_update_ne f self id s :
  self ≠ id → get_task (update_task f self s) id = get_task s id.
Proof.
  intros Hne. unfold get_task, update_task; simpl.
  by rewrite lookup_alter_ne.
Qed.

Lemma get_task_update f self id s :
  get_task (update_task f self s) id =
  if decide (self = id) then f <$> get_task s id else get_task s id.
Proof.
  case_decide as Heq.
  - subst. apply get_task_update_eq.
  - by apply get_task_update_ne.
Qed.

Lemma get_task_emit e s id : get_task (emit e s) id = get_task s id.
Proof. reflexivity. Qed.

Lemma update_task_id f self s :
  (∀ t, get_task s self = Some t → f t = t) → update_task f self s = s.
Proof.
  intros Hf. destruct s as [m r ev]. unfold update_task; simpl. f_equal.
  apply map_eq. intros i. rewrite lookup_alter. case_decide; [|done].
  subst i. unfold get_task in Hf; simpl in Hf.
  destruct (m !! self) as [t|] eqn:Ht; [|done]. simpl. by rewrite Hf.
Qed.

Lemma events_update f self s : events (update_task f self s) = events s.
Proof. reflexivity. Qed.

(** [sync] changes at most the [last_modified] stamp of [self]. *)
Lemma get_task_sync now s self id :
  get_task (sync now s self) id = get_task s id ∨
  (id = self ∧
   get_task (sync now s self) id =
   with_last_modified (StampTime now) <$> get_task s id).
Proof.
  unfold sync. destruct (get_task s self) as [t|] eqn:Ht; [|by left].
  destruct (sync_disabled t); [by left|].
  destruct (decide (self = id)) as [->|Hne].
  - right. split; [done|].
    destruct (loaded t); rewrite ?get_task_emit; apply get_task_update_eq.
  - left.
    destruct (loaded t); rewrite ?get_task_emit; by apply get_task_update_ne.
Qed.

(** Any observation [p] of a task that does not read [last_modified]
    survives a [sync]. *)
Lemma get_task_sync_field {B} (p : Task → B) now s self id :
  (∀ v t, p (with_last_modified v t) = p t) →
  p <$> get_task (sync now s self) id = p <$> get_task s id.
Proof.
  intros Hp. destruct (get_task_sync now s self id) as [->|[_ ->]]; [done|].
  destruct (get_task s id); simpl; [|done]. by rewrite Hp.
Qed.

Lemma for_each_app {A} (body : State → A → option State) l1 l2 s :
  for_each body (l1 ++ l2) s = (s' ← for_each body l1 s; for_each body l2 s').
Proof.
  revert s. induction l1 as [|x l1 IH]; intros s; simpl; [done|].
  destruct (body s x); simpl; [apply IH|done].
Qed.

(** A loop keeps what each run of its body keeps. *)
Lemma for_each_invariant {A} (I : State → Prop)
    (body : State → A → option State) l s s' :
  (∀ s x s', x ∈ l → I s → body s x = Some s' → I s') →
  I s → for_each body l s = Some s' → I s'.
Proof.
  revert s. induction l as [|x l IH]; intros s Hbody HI Hrun; simpl in Hrun.
  - by simplify_eq.
  - destruct (body s x) as [s1|] eqn:Hx; simpl in Hrun; [|done].
    apply (IH s1); [|by eapply Hbody; [left|..]|done].
    intros s2 y s3 Hy. apply Hbody. by right.
Qed.

(** ** Setting no status *)

Section Status_none.
Context (now today : Z) (parse : Date → string → bool → option Date).

Lemma set_status_none_eq fuel s self t donedate propagation init :
  get_task s self = Some t →
  set_status now today parse (S fuel) s self None donedate propagation init
  = Some (sync now (update_task (with_can_be_deleted false) self s) self).
Proof.
  intros Ht. simpl. rewrite Ht. simpl.
  rewrite get_task_update_eq, Ht. done.
Qed.
End Status_none.

Lemma sync_other now s self id :
  id ≠ self → get_task (sync now s self) id = get_task s id.
Proof.
  intros Hne. by destruct (get_task_sync now s self id) as [?|[? _]].
Qed.

Lemma sync_self now s self t :
  get_task s self = Some t →
  get_task (sync now s self) self =
  Some (if sync_disabled t then t else with_last_modified (StampTime now) t).
Proof.
  intros Ht. unfold sync. rewrite Ht. destruct (sync_disabled t); [done|].
  destruct (loaded t); rewrite ?get_task_emit, get_task_update_eq, Ht; done.
Qed.

Lemma sync_events now s self t :
  get_task s self = Some t →
  events (sync now s self) =
  if negb (sync_disabled t) && loaded t then Modified self :: events s
  else events s.
Proof.
  intros Ht. unfold sync. rewrite Ht.
  by destruct (sync_disabled t), (loaded t).
Qed.

Lemma sync_registry now s self : tag_registry (sync now s self) = tag_registry s.
Proof.
  unfold sync. destruct (get_task s self) as [t|]; [|done].
  by destruct (sync_disabled t), (loaded t).
Qed.

(** C7 (amended): [set_status] with no status returns on every task of the
    store; it sets [can_be_deleted] to false and runs the sync step, which
    stamps [last_modified] unless sync is disabled and sends one
    notification when the task is loaded.  Every other field of the task,
    its status and closed date among them, every other task and the tag
    registry are left as they were: no child is visited and no closing
    date is written. *)
Theorem set_status_none_frame now today parse fuel s self t donedate
    propagation init :
  get_task s self = Some t →
  ∃ s',
    set_status now today parse (S fuel) s self None donedate propagation init
    = Some s' ∧
    get_task s' self =
      Some (let t1 := with_can_be_deleted false t in
            if sync_disabled t then t1
            else with_last_modified (StampTime now) t1) ∧
    (∀ id, id ≠ self → get_task s' id = get_task s id) ∧
    tag_registry s' = tag_registry s ∧
    events s' =
      (if negb (sync_disabled t) && loaded t then Modified self :: events s
       else events s).
Proof.
  intros Ht. eexists. split; [by eapply set_status_none_eq|].
  assert (get_task (update_task (with_can_be_deleted false) self s) self
          = Some (with_can_be_deleted false t)) as Ht1.
  { by rewrite get_task_update_eq, Ht. }
  split; [|split; [|split]].
  - by rewrite (sync_self _ _ _ _ Ht1).
  - intros id Hne. rewrite sync_other by done. by rewrite get_task_update_ne.
  - by rewrite sync_registry.
  - by rewrite (sync_events _ _ _ _ Ht1).
Qed.

Lemma set_status_none_frame_witness :
  ∃ s',
    set_status 7 1 sample_parse 1 fresh_store "t" None None false false
    = Some s' ∧
    (status <$> get_task s' "t") = Some STA_ACTIVE ∧
    (closed_date <$> get_task s' "t") = Some NoDate.
Proof.
  destruct (set_status_none_frame 7 1 sample_parse 0 fresh_store "t"
              (init_task 0 0 "t") None false false eq_refl)
    as (s' & Hrun & Hself & _).
  exists s'. split; [exact Hrun|]. rewrite Hself. split; reflexivity.
Defined.

Lemma set_status_none_clears_can_be_deleted :
  ∃ s',
    set_status 7 1 sample_parse 1 fresh_store "t" None None false false
    = Some s' ∧
    (can_be_deleted <$> get_task fresh_store "t") = Some true ∧
    (can_be_deleted <$> get_task s' "t") = Some false.
Proof. eexists. split; [reflexivity|]. split; vm_compute; reflexivity. Qed.

(** ** Excerpts *)

Lemma take_empty n : PyStr.take n EmptyString = EmptyString.
Proof. by destruct n. Qed.

Lemma length_take n s : String.length (PyStr.take n s) ≤ n.
Proof.
  revert s. induction n as [|n IH]; intros [|c s]; simpl; try lia.
  specialize (IH s). lia.
Qed.

(** C6 (what the code does): with [lines = 0], the default, the slice
    [txt[:lines]] keeps no line at all, so [get_excerpt] returns the empty
    string for every task and every [char]; a line count of 0 is not
    "unbounded". *)
Theorem get_excerpt_zero_lines t char strip_tags strip_subtasks :
  get_excerpt t 0 char strip_tags strip_subtasks = EmptyString.
Proof.
  unfold get_excerpt. destruct (PyStr.is_empty (content t)); [done|].
  unfold PyStr.slice_to. simpl. destruct (0 <? char)%Z; [|done].
  apply take_empty.
Qed.

Example get_excerpt_default_lines :
  get_excerpt (with_content five_lines (init_task 0 0 "t")) 0 0 false true
  = EmptyString.
Proof. reflexivity. Qed.

(** The two instances of the claim that do hold: two lines out of five,
    and at most [char] characters. *)
Example get_excerpt_two_lines :
  get_excerpt (with_content five_lines (init_task 0 0 "t")) 2 0 false true
  = "one" +:+ PyStr.nl +:+ "two".
Proof. reflexivity. Qed.

Lemma get_excerpt_char_bound t lines char strip_tags strip_subtasks :
  (0 < char)%Z →
  (Z.of_nat (String.length (get_excerpt t lines char strip_tags strip_subtasks))
   ≤ char)%Z.
Proof.
  intros Hc. unfold get_excerpt.
  destruct (PyStr.is_empty (content t)); [simpl; lia|].
  apply Z.ltb_lt in Hc as Hc'. rewrite Hc'.
  match goal with
  | |- context [PyStr.take ?n ?s] => pose proof (length_take n s)
  end.
  lia.
Qed.

(** ** Relations between stores *)

Section Preserves.
Context (R : Task → Task → Prop) `{!Reflexive R} `{!Transitive R}.

Lemma preserves_refl s : preserves R s s.
Proof. intros id t Ht. by exists t. Qed.

Lemma preserves_trans s1 s2 s3 :
  preserves R s1 s2 → preserves R s2 s3 → preserves R s1 s3.
Proof.
  intros H12 H23 id t Ht.
  destruct (H12 id t Ht) as (t2 & Ht2 & HR2).
  destruct (H23 id t2 Ht2) as (t3 & Ht3 & HR3).
  exists t3. split; [done|]. by etrans.
Qed.

Lemma preserves_update f self s :
  (∀ t, R t (f t)) → preserves R s (update_task f self s).
Proof.
  intros Hf id t Ht. rewrite get_task_update, Ht.
  case_decide; simpl; eauto.
Qed.

Lemma preserves_emit e s : preserves R s (emit e s).
Proof. intros id t Ht. by exists t. Qed.

Lemma preserves_sync now s self :
  (∀ v t, R t (with_last_modified v t)) → preserves R s (sync now s self).
Proof.
  intros Hf id t Ht.
  destruct (get_task_sync now s self id) as [->|[_ ->]]; rewrite Ht; simpl;
    eauto.
Qed.

Lemma preserves_update_r f self s0 s :
  (∀ t, R t (f t)) → preserves R s0 s →
  preserves R s0 (update_task f self s).
Proof.
  intros Hf H0. eapply preserves_trans; [exact H0|].
  by apply preserves_update.
Qed.

Lemma preserves_sync_r now self s0 s :
  (∀ v t, R t (with_last_modified v t)) → preserves R s0 s →
  preserves R s0 (sync now s self).
Proof.
  intros Hf H0. eapply preserves_trans; [exact H0|].
  by apply preserves_sync.
Qed.

Lemma preserves_emit_r e s0 s :
  preserves R s0 s → preserves R s0 (emit e s).
Proof. intros H0 id t Ht. by apply H0. Qed.

Lemma preserves_for_each {A} (body : State → A → option State) l s s' :
  (∀ s x s', x ∈ l → body s x = Some s' → preserves R s s') →
  for_each body l s = Some s' → preserves R s s'.
Proof.
  intros Hbody Hrun.
  apply (for_each_invariant (preserves R s) body l s s'); [|apply preserves_refl|done].
  intros s1 x s2 Hx H1 Hx2. apply (preserves_trans _ _ _ H1).
  exact (Hbody _ _ _ Hx Hx2).
Qed.
End Preserves.

(** Steps through the assignments, syncs and events of a method body;
    [keeps] proves that an assignment respects the relation. *)
Ltac preserves_steps keeps :=
  repeat first
    [ exact _
    | assumption
    | apply preserves_refl
    | apply preserves_update_r
    | apply preserves_sync_r
    | apply preserves_emit_r
    | solve [keeps] ].

#[global] Instance stays_off_refl : Reflexive stays_off.
Proof. intros t Ht. exact Ht. Qed.

#[global] Instance stays_off_trans : Transitive stays_off.
Proof. intros t1 t2 t3 H12 H23 H. by apply H23, H12. Qed.

(** ** Recurrence *)

Section Recurring.
Context (now today : Z) (parse : Date → string → bool → option Date).

Local Arguments is_valid_term : simpl never.

(** Asked to disarm, [set_recurring] arms no task at all: neither the
    task itself, nor a child the call goes on to. *)
Lemma set_recurring_false_stays_off fuel :
  ∀ s self term newtask s',
    set_recurring now today parse fuel s self false term newtask = Some s' →
    preserves stays_off s s' ∧
    ∃ t', get_task s' self = Some t' ∧ recurring t' = false.
Proof.
  induction fuel as [|fuel IH]; intros s self term newtask s' Hrun;
    [done|].
  simpl in Hrun.
  destruct (get_task s self) as [t|] eqn:Ht; simpl in Hrun; [|done].
  destruct (is_valid_term today parse t term newtask) as [valid newdate].
  set (s1 := update_task (with_recurring false) self s) in Hrun.
  assert (∃ s2, preserves stays_off s s2 ∧
            (∃ t2, get_task s2 self = Some t2 ∧ recurring t2 = false) ∧
            (t ← get_task (sync now s2 self) self;
             for_each (λ s0 c_tid,
               child ← get_task s0 c_tid;
               if loaded child && is_active (status child) then
                 me ← get_task s0 self;
                 s1 ← set_recurring now today parse fuel s0 c_tid
                        (recurring me) (recurring_term me) false;
                 me0 ← get_task s1 self;
                 if recurring me0
                 then set_due_date now fuel s1 c_tid (default NoDate newdate)
                 else Some s1
               else Some s0) (children t) (sync now s2 self)) = Some s')
    as (s2 & Hpres2 & (t2 & Ht2 & Hoff2) & Hloop).
  { destruct valid; simpl in Hrun.
    - exists (update_task (with_recurring_updated_date (StampTime now)) self
                (update_task (with_recurring_term term) self s1)).
      split; [|split; [|exact Hrun]].
      + subst s1. preserves_steps ltac:(intros; red; simpl; auto).
      + subst s1. rewrite !get_task_update_eq, Ht. by eexists.
    - exists s1. split; [|split; [|exact Hrun]].
      + subst s1. preserves_steps ltac:(intros; red; simpl; auto).
      + subst s1. rewrite !get_task_update_eq, Ht. by eexists. }
  clear Hrun.
  destruct (get_task (sync now s2 self) self) as [t3|] eqn:Ht3;
    simpl in Hloop; [|done].
  assert (preserves stays_off s (sync now s2 self) ∧
          ∃ t2, get_task (sync now s2 self) self = Some t2
                ∧ recurring t2 = false) as Hinv.
  { split.
    - preserves_steps ltac:(intros; red; simpl; auto).
    - rewrite (sync_self _ _ _ _ Ht2). eexists; split; [done|].
      by destruct (sync_disabled t2). }
  revert Hinv Hloop.
  apply (for_each_invariant
    (λ sx, preserves stays_off s sx ∧
           ∃ t2, get_task sx self = Some t2 ∧ recurring t2 = false)).
  intros sx c sy _ [Hpx (me & Hme & Hoff)] Hbody.
  destruct (get_task sx c) as [child|]; simpl in Hbody; [|done].
  destruct (loaded child && is_active (status child));
    [|simplify_eq; eauto].
  rewrite Hme in Hbody; simpl in Hbody. rewrite Hoff in Hbody.
  destruct (set_recurring now today parse fuel sx c false
              (recurring_term me) false) as [sz|] eqn:Hcall;
    simpl in Hbody; [|done].
  destruct (IH _ _ _ _ _ Hcall) as [Hpz _].
  destruct (Hpz self me Hme) as (me' & Hme' & Hoff').
  rewrite Hme' in Hbody; simpl in Hbody. rewrite (Hoff' Hoff) in Hbody.
  simplify_eq. split.
  - by apply (preserves_trans _ _ _ _ Hpx).
  - eauto.
Qed.

(** C2 (what the code does): [set_recurring(False, term)] with a term
    that validates leaves [recurring] False on the task.  The docstring
    of the method promises True for this case. *)
Theorem set_recurring_false_valid_term fuel s self t term newtask newdate s' :
  get_task s self = Some t →
  is_valid_term today parse t (Some term) newtask = (true, Some newdate) →
  set_recurring now today parse fuel s self false (Some term) newtask
  = Some s' →
  ∃ t', get_task s' self = Some t' ∧ recurring t' = false.
Proof.
  intros _ _ Hrun.
  by destruct (set_recurring_false_stays_off _ _ _ _ _ _ Hrun) as [_ ?].
Qed.

(** On a task without children the whole effect is explicit: the flag is
    off, the term is stored and the update stamp is refreshed. *)
Lemma set_recurring_false_valid_term_leaf fuel s self t term newtask
    newdate :
  get_task s self = Some t →
  children t = [] →
  is_valid_term today parse t (Some term) newtask = (true, Some newdate) →
  set_recurring now today parse (S fuel) s self false (Some term) newtask
  = Some (sync now
            (update_task (with_recurring_updated_date (StampTime now)) self
               (update_task (with_recurring_term (Some term)) self
                  (update_task (with_recurring false) self s))) self).
Proof.
  intros Ht Hleaf Hvalid. simpl. rewrite Ht; simpl. rewrite Hvalid; simpl.
  match goal with
  | |- context [get_task (sync now ?s0 self) self] =>
      assert (∃ t3, get_task (sync now s0 self) self = Some t3
                    ∧ children t3 = []) as (t3 & -> & Hc3)
  end.
  { erewrite sync_self by (by rewrite !get_task_update_eq, Ht).
    eexists; split; [done|]. by destruct (sync_disabled _). }
  simpl. by rewrite Hc3.
Qed.
End Recurring.

Lemma set_recurring_false_valid_term_witness :
  ∃ s' t',
    set_recurring 7 1 sample_parse 1 fresh_store "t" false (Some "day") false
    = Some s' ∧
    get_task s' "t" = Some t' ∧ recurring t' = false.
Proof.
  destruct (set_recurring 7 1 sample_parse 1 fresh_store "t" false
              (Some "day") false) as [s'|] eqn:Hrun; [|discriminate Hrun].
  destruct (set_recurring_false_valid_term 7 1 sample_parse 1 fresh_store "t"
              (init_task 0 0 "t") "day" false (Concrete 2) s'
              eq_refl eq_refl Hrun) as (t' & Ht' & Hoff).
  exists s', t'. split; [reflexivity|]. split; assumption.
Defined.

(** ** The next occurrence *)

Section Next_occurrence.
Context (now today : Z) (parse : Date → string → bool → option Date).

Lemma advance_while_first fuel cond term :
  ∀ d r,
    advance_while parse fuel cond term d = Some r →
    ∃ n, advance_n parse term n d = Some r ∧ cond r = false ∧
         ∀ k d', k < n → advance_n parse term k d = Some d' →
                 cond d' = true.
Proof.
  induction fuel as [|fuel IH]; intros d r Hrun; [done|].
  simpl in Hrun. destruct (cond d) eqn:Hc.
  - destruct (parse d term false) as [d1|] eqn:Hp; simpl in Hrun; [|done].
    destruct (IH _ _ Hrun) as (n & Hn & Hstop & Hbefore).
    exists (S n). simpl. rewrite Hp. simpl. split; [done|]. split; [done|].
    intros [|k] d' Hk Hadv; simpl in Hadv.
    + by simplify_eq.
    + rewrite Hp in Hadv. simpl in Hadv. apply (Hbefore k); [lia|done].
  - simplify_eq. exists 0. split; [done|]. split; [done|]. intros; lia.
Qed.

Lemma advance_while_after_step fuel cond term d d1 r :
  parse d term false = Some d1 →
  advance_while parse fuel cond term d1 = Some r →
  first_advance parse term cond d r.
Proof.
  intros Hp Hrun.
  destruct (advance_while_first _ _ _ _ _ Hrun) as (n & Hn & Hstop & Hbefore).
  exists (S n). split; [lia|]. simpl. rewrite Hp. simpl.
  split; [done|]. split; [done|].
  intros [|k] d' Hk Hadv; [lia|]. simpl in Hadv. rewrite Hp in Hadv.
  simpl in Hadv. apply (Hbefore k); [lia|done].
Qed.

(** Enough fuel: a parser that moves every calendar day strictly forward
    reaches any bound. *)
Lemma advance_while_returns term (bound : Z) cond :
  (∀ day, ∃ day', parse (Concrete day) term false = Some (Concrete day')
                  ∧ (day < day')%Z) →
  (∀ day, (bound ≤ day)%Z → cond (Concrete day) = false) →
  ∀ fuel day, (bound - day ≤ Z.of_nat fuel)%Z →
    ∃ r, advance_while parse (S fuel) cond term (Concrete day) = Some r.
Proof.
  intros Hstep Hcond. induction fuel as [|fuel IH]; intros day Hfuel.
  - simpl. rewrite Hcond by lia. by eexists.
  - cbn [advance_while].
    destruct (cond (Concrete day)) eqn:Hc; [|by eexists].
    destruct (Hstep day) as (day' & -> & Hlt). cbn [mbind option_bind].
    apply IH. lia.
Qed.

(** When [get_next_occurrence] returns, the date is the first one
    reached from the due date, in one advance or more, that is strictly
    after the due date (if today is on or before the due date), or that
    is no earlier than today (if today is after the due date).  With a
    parser that moves every calendar day strictly forward, the method
    does return from a due date that is a calendar day. *)
Lemma get_next_occurrence_dates s self t term :
  get_task s self = Some t →
  recurring_term t = Some term →
  (∀ fuel r,
     get_next_occurrence today parse fuel s self = Some r →
     (date_leb (Concrete today) (due_date t) = true →
      first_advance parse term (λ d, date_leb d (due_date t)) (due_date t) r
      ∧ date_ltb (due_date t) r = true) ∧
     (date_ltb (due_date t) (Concrete today) = true →
      first_advance parse term (λ d, date_ltb d (Concrete today))
        (due_date t) r
      ∧ date_leb (Concrete today) r = true)) ∧
  ((∀ day, ∃ day', parse (Concrete day) term false = Some (Concrete day')
                   ∧ (day < day')%Z) →
   is_fuzzy (due_date t) = false →
   ∃ fuel r, get_next_occurrence today parse fuel s self = Some r).
Proof.
  intros Ht Hterm. split.
  - intros fuel r Hrun. unfold get_next_occurrence in Hrun.
    rewrite Ht in Hrun. simpl in Hrun. rewrite Hterm in Hrun.
    unfold date_leb at 1 in Hrun. unfold date_leb at 1.
    destruct (date_ltb (due_date t) (Concrete today)) eqn:Hlate;
      simpl in Hrun |- *.
    + split; [done|]. intros _.
      destruct (parse (due_date t) term false) as [d1|] eqn:Hp;
        simpl in Hrun; [|done].
      pose proof (advance_while_after_step _ _ _ _ _ _ Hp Hrun) as Hfirst.
      split; [done|]. destruct Hfirst as (n & _ & _ & Hstop & _).
      unfold date_leb. by rewrite Hstop.
    + split; [|done]. intros _.
      destruct (parse (due_date t) term false) as [d1|] eqn:Hp;
        simpl in Hrun; [|done].
      pose proof (advance_while_after_step _ _ _ _ _ _ Hp Hrun) as Hfirst.
      split; [done|]. destruct Hfirst as (n & _ & _ & Hstop & _).
      unfold date_leb in Hstop. by destruct (date_ltb (due_date t) r).
  - intros Hstep Hconcrete.
    destruct (due_date t) as [| |due] eqn:Hdue; [done..|].
    destruct (Hstep due) as (d1 & Hp & Hlt).
    unfold get_next_occurrence. rewrite Ht. simpl. rewrite Hterm, Hdue.
    unfold date_leb at 1.
    destruct (date_ltb (Concrete due) (Concrete today)) eqn:Hlate; simpl.
    + rewrite Hp. simpl.
      destruct (advance_while_returns term today
                  (λ d, date_ltb d (Concrete today)) Hstep)
        with (fuel := Z.to_nat (today - d1)) (day := d1)
        as [r Hr]; [|lia|eauto].
      intros day Hday. simpl. lia.
    + rewrite Hp. simpl.
      destruct (advance_while_returns term (due + 1)
                  (λ d, date_leb d (Concrete due)) Hstep)
        with (fuel := 0) (day := d1) as [r Hr]; [|lia|eauto].
      intros day Hday. unfold date_leb. simpl.
      destruct (due <? day)%Z eqn:E; [done|lia].
Qed.
End Next_occurrence.

(** ** Replacing text *)

Module PyStrFacts.
Import PyStr.

Lemma append_nil (b : string) : EmptyString +:+ b = b.
Proof. reflexivity. Qed.

Lemma append_cons c (a b : string) : String c a +:+ b = String c (a +:+ b).
Proof. reflexivity. Qed.

Lemma length_append (a b : string) :
  String.length (a +:+ b) = String.length a + String.length b.
Proof.
  induction a as [|c a IH]; rewrite ?append_nil, ?append_cons; simpl;
    [done|]. by rewrite IH.
Qed.

Lemma append_empty_r (a : string) : a +:+ EmptyString = a.
Proof.
  induction a as [|c a IH]; rewrite ?append_nil, ?append_cons; [done|].
  by rewrite IH.
Qed.

Lemma append_assoc (a b c : string) : (a +:+ b) +:+ c = a +:+ (b +:+ c).
Proof.
  induction a as [|x a IH]; rewrite ?append_nil, ?append_cons; [done|].
  by rewrite IH.
Qed.

Lemma prefix_length (p s : string) :
  String.prefix p s = true → String.length p ≤ String.length s.
Proof.
  revert p. induction s as [|c s IH]; intros [|d p] H; simpl in *;
    try done; try lia.
  destruct (ascii_dec d c); [|done]. apply IH in H. lia.
Qed.

Lemma prefix_split (p s : string) :
  String.prefix p s = true → ∃ r, s = p +:+ r.
Proof.
  revert p. induction s as [|c s IH]; intros [|d p] H; simpl in *;
    try done; eauto.
  destruct (ascii_dec d c) as [->|]; [|done].
  destruct (IH _ H) as [r ->]. by exists r.
Qed.

Lemma prefix_append (p r : string) : String.prefix p (p +:+ r) = true.
Proof.
  induction p as [|c p IH]; rewrite ?append_nil, ?append_cons; simpl;
    [by destruct r|].
  by destruct (ascii_dec c c).
Qed.


Lemma contains_nil (q : string) :
  contains EmptyString q = String.prefix q EmptyString.
Proof. simpl. apply orb_false_r. Qed.

Lemma contains_cons c (s q : string) :
  contains (String c s) q = String.prefix q (String c s) || contains s q.
Proof. reflexivity. Qed.

Lemma prefix_nil_inv (q : string) :
  String.prefix q EmptyString = true → q = EmptyString.
Proof. by destruct q. Qed.

Lemma contains_empty (s : string) : contains s EmptyString = true.
Proof. by destruct s. Qed.

Lemma contains_of_prefix (s q : string) :
  String.prefix q s = true → contains s q = true.
Proof. intros H. destruct s; cbn [contains]; by rewrite H. Qed.

Lemma contains_prefix (q r : string) : contains (q +:+ r) q = true.
Proof. apply contains_of_prefix, prefix_append. Qed.

Lemma contains_append_r (a x q : string) :
  contains x q = true → contains (a +:+ x) q = true.
Proof.
  intros H. induction a as [|c a IH]; rewrite ?append_nil, ?append_cons;
    [done|].
  rewrite contains_cons, IH. apply orb_true_r.
Qed.

Lemma contains_append_l (x q r : string) :
  contains x q = true → contains (x +:+ r) q = true.
Proof.
  revert q. induction x as [|c x IH]; intros q H.
  - rewrite contains_nil in H. apply prefix_nil_inv in H as ->.
    apply contains_empty.
  - rewrite contains_cons in H. apply orb_true_iff in H as [H|H].
    + destruct (prefix_split _ _ H) as [r' Hr'].
      rewrite Hr', append_assoc. apply contains_prefix.
    + rewrite append_cons, contains_cons, (IH _ H). apply orb_true_r.
Qed.

(** A text that holds [a ++ q ++ b] holds [q]. *)
Lemma contains_infix (s a q b : string) :
  contains s (a +:+ q +:+ b) = true → contains s q = true.
Proof.
  induction s as [|c s IH]; intros H.
  - rewrite contains_nil in H. apply prefix_nil_inv in H.
    destruct a; [|by rewrite append_cons in H].
    destruct q; [done|]. by rewrite append_nil, append_cons in H.
  - rewrite contains_cons in H. apply orb_true_iff in H as [H|H].
    + destruct (prefix_split _ _ H) as [r Hr]. rewrite Hr.
      rewrite append_assoc. apply contains_append_r.
      rewrite append_assoc. apply contains_prefix.
    + rewrite contains_cons, (IH H). apply orb_true_r.
Qed.

Lemma replace_from_absent (old new s : string) :
  contains s old = false → replace_from old new 0 s = s.
Proof.
  induction s as [|c s IH]; intros H; [done|].
  rewrite contains_cons in H. apply orb_false_iff in H as [Hp Hc].
  cbn [replace_from]. rewrite Hp. by rewrite IH.
Qed.

Lemma replace_absent (s old new : string) :
  contains s old = false → replace s old new = s.
Proof.
  intros H. destruct old.
  - by rewrite contains_empty in H.
  - by apply replace_from_absent.
Qed.

Lemma replace_from_length (old new : string) :
  1 ≤ String.length old →
  String.length new ≤ String.length old →
  ∀ s k, String.length (replace_from old new k s)
         + Nat.min k (String.length s) ≤ String.length s.
Proof.
  intros Hold Hnew. induction s as [|c s IH]; intros k; [simpl; lia|].
  destruct k as [|k]; cbn [replace_from].
  - destruct (String.prefix old (String c s)) eqn:Hp.
    + apply prefix_length in Hp. cbn [String.length] in Hp |- *.
      specialize (IH (String.length old - 1)).
      rewrite length_append. lia.
    + specialize (IH 0). cbn [String.length]. lia.
  - specialize (IH k). cbn [String.length]. lia.
Qed.

Lemma replace_from_shorter (old new s : string) :
  String.length new < String.length old →
  contains s old = true →
  String.length (replace_from old new 0 s) < String.length s.
Proof.
  intros Hnew. induction s as [|c s IH]; intros H.
  - rewrite contains_nil in H. apply prefix_length in H.
    simpl in H. lia.
  - cbn [replace_from]. destruct (String.prefix old (String c s)) eqn:Hp.
    + apply prefix_length in Hp. cbn [String.length] in Hp |- *.
      pose proof (replace_from_length old new ltac:(lia) ltac:(lia) s
                    (String.length old - 1)).
      rewrite length_append. lia.
    + rewrite contains_cons, Hp in H. simpl in H. specialize (IH H).
      cbn [String.length]. lia.
Qed.

Lemma intersperse_empty (s : string) : intersperse EmptyString s = s.
Proof. induction s as [|c s IH]; simpl; [done|]. by rewrite IH. Qed.

Lemma replace_length (s old new : string) :
  String.length new ≤ String.length old →
  String.length (replace s old new) ≤ String.length s.
Proof.
  intros Hnew. destruct old as [|c old].
  - destruct new; [|simpl in Hnew; lia]. simpl.
    by rewrite intersperse_empty.
  - pose proof (replace_from_length (String c old) new
                  ltac:(simpl; lia) Hnew s 0). simpl in *. lia.
Qed.

Lemma replace_shorter (s old new : string) :
  String.length new < String.length old →
  contains s old = true →
  String.length (replace s old new) < String.length s.
Proof.
  intros Hnew H. destruct old as [|c old]; [simpl in Hnew; lia|].
  by apply replace_from_shorter.
Qed.

(** Deleting a pattern either leaves the text as it is or makes it
    shorter. *)
Lemma replace_delete_cases (s old : string) :
  old ≠ EmptyString →
  replace s old EmptyString = s ∨
  String.length (replace s old EmptyString) < String.length s.
Proof.
  intros Hold. destruct (contains s old) eqn:Hc.
  - right. apply replace_shorter; [|done]. destruct old; [done|simpl; lia].
  - left. by apply replace_absent.
Qed.

Lemma length_drop_le n s : String.length (drop n s) ≤ String.length s.
Proof.
  revert s. induction n as [|n IH]; intros [|c s]; simpl; try lia.
  specialize (IH s). lia.
Qed.
End PyStrFacts.

(** ** Stripping a tag from the content *)

Section Strip_tag.
Import PyStr PyStrFacts.

Lemma inline_tag_length (tagname : string) :
  String.length (if startswith tagname "@" then drop 1 tagname else tagname)
  ≤ String.length tagname.
Proof. destruct (startswith tagname "@"); [apply length_drop_le|done]. Qed.

(** Stripping never makes the text longer, and makes it shorter when the
    marker [@tagname] occurs in it. *)
Lemma strip_tag_shorter (text tagname : string) :
  contains text ("@" +:+ tagname) = true →
  String.length (_strip_tag text tagname EmptyString) < String.length text.
Proof.
  intros Hocc. unfold _strip_tag.
  pose proof (inline_tag_length tagname) as Hinl.
  set (inl := if startswith tagname "@" then drop 1 tagname else tagname)
    in *.
  set (s1 := replace text ("@" +:+ tagname +:+ nl +:+ nl) EmptyString).
  set (s2 := replace s1 ("@" +:+ tagname +:+ nl) EmptyString).
  set (s3 := replace s2 ("@" +:+ tagname +:+ ", ") EmptyString).
  set (s4 := replace s3 ("@" +:+ tagname) EmptyString).
  set (s5 := replace s4 (tagname +:+ nl +:+ nl) EmptyString).
  set (s6 := replace s5 (tagname +:+ ", ") EmptyString).
  set (s7 := replace s6 (tagname +:+ ",") inl).
  assert (s3 = text ∨ String.length s3 < String.length text) as H3.
  { destruct (replace_delete_cases text ("@" +:+ tagname +:+ nl +:+ nl))
      as [E1|L1]; [done| |].
    - destruct (replace_delete_cases s1 ("@" +:+ tagname +:+ nl))
        as [E2|L2]; [done| |].
      + destruct (replace_delete_cases s2 ("@" +:+ tagname +:+ ", "))
          as [E3|L3]; [done| |].
        * left. subst s3 s2 s1. by rewrite E3, E2, E1.
        * right. subst s3 s2 s1. rewrite E2, E1 in L3 |- *. done.
      + right. subst s3 s2 s1.
        pose proof (replace_length
          (replace (replace text ("@" +:+ tagname +:+ nl +:+ nl) EmptyString)
             ("@" +:+ tagname +:+ nl) EmptyString)
          ("@" +:+ tagname +:+ ", ") EmptyString ltac:(simpl; lia)).
        rewrite E1 in *. lia.
    - right.
      pose proof (replace_length s1 ("@" +:+ tagname +:+ nl) EmptyString
                    ltac:(simpl; lia)).
      pose proof (replace_length s2 ("@" +:+ tagname +:+ ", ") EmptyString
                    ltac:(simpl; lia)).
      subst s3 s2 s1. lia. }
  assert (String.length s4 < String.length text) as H4.
  { destruct H3 as [E3|L3].
    - subst s4. rewrite E3. apply replace_shorter; [|done].
      rewrite length_append. simpl. lia.
    - pose proof (replace_length s3 ("@" +:+ tagname) EmptyString
                    ltac:(simpl; lia)). subst s4. lia. }
  pose proof (replace_length s4 (tagname +:+ nl +:+ nl) EmptyString
                ltac:(simpl; lia)).
  pose proof (replace_length s5 (tagname +:+ ", ") EmptyString
                ltac:(simpl; lia)).
  pose proof (replace_length s6 (tagname +:+ ",") inl
                ltac:(rewrite length_append; simpl; lia)).
  pose proof (replace_length s7 tagname inl Hinl).
  subst s5 s6 s7. lia.
Qed.
End Strip_tag.

(** ** Removing a tag the task does not have *)

(** C10: for a tag name that is not in the task's tags, [remove_tag] leaves
    the tags, every other task, the registry and the events as they are (no
    registry notification), and still rewrites the content with
    [_strip_tag]; a content that holds the text [@name] is changed by it. *)
Theorem remove_tag_absent fuel s self t tagname :
  get_task s self = Some t →
  tagname ∉ tags t →
  ∃ s',
    remove_tag (S fuel) s self tagname = Some s' ∧
    get_task s' self =
      Some (with_content (_strip_tag (content t) tagname EmptyString) t) ∧
    (∀ t', get_task s' self = Some t' → tags t' = tags t) ∧
    (∀ id, id ≠ self → get_task s' id = get_task s id) ∧
    tag_registry s' = tag_registry s ∧
    events s' = events s ∧
    (PyStr.contains (content t) ("@" +:+ tagname) = true →
     ∀ t', get_task s' self = Some t' → content t' ≠ content t).
Proof.
  intros Ht Hnotin.
  exists (update_task
            (λ t, with_content (_strip_tag (content t) tagname EmptyString) t)
            self s).
  assert (get_task (update_task
            (λ t, with_content (_strip_tag (content t) tagname EmptyString) t)
            self s) self
          = Some (with_content (_strip_tag (content t) tagname EmptyString) t))
    as Hself.
  { by rewrite get_task_update_eq, Ht. }
  split; [|split; [exact Hself|split; [|split; [|split; [|split]]]]].
  - cbn [remove_tag]. rewrite Ht. cbn [mbind option_bind].
    rewrite bool_decide_eq_false_2 by done. done.
  - intros t' Ht'. rewrite Hself in Ht'. by simplify_eq.
  - intros id Hne. by rewrite get_task_update_ne.
  - done.
  - done.
  - intros Hocc t' Ht' Heq. rewrite Hself in Ht'. simplify_eq.
    simpl in Heq. apply strip_tag_shorter in Hocc. rewrite Heq in Hocc. lia.
Qed.

Lemma remove_tag_absent_witness :
  ∃ s',
    remove_tag 1 (store_of [task_with_content "see @home, later" ["work"]])
      "t" "home" = Some s' ∧
    (content <$> get_task s' "t") = Some "see later" ∧
    (tags <$> get_task s' "t") = Some ["work"] ∧
    events s' = [].
Proof.
  destruct (remove_tag_absent 0
              (store_of [task_with_content "see @home, later" ["work"]]) "t"
              (task_with_content "see @home, later" ["work"]) "home" eq_refl)
    as (s' & Hrun & Hself & _ & _ & _ & Hev & _).
  { by apply not_elem_of_cons; split; [|apply not_elem_of_nil]. }
  exists s'. split; [exact Hrun|]. rewrite Hself. split; [reflexivity|].
  split; [reflexivity|exact Hev].
Defined.

(** ** Adding and removing a tag *)

#[global] Instance tag_step_refl name : Reflexive (tag_step name).
Proof. intros t. split; [done|by left]. Qed.

#[global] Instance tag_step_trans name : Transitive (tag_step name).
Proof.
  intros t1 t2 t3 [Hc12 Ht12] [Hc23 Ht23]. split; [congruence|].
  destruct Ht12 as [E12|[Hn12 E12]], Ht23 as [E23|[Hn23 E23]].
  - left. congruence.
  - right. rewrite <- E12. split; [done|congruence].
  - right. split; [done|congruence].
  - exfalso. apply Hn23. rewrite E12. apply elem_of_app. right. by left.
Qed.

#[global] Instance untag_step_refl name : Reflexive (untag_step name).
Proof. intros t. split; by exists 0. Qed.

Lemma iter_add {A} (f : A → A) n m x :
  Nat.iter n f (Nat.iter m f x) = Nat.iter (n + m) f x.
Proof. induction n as [|n IH]; simpl; [done|]. by rewrite IH. Qed.

#[global] Instance untag_step_trans name : Transitive (untag_step name).
Proof.
  intros t1 t2 t3 [[n1 Hc12] [m1 Ht12]] [[n2 Hc23] [m2 Ht23]]. split.
  - exists (n2 + n1). by rewrite Hc23, Hc12, iter_add.
  - exists (m2 + m1). by rewrite Ht23, Ht12, iter_add.
Qed.

Lemma get_task_register_tag name s id :
  get_task (register_tag name s) id = get_task s id.
Proof. reflexivity. Qed.

Lemma remove_first_absent x l : x ∉ l → remove_first x l = l.
Proof.
  induction l as [|y l IH]; intros Hx; simpl; [done|].
  apply not_elem_of_cons in Hx as [Hne Hx].
  rewrite bool_decide_eq_false_2 by done. by rewrite IH.
Qed.


Lemma remove_first_NoDup x l : NoDup l → x ∉ remove_first x l.
Proof.
  induction 1 as [|y l Hy Hnd IH]; simpl; [apply not_elem_of_nil|].
  case_bool_decide as Heq.
  - by subst.
  - apply not_elem_of_cons. split; [congruence|done].
Qed.

Lemma iter_remove_first_absent x l m :
  x ∉ l → Nat.iter m (remove_first x) l = l.
Proof.
  intros Hx. induction m as [|m IH]; simpl; [done|].
  rewrite IH. by apply remove_first_absent.
Qed.


(** [tag_added]: the tag is appended to the task when it is new, and every
    task the call goes on to changes by a [tag_step]. *)
Lemma tag_added_spec name fuel :
  ∀ s self s' added,
    tag_added fuel s self name = Some (s', added) →
    preserves (tag_step name) s s' ∧
    ∀ t, get_task s self = Some t →
      added = negb (bool_decide (name ∈ tags t)) ∧
      ∃ t', get_task s' self = Some t' ∧ content t' = content t ∧
            tags t' = if bool_decide (name ∈ tags t) then tags t
                      else tags t ++ [name].
Proof.
  induction fuel as [|fuel IH]; intros s self s' added Hrun; [done|].
  cbn [tag_added] in Hrun.
  destruct (get_task s self) as [t|] eqn:Ht; cbn [mbind option_bind] in Hrun;
    [|done].
  case_bool_decide as Hin.
  { simplify_eq. split; [apply preserves_refl, _|].
    intros t0 Ht0. simplify_eq. rewrite bool_decide_eq_true_2 by done.
    split; [done|]. by exists t0. }
  set (s1 := update_task (λ t0, with_tags (tags t0 ++ [name]) t0) self s)
    in Hrun.
  assert (preserves (tag_step name) s s1) as Hp1.
  { intros id t0 Ht0. subst s1. rewrite get_task_update, Ht0.
    case_decide as Hid; simpl; eexists; (split; [done|]).
    - subst id. simplify_eq. split; [done|]. right. done.
    - reflexivity. }
  assert (get_task s1 self = Some (with_tags (tags t ++ [name]) t)) as Hs1.
  { subst s1. by rewrite get_task_update_eq, Ht. }
  assert (∃ s2, preserves (tag_step name) s1 s2 ∧ s' = s2 ∧ added = true)
    as (s2 & Hp2 & -> & ->).
  { destruct (loaded t).
    - destruct (for_each _ (children t) s1) as [s2|] eqn:Hloop;
        cbn [mbind option_bind] in Hrun; [|done].
      simplify_eq. eexists. split; [|done].
      apply preserves_emit_r. intros id t0 Ht0.
      rewrite get_task_register_tag. revert id t0 Ht0.
      change (preserves (tag_step name) s1 s2).
      eapply preserves_for_each; [exact _..| |exact Hloop].
      intros sx c sy _ Hbody. cbv beta in Hbody.
      destruct (get_task sx c) as [child|]; cbn [mbind option_bind] in Hbody;
        [|done].
      destruct (can_be_deleted child); [|simplify_eq; apply preserves_refl, _].
      destruct (tag_added fuel sx c name) as [[sz b]|] eqn:Hcall;
        simpl in Hbody; [|done].
      simplify_eq. by destruct (IH _ _ _ _ Hcall).
    - cbn [mbind option_bind] in Hrun. simplify_eq. eexists.
      split; [apply preserves_refl, _|done]. }
  split; [by eapply preserves_trans; [exact _|..]|].
  intros t0 Ht0. simplify_eq. rewrite bool_decide_eq_false_2 by done.
  split; [done|].
  destruct (Hp2 self _ Hs1) as (t2 & Ht2 & Hc2 & Htags2).
  exists t2. split; [done|]. split; [done|].
  destruct Htags2 as [E|[Hn _]]; [done|].
  exfalso. apply Hn. simpl. apply elem_of_app. right. by left.
Qed.

(** [remove_tag]: the task's content is stripped at least once and its
    first [name] tag goes; every task the call goes on to changes by an
    [untag_step]. *)
Lemma remove_tag_spec name fuel :
  ∀ s self s',
    remove_tag fuel s self name = Some s' →
    preserves (untag_step name) s s' ∧
    ∀ t, get_task s self = Some t →
      ∃ t' n m, get_task s' self = Some t' ∧
        content t' =
          Nat.iter (S n) (λ c, _strip_tag c name EmptyString) (content t) ∧
        tags t' =
          Nat.iter m (remove_first name) (remove_first name (tags t)).
Proof.
  induction fuel as [|fuel IH]; intros s self s' Hrun; [done|].
  cbn [remove_tag] in Hrun.
  destruct (get_task s self) as [t|] eqn:Ht; cbn [mbind option_bind] in Hrun;
    [|done].
  assert (∃ s2 t2 n m,
            get_task s2 self = Some t2 ∧
            content t2 =
              Nat.iter n (λ c, _strip_tag c name EmptyString) (content t) ∧
            tags t2 =
              Nat.iter m (remove_first name) (remove_first name (tags t)) ∧
            preserves (untag_step name) s s2 ∧
            ∀ id, get_task s' id =
                  get_task (update_task
                    (λ t0, with_content
                             (_strip_tag (content t0) name EmptyString) t0)
                    self s2) id)
    as (s2 & t2 & n & m & Ht2 & Hc2 & Htg2 & Hp2 & Hs').
  { case_bool_decide as Hin.
    - set (s1 := update_task
                   (λ t0, with_tags (remove_first name (tags t0)) t0) self s)
        in Hrun.
      destruct (for_each _ (children t) s1) as [s2|] eqn:Hloop;
        cbn [mbind option_bind] in Hrun; [|done].
      assert (preserves (untag_step name) s s1) as Hp1.
      { intros id t0 Ht0. subst s1. rewrite get_task_update, Ht0.
        destruct (decide (self = id)); simpl; eexists; (split; [done|]);
          [|reflexivity].
        split; [by exists 0|by exists 1]. }
      assert (preserves (untag_step name) s1 s2) as Hp12.
      { eapply preserves_for_each; [exact _..| |exact Hloop].
        intros sx c sy _ Hbody. cbv beta in Hbody.
        destruct (get_task sx c) as [child|];
          cbn [mbind option_bind] in Hbody; [|done].
        destruct (can_be_deleted child);
          [|simplify_eq; apply preserves_refl, _].
        by destruct (IH _ _ _ Hbody). }
      destruct (Hp12 self (with_tags (remove_first name (tags t)) t))
        as (t2 & Ht2 & [n Hc2] & [m Htg2]).
      { subst s1. by rewrite get_task_update_eq, Ht. }
      exists s2, t2, n, m. split; [done|]. split; [done|]. split; [done|].
      split; [by eapply preserves_trans; [exact _|..]|].
      intros id. simplify_eq. by destruct (_ && _).
    - cbn [mbind option_bind] in Hrun. simplify_eq.
      exists s, t, 0, 0. split; [done|]. split; [done|].
      split; [by rewrite remove_first_absent|].
      split; [apply preserves_refl, _|]. intros id. done. }
  split.
  - intros id t0 Ht0. rewrite Hs'.
    destruct (Hp2 id t0 Ht0) as (t1 & Ht1 & HR).
    rewrite get_task_update, Ht1. destruct (decide (self = id)); simpl;
      eexists; (split; [done|]); [|done].
    etrans; [exact HR|]. split; [by exists 1|by exists 0].
  - intros t0 Ht0. simplify_eq. rewrite Hs', get_task_update_eq, Ht2.
    simpl. eexists _, n, m. split; [done|]. simpl. by rewrite Hc2, Htg2.
Qed.

Section Tag_round_trip.
Import PyStr PyStrFacts.

Lemma absent_infix (s a q b : string) :
  contains s q = false → contains s (a +:+ q +:+ b) = false.
Proof.
  intros H. destruct (contains s (a +:+ q +:+ b)) eqn:E; [|done].
  apply contains_infix in E. congruence.
Qed.

(** A content without the text [foo] is left alone by the stripping. *)
Lemma strip_foo_free (c : string) :
  contains c "foo" = false → _strip_tag c "foo" EmptyString = c.
Proof.
  intros H. unfold _strip_tag.
  rewrite (replace_absent c)
    by apply (absent_infix c "@" "foo" (nl +:+ nl) H).
  rewrite (replace_absent c) by apply (absent_infix c "@" "foo" nl H).
  rewrite (replace_absent c) by apply (absent_infix c "@" "foo" ", " H).
  rewrite (replace_absent c)
    by apply (absent_infix c "@" "foo" EmptyString H).
  rewrite (replace_absent c)
    by apply (absent_infix c EmptyString "foo" (nl +:+ nl) H).
  rewrite (replace_absent c)
    by apply (absent_infix c EmptyString "foo" ", " H).
  rewrite (replace_absent c)
    by apply (absent_infix c EmptyString "foo" "," H).
  by rewrite (replace_absent c).
Qed.

Lemma replace_from_skip_app (old new a s : string) :
  replace_from old new (String.length a) (a +:+ s) = replace_from old new 0 s.
Proof.
  induction a as [|c a IH]; rewrite ?append_nil, ?append_cons; [|done].
  by destruct s.
Qed.

(** A text that opens with the pattern loses it. *)
Lemma replace_delete_head (c : ascii) (old' s : string) :
  replace (String c old' +:+ s) (String c old') EmptyString
  = replace s (String c old') EmptyString.
Proof.
  change (replace_from (String c old') EmptyString 0 (String c old' +:+ s)
          = replace_from (String c old') EmptyString 0 s).
  assert (String.prefix (String c old') (String c (old' +:+ s)) = true)
    as Hp.
  { rewrite <- append_cons. apply prefix_append. }
  rewrite append_cons. cbn [replace_from]. rewrite Hp, append_nil.
  cbn [String.length]. rewrite Nat.sub_1_r. cbn [Nat.pred].
  apply replace_from_skip_app.
Qed.

Lemma strip_tail_foo_free (c : string) :
  contains c "foo" = false →
  replace (replace (replace (replace (replace c
    ("@" +:+ "foo") EmptyString)
    ("foo" +:+ nl +:+ nl) EmptyString)
    ("foo" +:+ ", ") EmptyString)
    ("foo" +:+ ",") "foo")
    "foo" "foo" = c.
Proof.
  intros H.
  rewrite (replace_absent c)
    by apply (absent_infix c "@" "foo" EmptyString H).
  rewrite (replace_absent c)
    by apply (absent_infix c EmptyString "foo" (nl +:+ nl) H).
  rewrite (replace_absent c)
    by apply (absent_infix c EmptyString "foo" ", " H).
  rewrite (replace_absent c)
    by apply (absent_infix c EmptyString "foo" "," H).
  by rewrite (replace_absent c).
Qed.

Lemma strip_foo_comma (c : string) :
  contains c "foo" = false →
  _strip_tag ("@foo" +:+ ", " +:+ c) "foo" EmptyString = c.
Proof.
  intros H. unfold _strip_tag.
  assert (contains ("@foo" +:+ ", " +:+ c) ("@" +:+ "foo" +:+ nl +:+ nl)
          = false) as H1.
  { cbv. exact (absent_infix c "@" "foo" (nl +:+ nl) H). }
  assert (contains ("@foo" +:+ ", " +:+ c) ("@" +:+ "foo" +:+ nl) = false)
    as H2.
  { cbv. exact (absent_infix c "@" "foo" nl H). }
  rewrite (replace_absent _ _ _ H1), (replace_absent _ _ _ H2).
  change ("@foo" +:+ ", " +:+ c) with (String "@" "foo, " +:+ c).
  change ("@" +:+ "foo" +:+ ", ") with (String "@" "foo, ").
  rewrite replace_delete_head.
  rewrite (replace_absent c) by apply (absent_infix c "@" "foo" ", " H).
  by apply strip_tail_foo_free.
Qed.

Lemma strip_foo_blank_line (c : string) :
  contains c "foo" = false →
  _strip_tag ("@foo" +:+ (nl +:+ nl) +:+ c) "foo" EmptyString = c.
Proof.
  intros H. unfold _strip_tag.
  change ("@foo" +:+ (nl +:+ nl) +:+ c)
    with (String "@" ("foo" +:+ nl +:+ nl) +:+ c).
  change ("@" +:+ "foo" +:+ nl +:+ nl)
    with (String "@" ("foo" +:+ nl +:+ nl)).
  rewrite replace_delete_head.
  rewrite (replace_absent c)
    by apply (absent_infix c "@" "foo" (nl +:+ nl) H).
  rewrite (replace_absent c) by apply (absent_infix c "@" "foo" nl H).
  rewrite (replace_absent c) by apply (absent_infix c "@" "foo" ", " H).
  by apply strip_tail_foo_free.
Qed.

(** Whatever the separator case, stripping undoes the insertion. *)
Lemma strip_foo_marker (c : string) :
  contains c "foo" = false →
  _strip_tag (tag_marker "foo" +:+ tag_separator c +:+ c) "foo" EmptyString
  = c.
Proof.
  intros H. change (tag_marker "foo") with "@foo". unfold tag_separator.
  destruct c as [|a c]; [vm_compute; reflexivity|].
  cbn [is_empty]. destruct (startswith (String a c) "@").
  - by apply strip_foo_comma.
  - by apply strip_foo_blank_line.
Qed.
End Tag_round_trip.

#[global] Instance same_on_refl {B} (p : Task → B) : Reflexive (same_on p).
Proof. by intros t. Qed.

#[global] Instance same_on_trans {B} (p : Task → B) : Transitive (same_on p).
Proof. intros t1 t2 t3 H12 H23. unfold same_on in *. congruence. Qed.

Lemma tag_added_children tagname fuel :
  ∀ s self s' added,
    tag_added fuel s self tagname = Some (s', added) →
    preserves (same_on children) s s'.
Proof.
  induction fuel as [|fuel IH]; intros s self s' added Hta; [done|].
  cbn [tag_added] in Hta.
  destruct (get_task s self) as [t|]; cbn [mbind option_bind] in Hta; [|done].
  case_bool_decide; [simplify_eq; apply preserves_refl, _|].
  destruct (loaded t).
  - destruct (for_each _ (children t) _) as [s2|] eqn:Hloop;
      cbn [mbind option_bind] in Hta; [|done].
    simplify_eq. apply preserves_emit_r.
    intros id t0 Ht0. rewrite get_task_register_tag. revert id t0 Ht0.
    apply (preserves_trans _ _
             (update_task (λ t0, with_tags (tags t0 ++ [tagname]) t0) self s)).
    + apply preserves_update; [exact _|done].
    + eapply preserves_for_each; [exact _..| |exact Hloop].
      intros sx c sy _ Hbody. cbv beta in Hbody.
      destruct (get_task sx c) as [child|];
        cbn [mbind option_bind] in Hbody; [|done].
      destruct (can_be_deleted child);
        [|simplify_eq; apply preserves_refl, _].
      destruct (tag_added fuel sx c tagname) as [[sz b]|] eqn:Hcall;
        simpl in Hbody; [|done].
      simplify_eq. by eapply IH.
  - cbn [mbind option_bind] in Hta. simplify_eq.
    apply preserves_update; [exact _|done].
Qed.

Section Add_remove_tag.
Context (now : Z).

(** What [add_tag] leaves on the task: for a new tag, the marker and the
    separator before the old content, and the tag at the end of the
    tags; nothing for a tag the task has. *)
Lemma add_tag_self fuel s self t tagname s1 :
  get_task s self = Some t →
  add_tag now fuel s self tagname = Some s1 →
  ∃ t1, get_task s1 self = Some t1 ∧ children t1 = children t ∧
    if bool_decide (tagname ∈ tags t)
    then content t1 = content t ∧ tags t1 = tags t
    else content t1 =
           tag_marker tagname +:+ tag_separator (content t) +:+ content t
         ∧ tags t1 = tags t ++ [tagname].
Proof.
  intros Ht Hadd. unfold add_tag in Hadd.
  destruct (tag_added fuel s self tagname) as [[sa added]|] eqn:Hta;
    cbn [mbind option_bind] in Hadd; [|done].
  destruct (tag_added_spec _ _ _ _ _ _ Hta) as [_ Hself].
  destruct (Hself t Ht) as (-> & ta & Hsa & Hca & Htga).
  assert (children ta = children t) as Hch.
  { destruct (tag_added_children _ _ _ _ _ _ Hta _ _ Ht) as (t' & Ht' & Hc).
    by simplify_eq. }
  case_bool_decide as Hin; cbn [negb] in Hadd.
  - simplify_eq. by exists ta.
  - rewrite Hsa in Hadd. cbn [mbind option_bind] in Hadd. simplify_eq.
    eexists. split.
    + apply sync_self. by rewrite get_task_update_eq, Hsa.
    + rewrite Hca. fold (tag_marker tagname).
      fold (tag_separator (content t)).
      destruct (sync_disabled _); simpl; by rewrite ?Htga.
Qed.

End Add_remove_tag.


(** ** Stores with the same tasks *)

Section Evolves.
Context (R : Task → Task → Prop) `{!Reflexive R} `{!Transitive R}.

Lemma evolves_refl s : evolves R s s.
Proof. intros id. by destruct (get_task s id). Qed.

Lemma evolves_trans s1 s2 s3 :
  evolves R s1 s2 → evolves R s2 s3 → evolves R s1 s3.
Proof.
  intros H12 H23 id. specialize (H12 id). specialize (H23 id).
  destruct (get_task s1 id), (get_task s2 id), (get_task s3 id);
    try done. by etrans.
Qed.

Lemma evolves_update f self s :
  (∀ t, R t (f t)) → evolves R s (update_task f self s).
Proof.
  intros Hf id. rewrite get_task_update.
  destruct (decide (self = id)), (get_task s id); simpl; done.
Qed.

Lemma evolves_update_r f self s0 s :
  (∀ t, R t (f t)) → evolves R s0 s → evolves R s0 (update_task f self s).
Proof.
  intros Hf H0. eapply evolves_trans; [exact H0|]. by apply evolves_update.
Qed.

Lemma evolves_emit_r e s0 s : evolves R s0 s → evolves R s0 (emit e s).
Proof. intros H0 id. apply H0. Qed.

Lemma evolves_sync_r now self s0 s :
  (∀ v t, R t (with_last_modified v t)) → evolves R s0 s →
  evolves R s0 (sync now s self).
Proof.
  intros Hf H0. eapply evolves_trans; [exact H0|]. intros id.
  destruct (get_task_sync now s self id) as [->|[_ ->]];
    destruct (get_task s id); simpl; done.
Qed.

Lemma evolves_for_each {A} (body : State → A → option State) l s s' :
  (∀ s x s', x ∈ l → body s x = Some s' → evolves R s s') →
  for_each body l s = Some s' → evolves R s s'.
Proof.
  intros Hbody Hrun.
  apply (for_each_invariant (evolves R s) body l s s');
    [|apply evolves_refl|done].
  intros s1 x s2 Hx H1 Hx2. apply (evolves_trans _ _ _ H1).
  exact (Hbody _ _ _ Hx Hx2).
Qed.

Lemma evolves_preserves s s' : evolves R s s' → preserves R s s'.
Proof.
  intros H id t Ht. specialize (H id). rewrite Ht in H.
  destruct (get_task s' id) as [t'|]; [|done]. by exists t'.
Qed.

Lemma evolves_Some s s' id t :
  evolves R s s' → get_task s id = Some t →
  ∃ t', get_task s' id = Some t' ∧ R t t'.
Proof. intros H. by apply evolves_preserves. Qed.

Lemma evolves_Some_inv s s' id t' :
  evolves R s s' → get_task s' id = Some t' →
  ∃ t, get_task s id = Some t ∧ R t t'.
Proof.
  intros H Ht'. specialize (H id). rewrite Ht' in H.
  destruct (get_task s id) as [t|]; [|done]. by exists t.
Qed.
End Evolves.

Ltac evolves_steps keeps :=
  repeat first
    [ exact _
    | assumption
    | apply evolves_refl
    | apply evolves_update_r
    | apply evolves_sync_r
    | apply evolves_emit_r
    | solve [keeps] ].

(** ** Reactivating a task *)

#[global] Instance reactivation_step_refl : Reflexive reactivation_step.
Proof. intros t. repeat split. by left. Qed.

#[global] Instance reactivation_step_trans : Transitive reactivation_step.
Proof.
  intros t1 t2 t3 (Hp12 & Hc12 & Hl12 & Hs12) (Hp23 & Hc23 & Hl23 & Hs23).
  repeat split; try congruence.
  destruct Hs23 as [E|E]; [|by right]. rewrite E. exact Hs12.
Qed.

Lemma ancestor_evolves s s' x a :
  evolves reactivation_step s s' → ancestor s x a ↔ ancestor s' x a.
Proof.
  intros Hev. split.
  - induction 1 as [x t a Ht Ha|x t p a Ht Hp _ IH].
    + destruct (evolves_Some _ _ _ _ _ Hev Ht) as (t' & Ht' & Hpar & _).
      eapply ancestor_parent; [exact Ht'|]. by rewrite Hpar.
    + destruct (evolves_Some _ _ _ _ _ Hev Ht) as (t' & Ht' & Hpar & _).
      eapply ancestor_step; [exact Ht'| |exact IH]. by rewrite Hpar.
  - induction 1 as [x t' a Ht' Ha|x t' p a Ht' Hp _ IH].
    + destruct (evolves_Some_inv _ _ _ _ _ Hev Ht') as (t & Ht & Hpar & _).
      eapply ancestor_parent; [exact Ht|]. by rewrite <- Hpar.
    + destruct (evolves_Some_inv _ _ _ _ _ Hev Ht') as (t & Ht & Hpar & _).
      eapply ancestor_step; [exact Ht| |exact IH]. by rewrite <- Hpar.
Qed.

Lemma is_closed_not_active st : is_closed st = false ↔ st = STA_ACTIVE.
Proof. by destruct st. Qed.

Lemma status_of_update_other f self s x :
  x ≠ self → status_of (update_task f self s) x = status_of s x.
Proof. intros Hne. unfold status_of. by rewrite get_task_update_ne. Qed.

Lemma status_of_sync now s self x :
  status_of (sync now s self) x = status_of s x.
Proof. unfold status_of. by apply get_task_sync_field. Qed.

Section Reactivate.
Context (now today : Z) (parse : Date → string → bool → option Date).

(** A reactivation keeps the links and turns statuses to Active only. *)
Lemma reactivate_evolves fuel :
  ∀ s self donedate propagation init s',
    set_status now today parse fuel s self (Some STA_ACTIVE) donedate
      propagation init = Some s' →
    evolves reactivation_step s s'.
Proof.
  induction fuel as [|fuel IH];
    intros s self donedate propagation init s' Hrun; [done|].
  cbn [set_status] in Hrun.
  destruct (get_task s self) as [t|] eqn:Ht; cbn [mbind option_bind] in Hrun;
    [|done].
  set (s1 := update_task (with_can_be_deleted false) self s) in Hrun.
  assert (evolves reactivation_step s s1) as Hev1.
  { subst s1. apply evolves_update; [exact _|]. intros t1. repeat split.
    by left. }
  destruct (if loaded t then _ else Some s1) as [s2|] eqn:Hmid;
    cbn [mbind option_bind] in Hrun; [|done].
  destruct (get_task s2 self) as [me|]; cbn [mbind option_bind] in Hrun;
    [|done].
  assert (evolves reactivation_step s1 s2) as Hev2.
  { destruct (loaded t); [|simplify_eq; apply evolves_refl, _].
    cbn [is_closed is_active andb] in Hmid.
    destruct (is_closed (status t)); [|simplify_eq; apply evolves_refl, _].
    destruct (get_task s1 self) as [me1|];
      cbn [mbind option_bind] in Hmid; [|done].
    destruct (has_parent me1); [|simplify_eq; apply evolves_refl, _].
    eapply evolves_for_each; [exact _..| |exact Hmid].
    intros sx x sy _ Hbody. cbv beta in Hbody.
    destruct (get_task sx x) as [par|];
      cbn [mbind option_bind] in Hbody; [|done].
    destruct (loaded par && is_closed (status par));
      [|simplify_eq; apply evolves_refl, _].
    by eapply IH. }
  simplify_eq. cbn [is_closed].
  pose proof (evolves_trans _ _ _ _ Hev1 Hev2) as Hev.
  destruct init; evolves_steps ltac:(intros; repeat split; auto).
Qed.

(** The reactivation of [self], from a store [s] reached from [s0] by
    earlier reactivations. *)
Lemma reactivate_spec fuel :
  ∀ s0 s self donedate propagation init s',
    evolves reactivation_step s0 s →
    parents_reopened s0 s →
    set_status now today parse fuel s self (Some STA_ACTIVE) donedate
      propagation init = Some s' →
    evolves reactivation_step s s' ∧
    parents_reopened s0 s' ∧
    status_of s' self = Some STA_ACTIVE ∧
    (∀ x, x ≠ self → ¬ ancestor s self x → status_of s' x = status_of s x).
Proof.
  induction fuel as [|fuel IH];
    intros s0 s self donedate propagation init s' Hev0 Hre0 Hrun; [done|].
  cbn [set_status] in Hrun.
  destruct (get_task s self) as [t|] eqn:Ht; cbn [mbind option_bind] in Hrun;
    [|done].
  set (s1 := update_task (with_can_be_deleted false) self s) in Hrun.
  assert (evolves reactivation_step s s1) as Hev1.
  { subst s1. apply evolves_update; [exact _|]. intros t1. repeat split.
    by left. }
  assert (get_task s1 self = Some (with_can_be_deleted false t)) as Ht1.
  { subst s1. by rewrite get_task_update_eq, Ht. }
  (* the loop over the parents *)
  assert (∀ l sx sy,
    l ⊆ parents t →
    evolves reactivation_step s sx → parents_reopened s0 sx →
    (∀ x, x ≠ self → ¬ ancestor s self x → status_of sx x = status_of s x) →
    for_each (λ s p_tid,
      par ← get_task s p_tid;
      if loaded par && is_closed (status par)
      then set_status now today parse fuel s p_tid (Some STA_ACTIVE) None
             false false
      else Some s) l sx = Some sy →
    evolves reactivation_step s sy ∧ parents_reopened s0 sy ∧
    (∀ x, x ≠ self → ¬ ancestor s self x → status_of sy x = status_of s x) ∧
    (∀ p tp, p ∈ l → get_task sy p = Some tp → loaded tp = true →
             is_closed (status tp) = false)) as Hloop.
  { induction l as [|p l IHl]; intros sx sy Hsub Hevx Hrex Hfrx Hfor.
    - cbn [for_each] in Hfor. simplify_eq.
      split; [done|]. split; [done|]. split; [done|].
      intros p tp Hp. by apply elem_of_nil in Hp.
    - cbn [for_each] in Hfor.
      destruct (get_task sx p) as [par|] eqn:Hpar;
        cbn [mbind option_bind] in Hfor; [|done].
      assert (p ∈ parents t) as Hpt by (apply Hsub; by left).
      assert (l ⊆ parents t) as Hsub'.
      { intros q Hq. apply Hsub. by right. }
      assert (∃ sm,
        evolves reactivation_step sx sm ∧ parents_reopened s0 sm ∧
        (∀ x, x ≠ self → ¬ ancestor s self x →
              status_of sm x = status_of sx x) ∧
        (∀ tp, get_task sm p = Some tp → loaded tp = true →
               is_closed (status tp) = false) ∧
        for_each (λ s p_tid,
          par ← get_task s p_tid;
          if loaded par && is_closed (status par)
          then set_status now today parse fuel s p_tid (Some STA_ACTIVE)
                 None false false
          else Some s) l sm = Some sy)
        as (sm & Hevm & Hrem & Hfrm & Hpm & Hfor').
      { destruct (loaded par && is_closed (status par)) eqn:Hcond.
        - destruct (set_status now today parse fuel sx p (Some STA_ACTIVE)
                      None false false) as [sm|] eqn:Hcall;
            cbn [mbind option_bind] in Hfor; [|done].
          destruct (IH s0 sx p None false false sm) as (E & Rr & Act & Fr);
            [exact (evolves_trans _ _ _ _ Hev0 Hevx)|done|done|].
          exists sm. split; [done|]. split; [done|]. split.
          + intros x Hx Hnanc. apply Fr.
            * intros ->. apply Hnanc. by eapply ancestor_parent.
            * intros Hanc. apply Hnanc.
              eapply ancestor_step; [exact Ht|exact Hpt|].
              by apply (ancestor_evolves s sx).
          + split; [|done]. intros tp Htp _. unfold status_of in Act.
            rewrite Htp in Act. simpl in Act. injection Act as ->. done.
        - cbn [mbind option_bind] in Hfor. exists sx.
          split; [apply evolves_refl, _|]. split; [done|].
          split; [done|]. split; [|done].
          intros tp Htp Hl. simplify_eq. rewrite Hl in Hcond. done. }
      destruct (IHl sm sy Hsub') as (Hevy & Hrey & Hfry & Hdone);
        [exact (evolves_trans _ _ _ _ Hevx Hevm)|done| |done|].
      { intros x Hx Hnanc. rewrite Hfrm by done. by apply Hfrx. }
      split; [done|]. split; [done|]. split; [done|].
      intros q tq Hq Htq Hlq. apply elem_of_cons in Hq as [->|Hq];
        [|by eapply Hdone].
      (* the head parent: as after its own turn, or Active *)
      assert (evolves reactivation_step sm sy) as Hmy.
      { eapply evolves_for_each; [exact _..| |exact Hfor'].
        intros sa x sb _ Hbody. cbv beta in Hbody.
        destruct (get_task sa x) as [par'|];
          cbn [mbind option_bind] in Hbody; [|done].
        destruct (loaded par' && is_closed (status par'));
          [|simplify_eq; apply evolves_refl, _].
        by eapply reactivate_evolves. }
      destruct (evolves_Some_inv _ _ _ _ _ Hmy Htq)
        as (tm & Htm & _ & _ & Hlm & Hsm).
      destruct Hsm as [E|E]; [|by rewrite E].
      rewrite E. apply Hpm; [done|congruence]. }
  (* the loop runs when the task is loaded and was closed *)
  assert (∃ s2,
    (if loaded t then
       if is_closed (status t) then
         me ← get_task s1 self;
         if has_parent me then
           for_each (λ s p_tid,
             par ← get_task s p_tid;
             if loaded par && is_closed (status par)
             then set_status now today parse fuel s p_tid (Some STA_ACTIVE)
                    None false false
             else Some s) (parents me) s1
         else Some s1
       else Some s1
     else Some s1) = Some s2 ∧
    evolves reactivation_step s s2 ∧ parents_reopened s0 s2 ∧
    (∀ x, x ≠ self → ¬ ancestor s self x → status_of s2 x = status_of s x) ∧
    (loaded t = true → is_closed (status t) = true →
     ∀ p tp, p ∈ parents t → get_task s2 p = Some tp → loaded tp = true →
             is_closed (status tp) = false) ∧
    (me ← get_task s2 self;
     Some (sync now
       (update_task (with_status STA_ACTIVE) self
          (if init then s2
           else emit (StatusChanged self (status me) STA_ACTIVE) s2)) self))
    = Some s')
    as (s2 & _ & Hev2 & Hre2 & Hfr2 & Hpar2 & Htail).
  { assert (parents_reopened s0 s1) as Hre1.
    { intros x t0 tx p tp Hx0 Hx1 Hch Hl0 Hp Hp1 Hlp.
      subst s1. rewrite get_task_update in Hx1, Hp1.
      assert (∃ tx', get_task s x = Some tx' ∧ status tx' = status tx)
        as (tx' & Hx & Hsx).
      { destruct (decide (self = x)); [|by eexists].
        destruct (get_task s x) as [tx'|]; simpl in Hx1; simplify_eq.
        by eexists. }
      assert (∃ tp', get_task s p = Some tp' ∧ status tp' = status tp
                     ∧ loaded tp' = loaded tp) as (tp' & Hps & Hsp & Hlp').
      { destruct (decide (self = p)); [|by eexists].
        destruct (get_task s p) as [tp'|]; simpl in Hp1; simplify_eq.
        by eexists. }
      rewrite <- Hsp. eapply (Hre0 x t0 tx' p tp'); try done; congruence. }
    assert (∀ x, status_of s1 x = status_of s x) as Hfr1.
    { intros x. subst s1. unfold status_of. rewrite get_task_update.
      destruct (decide (self = x)); [|done]. by destruct (get_task s x). }
    assert (∃ s2,
      (if loaded t then
         if is_closed STA_ACTIVE then None
         else if is_active STA_ACTIVE && is_closed (status t) then
           me ← get_task s1 self;
           if has_parent me then
             for_each (λ s p_tid,
               par ← get_task s p_tid;
               if loaded par && is_closed (status par)
               then set_status now today parse fuel s p_tid
                      (Some STA_ACTIVE) None false false
               else Some s) (parents me) s1
           else Some s1
         else Some s1
       else Some s1) = Some s2 ∧
      (me ← get_task s2 self;
       Some (sync now
         (update_task (with_status STA_ACTIVE) self
            (if init then s2
             else emit (StatusChanged self (status me) STA_ACTIVE) s2)) self))
      = Some s') as (s2 & Hmid & Htail).
    { cbn [is_closed is_active andb] in Hrun |- *.
      match type of Hrun with
      | mbind _ ?m = _ => destruct m as [s2|] eqn:Hmid
      end; cbn [mbind option_bind] in Hrun; [|done].
      exists s2. split; [done|].
      destruct (get_task s2 self); cbn [mbind option_bind] in Hrun |- *;
        [|done]. done. }
    exists s2. cbn [is_closed is_active andb] in Hmid.
    split; [exact Hmid|].
    assert (evolves reactivation_step s s1 ∧ parents_reopened s0 s1 ∧
            (∀ x, x ≠ self → ¬ ancestor s self x →
                  status_of s1 x = status_of s x)) as Hnone.
    { split; [done|]. split; [done|]. intros x _ _. apply Hfr1. }
    destruct (loaded t) eqn:Hlt;
      [|simplify_eq; destruct Hnone as (?&?&?); repeat split; done].
    destruct (is_closed (status t)) eqn:Hct;
      [|simplify_eq; destruct Hnone as (?&?&?); repeat split; done].
    rewrite Ht1 in Hmid. cbn [mbind option_bind] in Hmid.
    change (parents (with_can_be_deleted false t)) with (parents t) in Hmid.
    destruct (has_parent (with_can_be_deleted false t)) eqn:Hhp.
    - by destruct (Hloop (parents t) s1 s2) as (E & Rr & Fr & Dn).
    - simplify_eq. destruct Hnone as (?&?&?). repeat split; try done.
      intros _ _ p tp Hp. unfold has_parent in Hhp. simpl in Hhp.
      destruct (parents t); [by apply elem_of_nil in Hp|done]. }
  clear Hrun Hloop.
  destruct (evolves_Some _ _ _ _ _ Hev2 Ht) as (t2 & Ht2 & Hp2 & _ & Hl2 & Hs2).
  rewrite Ht2 in Htail. cbn [mbind option_bind] in Htail.
  set (sX := if init then s2 else _) in Htail.
  assert (∀ y, get_task sX y = get_task s2 y) as HsX.
  { intros y. subst sX. by destruct init. }
  assert (∀ y, status_of s' y =
               if decide (self = y) then Some STA_ACTIVE
               else status_of s2 y) as Hst'.
  { intros y. simplify_eq. rewrite status_of_sync. unfold status_of.
    rewrite get_task_update, HsX. destruct (decide (self = y)); [|done].
    subst y. by rewrite Ht2. }
  assert (∀ y, (loaded <$> get_task s' y) = (loaded <$> get_task s2 y))
    as Hld'.
  { intros y. simplify_eq.
    rewrite (get_task_sync_field loaded) by done.
    rewrite get_task_update, HsX. destruct (decide (self = y)); [|done].
    by destruct (get_task s2 y). }
  assert (evolves reactivation_step s2 s') as Hev'.
  { simplify_eq. subst sX.
    destruct init; evolves_steps ltac:(intros; repeat split; auto). }
  split; [exact (evolves_trans _ _ _ _ Hev2 Hev')|].
  split; [|split].
  - (* parents_reopened *)
    intros x t0 tx p tp Hx0 Hx' Hch Hl0 Hp Hp' Hlp.
    assert (status_of s' p = Some (status tp)) as Hsp
      by (unfold status_of; by rewrite Hp').
    rewrite Hst' in Hsp. destruct (decide (self = p)) as [->|Hnp];
      [injection Hsp as <-; done|].
    unfold status_of in Hsp.
    destruct (get_task s2 p) as [tp2|] eqn:Hp2'; [|done].
    simpl in Hsp. injection Hsp as Hsp. rewrite <- Hsp.
    assert (loaded tp2 = true) as Hlp2.
    { specialize (Hld' p). rewrite Hp', Hp2' in Hld'. simpl in Hld'.
      congruence. }
    assert (status_of s' x = Some (status tx)) as Hsx
      by (unfold status_of; by rewrite Hx').
    rewrite Hst' in Hsx. destruct (decide (self = x)) as [<-|Hnx].
    + (* the task itself *)
      destruct (evolves_Some _ _ _ _ _ Hev0 Hx0)
        as (t_ & Ht_ & Hp_ & _ & Hl_ & Hs_).
      rewrite Ht in Ht_. injection Ht_ as <-.
      destruct Hs_ as [Hsame|Hact].
      * assert (is_closed (status t) = true) as Hct.
        { rewrite Hsame. destruct (status t0) eqn:E; [|done..].
          exfalso. apply Hch. by simplify_eq. }
        apply (Hpar2 ltac:(congruence) Hct p tp2); [by rewrite Hp_|done..].
      * eapply (Hre2 self t0 t2 p tp2); try done.
        destruct Hs2 as [E|E]; rewrite E; [rewrite Hact|];
          intros E'; apply Hch; simplify_eq; congruence.
    + unfold status_of in Hsx.
      destruct (get_task s2 x) as [tx2|] eqn:Hx2; [|done].
      simpl in Hsx. injection Hsx as Hsx.
      eapply (Hre2 x t0 tx2 p tp2); try done. congruence.
  - rewrite Hst'. by rewrite decide_True.
  - intros x Hx Hnanc. rewrite Hst'. rewrite decide_False by done.
    by apply Hfr2.
Qed.
End Reactivate.

Lemma for_each_returns {A} (I : State → Prop)
    (body : State → A → option State) l s :
  (∀ sx x, x ∈ l → I sx → ∃ sy, body sx x = Some sy ∧ I sy) →
  I s → ∃ s', for_each body l s = Some s' ∧ I s'.
Proof.
  revert s. induction l as [|x l IH]; intros s Hbody HI; cbn [for_each].
  - by exists s.
  - destruct (Hbody s x) as (sy & -> & HIy); [by left|done|].
    cbn [mbind option_bind]. apply IH; [|done].
    intros sx y Hy. apply Hbody. by right.
Qed.

Section Reactivate_returns.
Context (now today : Z) (parse : Date → string → bool → option Date).

(** When every parent id names a task and the parent links go down a
    rank, a reactivation returns. *)
Lemma reactivate_returns (s0 : State) (rank : string → nat) :
  (∀ x t p, get_task s0 x = Some t → p ∈ parents t →
            is_Some (get_task s0 p) ∧ rank p < rank x) →
  ∀ fuel s self donedate propagation init,
    evolves reactivation_step s0 s →
    is_Some (get_task s0 self) →
    rank self < fuel →
    ∃ s', set_status now today parse fuel s self (Some STA_ACTIVE) donedate
            propagation init = Some s'.
Proof.
  intros Hrank. induction fuel as [|fuel IH];
    intros s self donedate propagation init Hev [t0 Ht0] Hfuel; [lia|].
  destruct (evolves_Some _ _ _ _ _ Hev Ht0) as (t & Ht & Hpar & _).
  cbn [set_status]. rewrite Ht. cbn [mbind option_bind].
  cbn [is_closed is_active andb].
  set (s1 := update_task (with_can_be_deleted false) self s).
  assert (evolves reactivation_step s0 s1) as Hev1.
  { subst s1. evolves_steps ltac:(intros; repeat split; auto). }
  assert (∃ s2,
    (if loaded t then
       if is_closed (status t) then
         me ← get_task s1 self;
         if has_parent me then
           for_each (λ s p_tid,
             par ← get_task s p_tid;
             if loaded par && is_closed (status par)
             then set_status now today parse fuel s p_tid
                    (Some STA_ACTIVE) None false false
             else Some s) (parents me) s1
         else Some s1
       else Some s1
     else Some s1) = Some s2 ∧ evolves reactivation_step s0 s2)
    as (s2 & -> & Hev2).
  { destruct (loaded t); [|by exists s1].
    destruct (is_closed (status t)); [|by exists s1].
    subst s1. rewrite get_task_update_eq, Ht. cbn [fmap option_fmap option_map mbind option_bind].
    destruct (has_parent _); [|by eexists].
    change (parents (with_can_be_deleted false t)) with (parents t).
    apply (for_each_returns (evolves reactivation_step s0)); [|done].
    intros sx p Hp Hsx. rewrite Hpar in Hp.
    destruct (Hrank _ _ _ Ht0 Hp) as [[tp0 Hp0] Hlt].
    destruct (evolves_Some _ _ _ _ _ Hsx Hp0) as (tp & -> & _).
    cbn [mbind option_bind].
    destruct (loaded tp && is_closed (status tp)); [|by exists sx].
    destruct (IH sx p None false false Hsx) as [sy Hsy]; [by eexists|lia|].
    exists sy. split; [done|].
    eapply evolves_trans; [exact _|exact Hsx|].
    by eapply reactivate_evolves. }
  cbn [mbind option_bind].
  destruct (evolves_Some _ _ _ _ _ Hev2 Ht0) as (t2 & -> & _).
  cbn [mbind option_bind]. by eexists.
Qed.
End Reactivate_returns.

(** C4 (amended): reactivating a loaded task that is done or dismissed
    makes the task Active, makes Active every loaded done or dismissed
    parent, and so on up the chain of such ancestors; the status of every
    task that is not an ancestor of the task stays as it is, so that of
    every sibling and of every descendant (none of which is an ancestor in
    a tree).  The call returns when the parent links name tasks and have
    no cycle. *)
Theorem reactivation_bubbles_up now today parse s self t :
  get_task s self = Some t →
  loaded t = true →
  is_closed (status t) = true →
  (∀ fuel donedate propagation init s',
     set_status now today parse fuel s self (Some STA_ACTIVE) donedate
       propagation init = Some s' →
     status_of s' self = Some STA_ACTIVE ∧
     (∀ a, bubbles s self a → status_of s' a = Some STA_ACTIVE) ∧
     (∀ x, x ≠ self → ¬ ancestor s self x →
           status_of s' x = status_of s x) ∧
     (∀ x, sibling s self x ∨ descendant s self x →
           x ≠ self → ¬ ancestor s self x →
           status_of s' x = status_of s x)) ∧
  (∀ rank : string → nat,
     (∀ x tx p, get_task s x = Some tx → p ∈ parents tx →
                is_Some (get_task s p) ∧ rank p < rank x) →
     ∀ donedate propagation init,
       ∃ s', set_status now today parse (S (rank self)) s self
               (Some STA_ACTIVE) donedate propagation init = Some s').
Proof.
  intros Ht Hl Hc. split.
  - intros fuel donedate propagation init s' Hrun.
    destruct (reactivate_spec now today parse fuel s s self donedate
                propagation init s') as (Hev & Hre & Hact & Hframe);
      [apply evolves_refl, _| |done|].
    { intros x t0 tx p tp Hx0 Hx. rewrite Hx0 in Hx. by simplify_eq. }
    split; [done|]. split; [|split; [done|]].
    + intros a Hbub.
      assert (∀ x a, bubbles s x a →
                status_of s' x = Some STA_ACTIVE →
                status_of s' a = Some STA_ACTIVE) as Hup.
      { clear -Hev Hre. induction 1 as [x tx p tp Hx Hlx Hcx Hp Htp Hlp Hcp|];
          [|by auto]. intros Hax.
        destruct (evolves_Some _ _ _ _ _ Hev Hx) as (tx' & Hx' & _).
        destruct (evolves_Some _ _ _ _ _ Hev Htp)
          as (tp' & Hp' & _ & _ & Hlp' & _).
        unfold status_of in Hax |- *. rewrite Hx' in Hax. rewrite Hp'.
        simpl in Hax |- *. f_equal. apply is_closed_not_active.
        apply (Hre x tx tx' p tp'); try done; [|congruence].
        injection Hax as ->. intros E. rewrite <- E in Hcx. done. }
      by apply (Hup self a).
    + intros x _. apply Hframe.
  - intros rank Hrank donedate propagation init.
    eapply reactivate_returns; [exact Hrank|apply evolves_refl, _|by eexists|lia].
Qed.

Lemma reactivation_bubbles_up_witness :
  ∃ s',
    set_status 7 1 sample_parse 3 closed_family "leaf" (Some STA_ACTIVE) None
      false false = Some s' ∧
    status_of s' "leaf" = Some STA_ACTIVE ∧
    status_of s' "kid" = Some STA_ACTIVE ∧
    status_of s' "parent" = Some STA_ACTIVE ∧
    status_of s' "other" = Some STA_DONE.
Proof.
  destruct (reactivation_bubbles_up 7 1 sample_parse closed_family "leaf"
              (sample_task "leaf" STA_DONE NoDate ["kid"] [])
              eq_refl eq_refl eq_refl) as [Hspec _].
  destruct (set_status 7 1 sample_parse 3 closed_family "leaf"
              (Some STA_ACTIVE) None false false) as [s'|] eqn:Hrun;
    [|discriminate Hrun].
  destruct (Hspec 3 None false false s' Hrun) as (Hself & Hup & Hframe & _).
  exists s'. split; [reflexivity|]. split; [exact Hself|].
  assert (bubbles closed_family "leaf" "kid") as Hkid.
  { eapply bubbles_parent; try reflexivity. by left. }
  assert (bubbles closed_family "kid" "parent") as Hpar.
  { eapply bubbles_parent; try reflexivity. by left. }
  split; [by apply Hup|].
  split; [apply Hup; by eapply bubbles_step|].
  injection Hrun as <-. vm_compute. reflexivity.
Defined.

(** The claim as stated fails on a task that is not loaded: it becomes
    Active and its loaded, done parent stays done. *)
Lemma reactivation_of_unloaded_task_stops :
  ∃ s',
    set_status 7 1 sample_parse 3 closed_family "cold" (Some STA_ACTIVE) None
      false false = Some s' ∧
    status_of closed_family "cold" = Some STA_DONE ∧
    (parents <$> get_task closed_family "cold") = Some ["parent"] ∧
    (loaded <$> get_task closed_family "parent") = Some true ∧
    status_of closed_family "parent" = Some STA_DONE ∧
    status_of s' "cold" = Some STA_ACTIVE ∧
    status_of s' "parent" = Some STA_DONE.
Proof. eexists. repeat split; vm_compute; reflexivity. Qed.

(** ** What leaves the status and the closed date alone

    Setting dates, recurrence, tags and titles, adding subtasks and
    duplicating tasks change neither the status nor the closed date of a
    task that was there. *)

#[global] Instance closing_kept_refl : Reflexive closing_kept.
Proof. by intros t. Qed.

#[global] Instance closing_kept_trans : Transitive closing_kept.
Proof. intros t1 t2 t3 [??] [??]. split; congruence. Qed.

Ltac closing_steps :=
  preserves_steps ltac:(intros; split; reflexivity).

(** One step of a proof about a method body: case on the next lookup,
    call or test of [H]. *)
Ltac body_step H :=
  cbv beta in H;
  match type of H with
  | mbind _ ?m = Some _ =>
      let E := fresh "E" in
      destruct m eqn:E; cbn [mbind option_bind] in H; [|discriminate H]
  | (if ?b then _ else _) = Some _ => destruct b eqn:?
  | (let '(_, _) := ?p in _) = Some _ => destruct p eqn:?
  | Some _ = Some _ => injection H as <-
  | None = Some _ => discriminate H
  end.

(** The same, naming the equation of a lookup or call. *)
Ltac body_bind H E :=
  cbv beta in H;
  match type of H with
  | mbind _ ?m = Some _ =>
      destruct m eqn:E; cbn [mbind option_bind] in H; [|discriminate H]
  end.

Section Closing_kept.
Context (now today : Z) (parse : Date → string → bool → option Date).

Lemma recursive_sync_closing fuel :
  ∀ s self s',
    recursive_sync now fuel s self = Some s' → preserves closing_kept s s'.
Proof.
  induction fuel as [|fuel IH]; intros s self s' Hrun; [done|].
  cbn [recursive_sync] in Hrun. body_step Hrun.
  eapply preserves_trans; [exact _| |].
  - apply (preserves_sync closing_kept now s self). by intros.
  - eapply preserves_for_each; [exact _..| |exact Hrun].
    intros sx x sy _ Hbody. by eapply IH.
Qed.

Lemma set_start_date_closing s self d :
  preserves closing_kept s (set_start_date now s self d).
Proof. unfold set_start_date. closing_steps. Qed.

Lemma set_due_date_closing fuel :
  ∀ s self d s',
    set_due_date now fuel s self d = Some s' → preserves closing_kept s s'.
Proof.
  induction fuel as [|fuel IH]; intros s self d s' Hrun; [done|].
  cbn [set_due_date] in Hrun. body_step Hrun.
  set (s1 := update_task (with_due_date d) self s) in *.
  assert (preserves closing_kept s s1) as H1 by (subst s1; closing_steps).
  body_step Hrun.
  assert (preserves closing_kept s1 s0) as H2.
  { clear Hrun. body_step E0; [|body_step E0; apply preserves_refl, _].
    body_step E0. body_step E0. body_step E0.
    eapply preserves_trans; [exact _| |].
    - eapply preserves_for_each; [exact _..| |exact E2].
      intros sx x sy _ Hbody. body_step Hbody.
      body_step Hbody; [by eapply IH|]. body_step Hbody.
      apply preserves_refl, _.
    - eapply preserves_for_each; [exact _..| |exact E0].
      intros sx x sy _ Hbody. body_step Hbody. body_step Hbody.
      body_step Hbody.
      assert (preserves closing_kept sx s3) as Hx.
      { body_step E5; [by eapply IH|]. body_step E5.
        apply preserves_refl, _. }
      body_step Hbody; body_step Hbody; [|done].
      eapply preserves_trans; [exact _|exact Hx|].
      apply set_start_date_closing. }
  pose proof (preserves_trans _ _ _ _ H1 H2) as H12.
  body_step Hrun; [|by body_step Hrun].
  eapply preserves_trans; [exact _|exact H12|].
  by eapply recursive_sync_closing.
Qed.

Lemma set_recurring_closing fuel :
  ∀ s self r term newtask s',
    set_recurring now today parse fuel s self r term newtask = Some s' →
    preserves closing_kept s s'.
Proof.
  induction fuel as [|fuel IH]; intros s self r term newtask s' Hrun; [done|].
  cbn [set_recurring] in Hrun. body_step Hrun. body_step Hrun.
  body_step Hrun.
  assert (preserves closing_kept s s0) as H1.
  { clear Hrun. repeat body_step E0; try closing_steps.
    eapply preserves_trans; [exact _| |by eapply set_due_date_closing].
    closing_steps. }
  body_step Hrun.
  apply (preserves_trans _ _ _ _ H1).
  eapply preserves_trans; [exact _| |].
  - apply (preserves_sync closing_kept now s0 self). by intros.
  - eapply preserves_for_each; [exact _..| |exact Hrun].
    intros sx x sy _ Hbody. body_step Hbody.
    body_step Hbody; [|body_step Hbody; apply preserves_refl, _].
    body_step Hbody. body_step Hbody. body_step Hbody.
    apply (preserves_trans _ _ _ _ (IH _ _ _ _ _ _ E4)).
    body_step Hbody; [by eapply set_due_date_closing|].
    body_step Hbody. apply preserves_refl, _.
Qed.

Lemma inherit_recursion_closing fuel s self s' :
  inherit_recursion now today parse fuel s self = Some s' →
  preserves closing_kept s s'.
Proof.
  unfold inherit_recursion. intros Hrun. body_step Hrun.
  body_step Hrun; [|by eapply set_recurring_closing].
  eapply preserves_for_each; [exact _..| |exact Hrun].
  intros sx x sy _ Hbody. body_step Hbody.
  body_step Hbody; [|body_step Hbody; apply preserves_refl, _].
  body_step Hbody. body_step Hbody.
  apply (preserves_trans _ _ _ _ (set_recurring_closing _ _ _ _ _ _ _ E1)).
  by eapply set_due_date_closing.
Qed.

Lemma new_task_closing fuel s s' id :
  new_task now today parse fuel s = Some (s', id) →
  preserves closing_kept s s' ∧ get_task s id = None.
Proof.
  unfold new_task. intros Hrun. body_step Hrun. injection Hrun as <- <-.
  assert (get_task s (fresh (dom (tasks s))) = None) as Hfresh.
  { unfold get_task. apply not_elem_of_dom. apply is_fresh. }
  split; [|done].
  eapply preserves_trans;
    [exact _| |by eapply inherit_recursion_closing].
  intros x t Ht. exists t. split; [|done].
  unfold get_task in *. simpl. rewrite lookup_insert_ne; [done|].
  intros <-. congruence.
Qed.

Lemma tag_added_closing fuel :
  ∀ s self name s' b,
    tag_added fuel s self name = Some (s', b) → preserves closing_kept s s'.
Proof.
  induction fuel as [|fuel IH]; intros s self name s' b Hrun; [done|].
  cbn [tag_added] in Hrun. body_step Hrun.
  body_step Hrun; [injection Hrun as <- <-; apply preserves_refl, _|].
  body_step Hrun. injection Hrun as <- <-.
  body_step E0; [|body_step E0; closing_steps].
  body_step E0. body_step E0. apply preserves_emit_r.
  intros x t0 Ht0. rewrite get_task_register_tag. revert x t0 Ht0.
  eapply preserves_trans; [exact _| |].
  - apply (preserves_update closing_kept
             (λ t0, with_tags (tags t0 ++ [name]) t0) self s). by intros.
  - eapply preserves_for_each; [exact _..| |exact E1].
    intros sx x sy _ Hbody. body_step Hbody.
    body_step Hbody; [|body_step Hbody; apply preserves_refl, _].
    destruct (tag_added fuel sx x name) as [[sz bz]|] eqn:Hcall;
      [|discriminate Hbody].
    injection Hbody as <-. by eapply IH.
Qed.

Lemma add_tag_closing fuel s self name s' :
  add_tag now fuel s self name = Some s' → preserves closing_kept s s'.
Proof.
  unfold add_tag. intros Hrun.
  destruct (tag_added fuel s self name) as [[sa b]|] eqn:Hcall;
    cbn [mbind option_bind] in Hrun; [|done].
  apply (preserves_trans _ _ _ _ (tag_added_closing _ _ _ _ _ _ Hcall)).
  destruct b; [|body_step Hrun; apply preserves_refl, _].
  body_step Hrun. body_step Hrun. closing_steps.
Qed.

Lemma register_tags_get names s id :
  get_task (register_tags names s) id = get_task s id.
Proof.
  unfold register_tags. revert s.
  induction names as [|n names IH]; intros s; simpl; [done|].
  by rewrite IH.
Qed.

Lemma tree_add_child_closing s self c :
  preserves closing_kept s (tree_add_child s self c).
Proof. unfold tree_add_child. closing_steps. Qed.

Lemma add_child_closing fuel s self c s' :
  add_child now today parse fuel s self c = Some s' →
  preserves closing_kept s s'.
Proof.
  unfold add_child. intros Hrun.
  set (s1 := tree_add_child _ self c) in Hrun.
  assert (preserves closing_kept s s1) as H1.
  { subst s1. eapply preserves_trans; [exact _| |apply tree_add_child_closing].
    closing_steps. }
  body_step Hrun. body_step Hrun. body_step Hrun.
  apply (preserves_trans _ _ _ _ H1). clear H1.
  apply preserves_sync_r; [exact _..|by intros|].
  destruct (get_task s1 c) as [child|]; [|body_step E0; apply preserves_refl, _].
  body_step E0; [|body_step E0; apply preserves_refl, _].
  body_step E0. body_step E0. body_step E0.
  assert (preserves closing_kept s1 s2) as H2.
  { body_step E1; [|body_step E1; apply preserves_refl, _].
    body_step E1.
    eapply preserves_trans;
      [exact _|apply set_start_date_closing|by eapply set_due_date_closing]. }
  apply (preserves_trans _ _ _ _ H2).
  eapply preserves_trans; [exact _| |by eapply inherit_recursion_closing].
  eapply preserves_trans; [exact _| |].
  - intros x tx Hx. exists tx. split; [|done].
    by rewrite register_tags_get.
  - eapply preserves_for_each; [exact _..| |exact E3].
    intros sx x sy _ Hbody. cbv beta in Hbody. by eapply add_tag_closing.
Qed.

Lemma set_title_closing s self title :
  preserves closing_kept s (set_title now s self title).
Proof.
  unfold set_title. destruct (get_task s self); [|apply preserves_refl, _].
  case_bool_decide; closing_steps.
Qed.

Lemma duplicate_closing fuel s self s' copy :
  duplicate now today parse fuel s self = Some (s', copy) →
  preserves closing_kept s s'.
Proof.
  unfold duplicate. intros Hrun.
  destruct (new_task now today parse fuel s) as [[s1 id]|] eqn:Hnew;
    cbn [mbind option_bind] in Hrun; [|done].
  destruct (new_task_closing _ _ _ _ Hnew) as [H1 _].
  do 6 body_step Hrun. injection Hrun as <- <-.
  apply (preserves_trans _ _ _ _ H1).
  apply (preserves_trans _ _ _ _ (set_recurring_closing _ _ _ _ _ _ _ E0)).
  apply (preserves_trans _ _ _ _ (set_due_date_closing _ _ _ _ _ E2)).
  apply preserves_update_r; [exact _..|by intros|].
  apply preserves_update_r; [exact _..|by intros|].
  apply set_title_closing.
Qed.

Lemma duplicate_recursively_closing fuel :
  ∀ s self s' copy,
    duplicate_recursively now today parse fuel s self = Some (s', copy) →
    preserves closing_kept s s'.
Proof.
  induction fuel as [|fuel IH]; intros s self s' copy Hrun; [done|].
  cbn [duplicate_recursively] in Hrun.
  destruct (duplicate now today parse fuel s self) as [[s1 newtask]|] eqn:Hdup;
    cbn [mbind option_bind] in Hrun; [|done].
  body_step Hrun. body_step Hrun. injection Hrun as <- <-.
  apply (preserves_trans _ _ _ _ (duplicate_closing _ _ _ _ _ Hdup)).
  apply preserves_sync_r; [exact _..|by intros|].
  body_step E0; [|body_step E0; apply preserves_refl, _].
  eapply preserves_for_each; [exact _..| |exact E0].
  intros sx x sy _ Hbody. body_step Hbody.
  body_step Hbody; [|body_step Hbody; apply preserves_refl, _].
  destruct (duplicate_recursively now today parse fuel sx x)
    as [[sz dup]|] eqn:Hrec; cbn [mbind option_bind] in Hbody; [|done].
  apply (preserves_trans _ _ _ _ (IH _ _ _ _ Hrec)).
  by eapply add_child_closing.
Qed.
End Closing_kept.

(** ** Closing a task *)

Section Closing.
Context (now today : Z) (parse : Date → string → bool → option Date).
Context (st : Status) (donedate : option Date).
Context (Hst : is_closed st = true).

Let cd : Date := default (Concrete today) donedate.

#[local] Instance closing_step_refl : Reflexive (closing_step st cd).
Proof. intros t. repeat split. by left. Qed.

#[local] Instance closing_step_trans : Transitive (closing_step st cd).
Proof using Hst.
  intros t1 t2 t3 (Hc12 & Hl12 & Hs12) (Hc23 & Hl23 & Hs23).
  split; [congruence|]. split; [congruence|].
  destruct Hs12 as [[E1 E1']|(A1 & E1 & E1')],
           Hs23 as [[E2 E2']|(A2 & E2 & E2')].
  - left. split; congruence.
  - right. repeat split; congruence.
  - right. repeat split; congruence.
  - exfalso. rewrite E1 in A2. rewrite A2 in Hst. done.
Qed.

Lemma close_tail_evolves s s2 self init t t2 :
  evolves (closing_step st cd) s s2 →
  get_task s self = Some t →
  status t = STA_ACTIVE →
  get_task s2 self = Some t2 →
  evolves (closing_step st cd) s
    (sync now
       (update_task (with_closed_date cd) self
          (update_task (with_status st) self
             (if init : bool then s2
              else emit (StatusChanged self (status t2) st) s2))) self).
Proof using Hst.
  intros Hev Ht Hact Ht2 id.
  assert (∀ y, get_task (if init then s2
                else emit (StatusChanged self (status t2) st) s2) y
               = get_task s2 y) as HsX by (by destruct init).
  specialize (Hev id).
  destruct (get_task_sync now
    (update_task (with_closed_date cd) self
       (update_task (with_status st) self
          (if init then s2
           else emit (StatusChanged self (status t2) st) s2))) self id)
    as [->|[-> ->]]; rewrite !get_task_update, HsX.
  - destruct (decide (self = id)) as [<-|]; [|done].
    rewrite Ht, Ht2 in *. simpl. destruct Hev as (Hc & Hl & _).
    repeat split; auto.
  - rewrite Ht, Ht2 in *. rewrite !decide_True by done. simpl.
    destruct Hev as (Hc & Hl & _). repeat split; auto.
Qed.

(** A closing that comes down from a parent keeps the links and closes
    Active tasks only. *)
Lemma cascade_evolves fuel :
  ∀ s self init s',
    status_of s self = Some STA_ACTIVE →
    set_status now today parse fuel s self (Some st) donedate true init
    = Some s' →
    evolves (closing_step st cd) s s'.
Proof using Hst.
  induction fuel as [|fuel IH]; intros s self init s' Hact Hrun; [done|].
  cbn [set_status] in Hrun. body_bind Hrun Ht. rewrite Hst in Hrun.
  set (s1 := update_task (with_can_be_deleted false) self s) in Hrun.
  assert (evolves (closing_step st cd) s s1) as H1.
  { subst s1. evolves_steps ltac:(intros; repeat split; auto). }
  body_bind Hrun Hmid.
  assert (evolves (closing_step st cd) s1 s0) as H2.
  { clear Hrun. body_step Hmid; [|body_step Hmid; apply evolves_refl, _].
    body_bind Hmid Hloop. body_bind Hmid Hme.
    rewrite andb_false_r in Hmid. body_step Hmid.
    eapply evolves_for_each; [exact _..| |exact Hloop].
    intros sx x sy _ Hbody. body_bind Hbody Hx.
    body_step Hbody; [|body_step Hbody; apply evolves_refl, _].
    eapply IH; [|exact Hbody]. unfold status_of. rewrite Hx. simpl.
    by destruct (status t1). }
  pose proof (evolves_trans _ _ _ _ H1 H2) as H12.
  body_bind Hrun Hme. injection Hrun as <-.
  unfold status_of in Hact. rewrite Ht in Hact. injection Hact as Hact.
  by eapply close_tail_evolves.
Qed.

(** The status and the closed date after the last assignments of
    [set_status]. *)
Lemma close_tail_get s2 self init e y :
  (status <$> get_task (sync now
     (update_task (with_closed_date cd) self
        (update_task (with_status st) self
           (if init : bool then s2 else emit e s2))) self) y
   = if decide (self = y) then (λ _, st) <$> get_task s2 y
     else status <$> get_task s2 y) ∧
  (closed_date <$> get_task (sync now
     (update_task (with_closed_date cd) self
        (update_task (with_status st) self
           (if init : bool then s2 else emit e s2))) self) y
   = if decide (self = y) then (λ _, cd) <$> get_task s2 y
     else closed_date <$> get_task s2 y).
Proof.
  assert (∀ z, get_task (if init then s2 else emit e s2) z = get_task s2 z)
    as HsX by (by destruct init).
  split.
  - rewrite (get_task_sync_field status) by done.
    rewrite !get_task_update, HsX.
    destruct (decide (self = y)); [|done]. by destruct (get_task s2 y).
  - rewrite (get_task_sync_field closed_date) by done.
    rewrite !get_task_update, HsX.
    destruct (decide (self = y)); [|done]. by destruct (get_task s2 y).
Qed.

Lemma children_closed_same s0 s s1 :
  children_closed s0 s →
  (∀ y, status_of s1 y = status_of s y) →
  children_closed s0 s1.
Proof.
  intros Hcl Hsame x t0 t c tc Hx0 Hx Hch Hl Hc Hc1.
  assert (∃ t', get_task s x = Some t' ∧ status t' = status t)
    as (t' & Hx' & Ex).
  { specialize (Hsame x). unfold status_of in Hsame. rewrite Hx in Hsame.
    destruct (get_task s x) as [t'|]; [|done]. simpl in Hsame.
    exists t'. split; [done|congruence]. }
  assert (∃ tc', get_task s c = Some tc' ∧ status tc' = status tc)
    as (tc' & Hc' & Ec).
  { specialize (Hsame c). unfold status_of in Hsame. rewrite Hc1 in Hsame.
    destruct (get_task s c) as [tc'|]; [|done]. simpl in Hsame.
    exists tc'. split; [done|congruence]. }
  rewrite <- Ec. eapply (Hcl x t0 t' c tc'); try done. congruence.
Qed.

(** The loop over the subtasks, given what a closing that comes down
    from a parent does with the fuel of the loop. *)
Lemma cascade_loop fuel :
  (∀ s0 sx c sy,
     evolves (closing_step st cd) s0 sx → children_closed s0 sx →
     status_of sx c = Some STA_ACTIVE →
     set_status now today parse fuel sx c (Some st) donedate true false
     = Some sy →
     children_closed s0 sy ∧ status_of sy c = Some st) →
  ∀ l s0 sx sy,
    evolves (closing_step st cd) s0 sx → children_closed s0 sx →
    for_each (close_child now today parse fuel st donedate) l sx = Some sy →
    evolves (closing_step st cd) sx sy ∧ children_closed s0 sy ∧
    ∀ c tc, c ∈ l → get_task sy c = Some tc →
            is_active (status tc) = false.
Proof using Hst.
  intros Hcall. induction l as [|c l IHl]; intros s0 sx sy Hev Hcl Hfor.
  - cbn [for_each] in Hfor. injection Hfor as <-.
    split; [apply evolves_refl, _|]. split; [done|].
    intros c tc Hc. by apply elem_of_nil in Hc.
  - cbn [for_each] in Hfor. body_bind Hfor Hhead.
    assert (evolves (closing_step st cd) sx s ∧ children_closed s0 s ∧
            ∀ tc, get_task s c = Some tc → is_active (status tc) = false)
      as (Hevm & Hclm & Hcm).
    { unfold close_child in Hhead. body_bind Hhead Hc.
      destruct (is_active (status t)) eqn:Hact.
      - assert (status_of sx c = Some STA_ACTIVE) as Hact'.
        { unfold status_of. rewrite Hc. simpl. by destruct (status t). }
        destruct (Hcall s0 sx c s Hev Hcl Hact' Hhead) as [Hclm Hst'].
        split; [by eapply cascade_evolves|]. split; [done|].
        intros tc Htc. unfold status_of in Hst'. rewrite Htc in Hst'.
        injection Hst' as ->. by destruct st.
      - injection Hhead as <-. split; [apply evolves_refl, _|].
        split; [done|]. intros tc Htc. by simplify_eq. }
    destruct (IHl s0 s sy (evolves_trans _ _ _ _ Hev Hevm) Hclm Hfor)
      as (Hevy & Hcly & Hrest).
    split; [exact (evolves_trans _ _ _ _ Hevm Hevy)|]. split; [done|].
    intros q tq Hq Htq. apply elem_of_cons in Hq as [->|Hq];
      [|by eapply Hrest].
    destruct (evolves_Some_inv _ _ _ _ _ Hevy Htq) as (tm & Htm & _ & _ & Hs).
    specialize (Hcm tm Htm).
    destruct Hs as [[E _]|(E & _)]; [by rewrite E|by rewrite E in Hcm].
Qed.

(** A closing that comes down from a parent leaves no Active child under
    a task it has closed. *)
Lemma cascade_spec fuel :
  ∀ s0 s self init s',
    evolves (closing_step st cd) s0 s → children_closed s0 s →
    status_of s self = Some STA_ACTIVE →
    set_status now today parse fuel s self (Some st) donedate true init
    = Some s' →
    children_closed s0 s' ∧ status_of s' self = Some st.
Proof using Hst.
  induction fuel as [|fuel IH]; intros s0 s self init s' Hev Hcl Hact Hrun;
    [done|].
  cbn [set_status] in Hrun. body_bind Hrun Ht. rewrite Hst in Hrun.
  set (s1 := update_task (with_can_be_deleted false) self s) in Hrun.
  assert (∀ y, status_of s1 y = status_of s y) as Hsame1.
  { intros y. subst s1. unfold status_of. rewrite get_task_update.
    destruct (decide (self = y)); [|done]. by destruct (get_task s y). }
  assert (evolves (closing_step st cd) s0 s1) as Hev1.
  { subst s1. evolves_steps ltac:(intros; repeat split; auto). }
  pose proof (children_closed_same _ _ _ Hcl Hsame1) as Hcl1.
  body_bind Hrun Hmid.
  assert (evolves (closing_step st cd) s1 s2 ∧ children_closed s0 s2 ∧
          (loaded t = true →
           ∀ c tc, c ∈ children t → get_task s2 c = Some tc →
                   is_active (status tc) = false))
    as (Hev2 & Hcl2 & Hdone).
  { clear Hrun. body_step Hmid;
      [|body_step Hmid; split; [apply evolves_refl, _|done]].
    body_bind Hmid Hloop. body_bind Hmid Hme.
    rewrite andb_false_r in Hmid. body_step Hmid.
    destruct (cascade_loop fuel) with (l := children t) (s0 := s0)
      (sx := s1) (sy := s3) as (E & C & D); try done.
    intros s0' sx c sy. by apply IH. }
  body_bind Hrun Hme2. injection Hrun as <-.
  assert (∀ y, status_of
       (sync now
          (update_task (with_closed_date cd) self
             (update_task (with_status st) self
                (if init then s2
                 else emit (StatusChanged self (status t0) st) s2))) self) y
     = if decide (self = y) then Some st else status_of s2 y) as Hst'.
  { intros y. unfold status_of.
    destruct (close_tail_get s2 self init
                (StatusChanged self (status t0) st) y) as [-> _].
    destruct (decide (self = y)) as [<-|]; [|done]. by rewrite Hme2. }
  split; [|by rewrite Hst', decide_True].
  intros x tx0 tx c tc Hx0 Hx Hch Hl Hc Hc'.
  assert (status_of _ c = Some (status tc)) as Hsc
    by (unfold status_of; by rewrite Hc').
  rewrite Hst' in Hsc.
  destruct (decide (self = c)) as [->|Hnc];
    [injection Hsc as <-; by destruct st|].
  unfold status_of in Hsc.
  destruct (get_task s2 c) as [tc2|] eqn:Hc2; [|done].
  simpl in Hsc. injection Hsc as <-.
  assert (status_of _ x = Some (status tx)) as Hsx
    by (unfold status_of; by rewrite Hx).
  rewrite Hst' in Hsx. destruct (decide (self = x)) as [<-|Hnx].
  - destruct (evolves_Some _ _ _ _ _ Hev Hx0) as (t' & Ht' & Hc_ & Hl_ & _).
    rewrite Ht in Ht'. injection Ht' as <-.
    apply (Hdone ltac:(congruence) c tc2); [by rewrite Hc_|done].
  - unfold status_of in Hsx.
    destruct (get_task s2 x) as [tx2|] eqn:Hx2; [|done].
    simpl in Hsx. injection Hsx as Hsx.
    eapply (Hcl2 x tx0 tx2 c tc2); try done. congruence.
Qed.

Lemma cascades_ends s x d :
  cascades s x d →
  (∃ tx, get_task s x = Some tx ∧ loaded tx = true) ∧
  (∃ td, get_task s d = Some td ∧ status td = STA_ACTIVE).
Proof.
  induction 1 as [x t c tc Hx Hl Hc Htc Hact|x c d _ [IH1 _] _ [_ IH2]];
    [|done].
  split; [by exists t|]. exists tc. split; [done|]. by destruct (status tc).
Qed.

(** Below a task whose Active children are all closed, the whole cascade
    is closed. *)
Lemma cascades_closed s s2 :
  evolves (closing_step st cd) s s2 → children_closed s s2 →
  ∀ x d, cascades s x d →
    (∀ tx c tc2, get_task s x = Some tx → c ∈ children tx →
                 get_task s2 c = Some tc2 → is_active (status tc2) = false) →
    ∃ td2, get_task s2 d = Some td2 ∧ status td2 = st ∧ closed_date td2 = cd.
Proof using Hst.
  intros Hev Hcl x d Hcas.
  induction Hcas as [x t c tc Hx Hl Hc Htc Hact|x c d H1 IH1 H2 IH2];
    intros Hx_closed.
  - destruct (evolves_Some _ _ _ _ _ Hev Htc) as (tc2 & Htc2 & _ & _ & Hs).
    exists tc2. split; [done|].
    pose proof (Hx_closed t c tc2 Hx Hc Htc2) as Hna.
    destruct Hs as [[E _]|(_ & E1 & E2)]; [|done].
    rewrite E, Hact in Hna. done.
  - destruct (IH1 Hx_closed) as (tc2 & Htc2 & Hsc & _).
    destruct (cascades_ends _ _ _ H2) as [(tc & Htc & Hlc) _].
    destruct (cascades_ends _ _ _ H1) as [_ (tc' & Htc' & Hact)].
    rewrite Htc in Htc'. injection Htc' as <-.
    apply IH2. intros tx e te2 Hx' He He2. rewrite Htc in Hx'.
    injection Hx' as <-.
    eapply (Hcl c tc tc2 e te2); try done.
    rewrite Hsc, Hact. intros E. rewrite E in Hst. done.
Qed.

(** When [set_status] with Done or Dismissed returns on a loaded task,
    the task has that status and the closed date [donedate], or today's
    date when none was supplied, and so has every task the cascade
    reaches: every Active child, every Active child of such a child that
    is loaded, and so on. *)
Lemma closing_reaches s self t :
  get_task s self = Some t →
  loaded t = true →
  ∀ fuel propagation init s',
    set_status now today parse fuel s self (Some st) donedate propagation
      init = Some s' →
    (∃ t', get_task s' self = Some t' ∧ status t' = st
           ∧ closed_date t' = default (Concrete today) donedate) ∧
    (∀ d, cascades s self d →
       ∃ td, get_task s' d = Some td ∧ status td = st
             ∧ closed_date td = default (Concrete today) donedate).
Proof using Hst.
  intros Ht Hl fuel propagation init s' Hrun. fold cd.
  destruct fuel as [|fuel]; [done|].
  cbn [set_status] in Hrun. rewrite Ht in Hrun.
  cbn [mbind option_bind] in Hrun. rewrite Hl, Hst in Hrun.
  fold cd in Hrun.
  set (s1 := update_task (with_can_be_deleted false) self s) in Hrun.
  assert (∀ y, status_of s1 y = status_of s y) as Hsame1.
  { intros y. subst s1. unfold status_of. rewrite get_task_update.
    destruct (decide (self = y)); [|done]. by destruct (get_task s y). }
  assert (evolves (closing_step st cd) s s1) as Hev1.
  { subst s1. evolves_steps ltac:(intros; repeat split; auto). }
  assert (children_closed s s1) as Hcl1.
  { apply (children_closed_same s s); [|done].
    intros x t0 tx c tc Hx0 Hx. rewrite Hx0 in Hx. by simplify_eq. }
  body_bind Hrun Hmid. body_bind Hmid Hloop. body_bind Hmid Hme.
  destruct (cascade_loop fuel) with (l := children t) (s0 := s)
    (sx := s1) (sy := s2) as (Hev2 & Hcl2 & Hdone); try done.
  { intros s0' sx c sy. by apply cascade_spec. }
  (* the successor of a recurring task *)
  assert (preserves closing_kept s2 s0) as Hkept.
  { clear Hrun. body_step Hmid; [|body_step Hmid; apply preserves_refl, _].
    body_bind Hmid Hpr.
    body_step Hmid; [|body_step Hmid; apply preserves_refl, _].
    destruct (duplicate_recursively now today parse fuel s2 self)
      as [[s3 nid]|] eqn:Hdup; cbn [mbind option_bind] in Hmid; [|done].
    apply (preserves_trans _ _ _ _
             (duplicate_recursively_closing _ _ _ _ _ _ _ _ Hdup)).
    body_bind Hmid Hme3.
    body_step Hmid; [|body_step Hmid; apply preserves_refl, _].
    eapply preserves_for_each; [exact _..| |exact Hmid].
    intros sx p sy _ Hbody. body_bind Hbody Hp.
    body_step Hbody; [|body_step Hbody; apply preserves_refl, _].
    body_bind Hbody Hadd. injection Hbody as <-.
    apply preserves_sync_r; [exact _..|by intros|].
    by eapply add_child_closing. }
  body_bind Hrun Hme0. injection Hrun as <-.
  pose proof (close_tail_get s0 self init
                (StatusChanged self (status t1) st)) as Htail.
  unfold cd in *. split.
  - destruct (Htail self) as [Hs Hc]. rewrite decide_True in Hs by done.
    rewrite decide_True in Hc by done.
    rewrite Hme0 in Hs, Hc. simpl in Hs, Hc.
    destruct (get_task (sync _ _ _) self) as [t'|]; simpl in Hs, Hc; [|done].
    exists t'. split; [done|]. injection Hs as Hs. injection Hc as Hc. done.
  - intros d Hcas.
    destruct (cascades_closed s s2 (evolves_trans _ _ _ _ Hev1 Hev2) Hcl2
                self d Hcas) as (td2 & Htd2 & Hs2 & Hc2).
    { intros tx c tc2 Hx Hc Hc2. rewrite Ht in Hx. injection Hx as <-.
      by eapply Hdone. }
    destruct (Hkept d td2 Htd2) as (td0 & Htd0 & Hs0 & Hc0).
    destruct (Htail d) as [Hs Hc]. rewrite Htd0 in Hs, Hc.
    destruct (get_task (sync _ _ _) d) as [td'|];
      [|by destruct (decide (self = d)); simpl in Hs].
    exists td'. split; [done|].
    unfold cd in *.
    destruct (decide (self = d)); simpl in Hs, Hc;
      injection Hs as Hs; injection Hc as Hc; split; congruence.
Qed.
End Closing.

(** The claim as stated fails: [low] and [deep] are loaded, Active
    descendants of [top], the first below a done task and the second below
    a task that is not loaded, and both stay Active. *)
Lemma closing_skips_broken_chain :
  ∃ s',
    set_status 7 1 sample_parse 3 broken_chain "top" (Some STA_DONE) None
      false false = Some s' ∧
    descendant broken_chain "top" "low" ∧
    descendant broken_chain "top" "deep" ∧
    (loaded <$> get_task broken_chain "low") = Some true ∧
    (loaded <$> get_task broken_chain "deep") = Some true ∧
    status_of broken_chain "low" = Some STA_ACTIVE ∧
    status_of broken_chain "deep" = Some STA_ACTIVE ∧
    status_of s' "top" = Some STA_DONE ∧
    status_of s' "low" = Some STA_ACTIVE ∧
    status_of s' "deep" = Some STA_ACTIVE.
Proof.
  eexists. split; [vm_compute; reflexivity|].
  split.
  { eapply ancestor_step; [reflexivity|by left|].
    eapply ancestor_parent; [reflexivity|by left]. }
  split.
  { eapply ancestor_step; [reflexivity|by left|].
    eapply ancestor_parent; [reflexivity|by left]. }
  repeat split; vm_compute; reflexivity.
Qed.

(** ** Due dates *)

#[global] Instance due_step_refl d : Reflexive (due_step d).
Proof. intros t. repeat split; by left. Qed.

#[global] Instance due_step_trans d : Transitive (due_step d).
Proof.
  intros t1 t2 t3 (Hp12 & Hc12 & Hs12 & Hd12) (Hp23 & Hc23 & Hs23 & Hd23).
  split; [congruence|]. split; [congruence|]. split.
  - destruct Hs23 as [E|E]; [rewrite E; exact Hs12|by right].
  - destruct Hd23 as [E|[E F]]; [rewrite E; exact Hd12|].
    right. split; [done|].
    destruct Hd12 as [E'|[E' F']]; [by rewrite <- E'|done].
Qed.

Lemma date_ltb_irrefl d : date_ltb d d = false.
Proof. destruct d; simpl; try done. apply Z.ltb_irrefl. Qed.

Lemma date_ltb_concrete a b : date_ltb a b = true → is_fuzzy a = false.
Proof. by destruct a. Qed.

(** A propagation of a date that is not fuzzy keeps every due date as
    fuzzy as it was. *)
Lemma due_step_fuzzy d t t' :
  is_fuzzy d = false → due_step d t t' →
  is_fuzzy (due_date t') = is_fuzzy (due_date t).
Proof.
  intros Hd (_ & _ & _ & [E|[E F]]); [by rewrite E|]. by rewrite E, Hd, F.
Qed.

Lemma mapM_join_elem {A B} (f : A → option (list B)) l r x :
  mjoin <$> mapM f l = Some r →
  x ∈ r ↔ ∃ y ys, y ∈ l ∧ f y = Some ys ∧ x ∈ ys.
Proof.
  revert r. induction l as [|y l IH]; intros r Hr.
  - simpl in Hr. injection Hr as <-. split.
    + intros H. by apply elem_of_nil in H.
    + intros (y & ys & H & _). by apply elem_of_nil in H.
  - cbn [mapM] in Hr. destruct (f y) as [ys|] eqn:Hy; [|done].
    cbn [mbind option_bind] in Hr.
    destruct (mapM f l) as [k|] eqn:Hk; [|done]. simpl in Hr.
    injection Hr as <-. specialize (IH (mjoin k) eq_refl).
    rewrite elem_of_app, IH. split.
    + intros [H|(z & zs & Hz & Hfz & Hx)].
      * exists y, ys. split; [by left|done].
      * exists z, zs. split; [by right|done].
    + intros (z & zs & Hz & Hfz & Hx).
      apply elem_of_cons in Hz as [->|Hz].
      * left. congruence.
      * right. by exists z, zs.
Qed.

Section Defined_lists.

Lemma get_defined_parent_list_spec fuel :
  ∀ s c pars,
    get_defined_parent_list fuel s c = Some pars →
    ∀ a, a ∈ pars ↔ defined_parent s c a.
Proof.
  induction fuel as [|fuel IH]; intros s c pars Hrun a; [done|].
  cbn [get_defined_parent_list] in Hrun.
  destruct (get_task s c) as [tc|] eqn:Hc; [|done].
  cbn [mbind option_bind] in Hrun.
  rewrite (mapM_join_elem _ _ _ a Hrun). split.
  - intros (m & ms & Hm & Hfm & Ha).
    destruct (get_task s m) as [tm|] eqn:Htm; [|done].
    cbn [mbind option_bind] in Hfm.
    destruct (is_fuzzy (due_date tm)) eqn:Hfz.
    + eapply defined_parent_skip; [done..|]. by eapply IH.
    + injection Hfm as <-. apply list_elem_of_singleton in Ha as ->.
      by eapply defined_parent_here.
  - intros Hdp.
    assert (∀ m, m ∈ parents tc →
              is_Some (tm ← get_task s m;
                       if is_fuzzy (due_date tm)
                       then get_defined_parent_list fuel s m
                       else Some [m])) as Hall.
    { intros m Hm. destruct (mapM _ (parents tc)) as [k|] eqn:Hk; [|done].
      apply mapM_Some_1 in Hk.
      apply list_elem_of_lookup in Hm as [i Hi].
      destruct (Forall2_lookup_l _ _ _ _ _ Hk Hi) as (ms & _ & Hms).
      by eexists. }
    inversion Hdp as [c' tc' a' ta Hc' Ha Hta Hfz|c' tc' m tm a' Hc' Hm Htm Hfz Hrest];
      subst; rewrite Hc in Hc'; injection Hc' as <-.
    + exists a, [a]. split; [done|]. rewrite Hta. simpl. rewrite Hfz.
      split; [done|by left].
    + destruct (Hall m Hm) as [ms Hms]. exists m, ms. split; [done|].
      split; [done|]. rewrite Htm in Hms. simpl in Hms. rewrite Hfz in Hms.
      by apply (IH _ _ _ Hms).
Qed.

Lemma get_defined_child_list_spec fuel :
  ∀ s a subs,
    get_defined_child_list fuel s a = Some subs →
    ∀ c, c ∈ subs ↔ defined_child s a c.
Proof.
  induction fuel as [|fuel IH]; intros s a subs Hrun c; [done|].
  cbn [get_defined_child_list] in Hrun.
  destruct (get_task s a) as [ta|] eqn:Ha; [|done].
  cbn [mbind option_bind] in Hrun.
  rewrite (mapM_join_elem _ _ _ c Hrun). split.
  - intros (m & ms & Hm & Hfm & Hc).
    destruct (get_task s m) as [tm|] eqn:Htm; [|done].
    cbn [mbind option_bind] in Hfm.
    destruct (is_fuzzy (due_date tm)) eqn:Hfz.
    + eapply defined_child_skip; [done..|]. by eapply IH.
    + injection Hfm as <-. apply list_elem_of_singleton in Hc as ->.
      by eapply defined_child_here.
  - intros Hdc.
    assert (∀ m, m ∈ children ta →
              is_Some (tm ← get_task s m;
                       if is_fuzzy (due_date tm)
                       then get_defined_child_list fuel s m
                       else Some [m])) as Hall.
    { intros m Hm. destruct (mapM _ (children ta)) as [k|] eqn:Hk; [|done].
      apply mapM_Some_1 in Hk.
      apply list_elem_of_lookup in Hm as [i Hi].
      destruct (Forall2_lookup_l _ _ _ _ _ Hk Hi) as (ms & _ & Hms).
      by eexists. }
    inversion Hdc as [a' ta' c' tc Ha' Hc Htc Hfz|a' ta' m tm c' Ha' Hm Htm Hfz Hrest];
      subst; rewrite Ha in Ha'; injection Ha' as <-.
    + exists c, [c]. split; [done|]. rewrite Htc. simpl. rewrite Hfz.
      split; [done|by left].
    + destruct (Hall m Hm) as [ms Hms]. exists m, ms. split; [done|].
      split; [done|]. rewrite Htm in Hms. simpl in Hms. rewrite Hfz in Hms.
      by apply (IH _ _ _ Hms).
Qed.
End Defined_lists.

Lemma defined_parent_end s c a :
  defined_parent s c a →
  ∃ ta, get_task s a = Some ta ∧ is_fuzzy (due_date ta) = false.
Proof. induction 1; eauto. Qed.

Lemma defined_child_end s a c :
  defined_child s a c →
  ∃ tc, get_task s c = Some tc ∧ is_fuzzy (due_date tc) = false.
Proof. induction 1; eauto. Qed.

Section Due_dates.
Context (now : Z) (d : Date) (Hd : is_fuzzy d = false).

(** Assigning [d] to a task whose due date is not fuzzy is a step. *)
Lemma due_step_assign s self t :
  get_task s self = Some t → is_fuzzy (due_date t) = false →
  evolves (due_step d) s (update_task (with_due_date d) self s).
Proof.
  intros Ht Hfz id. rewrite get_task_update.
  destruct (decide (self = id)) as [<-|]; [|by destruct (get_task s id)].
  rewrite Ht. simpl. repeat split; auto.
Qed.

Lemma recursive_sync_due fuel :
  ∀ s self s', recursive_sync now fuel s self = Some s' →
    evolves (same_on (λ t, (parents t, children t, start_date t, due_date t)))
      s s'.
Proof.
  induction fuel as [|fuel IH]; intros s self s' Hrun; [done|].
  cbn [recursive_sync] in Hrun. body_step Hrun.
  eapply evolves_trans; [exact _| |].
  - apply (evolves_sync_r _ now self s s); [by intros|apply evolves_refl, _].
  - eapply evolves_for_each; [exact _..| |exact Hrun].
    intros sx x sy _ Hbody. by eapply IH.
Qed.

Lemma same_due_step s s' :
  evolves (same_on (λ t, (parents t, children t, start_date t, due_date t)))
    s s' →
  evolves (due_step d) s s'.
Proof.
  intros H id. specialize (H id).
  destruct (get_task s id), (get_task s' id); try done.
  unfold same_on in H. injection H as H1 H2 H3 H4. repeat split; auto.
Qed.

Lemma set_start_date_due_step s self :
  evolves (due_step d) s (set_start_date now s self d).
Proof.
  unfold set_start_date. evolves_steps ltac:(intros; repeat split; auto).
Qed.

(** The propagation of [d] from [self], after the assignment to [self],
    only makes [due_step]s. *)
Lemma set_due_date_evolves fuel :
  ∀ s self s',
    set_due_date now fuel s self d = Some s' →
    evolves (due_step d) (update_task (with_due_date d) self s) s'.
Proof using Hd.
  induction fuel as [|fuel IH]; intros s self s' Hrun; [done|].
  cbn [set_due_date] in Hrun. body_bind Hrun Ht. rewrite Hd in Hrun.
  cbn [negb] in Hrun.
  set (s1 := update_task (with_due_date d) self s) in *.
  body_bind Hrun Hmid. body_bind Hmid Hpars. body_bind Hmid Hploop.
  body_bind Hmid Hsubs.
  assert (evolves (due_step d) s1 s2) as H12.
  { revert Hploop. apply for_each_invariant; [|apply evolves_refl, _].
    intros sx p sy _ Hsx Hbody. body_bind Hbody Hp.
    body_step Hbody; [|body_step Hbody; done].
    apply (evolves_trans _ _ _ _ Hsx).
    eapply evolves_trans; [exact _| |by eapply IH].
    eapply due_step_assign; [done|]. by eapply date_ltb_concrete. }
  assert (evolves (due_step d) s2 s0) as H20.
  { revert Hmid. apply for_each_invariant; [|apply evolves_refl, _].
    intros sx c sy Hc Hsx Hbody. body_bind Hbody Hcx.
    body_bind Hbody Hcall. body_bind Hbody Hcy.
    assert (evolves (due_step d) sx s3) as Hx3.
    { body_step Hcall; [|body_step Hcall; apply evolves_refl, _].
      eapply evolves_trans; [exact _| |by eapply IH].
      eapply due_step_assign; [done|].
      apply (get_defined_child_list_spec _ _ _ _ Hsubs) in Hc.
      destruct (defined_child_end _ _ _ Hc) as (tc2 & Htc2 & Hfz2).
      destruct (evolves_Some _ _ _ _ _ Hsx Htc2) as (tc' & Htc' & Hstep).
      rewrite Hcx in Htc'. injection Htc' as <-.
      by rewrite (due_step_fuzzy _ _ _ Hd Hstep). }
    pose proof (evolves_trans _ _ _ _ Hsx Hx3) as H23.
    body_step Hbody; body_step Hbody; [|done].
    apply (evolves_trans _ _ _ _ H23). apply set_start_date_due_step. }
  pose proof (evolves_trans _ _ _ _ H12 H20) as H10.
  body_step Hrun; [|by body_step Hrun].
  apply (evolves_trans _ _ _ _ H10). apply same_due_step.
  by eapply recursive_sync_due.
Qed.

Lemma defined_lists_evolves fuel :
  ∀ s s' x,
    evolves (due_step d) s s' →
    get_defined_parent_list fuel s' x = get_defined_parent_list fuel s x ∧
    get_defined_child_list fuel s' x = get_defined_child_list fuel s x.
Proof using Hd.
  induction fuel as [|fuel IH]; intros s s' x Hev; [done|].
  cbn [get_defined_parent_list get_defined_child_list].
  pose proof (Hev x) as Hx.
  destruct (get_task s x) as [t|], (get_task s' x) as [t'|]; try done.
  destruct Hx as (Hp & Hc & _). cbn [mbind option_bind]. rewrite Hp, Hc.
  split; f_equal; apply mapM_ext; intros m; pose proof (Hev m) as Hm;
    destruct (get_task s m) as [tm|], (get_task s' m) as [tm'|]; try done;
    cbn [mbind option_bind]; rewrite (due_step_fuzzy _ _ _ Hd Hm);
    destruct (is_fuzzy (due_date tm)); try done; by apply IH.
Qed.

Lemma pull_parents_post fuel :
  ∀ l sx sy,
    for_each (pull_parent now fuel d) l sx = Some sy →
    evolves (due_step d) sx sy ∧
    ∀ p tp, p ∈ l → get_task sy p = Some tp →
            date_ltb (due_date tp) d = false.
Proof using Hd.
  induction l as [|p l IHl]; intros sx sy Hfor.
  - cbn [for_each] in Hfor. injection Hfor as <-.
    split; [apply evolves_refl, _|]. intros p tp Hp.
    by apply elem_of_nil in Hp.
  - cbn [for_each] in Hfor. body_bind Hfor Hhead.
    destruct (IHl _ _ Hfor) as [Hevy Hrest].
    assert (evolves (due_step d) sx s ∧
            ∀ tp, get_task s p = Some tp → date_ltb (due_date tp) d = false)
      as [Hevm Hpm].
    { unfold pull_parent in Hhead. body_bind Hhead Hp.
      destruct (date_ltb (due_date t) d) eqn:Hlt.
      - pose proof (set_due_date_evolves _ _ _ _ Hhead) as Hcall.
        split.
        + eapply evolves_trans; [exact _| |exact Hcall].
          eapply due_step_assign; [done|]. by eapply date_ltb_concrete.
        + intros tp Htp.
          destruct (evolves_Some_inv _ _ _ _ _ Hcall Htp)
            as (t1 & Ht1 & _ & _ & _ & Hdue).
          rewrite get_task_update_eq, Hp in Ht1. injection Ht1 as <-.
          simpl in Hdue.
          destruct Hdue as [E|[E _]]; rewrite E; apply date_ltb_irrefl.
      - injection Hhead as <-. split; [apply evolves_refl, _|].
        intros tp Htp. by simplify_eq. }
    split; [exact (evolves_trans _ _ _ _ Hevm Hevy)|].
    intros q tq Hq Htq. apply elem_of_cons in Hq as [->|Hq];
      [|by eapply Hrest].
    destruct (evolves_Some_inv _ _ _ _ _ Hevy Htq)
      as (tm & Htm & _ & _ & _ & Hdue).
    destruct Hdue as [E|[E _]]; rewrite E;
      [by apply Hpm|apply date_ltb_irrefl].
Qed.

Lemma start_ok_step t t' :
  due_step d t t' → start_ok d (start_date t) → start_ok d (start_date t').
Proof using Hd.
  intros (_ & _ & [E|E] & _) Hok; rewrite E; [done|].
  unfold start_ok. by rewrite date_ltb_irrefl, andb_false_r.
Qed.

Lemma pull_children_post fuel :
  ∀ l sx sy,
    (∀ c, c ∈ l → ∃ tc, get_task sx c = Some tc
                        ∧ is_fuzzy (due_date tc) = false) →
    for_each (pull_child now fuel d) l sx = Some sy →
    evolves (due_step d) sx sy ∧
    ∀ c tc, c ∈ l → get_task sy c = Some tc →
            date_ltb d (due_date tc) = false ∧ start_ok d (start_date tc).
Proof using Hd.
  induction l as [|c l IHl]; intros sx sy Hdef Hfor.
  - cbn [for_each] in Hfor. injection Hfor as <-.
    split; [apply evolves_refl, _|]. intros c tc Hc.
    by apply elem_of_nil in Hc.
  - cbn [for_each] in Hfor. body_bind Hfor Hhead.
    assert (evolves (due_step d) sx s ∧
            ∀ tc, get_task s c = Some tc →
                  date_ltb d (due_date tc) = false
                  ∧ start_ok d (start_date tc))
      as [Hevm Hcm].
    { unfold pull_child in Hhead. body_bind Hhead Hc.
      body_bind Hhead Hcall. body_bind Hhead Hc1.
      destruct (Hdef c) as (tc0 & Htc0 & Hfz); [by left|].
      rewrite Hc in Htc0. injection Htc0 as <-.
      assert (evolves (due_step d) sx s0 ∧
              date_ltb d (due_date t0) = false) as [Hev0 Hdue0].
      { destruct (date_ltb d (due_date t)) eqn:Hlt.
        - pose proof (set_due_date_evolves _ _ _ _ Hcall) as Hev.
          split.
          + eapply evolves_trans; [exact _| |exact Hev].
            by eapply due_step_assign.
          + destruct (evolves_Some_inv _ _ _ _ _ Hev Hc1)
              as (t1 & Ht1 & _ & _ & _ & Hdue).
            rewrite get_task_update_eq, Hc in Ht1. injection Ht1 as <-.
            simpl in Hdue.
            destruct Hdue as [E|[E _]]; rewrite E; apply date_ltb_irrefl.
        - injection Hcall as <-. split; [apply evolves_refl, _|].
          rewrite Hc in Hc1. by injection Hc1 as <-. }
      destruct (negb (is_fuzzy (start_date t0))
                && date_ltb d (start_date t0)) eqn:Hstart;
        injection Hhead as <-.
      - split.
        + apply (evolves_trans _ _ _ _ Hev0), set_start_date_due_step.
        + intros tc Htc. unfold set_start_date in Htc.
          assert (due_date tc = due_date t0 ∧ start_date tc = d) as [-> ->].
          { pose proof (get_task_sync_field
                (λ t, (due_date t, start_date t)) now
                (update_task (with_start_date d) c s0) c c
                ltac:(done)) as Hf.
            rewrite Htc, get_task_update_eq, Hc1 in Hf. simpl in Hf.
            by injection Hf as -> ->. }
          split; [done|]. unfold start_ok.
          by rewrite date_ltb_irrefl, andb_false_r.
      - split; [done|]. intros tc Htc. rewrite Hc1 in Htc.
        by injection Htc as <-. }
    destruct (IHl s sy) as [Hevy Hrest]; [|done|].
    { intros q Hq. destruct (Hdef q) as (tq & Htq & Hfz); [by right|].
      destruct (evolves_Some _ _ _ _ _ Hevm Htq) as (tq' & Htq' & Hstep).
      exists tq'. split; [done|]. by rewrite (due_step_fuzzy _ _ _ Hd Hstep). }
    split; [exact (evolves_trans _ _ _ _ Hevm Hevy)|].
    intros q tq Hq Htq. apply elem_of_cons in Hq as [->|Hq];
      [|by eapply Hrest].
    destruct (evolves_Some_inv _ _ _ _ _ Hevy Htq) as (tm & Htm & Hstep).
    destruct (Hcm tm Htm) as [Hdue Hst]. split.
    + destruct Hstep as (_ & _ & _ & [E|[E _]]); rewrite E;
        [done|apply date_ltb_irrefl].
    + by eapply start_ok_step.
Qed.
End Due_dates.

Lemma with_due_date_same t : with_due_date (due_date t) t = t.
Proof. by destruct t. Qed.

Lemma for_each_fixed {A} (body : State → A → option State) l s :
  (∀ x, x ∈ l → body s x = Some s) → for_each body l s = Some s.
Proof.
  induction l as [|x l IH]; intros Hbody; cbn [for_each]; [done|].
  rewrite Hbody by (by left). cbn [mbind option_bind]. apply IH.
  intros y Hy. apply Hbody. by right.
Qed.

Lemma date_neqb_same d : date_neqb d d = false.
Proof. unfold date_neqb. by rewrite bool_decide_eq_true_2. Qed.

(** C9: when a call of [set_due_date] has returned, a second call with the
    same date returns too and leaves the store exactly as it is: no
    notification is sent, no task is touched and the recursive
    synchronisation is skipped. *)
Theorem set_due_date_twice now fuel s self d s1 :
  set_due_date now fuel s self d = Some s1 →
  set_due_date now fuel s1 self d = Some s1 ∧
  events (default s1 (set_due_date now fuel s1 self d)) = events s1.
Proof.
  intros Hrun.
  assert (set_due_date now fuel s1 self d = Some s1) as Hagain;
    [|by rewrite Hagain].
  destruct fuel as [|fuel]; [done|].
  cbn [set_due_date] in Hrun |- *. body_bind Hrun Ht.
  set (sa := update_task (with_due_date d) self s) in *.
  destruct (is_fuzzy d) eqn:Hd; cbn [negb] in Hrun |- *.
  - (* a fuzzy date: nothing is propagated *)
    cbn [mbind option_bind] in Hrun.
    assert (evolves
              (same_on (λ t, (parents t, children t, start_date t, due_date t)))
              sa s1) as Hsame.
    { body_step Hrun; [by eapply recursive_sync_due|].
      injection Hrun as <-. apply evolves_refl, _. }
    destruct (evolves_Some _ _ _ _ _ Hsame
                (eq_trans (get_task_update_eq _ _ _)
                   (f_equal (fmap _) Ht))) as (t1 & Ht1 & Hf).
    unfold same_on in Hf. simpl in Hf. injection Hf as _ _ _ Hdue.
    rewrite Ht1. cbn [mbind option_bind].
    rewrite update_task_id
      by (intros t' Ht'; rewrite Ht1 in Ht'; injection Ht' as <-;
          rewrite <- Hdue; apply with_due_date_same).
    by rewrite Hdue, date_neqb_same.
  - (* a date that is not fuzzy *)
    body_bind Hrun Hmid. body_bind Hmid Hpars. body_bind Hmid Hploop.
    body_bind Hmid Hsubs.
    destruct (pull_parents_post now d Hd fuel l sa s2 Hploop)
      as [Hab Hpars_ok].
    destruct (pull_children_post now d Hd fuel l0 s2 s0) as [Hbc Hsubs_ok];
      [|exact Hmid|].
    { intros c Hc. apply (get_defined_child_list_spec _ _ _ _ Hsubs) in Hc.
      by apply defined_child_end in Hc. }
    assert (evolves (due_step d) s0 s1) as Hc1.
    { body_step Hrun.
      - apply same_due_step. by eapply recursive_sync_due.
      - injection Hrun as <-. apply evolves_refl, _. }
    pose proof (evolves_trans _ _ _ _ Hbc Hc1) as Hb1.
    pose proof (evolves_trans _ _ _ _ Hab Hb1) as Ha1.
    destruct (evolves_Some _ _ _ _ _ Ha1
                (eq_trans (get_task_update_eq _ _ _)
                   (f_equal (fmap _) Ht))) as (t1 & Ht1 & _ & _ & _ & Hdue).
    assert (due_date t1 = d) as Hdue1.
    { simpl in Hdue. by destruct Hdue as [E|[E _]]. }
    rewrite Ht1. cbn [mbind option_bind].
    rewrite update_task_id
      by (intros t' Ht'; rewrite Ht1 in Ht'; injection Ht' as <-;
          rewrite <- Hdue1; apply with_due_date_same).
    destruct (defined_lists_evolves d Hd fuel sa s1 self Ha1) as [-> _].
    rewrite Hpars. cbn [mbind option_bind].
    rewrite for_each_fixed; cbn [mbind option_bind].
    + destruct (defined_lists_evolves d Hd fuel s2 s1 self Hb1) as [_ ->].
      rewrite Hsubs. cbn [mbind option_bind].
      rewrite for_each_fixed; cbn [mbind option_bind].
      * by rewrite Hdue1, date_neqb_same.
      * intros c Hc.
        apply (get_defined_child_list_spec _ _ _ _ Hsubs) in Hc as Hdc.
        destruct (defined_child_end _ _ _ Hdc) as (tc2 & Htc2 & _).
        destruct (evolves_Some _ _ _ _ _ Hbc Htc2) as (tc0 & Htc0 & Hs20).
        destruct (evolves_Some _ _ _ _ _ Hc1 Htc0) as (tc1 & Htc1 & Hs01).
        destruct (Hsubs_ok c tc0 Hc Htc0) as [Hdue0 Hst0].
        rewrite Htc1. cbn [mbind option_bind].
        assert (date_ltb d (due_date tc1) = false) as ->.
        { destruct Hs01 as (_ & _ & _ & [E|[E _]]); rewrite E;
            [done|apply date_ltb_irrefl]. }
        cbn [mbind option_bind]. rewrite Htc1. cbn [mbind option_bind].
        by rewrite (start_ok_step d Hd _ _ Hs01 Hst0).
    + intros p Hp.
      apply (get_defined_parent_list_spec _ _ _ _ Hpars) in Hp as Hdp.
      destruct (defined_parent_end _ _ _ Hdp) as (tpa & Htpa & _).
      destruct (evolves_Some _ _ _ _ _ Hab Htpa) as (tp2 & Htp2 & _).
      destruct (evolves_Some _ _ _ _ _ Hb1 Htp2) as (tp1 & Htp1 & Hs21).
      rewrite Htp1. cbn [mbind option_bind].
      assert (date_ltb (due_date tp1) d = false) as ->; [|done].
      destruct Hs21 as (_ & _ & _ & [E|[E _]]); rewrite E;
        [by eapply Hpars_ok|apply date_ltb_irrefl].
Qed.

(** ** The due-date constraint *)

Lemma fuzzy_descent_prefix s a m :
  fuzzy_descent s a m →
  ∀ tm y, get_task s m = Some tm → is_fuzzy (due_date tm) = true →
          defined_child s m y → defined_child s a y.
Proof.
  induction 1 as [a ta x Ha Hx|a m tm x _ IH Hm Hfz Hx];
    intros tx y Htx Hfx Hdc.
  - by eapply defined_child_skip.
  - eapply IH; [done..|]. by eapply defined_child_skip.
Qed.

Lemma fuzzy_descent_defined s a x tx :
  fuzzy_descent s a x →
  get_task s x = Some tx → is_fuzzy (due_date tx) = false →
  defined_child s a x.
Proof.
  intros Hfd Hx Hfx. destruct Hfd as [a ta x Ha Hc|a m tm x Hfd Hm Hfz Hc].
  - by eapply defined_child_here.
  - eapply fuzzy_descent_prefix; [done..|]. by eapply defined_child_here.
Qed.

(** With links that agree, a defined ancestor of a task with a defined due
    date has that task among its defined children. *)
Lemma defined_parent_child s c a tc :
  links_ok s → defined_parent s c a →
  get_task s c = Some tc → is_fuzzy (due_date tc) = false →
  defined_child s a c.
Proof.
  intros [Hup _] Hdp Hc Hfz.
  assert (fuzzy_descent s a c) as Hfd.
  { clear Hc Hfz tc.
    induction Hdp as [c tc a ta Hc Ha Hta Hfa|c tc m tm a Hc Hm Htm Hfm _ IH].
    - destruct (Hup _ _ _ Hc Ha) as (ta' & Hta' & Hin).
      by eapply fuzzy_descent_child.
    - destruct (Hup _ _ _ Hc Hm) as (tm' & Htm' & Hin).
      rewrite Htm in Htm'. injection Htm' as <-.
      by eapply fuzzy_descent_step. }
  by eapply fuzzy_descent_defined.
Qed.

Section Constraint.
Context (now : Z) (d : Date) (Hd : is_fuzzy d = false).

Lemma defined_parent_evolves s s' c a :
  evolves (due_step d) s s' → defined_parent s c a ↔ defined_parent s' c a.
Proof using Hd.
  intros Hev. split.
  - induction 1 as [c tc a ta Hc Ha Hta Hfa|c tc m tm a Hc Hm Htm Hfm _ IH].
    + destruct (evolves_Some _ _ _ _ _ Hev Hc) as (tc' & Hc' & Hp & _).
      destruct (evolves_Some _ _ _ _ _ Hev Hta) as (ta' & Hta' & Hstep).
      eapply defined_parent_here; [exact Hc'|by rewrite Hp|exact Hta'|].
      by rewrite (due_step_fuzzy _ _ _ Hd Hstep).
    + destruct (evolves_Some _ _ _ _ _ Hev Hc) as (tc' & Hc' & Hp & _).
      destruct (evolves_Some _ _ _ _ _ Hev Htm) as (tm' & Htm' & Hstep).
      eapply defined_parent_skip;
        [exact Hc'|by rewrite Hp|exact Htm'| |exact IH].
      by rewrite (due_step_fuzzy _ _ _ Hd Hstep).
  - induction 1 as [c tc a ta Hc Ha Hta Hfa|c tc m tm a Hc Hm Htm Hfm _ IH].
    + destruct (evolves_Some_inv _ _ _ _ _ Hev Hc) as (tc' & Hc' & Hp & _).
      destruct (evolves_Some_inv _ _ _ _ _ Hev Hta) as (ta' & Hta' & Hstep).
      eapply defined_parent_here; [exact Hc'|by rewrite <- Hp|exact Hta'|].
      by rewrite <- (due_step_fuzzy _ _ _ Hd Hstep).
    + destruct (evolves_Some_inv _ _ _ _ _ Hev Hc) as (tc' & Hc' & Hp & _).
      destruct (evolves_Some_inv _ _ _ _ _ Hev Htm) as (tm' & Htm' & Hstep).
      eapply defined_parent_skip;
        [exact Hc'|by rewrite <- Hp|exact Htm'| |exact IH].
      by rewrite <- (due_step_fuzzy _ _ _ Hd Hstep).
Qed.

Lemma links_ok_evolves s s' :
  evolves (due_step d) s s' → links_ok s → links_ok s'.
Proof.
  intros Hev [Hup Hdown]. split.
  - intros c tc' p Hc' Hp.
    destruct (evolves_Some_inv _ _ _ _ _ Hev Hc') as (tc & Hc & Hpar & _).
    rewrite Hpar in Hp. destruct (Hup _ _ _ Hc Hp) as (tp & Htp & Hin).
    destruct (evolves_Some _ _ _ _ _ Hev Htp) as (tp' & Htp' & _ & Hch & _).
    exists tp'. split; [done|]. by rewrite Hch.
  - intros p tp' c Hp' Hc.
    destruct (evolves_Some_inv _ _ _ _ _ Hev Hp') as (tp & Hp & _ & Hch & _).
    rewrite Hch in Hc. destruct (Hdown _ _ _ Hp Hc) as (tc & Htc & Hin).
    destruct (evolves_Some _ _ _ _ _ Hev Htc) as (tc' & Htc' & Hpar & _).
    exists tc'. split; [done|]. by rewrite Hpar.
Qed.

(** A violation between two tasks whose due dates were not touched was
    there before. *)
Lemma due_violation_before s s' c a :
  evolves (due_step d) s s' →
  due_of s c = due_of s' c → due_of s a = due_of s' a →
  due_violation s' c a → due_violation s c a.
Proof using Hd.
  intros Hev Hc Ha [Hdp (tc' & ta' & Hc' & Ha' & Hfz & Hlt)].
  split; [by apply (defined_parent_evolves s s')|].
  unfold due_of in Hc, Ha. rewrite Hc' in Hc. rewrite Ha' in Ha.
  destruct (get_task s c) as [tc|]; [|done].
  destruct (get_task s a) as [ta|]; [|done].
  simpl in Hc, Ha. injection Hc as Hc. injection Ha as Ha.
  exists tc, ta. rewrite Hc, Ha. done.
Qed.

Lemma due_of_evolves s s' x :
  evolves (due_step d) s s' → due_of s x = Some d → due_of s' x = Some d.
Proof.
  intros Hev Hx. unfold due_of in *.
  destruct (get_task s x) as [t|] eqn:Ht; [|done].
  destruct (evolves_Some _ _ _ _ _ Hev Ht) as (t' & -> & _ & _ & _ & Hdue).
  simpl in Hx |- *. injection Hx as Hx. f_equal.
  destruct Hdue as [E|[E _]]; congruence.
Qed.

Lemma due_of_update_other s self x :
  x ≠ self → due_of (update_task (with_due_date d) self s) x = due_of s x.
Proof. intros Hne. unfold due_of. by rewrite get_task_update_ne. Qed.
End Constraint.

Section Repair.
Context (now : Z) (d : Date) (Hd : is_fuzzy d = false).

Lemma due_violation_assign s p tp c a :
  get_task s p = Some tp → is_fuzzy (due_date tp) = false →
  c ≠ p → a ≠ p →
  due_violation (update_task (with_due_date d) p s) c a →
  due_violation s c a.
Proof using Hd.
  intros Hp Hfz Hc Ha. apply (due_violation_before d Hd).
  - by eapply due_step_assign.
  - symmetry. by apply due_of_update_other.
  - symmetry. by apply due_of_update_other.
Qed.

Lemma due_of_set_start_date s self x :
  due_of (set_start_date now s self d) x = due_of s x.
Proof.
  unfold due_of, set_start_date.
  rewrite (get_task_sync_field due_date) by done.
  rewrite get_task_update. case_decide; [|done].
  by destruct (get_task s x).
Qed.

Lemma due_of_recursive_sync fuel s self s' x :
  recursive_sync now fuel s self = Some s' → due_of s x = due_of s' x.
Proof.
  intros Hrun. pose proof (recursive_sync_due _ _ _ _ _ Hrun x) as Hx.
  unfold due_of. destruct (get_task s x), (get_task s' x); try done.
  unfold same_on in Hx. simpl. by injection Hx as _ _ _ ->.
Qed.

Lemma repair_parents fuel self :
  repairs now d fuel →
  ∀ l sx sy,
    links_ok sx → due_of sx self = Some d →
    for_each (pull_parent now fuel d) l sx = Some sy →
    ∀ c a, due_violation sy c a →
           due_violation sx c a ∧ ¬ (c = self ∧ a ∈ l).
Proof using Hd.
  intros Hrep.
  induction l as [|p l IHl]; intros sx sy Hlinks Hself Hfor c a Hv.
  - cbn [for_each] in Hfor. injection Hfor as <-. split; [done|].
    intros [_ Hin]. by apply elem_of_nil in Hin.
  - cbn [for_each] in Hfor. body_bind Hfor Hhead.
    assert (evolves (due_step d) sx s) as Hevm.
    { apply (pull_parents_post now d Hd fuel [p]). cbn [for_each].
      by rewrite Hhead. }
    destruct (IHl s sy) with (c := c) (a := a) as [Hvm Hnot];
      [by eapply links_ok_evolves|by eapply due_of_evolves|done..|].
    assert (due_violation sx c a ∧ ¬ (c = self ∧ a = p)) as [Hvx Hnp].
    { unfold pull_parent in Hhead. body_bind Hhead Hp.
      destruct (date_ltb (due_date t) d) eqn:Hlt.
      - destruct (Hrep _ _ _ Hlinks Hhead c a Hvm) as (Hv1 & Hc & Ha).
        split; [|by intros [_ ->]].
        eapply due_violation_assign; [exact Hp| |done..].
        by eapply date_ltb_concrete.
      - injection Hhead as <-. split; [done|]. intros [-> ->].
        destruct Hvm as [_ (tc & ta & Hc & Ha & Hfz & Hlt')].
        unfold due_of in Hself. rewrite Hc in Hself.
        injection Hself as Hself. rewrite Hp in Ha. injection Ha as <-.
        rewrite Hself in Hlt'. congruence. }
    split; [done|]. intros [-> Hin].
    apply elem_of_cons in Hin as [->|Hin]; [by apply Hnp|by apply Hnot].
Qed.

Lemma repair_children fuel self :
  repairs now d fuel →
  ∀ l sx sy,
    links_ok sx → due_of sx self = Some d →
    (∀ c, c ∈ l → ∃ tc, get_task sx c = Some tc
                        ∧ is_fuzzy (due_date tc) = false) →
    for_each (pull_child now fuel d) l sx = Some sy →
    ∀ c a, due_violation sy c a →
           due_violation sx c a ∧ ¬ (a = self ∧ c ∈ l).
Proof using Hd.
  intros Hrep.
  induction l as [|q l IHl]; intros sx sy Hlinks Hself Hdef Hfor c a Hv.
  - cbn [for_each] in Hfor. injection Hfor as <-. split; [done|].
    intros [_ Hin]. by apply elem_of_nil in Hin.
  - cbn [for_each] in Hfor. body_bind Hfor Hhead.
    assert (evolves (due_step d) sx s) as Hevm.
    { apply (pull_children_post now d Hd fuel [q]).
      - intros x Hx. apply Hdef. apply list_elem_of_singleton in Hx as ->.
        by left.
      - cbn [for_each]. by rewrite Hhead. }
    destruct (IHl s sy) with (c := c) (a := a) as [Hvm Hnot];
      [by eapply links_ok_evolves|by eapply due_of_evolves| |done..|].
    { intros x Hx. destruct (Hdef x) as (tx & Htx & Hfz); [by right|].
      destruct (evolves_Some _ _ _ _ _ Hevm Htx) as (tx' & Htx' & Hstep).
      exists tx'. split; [done|]. by rewrite (due_step_fuzzy _ _ _ Hd Hstep). }
    assert (due_violation sx c a ∧ ¬ (a = self ∧ c = q)) as [Hvx Hnp].
    { unfold pull_child in Hhead. body_bind Hhead Hq.
      body_bind Hhead Hcall. body_bind Hhead Hq1.
      destruct (Hdef q) as (tq & Htq & Hfq); [by left|].
      rewrite Hq in Htq. injection Htq as <-.
      assert (due_violation s0 c a) as Hv0.
      { destruct (negb (is_fuzzy (start_date t0))
                  && date_ltb d (start_date t0)); injection Hhead as <-;
          [|done].
        revert Hvm. apply (due_violation_before d Hd).
        - apply set_start_date_due_step.
        - symmetry. apply due_of_set_start_date.
        - symmetry. apply due_of_set_start_date. }
      destruct (date_ltb d (due_date t)) eqn:Hlt.
      - destruct (Hrep _ _ _ Hlinks Hcall c a Hv0) as (Hv1 & Hc & Ha).
        split; [|by intros [_ ->]].
        by eapply due_violation_assign.
      - injection Hcall as <-. split; [done|]. intros [-> ->].
        destruct Hv0 as [_ (tc & ta & Hc & Ha & Hfz & Hlt')].
        unfold due_of in Hself. rewrite Ha in Hself.
        injection Hself as Hself. rewrite Hq in Hc. injection Hc as <-.
        rewrite Hself in Hlt'. congruence. }
    split; [done|]. intros [-> Hin].
    apply elem_of_cons in Hin as [->|Hin]; [by apply Hnp|by apply Hnot].
Qed.
End Repair.

Lemma links_ok_same s s' :
  evolves (same_on (λ t, (parents t, children t))) s s' →
  links_ok s → links_ok s'.
Proof.
  intros Hev [Hup Hdown]. split.
  - intros c tc' p Hc' Hp.
    destruct (evolves_Some_inv _ _ _ _ _ Hev Hc') as (tc & Hc & Hsame).
    injection Hsame as Hpar _.
    rewrite Hpar in Hp. destruct (Hup _ _ _ Hc Hp) as (tp & Htp & Hin).
    destruct (evolves_Some _ _ _ _ _ Hev Htp) as (tp' & Htp' & Hsame).
    injection Hsame as _ Hch.
    exists tp'. split; [done|]. by rewrite Hch.
  - intros p tp' c Hp' Hc.
    destruct (evolves_Some_inv _ _ _ _ _ Hev Hp') as (tp & Hp & Hsame).
    injection Hsame as _ Hch.
    rewrite Hch in Hc. destruct (Hdown _ _ _ Hp Hc) as (tc & Htc & Hin).
    destruct (evolves_Some _ _ _ _ _ Hev Htc) as (tc' & Htc' & Hsame).
    injection Hsame as Hpar _.
    exists tc'. split; [done|]. by rewrite Hpar.
Qed.

Section Repairs.
Context (now : Z) (d : Date) (Hd : is_fuzzy d = false).

(** A call with a date that is not fuzzy repairs the constraint at the
    task and breaks it nowhere. *)
Lemma set_due_date_repairs fuel : repairs now d fuel.
Proof using Hd.
  induction fuel as [|fuel IH]; intros s self s' Hlinks Hrun c a Hv; [done|].
  cbn [set_due_date] in Hrun. body_bind Hrun Ht. rewrite Hd in Hrun.
  cbn [negb] in Hrun.
  set (sa := update_task (with_due_date d) self s) in *.
  assert (get_task sa self = Some (with_due_date d t)) as Hta.
  { unfold sa. by rewrite get_task_update_eq, Ht. }
  assert (links_ok sa) as Hla.
  { revert Hlinks. apply links_ok_same. by apply evolves_update; [exact _|]. }
  assert (due_of sa self = Some d) as Hda.
  { unfold due_of. by rewrite Hta. }
  body_bind Hrun Hmid. body_bind Hmid Hpars. body_bind Hmid Hploop.
  body_bind Hmid Hsubs.
  lazymatch type of Hploop with
  | for_each _ ?l _ = Some ?x => rename l into pars, x into sb
  end.
  lazymatch type of Hmid with
  | for_each _ ?l _ = Some ?x => rename l into subs, x into sc
  end.
  destruct (pull_parents_post now d Hd fuel pars sa sb Hploop) as [Hab _].
  assert (∀ x, x ∈ subs → ∃ tx, get_task sb x = Some tx
                              ∧ is_fuzzy (due_date tx) = false) as Hdef.
  { intros x Hx. apply (get_defined_child_list_spec _ _ _ _ Hsubs) in Hx.
    by apply defined_child_end in Hx. }
  destruct (pull_children_post now d Hd fuel subs sb sc Hdef Hmid) as [Hbc _].
  assert (due_violation sc c a) as Hv0.
  { body_step Hrun; [|by injection Hrun as <-].
    revert Hv. apply (due_violation_before d Hd).
    - apply same_due_step. by eapply recursive_sync_due.
    - by eapply due_of_recursive_sync.
    - by eapply due_of_recursive_sync. }
  destruct (repair_children now d Hd fuel self IH subs sb sc) with (c := c) (a := a)
    as [Hv2 Hnc]; [by eapply links_ok_evolves|by eapply due_of_evolves|done..|].
  destruct (repair_parents now d Hd fuel self IH pars sa sb) with (c := c) (a := a)
    as [Hva Hnp]; [done..|].
  split; [done|]. split.
  - intros ->. apply Hnp. split; [done|].
    apply (get_defined_parent_list_spec _ _ _ _ Hpars). by destruct Hva.
  - intros ->. apply Hnc. split; [done|].
    apply (get_defined_child_list_spec _ _ _ _ Hsubs).
    destruct Hv2 as [Hdp (tc & _ & Hc & _ & Hfz & _)].
    by eapply defined_parent_child; [eapply links_ok_evolves|..].
Qed.
End Repairs.

(** ** The constraint is kept *)

Lemma get_task_assigned s self d x t :
  get_task (update_task (with_due_date d) self s) x = Some t →
  ∃ t0, get_task s x = Some t0 ∧ parents t = parents t0
        ∧ children t = children t0
        ∧ (x ≠ self → t = t0) ∧ (x = self → due_date t = d).
Proof.
  rewrite get_task_update. destruct (decide (self = x)) as [<-|Hne].
  - destruct (get_task s self) as [t0|]; [|done]. simpl. intros [= <-].
    exists t0. by repeat split.
  - intros Hx. exists t. repeat split; try done; by intros ->.
Qed.

(** After the assignment of a date that is not fuzzy, the defined ancestors
    other than the task itself are those from before. *)
Lemma defined_parent_unassign s self d c a :
  is_fuzzy d = false →
  defined_parent (update_task (with_due_date d) self s) c a →
  a ≠ self → defined_parent s c a.
Proof.
  intros Hd.
  induction 1 as [c tc a ta Hc Ha Hta Hfa|c tc m tm a Hc Hm Htm Hfm _ IH];
    intros Hne;
    destruct (get_task_assigned _ _ _ _ _ Hc) as (tc0 & Hc0 & Hpar & _).
  - rewrite get_task_update_ne in Hta by done.
    eapply defined_parent_here; [exact Hc0|by rewrite <- Hpar|exact Hta|done].
  - destruct (get_task_assigned _ _ _ _ _ Htm) as (tm0 & Hm0 & _ & _ & Hsame & Hself).
    assert (m ≠ self) as Hm_ne.
    { intros E. specialize (Hself E). congruence. }
    rewrite <- (Hsame Hm_ne) in Hm0.
    eapply defined_parent_skip;
      [exact Hc0|by rewrite <- Hpar|exact Hm0|done|by apply IH].
Qed.

(** After the assignment of a fuzzy date, a defined ancestor is one from
    before, or is reached through the task itself, which had a due date
    that was not fuzzy. *)
Lemma defined_parent_through s self d c a :
  is_fuzzy d = true →
  defined_parent (update_task (with_due_date d) self s) c a →
  defined_parent s c a ∨
  ∃ t, get_task s self = Some t ∧ is_fuzzy (due_date t) = false
       ∧ (c = self ∨ defined_parent s c self) ∧ defined_parent s self a.
Proof.
  intros Hd.
  induction 1 as [c tc a ta Hc Ha Hta Hfa|c tc m tm a Hc Hm Htm Hfm _ IH];
    destruct (get_task_assigned _ _ _ _ _ Hc) as (tc0 & Hc0 & Hpar & _).
  - destruct (get_task_assigned _ _ _ _ _ Hta)
      as (ta0 & Ha0 & _ & _ & Hsame & Hself).
    assert (a ≠ self) as Hne.
    { intros E. specialize (Hself E). congruence. }
    rewrite <- (Hsame Hne) in Ha0. left.
    eapply defined_parent_here; [exact Hc0|by rewrite <- Hpar|exact Ha0|done].
  - destruct (get_task_assigned _ _ _ _ _ Htm)
      as (tm0 & Hm0 & _ & _ & Hsame & _).
    rewrite Hpar in Hm.
    destruct (decide (m = self)) as [->|Hne].
    + destruct (is_fuzzy (due_date tm0)) eqn:Hf0.
      * destruct IH as [IH|(t & Ht & Hft & _)]; [|congruence].
        left. by eapply defined_parent_skip.
      * right. exists tm0. split; [done|]. split; [done|]. split.
        -- right. by eapply defined_parent_here.
        -- by destruct IH as [IH|(_ & _ & _ & _ & IH)].
    + rewrite <- (Hsame Hne) in Hm0.
      destruct IH as [IH|(t & Ht & Hft & [E|Hms] & Hsa)]; [|done|].
      * left. by eapply defined_parent_skip.
      * right. exists t. split; [done|]. split; [done|]. split; [|done].
        right. by eapply defined_parent_skip.
Qed.

Lemma due_dates_ok_leb s c tc a ta :
  due_dates_ok s → defined_parent s c a →
  get_task s c = Some tc → get_task s a = Some ta →
  is_fuzzy (due_date tc) = false →
  date_leb (due_date tc) (due_date ta) = true.
Proof.
  intros Hok Hdp Hc Ha Hfz. unfold date_leb.
  destruct (date_ltb (due_date ta) (due_date tc)) eqn:Hlt; [|done].
  destruct (Hok c a). split; [done|]. by exists tc, ta.
Qed.

Lemma date_leb_trans a b c :
  is_fuzzy b = false →
  date_leb a b = true → date_leb b c = true → date_leb a c = true.
Proof.
  unfold date_leb. destruct a, b, c; simpl; try done.
  rewrite !negb_true_iff, !Z.ltb_ge. lia.
Qed.

Lemma set_due_date_fuzzy_keeps now fuel s self d s' :
  is_fuzzy d = true → due_dates_ok s →
  set_due_date now fuel s self d = Some s' →
  due_dates_ok s' ∧
  evolves (same_on (λ t, (parents t, children t)))
    (update_task (with_due_date d) self s) s'.
Proof.
  intros Hd Hok Hrun. destruct fuel as [|fuel]; [done|].
  cbn [set_due_date] in Hrun. body_bind Hrun Ht. rewrite Hd in Hrun.
  cbn [negb mbind option_bind] in Hrun.
  set (sa := update_task (with_due_date d) self s) in *.
  assert (evolves
            (same_on (λ t, (parents t, children t, start_date t, due_date t)))
            sa s') as Hsame.
  { body_step Hrun; [by eapply recursive_sync_due|].
    injection Hrun as <-. apply evolves_refl, _. }
  split.
  - intros c a Hv.
    assert (due_violation sa c a) as Hva.
    { revert Hv. apply (due_violation_before (Concrete 0) eq_refl).
      - by apply same_due_step.
      - unfold due_of. specialize (Hsame c).
        destruct (get_task sa c), (get_task s' c); try done.
        simpl. by injection Hsame as _ _ _ ->.
      - unfold due_of. specialize (Hsame a).
        destruct (get_task sa a), (get_task s' a); try done.
        simpl. by injection Hsame as _ _ _ ->. }
    destruct Hva as [Hdp (tc & ta & Hc & Ha & Hfz & Hlt)].
    destruct (get_task_assigned _ _ _ _ _ Hc)
      as (tc0 & Hc0 & _ & _ & Hsc & Hself_c).
    destruct (get_task_assigned _ _ _ _ _ Ha)
      as (ta0 & Ha0 & _ & _ & Hsa & Hself_a).
    assert (c ≠ self) as Hc_ne.
    { intros E. specialize (Hself_c E). congruence. }
    assert (a ≠ self) as Ha_ne.
    { intros E. specialize (Hself_a E).
      apply date_ltb_concrete in Hlt. congruence. }
    rewrite <- (Hsc Hc_ne) in Hc0. rewrite <- (Hsa Ha_ne) in Ha0.
    assert (date_leb (due_date tc) (due_date ta) = true) as Hle.
    { destruct (defined_parent_through _ _ _ _ _ Hd Hdp)
        as [Hs|(t0 & Ht0 & Hf0 & [E|Hcs] & Hsa')]; [|done|].
      - by eapply due_dates_ok_leb.
      - apply (date_leb_trans _ (due_date t0)); [done|..].
        + exact (due_dates_ok_leb s c tc self t0 Hok Hcs Hc0 Ht0 Hfz).
        + exact (due_dates_ok_leb s self t0 a ta Hok Hsa' Ht0 Ha0 Hf0). }
    unfold date_leb in Hle. by rewrite Hlt in Hle.
  - intros id. specialize (Hsame id).
    destruct (get_task sa id), (get_task s' id); try done.
    unfold same_on in *. by injection Hsame as -> -> _ _.
Qed.

(** C1: [set_due_date] enforces and keeps the constraint on due dates.  In a
    store whose parent and child links agree, when a call of [set_due_date]
    returns the links still agree, and:
    - if the new date is not fuzzy, every task that is then due later than
      a defined ancestor (an ancestor with a due date that is not fuzzy,
      reached through tasks with fuzzy due dates) was so before the call,
      and neither of the two is the task of the call: the call repairs the
      constraint between the task and its nearest defined ancestors and
      descendants and breaks it nowhere;
    - if the constraint held in the store before the call, it holds after
      it: no task with a due date that is not fuzzy is due later than a
      defined ancestor, and in particular across every parent-child edge
      whose two due dates are not fuzzy the child is due no later than the
      parent. *)
Theorem set_due_date_keeps_constraint now fuel s self d s' :
  links_ok s →
  set_due_date now fuel s self d = Some s' →
  links_ok s' ∧
  (is_fuzzy d = false →
   ∀ c a, due_violation s' c a →
          due_violation s c a ∧ c ≠ self ∧ a ≠ self) ∧
  (due_dates_ok s →
   (∀ c tc a ta,
      defined_parent s' c a →
      get_task s' c = Some tc → get_task s' a = Some ta →
      is_fuzzy (due_date tc) = false →
      date_leb (due_date tc) (due_date ta) = true) ∧
   (∀ c tc p tp,
      get_task s' c = Some tc → p ∈ parents tc → get_task s' p = Some tp →
      is_fuzzy (due_date tc) = false → is_fuzzy (due_date tp) = false →
      date_leb (due_date tc) (due_date tp) = true)).
Proof.
  intros Hlinks Hrun.
  assert (links_ok (update_task (with_due_date d) self s)) as Hla.
  { revert Hlinks. apply links_ok_same. by apply evolves_update; [exact _|]. }
  assert (is_fuzzy d = false →
          ∀ c a, due_violation s' c a →
                 due_violation s c a ∧ c ≠ self ∧ a ≠ self) as Hrepair.
  { intros Hd c a Hv.
    destruct (set_due_date_repairs now d Hd fuel s self s' Hlinks Hrun
                c a Hv) as (Hva & Hc & Ha).
    split; [|done]. destruct Hva as [Hdp (tc & ta & Htc & Hta & Hrest)].
    split; [by eapply defined_parent_unassign|].
    rewrite get_task_update_ne in Htc, Hta by done.
    by exists tc, ta. }
  assert (links_ok s') as Hlinks'.
  { destruct (is_fuzzy d) eqn:Hd.
    - destruct fuel as [|fuel]; [done|].
      cbn [set_due_date] in Hrun. body_bind Hrun Ht. rewrite Hd in Hrun.
      cbn [negb mbind option_bind] in Hrun.
      revert Hla. apply links_ok_same. body_step Hrun.
      + intros id. pose proof (recursive_sync_due _ _ _ _ _ Hrun id) as Hid.
        destruct (get_task (update_task (with_due_date d) self s) id),
          (get_task s' id); try done.
        unfold same_on in *. by injection Hid as -> -> _ _.
      + injection Hrun as <-. apply evolves_refl, _.
    - eapply links_ok_evolves; [|exact Hla]. by eapply set_due_date_evolves. }
  split; [done|]. split; [done|]. intros Hok.
  assert (due_dates_ok s') as Hok'.
  { destruct (is_fuzzy d) eqn:Hd.
    - by destruct (set_due_date_fuzzy_keeps _ _ _ _ _ _ Hd Hok Hrun).
    - intros c a Hv. apply (Hok c a). by apply Hrepair. }
  split.
  - intros c tc a ta Hdp Hc Ha Hfz. by eapply due_dates_ok_leb.
  - intros c tc p tp Hc Hp Htp Hfc Hfp.
    eapply due_dates_ok_leb; [done| |done..].
    by eapply defined_parent_here.
Qed.

Lemma links_ok_b_sound s : links_ok_b s = true → links_ok s.
Proof.
  unfold links_ok_b. rewrite forallb_forall. intros H.
  assert (∀ id t, get_task s id = Some t →
            forallb (λ p, match get_task s p with
                          | Some tp => bool_decide (id ∈ children tp)
                          | None => false
                          end) (parents t) = true ∧
            forallb (λ c, match get_task s c with
                          | Some tc => bool_decide (id ∈ parents tc)
                          | None => false
                          end) (children t) = true) as H'.
  { intros id t Ht. apply andb_true_iff. apply (H (id, t)).
    apply list_elem_of_In, elem_of_map_to_list. exact Ht. }
  split.
  - intros c tc p Hc Hp. destruct (H' _ _ Hc) as [Hup _].
    rewrite forallb_forall in Hup. apply list_elem_of_In, Hup in Hp.
    destruct (get_task s p) as [tp|]; [|done]. exists tp. split; [done|].
    by apply bool_decide_eq_true in Hp.
  - intros p tp c Hp Hc. destruct (H' _ _ Hp) as [_ Hdown].
    rewrite forallb_forall in Hdown. apply list_elem_of_In, Hdown in Hc.
    destruct (get_task s c) as [tc|]; [|done]. exists tc. split; [done|].
    by apply bool_decide_eq_true in Hc.
Qed.

Lemma due_dates_ok_b_sound fuel s :
  due_dates_ok_b fuel s = true → due_dates_ok s.
Proof.
  unfold due_dates_ok_b. rewrite forallb_forall.
  intros H c a [Hdp (tc & ta & Hc & Ha & Hfz & Hlt)].
  assert (In (c, tc) (map_to_list (tasks s))) as Hin.
  { apply list_elem_of_In, elem_of_map_to_list. exact Hc. }
  apply H in Hin. rewrite Hfz in Hin. cbn [orb] in Hin.
  destruct (get_defined_parent_list fuel s c) as [pars|] eqn:Hpars; [|done].
  rewrite forallb_forall in Hin.
  apply (get_defined_parent_list_spec _ _ _ _ Hpars) in Hdp.
  apply list_elem_of_In, Hin in Hdp. rewrite Ha, Hlt in Hdp. done.
Qed.

Lemma set_due_date_keeps_constraint_witness :
  ∃ s',
    set_due_date 0 10 three_generations "child" (Concrete 9) = Some s' ∧
    due_of s' "child" = Some (Concrete 9) ∧
    due_of s' "parent" = Some (Fuzzy Someday) ∧
    due_of s' "grandparent" = Some (Concrete 9) ∧
    links_ok s' ∧
    ∀ c tc a ta,
      defined_parent s' c a →
      get_task s' c = Some tc → get_task s' a = Some ta →
      is_fuzzy (due_date tc) = false →
      date_leb (due_date tc) (due_date ta) = true.
Proof.
  assert (links_ok three_generations) as Hlinks.
  { apply links_ok_b_sound. vm_compute. reflexivity. }
  assert (due_dates_ok three_generations) as Hok.
  { apply (due_dates_ok_b_sound 5). vm_compute. reflexivity. }
  destruct (set_due_date 0 10 three_generations "child" (Concrete 9))
    as [s'|] eqn:Hrun; [|discriminate Hrun].
  destruct (set_due_date_keeps_constraint 0 10 three_generations "child"
              (Concrete 9) s' Hlinks Hrun) as (Hl & _ & Hkeep).
  destruct (Hkeep Hok) as [Hdef _].
  exists s'. split; [reflexivity|].
  split; [injection Hrun as <-; vm_compute; reflexivity|].
  split; [injection Hrun as <-; vm_compute; reflexivity|].
  split; [injection Hrun as <-; vm_compute; reflexivity|].
  split; [exact Hl|exact Hdef].
Defined.

Lemma set_due_date_twice_witness :
  ∃ s1,
    set_due_date 0 10 three_generations "child" (Concrete 9) = Some s1 ∧
    length (events s1) = 4 ∧
    set_due_date 0 10 s1 "child" (Concrete 9) = Some s1.
Proof.
  destruct (set_due_date 0 10 three_generations "child" (Concrete 9))
    as [s1|] eqn:Hrun; [|discriminate Hrun].
  destruct (set_due_date_twice 0 10 three_generations "child" (Concrete 9)
              s1 Hrun) as [Hagain _].
  exists s1. split; [reflexivity|]. split; [|exact Hagain].
  injection Hrun as <-. vm_compute. reflexivity.
Defined.

(** * More of the task code *)

(** ** What the date methods leave alone *)

Section Kept_by_dates.
Context (now : Z) (R : Task → Task → Prop) `{!Reflexive R} `{!Transitive R}.
Context (Hmod : ∀ v t, R t (with_last_modified v t)).

Lemma recursive_sync_keeps fuel :
  ∀ s self s', recursive_sync now fuel s self = Some s' → evolves R s s'.
Proof using Hmod Reflexive0 Transitive0.
  induction fuel as [|fuel IH]; intros s self s' Hrun; [done|].
  cbn [recursive_sync] in Hrun. body_step Hrun.
  eapply evolves_trans; [exact _| |].
  - apply (evolves_sync_r _ now self s s); [done|apply evolves_refl, _].
  - eapply evolves_for_each; [exact _..| |exact Hrun].
    intros sx x sy _ Hbody. by eapply IH.
Qed.

Context (Hstart : ∀ v t, R t (with_start_date v t)).
Context (Hdue : ∀ v t, R t (with_due_date v t)).

Lemma set_start_date_keeps s self d :
  evolves R s (set_start_date now s self d).
Proof using Hmod Hstart Reflexive0 Transitive0.
  unfold set_start_date. evolves_steps ltac:(done).
Qed.

Lemma set_due_date_keeps fuel :
  ∀ s self d s', set_due_date now fuel s self d = Some s' → evolves R s s'.
Proof using Hmod Hstart Hdue Reflexive0 Transitive0.
  induction fuel as [|fuel IH]; intros s self d s' Hrun; [done|].
  cbn [set_due_date] in Hrun. body_bind Hrun Ht.
  set (sa := update_task (with_due_date d) self s) in *.
  assert (evolves R s sa) as H1 by (by apply evolves_update).
  body_bind Hrun Hmid.
  lazymatch type of Hmid with _ = Some ?x => rename x into sc end.
  assert (evolves R sa sc) as H2.
  { clear Hrun. body_step Hmid; [|body_step Hmid; apply evolves_refl, _].
    body_bind Hmid Hpars. body_bind Hmid Hploop. body_bind Hmid Hsubs.
    eapply evolves_trans; [exact _| |].
    - eapply evolves_for_each; [exact _..| |exact Hploop].
      intros sx x sy _ Hbody. body_step Hbody.
      body_step Hbody; [by eapply IH|]. body_step Hbody.
      apply evolves_refl, _.
    - eapply evolves_for_each; [exact _..| |exact Hmid].
      intros sx x sy _ Hbody. body_step Hbody. body_bind Hbody Hcall.
      body_step Hbody.
      lazymatch type of Hcall with _ = Some ?x => rename x into sz end.
      assert (evolves R sx sz) as Hx.
      { body_step Hcall; [by eapply IH|]. body_step Hcall.
        apply evolves_refl, _. }
      body_step Hbody; body_step Hbody; [|done].
      eapply evolves_trans; [exact _|exact Hx|].
      apply set_start_date_keeps. }
  pose proof (evolves_trans _ _ _ _ H1 H2) as H12.
  body_step Hrun; [|by body_step Hrun].
  eapply evolves_trans; [exact _|exact H12|].
  by eapply recursive_sync_keeps.
Qed.
End Kept_by_dates.

(** After the assignment to the task, the rest of [set_due_date] only
    makes [due_step]s, whatever the date. *)
Lemma set_due_date_steps now fuel s self d s' :
  set_due_date now fuel s self d = Some s' →
  evolves (due_step d) (update_task (with_due_date d) self s) s'.
Proof.
  destruct (is_fuzzy d) eqn:Hd; [|by apply set_due_date_evolves].
  intros Hrun. destruct fuel as [|fuel]; [done|].
  cbn [set_due_date] in Hrun. body_bind Hrun Ht. rewrite Hd in Hrun.
  cbn [negb mbind option_bind] in Hrun.
  body_step Hrun; [|injection Hrun as <-; apply evolves_refl, _].
  apply same_due_step. by eapply recursive_sync_due.
Qed.

(** X1: what [set_due_date] writes.  When a call returns, the store holds
    the same tasks; on every task only the due date, the start date and
    the time stamp can differ.  The task of the call has the new date; a
    start date is the old one or the new date; the due date of another
    task is the old one or, when neither it nor the new date is fuzzy,
    the new date: a fuzzy or undefined due date of another task is never
    updated. *)
Theorem set_due_date_frame now fuel s self d s' :
  set_due_date now fuel s self d = Some s' →
  ∀ x,
    match get_task s x, get_task s' x with
    | Some t, Some t' =>
        but_dates t' = but_dates t ∧
        (start_date t' = start_date t ∨ start_date t' = d) ∧
        (x = self → due_date t' = d) ∧
        (x ≠ self →
         due_date t' = due_date t ∨
         (due_date t' = d ∧ is_fuzzy (due_date t) = false
          ∧ is_fuzzy d = false))
    | None, None => True
    | _, _ => False
    end.
Proof.
  intros Hrun x.
  pose proof (set_due_date_keeps now (same_on but_dates)
                ltac:(done) ltac:(done) ltac:(done) _ _ _ _ _ Hrun x) as Hk.
  pose proof (set_due_date_steps _ _ _ _ _ _ Hrun x) as Hs.
  rewrite get_task_update in Hs.
  destruct (get_task s x) as [t|] eqn:Hx, (get_task s' x) as [t'|] eqn:Hx';
    try done.
  split; [exact Hk|].
  destruct (decide (self = x)) as [<-|Hne]; simpl in Hs;
    destruct Hs as (_ & _ & Hstart & Hdue).
  - split; [exact Hstart|]. split; [|done]. intros _.
    by destruct Hdue as [E|[E _]].
  - split; [exact Hstart|]. split; [by intros ->|]. intros _.
    destruct Hdue as [E|[E Hfz]]; [by left|right].
    split; [done|]. split; [done|].
    destruct (is_fuzzy d) eqn:Hd; [|done]. exfalso.
    destruct fuel as [|fuel]; [done|].
    cbn [set_due_date] in Hrun. body_bind Hrun Ht. rewrite Hd in Hrun.
    cbn [negb mbind option_bind] in Hrun.
    assert (due_of s' x = due_of s x) as Hsame.
    { body_step Hrun.
      - rewrite <- (due_of_recursive_sync _ _ _ _ _ x Hrun).
        unfold due_of. by rewrite get_task_update_ne.
      - injection Hrun as <-. unfold due_of. by rewrite get_task_update_ne. }
    unfold due_of in Hsame. rewrite Hx, Hx' in Hsame.
    simpl in Hsame. injection Hsame as Hsame. congruence.
Qed.

Lemma set_due_date_frame_witness :
  ∃ s',
    set_due_date 0 10 three_generations "child" (Concrete 9) = Some s' ∧
    ∀ x,
      match get_task three_generations x, get_task s' x with
      | Some t, Some t' =>
          but_dates t' = but_dates t ∧
          (start_date t' = start_date t ∨ start_date t' = Concrete 9) ∧
          (x = "child" → due_date t' = Concrete 9) ∧
          (x ≠ "child" →
           due_date t' = due_date t ∨
           (due_date t' = Concrete 9 ∧ is_fuzzy (due_date t) = false
            ∧ is_fuzzy (Concrete 9) = false))
      | None, None => True
      | _, _ => False
      end.
Proof.
  destruct (set_due_date 0 10 three_generations "child" (Concrete 9))
    as [s'|] eqn:Hrun; [|discriminate Hrun].
  exists s'. split; [reflexivity|].
  exact (set_due_date_frame 0 10 three_generations "child" (Concrete 9) s'
           Hrun).
Defined.

Section Children_dates.
Context (now : Z) (d : Date) (Hd : is_fuzzy d = false).

Lemma defined_child_evolves s s' a c :
  evolves (due_step d) s s' → defined_child s a c ↔ defined_child s' a c.
Proof using Hd.
  intros Hev. split.
  - induction 1 as [a ta c tc Ha Hc Htc Hfc|a ta m tm c Ha Hm Htm Hfm _ IH].
    + destruct (evolves_Some _ _ _ _ _ Hev Ha) as (ta' & Ha' & _ & Hch & _).
      destruct (evolves_Some _ _ _ _ _ Hev Htc) as (tc' & Htc' & Hstep).
      eapply defined_child_here; [exact Ha'|by rewrite Hch|exact Htc'|].
      by rewrite (due_step_fuzzy _ _ _ Hd Hstep).
    + destruct (evolves_Some _ _ _ _ _ Hev Ha) as (ta' & Ha' & _ & Hch & _).
      destruct (evolves_Some _ _ _ _ _ Hev Htm) as (tm' & Htm' & Hstep).
      eapply defined_child_skip;
        [exact Ha'|by rewrite Hch|exact Htm'| |exact IH].
      by rewrite (due_step_fuzzy _ _ _ Hd Hstep).
  - induction 1 as [a ta c tc Ha Hc Htc Hfc|a ta m tm c Ha Hm Htm Hfm _ IH].
    + destruct (evolves_Some_inv _ _ _ _ _ Hev Ha)
        as (ta' & Ha' & _ & Hch & _).
      destruct (evolves_Some_inv _ _ _ _ _ Hev Htc) as (tc' & Htc' & Hstep).
      eapply defined_child_here; [exact Ha'|by rewrite <- Hch|exact Htc'|].
      by rewrite <- (due_step_fuzzy _ _ _ Hd Hstep).
    + destruct (evolves_Some_inv _ _ _ _ _ Hev Ha)
        as (ta' & Ha' & _ & Hch & _).
      destruct (evolves_Some_inv _ _ _ _ _ Hev Htm) as (tm' & Htm' & Hstep).
      eapply defined_child_skip;
        [exact Ha'|by rewrite <- Hch|exact Htm'| |exact IH].
      by rewrite <- (due_step_fuzzy _ _ _ Hd Hstep).
Qed.
End Children_dates.

(** X2: the dates below the task.  When [set_due_date] returns for a date
    that is not fuzzy, every nearest defined descendant of the task (a
    task with a due date that is not fuzzy, reached by child links through
    tasks with fuzzy due dates) is due no later than the new date, and its
    start date is fuzzy, undefined, or no later than the new date. *)
Theorem set_due_date_pulls_children now fuel s self d s' c tc :
  is_fuzzy d = false →
  set_due_date now fuel s self d = Some s' →
  defined_child s' self c → get_task s' c = Some tc →
  date_leb (due_date tc) d = true ∧
  (is_fuzzy (start_date tc) = true ∨ date_leb (start_date tc) d = true).
Proof.
  intros Hd Hrun Hdc Hc.
  destruct fuel as [|fuel]; [done|].
  cbn [set_due_date] in Hrun. body_bind Hrun Ht. rewrite Hd in Hrun.
  cbn [negb] in Hrun.
  set (sa := update_task (with_due_date d) self s) in *.
  body_bind Hrun Hmid. body_bind Hmid Hpars. body_bind Hmid Hploop.
  body_bind Hmid Hsubs.
  lazymatch type of Hploop with
  | for_each _ ?l _ = Some ?x => rename l into pars, x into sb
  end.
  lazymatch type of Hmid with
  | for_each _ ?l _ = Some ?x => rename l into subs, x into sc
  end.
  assert (∀ x, x ∈ subs → ∃ tx, get_task sb x = Some tx
                              ∧ is_fuzzy (due_date tx) = false) as Hdef.
  { intros x Hx. apply (get_defined_child_list_spec _ _ _ _ Hsubs) in Hx.
    by apply defined_child_end in Hx. }
  destruct (pull_children_post now d Hd fuel subs sb sc Hdef Hmid)
    as [Hbc Hpost].
  assert (evolves (due_step d) sc s') as Hc1.
  { body_step Hrun.
    - apply same_due_step. by eapply recursive_sync_due.
    - injection Hrun as <-. apply evolves_refl, _. }
  pose proof (evolves_trans _ _ _ _ Hbc Hc1) as Hb1.
  apply (defined_child_evolves d Hd _ _ _ _ Hb1) in Hdc.
  apply (get_defined_child_list_spec _ _ _ _ Hsubs) in Hdc.
  destruct (evolves_Some_inv _ _ _ _ _ Hc1 Hc) as (tc0 & Hc0 & Hstep).
  destruct (Hpost c tc0 Hdc Hc0) as [Hdue Hstart].
  split.
  - unfold date_leb.
    destruct Hstep as (_ & _ & _ & [E|[E _]]); rewrite E;
      [by rewrite Hdue|by rewrite date_ltb_irrefl].
  - apply (start_ok_step d Hd _ _ Hstep) in Hstart.
    unfold start_ok in Hstart. unfold date_leb.
    destruct (is_fuzzy (start_date tc)); [by left|right].
    simpl in Hstart. by rewrite Hstart.
Qed.

Lemma set_due_date_pulls_children_witness :
  ∃ s' tc,
    set_due_date 0 10 parent_and_child "p" (Concrete 5) = Some s' ∧
    get_task s' "c" = Some tc ∧
    date_leb (due_date tc) (Concrete 5) = true ∧
    (is_fuzzy (start_date tc) = true
     ∨ date_leb (start_date tc) (Concrete 5) = true).
Proof.
  destruct (set_due_date 0 10 parent_and_child "p" (Concrete 5))
    as [s'|] eqn:Hrun; [|discriminate Hrun].
  assert (∃ tp tc, get_task s' "p" = Some tp ∧ children tp = ["c"] ∧
                   get_task s' "c" = Some tc ∧ due_date tc = Concrete 5)
    as (tp & tc & Hp & Hch & Hc & Hdue).
  { injection Hrun as <-. vm_compute. by eexists _, _. }
  exists s', tc. split; [reflexivity|]. split; [exact Hc|].
  apply (set_due_date_pulls_children 0 10 parent_and_child "p" (Concrete 5)
           s' "c" tc eq_refl Hrun); [|exact Hc].
  eapply defined_child_here; [exact Hp| |exact Hc|by rewrite Hdue].
  rewrite Hch. by left.
Defined.

(** ** The due date constraint of a task *)

Lemma defined_parent_from s c tc a :
  get_task s c = Some tc →
  defined_parent s c a ↔ ∃ p, p ∈ parents tc ∧ defined_from s p a.
Proof.
  intros Hc. split.
  - intros H. destruct H as [c tc' a ta Hc' Ha Hta Hfa|c tc' m tm a Hc' Hm Htm Hfm Hrest];
      rewrite Hc in Hc'; injection Hc' as <-.
    + exists a. split; [done|]. exists ta. split; [done|]. by rewrite Hfa.
    + exists m. split; [done|]. exists tm. split; [done|]. by rewrite Hfm.
  - intros (p & Hp & tp & Htp & Hvia).
    destruct (is_fuzzy (due_date tp)) eqn:Hfz.
    + by eapply defined_parent_skip.
    + subst a. by eapply defined_parent_here.
Qed.

Lemma date_leb_refl d : date_leb d d = true.
Proof. unfold date_leb. by rewrite date_ltb_irrefl. Qed.

Lemma date_ltb_leb a b : date_ltb a b = true → date_leb a b = true.
Proof.
  unfold date_leb. destruct a, b; simpl; try done.
  rewrite negb_true_iff, Z.ltb_lt, Z.ltb_ge. lia.
Qed.

Lemma constraint_so_far_step s own acc done p pd :
  is_fuzzy own = true →
  constraint_so_far s own acc done →
  ((is_fuzzy pd = false ∧
    (∃ a ta, defined_from s p a ∧ get_task s a = Some ta ∧ pd = due_date ta) ∧
    ∀ a ta, defined_from s p a → get_task s a = Some ta →
            date_leb pd (due_date ta) = true) ∨
   (is_fuzzy pd = true ∧ ∀ a, ¬ defined_from s p a)) →
  constraint_so_far s own
    (if is_fuzzy pd then acc
     else if is_fuzzy acc then pd
     else if date_ltb pd acc then pd else acc) (done ++ [p]).
Proof.
  intros Hown [HA HB] [(Hpd & (a0 & ta0 & Hvia0 & Hta0 & Heq0) & Hbound)
                      |[Hpd Hnone]]; rewrite Hpd.
  - destruct (is_fuzzy acc) eqn:Hacc.
    + destruct HB as [[Hf _]|[_ Hno]]; [congruence|]. split.
      * intros p' a ta [Hin|Hin%list_elem_of_singleton]%elem_of_app Hvia Hta.
        -- by destruct (Hno p' a Hin).
        -- subst p'. by eapply Hbound.
      * left. split; [done|]. exists p, a0, ta0.
        split; [apply elem_of_app; right; by left|done].
    + destruct HB as [[_ (p1 & a1 & ta1 & Hin1 & Hvia1 & Hta1 & Heq1)]|[E _]];
        [|congruence].
      destruct (date_ltb pd acc) eqn:Hlt.
      * split.
        -- intros p' a ta [Hin|Hin%list_elem_of_singleton]%elem_of_app Hvia Hta.
           ++ apply (date_leb_trans _ acc); [done|by apply date_ltb_leb|].
              by eapply HA.
           ++ subst p'. by eapply Hbound.
        -- left. split; [done|]. exists p, a0, ta0.
           split; [apply elem_of_app; right; by left|done].
      * split.
        -- intros p' a ta [Hin|Hin%list_elem_of_singleton]%elem_of_app Hvia Hta.
           ++ by eapply HA.
           ++ subst p'. apply (date_leb_trans _ pd); [done| |by eapply Hbound].
              unfold date_leb. by rewrite Hlt.
        -- left. split; [done|]. exists p1, a1, ta1.
           split; [apply elem_of_app; by left|done].
  - split.
    + intros p' a ta [Hin|Hin%list_elem_of_singleton]%elem_of_app Hvia Hta.
      * by eapply HA.
      * subst p'. by destruct (Hnone a).
    + destruct HB as [[Hf (p1 & a1 & ta1 & Hin1 & Hrest)]|[E Hno]].
      * left. split; [done|]. exists p1, a1, ta1.
        split; [apply elem_of_app; by left|done].
      * right. split; [done|].
        intros p' a [Hin|Hin%list_elem_of_singleton]%elem_of_app.
        -- by apply Hno.
        -- subst p'. apply Hnone.
Qed.

Lemma defined_from_defined s p tp a :
  get_task s p = Some tp → is_fuzzy (due_date tp) = false →
  defined_from s p a ↔ a = p.
Proof.
  intros Hp Hfz. split.
  - intros (tp' & Hp' & H). rewrite Hp in Hp'. injection Hp' as <-.
    by rewrite Hfz in H.
  - intros ->. exists tp. by rewrite Hfz.
Qed.

Lemma defined_from_fuzzy s p tp a :
  get_task s p = Some tp → is_fuzzy (due_date tp) = true →
  defined_from s p a ↔ defined_parent s p a.
Proof.
  intros Hp Hfz. split.
  - intros (tp' & Hp' & H). rewrite Hp in Hp'. injection Hp' as <-.
    by rewrite Hfz in H.
  - intros H. exists tp. by rewrite Hfz.
Qed.

Lemma get_due_date_constraint_loop fuel s own :
  (∀ p tp r,
     get_task s p = Some tp → is_fuzzy (due_date tp) = true →
     get_due_date_constraint fuel s p = Some r →
     is_constraint s p (due_date tp) r) →
  is_fuzzy own = true →
  ∀ l done acc r,
    constraint_so_far s own acc done →
    fold_each (λ strongest_const_date par_id,
      par ← get_task s par_id;
      par_duedate ← (if is_fuzzy (due_date par)
                     then get_due_date_constraint fuel s par_id
                     else Some (due_date par));
      if is_fuzzy par_duedate then Some strongest_const_date
      else if is_fuzzy strongest_const_date then Some par_duedate
      else if date_ltb par_duedate strongest_const_date
           then Some par_duedate
           else Some strongest_const_date) l acc = Some r →
    constraint_so_far s own r (done ++ l).
Proof.
  intros IH Hfz.
  induction l as [|p l IHl]; intros done acc r Hinv Hrun.
  - cbn [fold_each] in Hrun. injection Hrun as <-. by rewrite app_nil_r.
  - cbn [fold_each] in Hrun. body_bind Hrun Hbody.
    replace (done ++ p :: l) with ((done ++ [p]) ++ l)
      by (by rewrite <- app_assoc).
    eapply IHl; [|exact Hrun]. clear Hrun IHl.
    body_bind Hbody Hp. body_bind Hbody Hpd.
    lazymatch type of Hp with _ = Some ?x => rename x into tp end.
    lazymatch type of Hpd with _ = Some ?x => rename x into pd end.
    pose proof (constraint_so_far_step s own acc done p pd Hfz Hinv)
      as Hstep.
    lazymatch type of Hbody with _ = Some ?x => rename x into acc' end.
    assert (acc' = if is_fuzzy pd then acc
                   else if is_fuzzy acc then pd
                   else if date_ltb pd acc then pd else acc) as ->.
    { destruct (is_fuzzy pd), (is_fuzzy acc), (date_ltb pd acc);
        by injection Hbody as <-. }
    apply Hstep. clear Hstep Hbody.
    destruct (is_fuzzy (due_date tp)) eqn:Hfp.
    + destruct (IH _ _ _ Hp Hfp Hpd)
        as [Hbound [(a & ta & Hdp & Hta & ->)|[-> Hnone]]].
      * left. destruct (defined_parent_end _ _ _ Hdp) as (ta' & Hta' & Hfa).
        rewrite Hta in Hta'. injection Hta' as <-.
        split; [done|]. split.
        -- exists a, ta. by rewrite (defined_from_fuzzy _ _ _ _ Hp Hfp).
        -- intros a' ta' Hvia. apply Hbound.
           by apply (defined_from_fuzzy _ _ _ _ Hp Hfp).
      * right. split; [done|]. intros a Hvia. apply (Hnone a).
        by apply (defined_from_fuzzy _ _ _ _ Hp Hfp).
    + injection Hpd as <-. left. split; [done|]. split.
      * exists p, tp. by rewrite (defined_from_defined _ _ _ _ Hp Hfp).
      * intros a ta Hvia%(defined_from_defined _ _ _ _ Hp Hfp) Hta.
        subst a. rewrite Hp in Hta. injection Hta as <-.
        apply date_leb_refl.
Qed.

Lemma get_due_date_constraint_fuzzy fuel :
  ∀ s self t r,
    get_task s self = Some t → is_fuzzy (due_date t) = true →
    get_due_date_constraint fuel s self = Some r →
    is_constraint s self (due_date t) r.
Proof.
  induction fuel as [|fuel IH]; intros s self t r Ht Hfz Hrun; [done|].
  cbn [get_due_date_constraint] in Hrun. rewrite Ht in Hrun.
  cbn [mbind option_bind] in Hrun. rewrite Hfz in Hrun.
  assert (constraint_so_far s (due_date t) r ([] ++ parents t)) as [HA HB].
  { eapply (get_due_date_constraint_loop fuel s (due_date t) (IH s) Hfz);
      [|exact Hrun].
    split; [by intros p a ta Hp%elem_of_nil|].
    right. split; [done|]. by intros p a Hp%elem_of_nil. }
  simpl in HA, HB. split.
  - intros a ta Hdp Hta.
    apply (defined_parent_from _ _ _ _ Ht) in Hdp as (p & Hp & Hvia).
    by eapply HA.
  - destruct HB as [[_ (p & a & ta & Hp & Hvia & Hta & ->)]|[-> Hnone]].
    + left. exists a, ta. split; [|done].
      apply (defined_parent_from _ _ _ _ Ht). by exists p.
    + right. split; [done|]. intros a Hdp.
      apply (defined_parent_from _ _ _ _ Ht) in Hdp as (p & Hp & Hvia).
      by apply (Hnone p a).
Qed.

(** The date [get_due_date_constraint] returns, when it returns one.  For
    a task whose due date is not fuzzy it is that due date.  For a task whose due date is fuzzy
    or undefined it is the earliest due date among the nearest defined
    ancestors (those with a due date that is not fuzzy, reached by parent
    links through tasks with fuzzy due dates); when there is no such
    ancestor it is the task's own due date. *)
Lemma get_due_date_constraint_result fuel s self t r :
  get_task s self = Some t →
  get_due_date_constraint fuel s self = Some r →
  if is_fuzzy (due_date t) then is_constraint s self (due_date t) r
  else r = due_date t.
Proof.
  intros Ht Hrun. destruct (is_fuzzy (due_date t)) eqn:Hfz.
  - by eapply get_due_date_constraint_fuzzy.
  - destruct fuel as [|fuel]; [done|].
    cbn [get_due_date_constraint] in Hrun. rewrite Ht in Hrun.
    cbn [mbind option_bind] in Hrun. rewrite Hfz in Hrun.
    by injection Hrun as <-.
Qed.

(** ** The most urgent date of a task *)

Lemma date_ltb_min_l x a u :
  date_ltb x a = false → date_ltb x (date_min a u) = false.
Proof.
  unfold date_min. destruct (date_ltb u a) eqn:Hlt; [|done].
  destruct x, a, u; simpl in *; try done;
    rewrite ?Z.ltb_lt, ?Z.ltb_ge in *; lia.
Qed.

Lemma date_ltb_min_r x a u :
  date_ltb x u = false → date_ltb x (date_min a u) = false.
Proof.
  unfold date_min. destruct (date_ltb u a) eqn:Hlt; [done|].
  destruct x, a, u; simpl in *; try done;
    rewrite ?Z.ltb_lt, ?Z.ltb_ge in *; lia.
Qed.

Lemma active_below_from s x t d :
  get_task s x = Some t →
  active_below s x d ↔ ∃ c, c ∈ children t ∧ active_from s c d.
Proof.
  intros Hx. split.
  - intros H.
    destruct H as [x t' c tc Hx' Hc Htc Hact|x t' c tc d Hx' Hc Htc Hact Hd];
      rewrite Hx in Hx'; injection Hx' as <-.
    + exists c. split; [done|]. exists tc. by eauto.
    + exists c. split; [done|]. exists tc. by eauto.
  - intros (c & Hc & tc & Htc & Hact & [->|Hd]).
    + by eapply active_below_child.
    + by eapply active_below_step.
Qed.

Lemma get_urgent_date_loop fuel s own :
  (∀ c tc r,
     get_task s c = Some tc → get_urgent_date fuel s c = Some r →
     is_urgent_date s c (due_date tc) r) →
  ∀ l done acc r,
    urgent_so_far s own acc done →
    fold_each (λ urgent_date sub_id,
      subtask ← get_task s sub_id;
      if bool_decide (status subtask = STA_ACTIVE) then
        u ← get_urgent_date fuel s sub_id;
        Some (date_min urgent_date u)
      else Some urgent_date) l acc = Some r →
    urgent_so_far s own r (done ++ l).
Proof.
  intros IH.
  induction l as [|c l IHl]; intros done acc r Hinv Hrun.
  - cbn [fold_each] in Hrun. injection Hrun as <-. by rewrite app_nil_r.
  - cbn [fold_each] in Hrun. body_bind Hrun Hbody.
    replace (done ++ c :: l) with ((done ++ [c]) ++ l)
      by (by rewrite <- app_assoc).
    eapply IHl; [|exact Hrun]. clear Hrun IHl.
    body_bind Hbody Hc.
    lazymatch type of Hc with _ = Some ?x => rename x into tc end.
    destruct Hinv as (Hown & Hlow & Hone).
    case_bool_decide as Hact.
    + body_bind Hbody Hu.
      lazymatch type of Hu with _ = Some ?x => rename x into u end.
      injection Hbody as <-.
      destruct (IH _ _ _ Hc Hu) as (Hu_own & Hu_low & Hu_one).
      split; [by apply date_ltb_min_l|]. split.
      * intros c' e te [Hin|Hin%list_elem_of_singleton]%elem_of_app Hfrom Hte.
        -- apply date_ltb_min_l. by eapply Hlow.
        -- subst c'. apply date_ltb_min_r.
           destruct Hfrom as (tc' & Hc' & _ & [->|Hbelow]).
           ++ rewrite Hc in Hte. by injection Hte as <-.
           ++ by eapply Hu_low.
      * unfold date_min. destruct (date_ltb u acc) eqn:Hlt.
        -- right. destruct Hu_one as [->|(e & te & Hbelow & Hte & ->)].
           ++ exists c, c, tc. split; [apply elem_of_app; right; by left|].
              split; [|done]. exists tc. by eauto.
           ++ exists c, e, te. split; [apply elem_of_app; right; by left|].
              split; [|done]. exists tc. by eauto.
        -- destruct Hone as [->|(c' & e & te & Hin & Hrest)]; [by left|].
           right. exists c', e, te. split; [apply elem_of_app; by left|done].
    + injection Hbody as <-. split; [done|]. split.
      * intros c' e te [Hin|Hin%list_elem_of_singleton]%elem_of_app Hfrom Hte.
        -- by eapply Hlow.
        -- subst c'. destruct Hfrom as (tc' & Hc' & Hact' & _).
           rewrite Hc in Hc'. by injection Hc' as <-.
      * destruct Hone as [->|(c' & e & te & Hin & Hrest)]; [by left|].
        right. exists c', e, te. split; [apply elem_of_app; by left|done].
Qed.

(** The date [get_urgent_date] returns, when it returns one: a due date of the task or of an
    Active task below it (reached by child links through Active tasks),
    than which none of these due dates is earlier.  Subtasks that are done
    or dismissed, and what lies below them, are not looked at. *)
Lemma get_urgent_date_result fuel :
  ∀ s self t r,
    get_task s self = Some t →
    get_urgent_date fuel s self = Some r →
    is_urgent_date s self (due_date t) r.
Proof.
  induction fuel as [|fuel IH]; intros s self t r Ht Hrun; [done|].
  cbn [get_urgent_date] in Hrun. rewrite Ht in Hrun.
  cbn [mbind option_bind] in Hrun.
  assert (urgent_so_far s (due_date t) r ([] ++ children t))
    as (Hown & Hlow & Hone).
  { eapply (get_urgent_date_loop fuel s (due_date t) (IH s)); [|exact Hrun].
    split; [apply date_ltb_irrefl|]. split; [|by left].
    by intros c d td Hc%elem_of_nil. }
  simpl in Hlow, Hone. split; [done|]. split.
  - intros d td Hbelow Htd.
    apply (active_below_from _ _ _ _ Ht) in Hbelow as (c & Hc & Hfrom).
    by eapply Hlow.
  - destruct Hone as [->|(c & d & td & Hc & Hfrom & Htd & ->)]; [by left|].
    right. exists d, td. split; [|done].
    apply (active_below_from _ _ _ _ Ht). by exists c.
Qed.

(** ** Titles, synchronisation contexts and attributes *)

(** X5: [set_title] is idempotent: a second call with the same argument
    leaves the store as the first one left it, so it stamps nothing and
    sends no notification. *)
Theorem set_title_twice now s self x :
  set_title now (set_title now s self x) self x = set_title now s self x.
Proof.
  unfold set_title.
  set (y := if PyStr.is_empty x then _ else _).
  destruct (get_task s self) as [t|] eqn:Ht; [|by rewrite Ht].
  case_bool_decide as Hsame.
  - rewrite Ht. by rewrite bool_decide_eq_true_2.
  - erewrite sync_self by (by rewrite get_task_update_eq, Ht).
    rewrite bool_decide_eq_true_2; [done|].
    simpl. by destruct (sync_disabled t).
Qed.

Lemma sync_disabled_id now s self t :
  get_task s self = Some t → sync_disabled t = true → sync now s self = s.
Proof. intros Ht Hd. unfold sync. by rewrite Ht, Hd. Qed.

Lemma run_edit_disabled now self s e t :
  get_task s self = Some t → sync_disabled t = true →
  events (run_edit now self s e) = events s ∧
  ∃ t', get_task (run_edit now self s e) self = Some t' ∧
        sync_disabled t' = true ∧ loaded t' = loaded t ∧
        last_modified t' = last_modified t.
Proof.
  intros Ht Hd.
  assert (∀ f, sync_disabled (f t) = true → loaded (f t) = loaded t →
               last_modified (f t) = last_modified t →
               events (sync now (update_task f self s) self) = events s ∧
               ∃ t', get_task (sync now (update_task f self s) self) self
                     = Some t' ∧ sync_disabled t' = true
                     ∧ loaded t' = loaded t
                     ∧ last_modified t' = last_modified t) as Hupd.
  { intros f Hfd Hfl Hfm.
    rewrite (sync_disabled_id now _ self (f t));
      [|by rewrite get_task_update_eq, Ht|done].
    split; [done|]. rewrite get_task_update_eq, Ht. by exists (f t). }
  destruct e as [x|d|d]; cbn [run_edit];
    unfold set_title, set_start_date, set_closed_date.
  - rewrite Ht. case_bool_decide; [|by apply Hupd].
    split; [done|]. by exists t.
  - by apply Hupd.
  - by apply Hupd.
Qed.

(** X6: batching with [DisabledSyncCtx].  Whatever titles, start dates and
    closed dates a block sets on its task, nothing is notified and the
    time stamp is not touched inside the block; leaving the block enables
    synchronisation again and, with [sync_on_exit], stamps the task once
    and sends exactly one notification if the task is loaded. *)
Theorem with_disabled_sync_once now edits s self t :
  get_task s self = Some t →
  let s' := with_disabled_sync now true edits s self in
  events s' = (if loaded t then Modified self :: events s else events s) ∧
  ∃ t', get_task s' self = Some t' ∧ sync_disabled t' = false ∧
        last_modified t' = StampTime now.
Proof.
  intros Ht. cbv zeta. unfold with_disabled_sync, DisabledSyncCtx_exit.
  assert (events (fold_left (run_edit now self) edits
                    (DisabledSyncCtx_enter s self)) = events s ∧
          ∃ tx, get_task (fold_left (run_edit now self) edits
                            (DisabledSyncCtx_enter s self)) self = Some tx
                ∧ sync_disabled tx = true ∧ loaded tx = loaded t)
    as (Hev & tx & Htx & _ & Hl).
  { assert (events (DisabledSyncCtx_enter s self) = events s ∧
            ∃ tx, get_task (DisabledSyncCtx_enter s self) self = Some tx
                  ∧ sync_disabled tx = true ∧ loaded tx = loaded t) as Hinit.
    { unfold DisabledSyncCtx_enter. split; [done|].
      rewrite get_task_update_eq, Ht. by eexists. }
    revert Hinit. generalize (DisabledSyncCtx_enter s self) as sx.
    induction edits as [|e edits IH]; intros sx Hinv; [done|].
    cbn [fold_left]. apply IH.
    destruct Hinv as (Hev & tx & Htx & Hd & Hl).
    destruct (run_edit_disabled now self sx e tx Htx Hd)
      as (Hev' & tx' & Htx' & Hd' & Hl' & _).
    split; [congruence|]. exists tx'. split; [done|]. split; [done|].
    congruence. }
  set (sx := fold_left _ _ _) in *.
  assert (get_task (update_task (with_sync_disabled false) self sx) self
          = Some (with_sync_disabled false tx)) as Hty.
  { by rewrite get_task_update_eq, Htx. }
  split.
  - rewrite (sync_events _ _ _ _ Hty), events_update, Hev. simpl.
    by rewrite Hl.
  - rewrite (sync_self _ _ _ _ Hty). by eexists.
Qed.

Lemma with_disabled_sync_once_witness :
  let s' := with_disabled_sync 7 true
              [Edit_title "a"; Edit_start_date (Concrete 3); Edit_title "b"]
              parent_and_child "p" in
  events s' = [Modified "p"] ∧
  ∃ t', get_task s' "p" = Some t' ∧ sync_disabled t' = false ∧
        last_modified t' = StampTime 7.
Proof.
  exact (with_disabled_sync_once 7
           [Edit_title "a"; Edit_start_date (Concrete 3); Edit_title "b"]
           parent_and_child "p"
           (sample_task "p" STA_ACTIVE (Concrete 10) [] ["c"]) eq_refl).
Defined.

Lemma dict_get_set {K V} `{EqDecision K} (k k' : K) (v : V) l :
  dict_get k' (dict_set k v l) =
  if decide (k = k') then Some v else dict_get k' l.
Proof.
  induction l as [|[k0 v0] l IH]; cbn [dict_set dict_get].
  - by destruct (decide (k = k')).
  - destruct (decide (k0 = k)) as [->|Hne]; cbn [dict_get].
    + by destruct (decide (k = k')).
    + rewrite IH. destruct (decide (k0 = k')) as [->|]; [|done].
      by rewrite decide_False.
Qed.

(** X7: attributes round trip.  After [set_attribute] the task holds the
    value under the pair of namespace and name: [get_attribute] returns
    it for that pair, and what it returned before for every other pair, so
    one name in two namespaces is two attributes. *)
Theorem get_set_attribute now s self t name value ns :
  get_task s self = Some t →
  ∃ t', get_task (set_attribute now s self name value ns) self = Some t' ∧
        ∀ name' ns',
          get_attribute t' name' ns' =
          if decide ((ns, name) = (ns', name')) then Some value
          else get_attribute t name' ns'.
Proof.
  intros Ht. unfold set_attribute.
  erewrite sync_self by (by rewrite get_task_update_eq, Ht).
  eexists. split; [done|]. intros name' ns'. unfold get_attribute.
  rewrite <- dict_get_set. by destruct (sync_disabled _).
Qed.

Lemma get_set_attribute_witness :
  ∃ t', get_task (set_attribute 7 parent_and_child "p" "colour" "red" "ui")
          "p" = Some t' ∧
        get_attribute t' "colour" "ui" = Some "red" ∧
        get_attribute t' "colour" EmptyString = None.
Proof.
  destruct (get_set_attribute 7 parent_and_child "p"
              (sample_task "p" STA_ACTIVE (Concrete 10) [] ["c"])
              "colour" "red" "ui" eq_refl) as (t' & Ht' & Hget).
  exists t'. split; [exact Ht'|]. split.
  - rewrite Hget. reflexivity.
  - rewrite Hget. reflexivity.
Defined.

(** ** Reopening and toggling *)

Section Reopening_keeps.
Context (now today : Z) (parse : Date → string → bool → option Date).
Context (R : Task → Task → Prop) `{!Reflexive R} `{!Transitive R}.
Context (Hmod : ∀ v t, R t (with_last_modified v t)).
Context (Hcbd : ∀ v t, R t (with_can_be_deleted v t)).
Context (Hstatus : ∀ t, R t (with_status STA_ACTIVE t)).

Lemma set_status_active_keeps fuel :
  ∀ s self donedate propagation init s',
    set_status now today parse fuel s self (Some STA_ACTIVE) donedate
      propagation init = Some s' →
    evolves R s s'.
Proof using Hmod Hcbd Hstatus Reflexive0 Transitive0.
  induction fuel as [|fuel IH];
    intros s self donedate propagation init s' Hrun; [done|].
  cbn [set_status] in Hrun.
  destruct (get_task s self) as [t|] eqn:Ht; cbn [mbind option_bind] in Hrun;
    [|done].
  set (s1 := update_task (with_can_be_deleted false) self s) in Hrun.
  assert (evolves R s s1) as Hev1.
  { subst s1. by apply evolves_update. }
  destruct (if loaded t then _ else Some s1) as [s2|] eqn:Hmid;
    cbn [mbind option_bind] in Hrun; [|done].
  destruct (get_task s2 self) as [me|]; cbn [mbind option_bind] in Hrun;
    [|done].
  assert (evolves R s1 s2) as Hev2.
  { destruct (loaded t); [|simplify_eq; apply evolves_refl, _].
    cbn [is_closed is_active andb] in Hmid.
    destruct (is_closed (status t)); [|simplify_eq; apply evolves_refl, _].
    destruct (get_task s1 self) as [me1|];
      cbn [mbind option_bind] in Hmid; [|done].
    destruct (has_parent me1); [|simplify_eq; apply evolves_refl, _].
    eapply evolves_for_each; [exact _..| |exact Hmid].
    intros sx x sy _ Hbody. cbv beta in Hbody.
    destruct (get_task sx x) as [par|];
      cbn [mbind option_bind] in Hbody; [|done].
    destruct (loaded par && is_closed (status par));
      [|simplify_eq; apply evolves_refl, _].
    by eapply IH. }
  simplify_eq. cbn [is_closed].
  pose proof (evolves_trans _ _ _ _ Hev1 Hev2) as Hev.
  destruct init; evolves_steps ltac:(done).
Qed.
End Reopening_keeps.

(** X8: what a reopening writes.  When [set_status] with Active returns,
    the store holds the same tasks, and on every task only the status, the
    [can_be_deleted] flag and the time stamp can differ: a status is the
    old one or Active, and a closing date is never cleared, also on the
    reopened task itself. *)
Theorem set_status_active_frame now today parse fuel s self donedate
    propagation init s' :
  set_status now today parse fuel s self (Some STA_ACTIVE) donedate
    propagation init = Some s' →
  ∀ x,
    match get_task s x, get_task s' x with
    | Some t, Some t' =>
        but_status t' = but_status t ∧
        closed_date t' = closed_date t ∧
        (status t' = status t ∨ status t' = STA_ACTIVE)
    | None, None => True
    | _, _ => False
    end.
Proof.
  intros Hrun x.
  pose proof (set_status_active_keeps now today parse (same_on but_status)
                ltac:(done) ltac:(done) ltac:(done) _ _ _ _ _ _ _ Hrun x)
    as Hk.
  pose proof (reactivate_evolves now today parse _ _ _ _ _ _ _ Hrun x) as Hs.
  destruct (get_task s x) as [t|], (get_task s' x) as [t'|]; try done.
  split; [exact Hk|]. split; [|by destruct Hs as (_ & _ & _ & ?)].
  unfold same_on, but_status in Hk. by injection Hk.
Qed.

Lemma set_status_active_frame_witness :
  ∃ s',
    set_status 7 1 sample_parse 3 closed_family "leaf" (Some STA_ACTIVE) None
      false false = Some s' ∧
    ∀ x,
      match get_task closed_family x, get_task s' x with
      | Some t, Some t' =>
          but_status t' = but_status t ∧
          closed_date t' = closed_date t ∧
          (status t' = status t ∨ status t' = STA_ACTIVE)
      | None, None => True
      | _, _ => False
      end.
Proof.
  destruct (set_status 7 1 sample_parse 3 closed_family "leaf"
              (Some STA_ACTIVE) None false false) as [s'|] eqn:Hrun;
    [|discriminate Hrun].
  exists s'. split; [reflexivity|].
  exact (set_status_active_frame 7 1 sample_parse 3 closed_family "leaf"
           None false false s' Hrun).
Defined.

Section Toggle.
Context (now today : Z) (parse : Date → string → bool → option Date).

(** The last steps of [set_status] leave the status asked for on the
    task, and for Done and Dismissed the closing date. *)
Lemma set_status_self fuel s self st donedate propagation init s' :
  set_status now today parse fuel s self (Some st) donedate propagation init
  = Some s' →
  ∃ t', get_task s' self = Some t' ∧ status t' = st ∧
        (is_closed st = true →
         closed_date t' = default (Concrete today) donedate).
Proof.
  intros Hrun. destruct fuel as [|fuel]; [done|].
  cbn [set_status] in Hrun. body_bind Hrun Ht. body_bind Hrun Hmid.
  body_bind Hrun Hme. injection Hrun as <-.
  lazymatch type of Hme with get_task ?x _ = Some ?m =>
    set (s2 := x) in *; rename m into me end.
  set (s3 := if init then s2 else emit (StatusChanged self (status me) st) s2).
  assert (get_task s3 self = Some me) as Hme3.
  { subst s3. destruct init; by rewrite ?get_task_emit. }
  destruct (is_closed st) eqn:Hst.
  - erewrite sync_self
      by (by rewrite !get_task_update_eq, Hme3).
    eexists. split; [done|]. by destruct (sync_disabled _).
  - erewrite sync_self by (by rewrite !get_task_update_eq, Hme3).
    eexists. split; [done|]. by destruct (sync_disabled _).
Qed.
End Toggle.

(** X9: when [toggle_status] returns, it has closed a task that was
    Active as Done, with today as its closing date, or reopened a task
    that was Done or Dismissed, whose closing date stays. *)
Theorem toggle_status_flips now today parse fuel s self t s' :
  get_task s self = Some t →
  toggle_status now today parse fuel s self = Some s' →
  ∃ t', get_task s' self = Some t' ∧
        if is_closed (status t)
        then status t' = STA_ACTIVE ∧ closed_date t' = closed_date t
        else status t' = STA_DONE ∧ closed_date t' = Concrete today.
Proof.
  intros Ht Hrun. unfold toggle_status in Hrun. rewrite Ht in Hrun.
  cbn [mbind option_bind] in Hrun.
  destruct (is_closed (status t)).
  - destruct (set_status_self _ _ _ _ _ _ _ _ _ _ _ Hrun) as (t' & Ht' & Hst & _).
    exists t'. split; [done|]. split; [done|].
    pose proof (set_status_active_keeps now today parse (same_on closed_date)
                  ltac:(done) ltac:(done) ltac:(done) _ _ _ _ _ _ _ Hrun self)
      as Hf.
    by rewrite Ht, Ht' in Hf.
  - destruct (set_status_self _ _ _ _ _ _ _ _ _ _ _ Hrun)
      as (t' & Ht' & Hst & Hcl).
    exists t'. split; [done|]. split; [done|]. by apply Hcl.
Qed.

Lemma toggle_status_flips_witness :
  ∃ s' t',
    toggle_status 7 1 sample_parse 3 closed_family "leaf" = Some s' ∧
    get_task s' "leaf" = Some t' ∧
    status t' = STA_ACTIVE ∧ closed_date t' = NoDate.
Proof.
  destruct (toggle_status 7 1 sample_parse 3 closed_family "leaf")
    as [s'|] eqn:Hrun; [|discriminate Hrun].
  destruct (toggle_status_flips 7 1 sample_parse 3 closed_family "leaf"
              (sample_task "leaf" STA_DONE NoDate ["kid"] []) s'
              eq_refl Hrun) as (t' & Ht' & Hst & Hcl).
  by exists s', t'.
Defined.

(** ** The cases of [set_recurring] *)

Section Recurring_cases.
Context (now today : Z) (parse : Date → string → bool → option Date).

(** On a task without children: the flag, the term and the due date the
    call leaves. *)
Lemma set_recurring_leaf fuel s self t r term newtask valid newdate s' :
  get_task s self = Some t → children t = [] →
  is_valid_term today parse t term newtask = (valid, newdate) →
  set_recurring now today parse fuel s self r term newtask = Some s' →
  ∃ t', get_task s' self = Some t' ∧
        recurring t' = r && valid ∧
        recurring_term t' =
          (if valid then term
           else if r then None else recurring_term t) ∧
        due_date t' =
          (if r && valid && newtask then default NoDate newdate
           else due_date t).
Proof.
  intros Ht Hleaf Hvalid Hrun. destruct fuel as [|fuel]; [done|].
  cbn [set_recurring] in Hrun. rewrite Ht in Hrun.
  cbn [mbind option_bind] in Hrun. rewrite Hvalid in Hrun.
  body_bind Hrun Hmid.
  lazymatch type of Hmid with _ = Some ?x => rename x into s2 end.
  assert (∃ t2, get_task s2 self = Some t2 ∧
            recurrence_of t2 =
              (r && valid,
               if valid then term else if r then None else recurring_term t,
               children t) ∧
            due_date t2 =
              (if r && valid && newtask then default NoDate newdate
               else due_date t)) as (t2 & Ht2 & Hrec & Hdue).
  { destruct r, valid; cbn [negb andb] in Hmid |- *.
    - destruct newtask; cbn [andb].
      + match type of Hmid with
        | set_due_date _ _ ?sb _ _ = _ => set (sb' := sb) in *
        end.
        assert (get_task sb' self =
                Some (with_recurring_updated_date (StampTime now)
                        (with_recurring_term term (with_recurring true t))))
          as Hb by (subst sb'; by rewrite !get_task_update_eq, Ht).
        pose proof (set_due_date_keeps now (same_on recurrence_of)
                      ltac:(done) ltac:(done) ltac:(done) _ _ _ _ _ Hmid self)
          as Hk.
        pose proof (set_due_date_steps _ _ _ _ _ _ Hmid self) as Hs.
        rewrite get_task_update_eq, Hb in Hs. rewrite Hb in Hk.
        destruct (get_task s2 self) as [t2|]; [|done].
        exists t2. split; [done|]. split; [exact Hk|].
        simpl in Hs. by destruct Hs as (_ & _ & _ & [E|[E _]]).
      + injection Hmid as <-. rewrite !get_task_update_eq, Ht.
        by eexists.
    - injection Hmid as <-. rewrite !get_task_update_eq, Ht. by eexists.
    - injection Hmid as <-. rewrite !get_task_update_eq, Ht. by eexists.
    - injection Hmid as <-. rewrite !get_task_update_eq, Ht. by eexists. }
  rewrite (sync_self _ _ _ _ Ht2) in Hrun. cbn [mbind option_bind] in Hrun.
  injection Hrec as Hr Hterm Hch.
  assert (children (if sync_disabled t2 then t2
                    else with_last_modified (StampTime now) t2) = [])
    as Hnone by (destruct (sync_disabled t2); simpl; congruence).
  rewrite Hnone in Hrun. cbn [for_each] in Hrun. injection Hrun as <-.
  rewrite (sync_self _ _ _ _ Ht2). eexists. split; [done|].
  by destruct (sync_disabled t2).
Qed.

(** X10: the four cases of [set_recurring], on a task without children,
    when the call returns.  The task ends up recurring exactly when it was
    asked to be and the term is valid.  A valid term is always stored; an
    invalid one clears the stored term when recurrence was asked for and
    keeps it otherwise.  The due date is set, to the date computed from
    the term, only for a new task that ends up recurring. *)
Theorem set_recurring_cases fuel s self t r term newtask s' :
  get_task s self = Some t → children t = [] →
  set_recurring now today parse fuel s self r term newtask = Some s' →
  ∃ t', get_task s' self = Some t' ∧
        let valid := fst (is_valid_term today parse t term newtask) in
        let newdate := snd (is_valid_term today parse t term newtask) in
        recurring t' = r && valid ∧
        recurring_term t' =
          (if valid then term
           else if r then None else recurring_term t) ∧
        due_date t' =
          (if r && valid && newtask then default NoDate newdate
           else due_date t).
Proof.
  intros Ht Hleaf Hrun.
  destruct (is_valid_term today parse t term newtask) as [valid newdate]
    eqn:Hvalid.
  by eapply set_recurring_leaf.
Qed.

(** X11: [toggle_recurring] on a task without children, when the call
    returns.  A task with no term gets the term [day] and is treated as
    new.  The task ends up recurring exactly when it was not and the term
    is valid; so a recurring task is always switched off, and a task whose
    term is not valid cannot be switched on, and loses the term when it
    tries. *)
Theorem toggle_recurring_leaf fuel s self t s' :
  get_task s self = Some t → children t = [] →
  toggle_recurring now today parse fuel s self = Some s' →
  ∃ t', get_task s' self = Some t' ∧
        let term := Some (default "day" (recurring_term t)) in
        let newtask := bool_decide (recurring_term t = None) in
        let valid := fst (is_valid_term today parse t term newtask) in
        recurring t' = negb (recurring t) && valid ∧
        recurring_term t' =
          (if valid then term
           else if recurring t then term else None).
Proof.
  intros Ht Hleaf Hrun. unfold toggle_recurring in Hrun.
  rewrite Ht in Hrun. cbn [mbind option_bind] in Hrun.
  destruct (recurring_term t) as [term|] eqn:Hterm.
  - rewrite Ht in Hrun. cbn [mbind option_bind] in Hrun. rewrite Hterm in Hrun.
    destruct (is_valid_term today parse t (Some term) false)
      as [valid newdate] eqn:Hvalid.
    destruct (set_recurring_leaf _ _ _ _ _ _ _ _ _ _ Ht Hleaf Hvalid Hrun)
      as (t' & Ht' & Hr & Hrt & _).
    exists t'. split; [done|]. cbv zeta. cbn [default from_option]. unfold id.
    rewrite bool_decide_eq_false_2 by done.
    rewrite Hvalid. cbn [fst]. split; [done|]. rewrite Hrt, Hterm.
    by destruct valid, (recurring t).
  - rewrite get_task_update_eq, Ht in Hrun.
    cbn [fmap option_fmap option_map mbind option_bind] in Hrun.
    cbn [recurring recurring_term with_recurring_term] in Hrun.
    set (t1 := with_recurring_term (Some "day") t) in *.
    destruct (is_valid_term today parse t1 (Some "day") true)
      as [valid newdate] eqn:Hvalid.
    assert (get_task (update_task (with_recurring_term (Some "day")) self s)
              self = Some t1) as Ht1 by (by rewrite get_task_update_eq, Ht).
    destruct (set_recurring_leaf _ _ _ _ _ _ _ _ _ _ Ht1 Hleaf Hvalid Hrun)
      as (t' & Ht' & Hr & Hrt & _).
    exists t'. split; [done|]. cbv zeta. cbn [default from_option]. unfold id.
    rewrite bool_decide_eq_true_2 by done.
    change (is_valid_term today parse t (Some "day") true)
      with (is_valid_term today parse t1 (Some "day") true).
    rewrite Hvalid. cbn [fst]. split; [done|]. rewrite Hrt.
    by destruct valid, (recurring t).
Qed.

(** X12: a task without parents inherits no recurrence: when
    [inherit_recursion] returns, it has switched it off, whatever it
    was. *)
Theorem inherit_recursion_orphan fuel s self t s' :
  get_task s self = Some t → parents t = [] →
  inherit_recursion now today parse fuel s self = Some s' →
  ∃ t', get_task s' self = Some t' ∧ recurring t' = false.
Proof.
  intros Ht Hnone Hrun. unfold inherit_recursion in Hrun.
  rewrite Ht in Hrun. cbn [mbind option_bind] in Hrun.
  unfold has_parent in Hrun. rewrite Hnone in Hrun.
  by destruct (set_recurring_false_stays_off _ _ _ _ _ _ _ _ _ Hrun) as [_ ?].
Qed.
End Recurring_cases.

Lemma set_recurring_cases_witness :
  ∃ s' t',
    set_recurring 7 1 sample_parse 3 lone_task "t" true (Some "day") true
    = Some s' ∧
    get_task s' "t" = Some t' ∧
    recurring t' = true ∧ recurring_term t' = Some "day" ∧
    due_date t' = Concrete 2.
Proof.
  destruct (set_recurring 7 1 sample_parse 3 lone_task "t" true (Some "day")
              true) as [s'|] eqn:Hrun; [|discriminate Hrun].
  destruct (set_recurring_cases 7 1 sample_parse 3 lone_task "t"
              (sample_task "t" STA_ACTIVE (Concrete 3) [] [])
              true (Some "day") true s' eq_refl eq_refl Hrun)
    as (t' & Ht' & Hr & Hterm & Hdue).
  exists s', t'. split; [reflexivity|]. split; [exact Ht'|].
  split; [exact Hr|]. split; [exact Hterm|exact Hdue].
Defined.

Lemma toggle_recurring_leaf_witness :
  ∃ s' t',
    toggle_recurring 7 1 sample_parse 3 lone_task "t" = Some s' ∧
    get_task s' "t" = Some t' ∧
    recurring t' = true ∧ recurring_term t' = Some "day".
Proof.
  destruct (toggle_recurring 7 1 sample_parse 3 lone_task "t")
    as [s'|] eqn:Hrun; [|discriminate Hrun].
  destruct (toggle_recurring_leaf 7 1 sample_parse 3 lone_task "t"
              (sample_task "t" STA_ACTIVE (Concrete 3) [] [])
              s' eq_refl eq_refl Hrun) as (t' & Ht' & Hr & Hterm).
  exists s', t'. split; [reflexivity|]. split; [exact Ht'|].
  split; [exact Hr|exact Hterm].
Defined.

Lemma inherit_recursion_orphan_witness :
  ∃ s' t',
    inherit_recursion 7 1 sample_parse 3 (store_of [task_due_in 3 "day"]) "t"
    = Some s' ∧
    recurring (task_due_in 3 "day") = true ∧
    get_task s' "t" = Some t' ∧ recurring t' = false.
Proof.
  destruct (inherit_recursion 7 1 sample_parse 3
              (store_of [task_due_in 3 "day"]) "t") as [s'|] eqn:Hrun;
    [|discriminate Hrun].
  destruct (inherit_recursion_orphan 7 1 sample_parse 3
              (store_of [task_due_in 3 "day"]) "t" (task_due_in 3 "day")
              s' eq_refl eq_refl Hrun) as (t' & Ht' & Hr).
  exists s', t'. split; [reflexivity|]. split; [reflexivity|].
  split; [exact Ht'|exact Hr].
Defined.

(** ** Tags *)

(** X13: [add_tag] lists no tag twice.  When it returns, every task of the
    store is still there with the tags it had, or with the new name added
    at the end where it was absent (on the task, and on the new subtasks
    the call goes on to); so tags without duplicates stay so. *)
Theorem add_tag_tags now fuel s self name s' x t :
  add_tag now fuel s self name = Some s' →
  get_task s x = Some t →
  ∃ t', get_task s' x = Some t' ∧
        (tags t' = tags t ∨ ((name ∉ tags t) ∧ tags t' = tags t ++ [name])) ∧
        (NoDup (tags t) → NoDup (tags t')).
Proof.
  intros Hrun Hx. unfold add_tag in Hrun.
  destruct (tag_added fuel s self name) as [[sa added]|] eqn:Hta;
    cbn [mbind option_bind] in Hrun; [|done].
  destruct (tag_added_spec _ _ _ _ _ _ Hta) as [Hstep _].
  destruct (Hstep x t Hx) as (ta & Hxa & _ & Htags).
  assert (preserves (same_on tags) sa s') as Hkeep.
  { destruct added; [|injection Hrun as <-; apply preserves_refl, _].
    body_step Hrun. injection Hrun as <-.
    preserves_steps ltac:(done). }
  destruct (Hkeep x ta Hxa) as (t' & Hx' & Hsame).
  exists t'. split; [done|]. rewrite Hsame. split; [done|].
  intros Hnd. destruct Htags as [->|[Hnew ->]]; [done|].
  apply list.NoDup_app. split; [done|].
  split; [|apply list.NoDup_singleton].
  intros y Hy ->%list_elem_of_singleton. done.
Qed.

Lemma add_tag_tags_witness :
  ∃ s' t',
    add_tag 7 3 tagged_family "p" "home" = Some s' ∧
    get_task s' "c" = Some t' ∧
    (tags t' = [] ∨ (("home" ∉ @nil string) ∧ tags t' = [] ++ ["home"])) ∧
    (NoDup (@nil string) → NoDup (tags t')).
Proof.
  destruct (add_tag 7 3 tagged_family "p" "home") as [s'|] eqn:Hrun;
    [|discriminate Hrun].
  destruct (add_tag_tags 7 3 tagged_family "p" "home" s' "c"
              (with_can_be_deleted true
                 (sample_task "c" STA_ACTIVE NoDate ["p"] []))
              Hrun eq_refl) as (t' & Ht' & Hstep & Hnd).
  exists s', t'. split; [reflexivity|]. split; [exact Ht'|].
  split; [exact Hstep|exact Hnd].
Defined.

(** X14: [add_tag] is idempotent: once a call has returned, the same call
    again returns and leaves the store as it is, so the marker is not put
    into the content a second time and nothing is notified. *)
Theorem add_tag_twice now fuel s self name s1 :
  add_tag now fuel s self name = Some s1 →
  add_tag now fuel s1 self name = Some s1.
Proof.
  intros Hrun.
  assert (∃ t, get_task s self = Some t) as [t Ht].
  { unfold add_tag in Hrun. destruct fuel as [|fuel]; [done|].
    cbn [tag_added] in Hrun. destruct (get_task s self); [by eauto|done]. }
  destruct (add_tag_self now _ _ _ _ _ _ Ht Hrun) as (t1 & Ht1 & _ & Htags).
  assert (name ∈ tags t1) as Hin.
  { case_bool_decide as Hold.
    - destruct Htags as [_ ->]. done.
    - destruct Htags as [_ ->]. apply elem_of_app. right. by left. }
  destruct fuel as [|fuel]; [done|].
  unfold add_tag. cbn [tag_added]. rewrite Ht1. cbn [mbind option_bind].
  by rewrite bool_decide_eq_true_2.
Qed.

Lemma add_tag_twice_witness :
  ∃ s1,
    add_tag 7 3 tagged_family "p" "home" = Some s1 ∧
    add_tag 7 3 s1 "p" "home" = Some s1.
Proof.
  destruct (add_tag 7 3 tagged_family "p" "home") as [s1|] eqn:Hrun;
    [|discriminate Hrun].
  exists s1. split; [reflexivity|].
  exact (add_tag_twice 7 3 tagged_family "p" "home" s1 Hrun).
Defined.

(** ** The size of an excerpt *)

Lemma count_LF_app a b : count_LF (a +:+ b) = count_LF a + count_LF b.
Proof.
  induction a as [|c a IH]; [done|].
  rewrite PyStrFacts.append_cons. cbn [count_LF]. rewrite IH. lia.
Qed.

Lemma count_LF_take n s : count_LF (PyStr.take n s) ≤ count_LF s.
Proof.
  revert s. induction n as [|n IH]; intros [|c s]; cbn [PyStr.take count_LF];
    try lia.
  specialize (IH s). lia.
Qed.

Lemma count_LF_of_list l :
  Forall (λ c, PyStr.is_linebreak c = false) l →
  count_LF (string_of_list_ascii l) = 0.
Proof.
  induction 1 as [|c l Hc _ IH]; [done|].
  cbn [string_of_list_ascii count_LF]. rewrite IH.
  destruct (Nat.eqb (nat_of_ascii c) 10) eqn:E; [|done].
  apply Nat.eqb_eq in E. unfold PyStr.is_linebreak in Hc.
  rewrite E in Hc. done.
Qed.

Lemma splitlines_from_no_LF n :
  ∀ s cur, String.length s ≤ n →
    Forall (λ c, PyStr.is_linebreak c = false) cur →
    Forall (λ line, count_LF line = 0) (PyStr.splitlines_from cur s).
Proof.
  induction n as [|n IH]; intros [|c s] cur Hlen Hcur;
    cbn [PyStr.splitlines_from String.length] in *; try lia.
  - destruct cur; [constructor|]. constructor; [|constructor].
    apply count_LF_of_list. by apply List.Forall_rev.
  - destruct cur; [constructor|]. constructor; [|constructor].
    apply count_LF_of_list. by apply List.Forall_rev.
  - destruct (PyStr.is_linebreak c) eqn:Hc.
    + constructor; [apply count_LF_of_list; by apply List.Forall_rev|].
      destruct s as [|c' s'']; [constructor|].
      destruct (_ && _).
      * apply IH; [cbn [String.length] in Hlen; lia|constructor].
      * apply IH; [lia|constructor].
    + apply IH; [lia|]. by constructor.
Qed.

Lemma Forall_filter_kept {A} (P : A → Prop) (Q : A → Prop)
    `{∀ x, Decision (Q x)} l :
  Forall P l → Forall P (filter Q l).
Proof.
  induction 1 as [|x l Hx _ IH]; [constructor|].
  rewrite filter_cons. case_decide; [by constructor|done].
Qed.

Lemma length_firstn_le {A} n (l : list A) : length (firstn n l) ≤ n.
Proof.
  revert l. induction n as [|n IH]; intros [|x l]; cbn [firstn length];
    try lia.
  specialize (IH l). lia.
Qed.

Lemma count_LF_join l :
  Forall (λ line, count_LF line = 0) l →
  count_LF (PyStr.join PyStr.nl l) = length l - 1.
Proof.
  induction 1 as [|x l Hx Hl IH]; [done|].
  destruct l as [|y l]; [cbn [PyStr.join length]; lia|].
  change (PyStr.join PyStr.nl (x :: y :: l))
    with (x +:+ PyStr.nl +:+ PyStr.join PyStr.nl (y :: l)).
  rewrite !count_LF_app, IH, Hx. cbn [length]. simpl. lia.
Qed.

(** X15: the size of an excerpt.  With a positive [char], [get_excerpt]
    returns at most [char] characters; with a positive [lines], it returns
    at most [lines] lines (it holds fewer line feeds than [lines]),
    whatever the other arguments. *)
Theorem get_excerpt_bounds t lines char strip_tags strip_subtasks :
  ((0 < char)%Z →
   (Z.of_nat (String.length
                (get_excerpt t lines char strip_tags strip_subtasks))
    ≤ char)%Z) ∧
  ((0 < lines)%Z →
   (Z.of_nat (count_LF (get_excerpt t lines char strip_tags strip_subtasks))
    < lines)%Z).
Proof.
  split; [apply get_excerpt_char_bound|].
  intros Hl. unfold get_excerpt.
  destruct (PyStr.is_empty (content t)); [simpl; lia|].
  match goal with
  | |- context [PyStr.join PyStr.nl (PyStr.slice_to lines ?l)] =>
      set (L := l)
  end.
  assert (Forall (λ line, count_LF line = 0) (PyStr.slice_to lines L)) as Hno.
  { unfold PyStr.slice_to. destruct (0 <=? lines)%Z; apply list.Forall_take;
      subst L; apply Forall_filter_kept;
      by eapply splitlines_from_no_LF. }
  assert (length (PyStr.slice_to lines L) ≤ Z.to_nat lines) as Hlen.
  { unfold PyStr.slice_to. replace (0 <=? lines)%Z with true
      by (symmetry; apply Z.leb_le; lia).
    apply length_firstn_le. }
  pose proof (count_LF_join _ Hno) as Hj.
  destruct (0 <? char)%Z.
  - match goal with
    | |- context [PyStr.take ?n ?s] => pose proof (count_LF_take n s)
    end. lia.
  - lia.
Qed.

(** ** Recursive synchronisation *)

Lemma sync_modified now s self :
  tag_registry (sync now s self) = tag_registry s ∧
  ∃ new, events (sync now s self) = new ++ events s
         ∧ forallb is_modified new = true.
Proof.
  split; [apply sync_registry|]. unfold sync.
  destruct (get_task s self) as [t|]; [|by exists []].
  destruct (sync_disabled t); [by exists []|].
  destruct (loaded t); [by exists [Modified self]|by exists []].
Qed.

Lemma recursive_sync_modified now fuel :
  ∀ s self s',
    recursive_sync now fuel s self = Some s' →
    tag_registry s' = tag_registry s ∧
    ∃ new, events s' = new ++ events s ∧ forallb is_modified new = true.
Proof.
  induction fuel as [|fuel IH]; intros s self s' Hrun; [done|].
  cbn [recursive_sync] in Hrun. body_step Hrun.
  revert Hrun.
  apply (for_each_invariant
           (λ sx, tag_registry sx = tag_registry s ∧
                  ∃ new, events sx = new ++ events s
                         ∧ forallb is_modified new = true));
    [|apply sync_modified].
  intros sx x sy _ (Hreg & new & Hev & Hnew) Hbody.
  destruct (IH _ _ _ Hbody) as (Hreg' & new' & Hev' & Hnew').
  split; [congruence|]. exists (new' ++ new).
  rewrite Hev', Hev, app_assoc. split; [done|].
  rewrite forallb_app. by rewrite Hnew, Hnew'.
Qed.

(** X16: what [recursive_sync] writes.  When it returns, the store holds
    the same tasks with every attribute but the time stamp as it was, the
    tag registry is as it was, and all it has sent are modified
    notifications. *)
Theorem recursive_sync_frame now fuel s self s' :
  recursive_sync now fuel s self = Some s' →
  (∀ x,
     match get_task s x, get_task s' x with
     | Some t, Some t' => but_stamp t' = but_stamp t
     | None, None => True
     | _, _ => False
     end) ∧
  tag_registry s' = tag_registry s ∧
  ∃ new, events s' = new ++ events s ∧ forallb is_modified new = true.
Proof.
  intros Hrun. split; [|by eapply recursive_sync_modified].
  exact (recursive_sync_keeps now (same_on but_stamp) ltac:(done)
           _ _ _ _ Hrun).
Qed.

Lemma recursive_sync_frame_witness :
  ∃ s',
    recursive_sync 7 5 three_generations "grandparent" = Some s' ∧
    events s' =
      [Modified "child"; Modified "parent"; Modified "grandparent"] ∧
    tag_registry s' = tag_registry three_generations.
Proof.
  destruct (recursive_sync 7 5 three_generations "grandparent")
    as [s'|] eqn:Hrun; [|discriminate Hrun].
  destruct (recursive_sync_frame 7 5 three_generations "grandparent" s' Hrun)
    as (_ & Hreg & _).
  exists s'. split; [reflexivity|]. split; [|exact Hreg].
  injection Hrun as <-. vm_compute. reflexivity.
Defined.

Lemma ranked_children_b_sound rank s :
  ranked_children_b rank s = true → ranked_children rank s.
Proof.
  unfold ranked_children_b. rewrite forallb_forall.
  intros H x t c Hx Hc.
  assert (In (x, t) (map_to_list (tasks s))) as Hin.
  { apply list_elem_of_In, elem_of_map_to_list. exact Hx. }
  apply H in Hin. rewrite forallb_forall in Hin.
  apply list_elem_of_In, Hin in Hc.
  destruct (get_task s c) as [tc|]; [|done].
  split; [by eexists|]. by apply Nat.ltb_lt.
Qed.

Lemma ranked_children_same rank s s' :
  evolves (same_on children) s s' →
  ranked_children rank s → ranked_children rank s'.
Proof.
  intros Hev Hr x t' c Hx' Hc.
  destruct (evolves_Some_inv _ _ _ _ _ Hev Hx') as (t & Hx & Hsame).
  unfold same_on in Hsame. rewrite Hsame in Hc.
  destruct (Hr x t c Hx Hc) as [[tc Htc] Hlt].
  destruct (evolves_Some _ _ _ _ _ Hev Htc) as (tc' & Htc' & _).
  split; [by eexists|done].
Qed.

(** X17: [recursive_sync] returns on a forest.  When every child id names
    a task of the store and the child links go down a rank (so there is no
    cycle), the call returns for every task of the store, given fuel above
    the task's rank. *)
Theorem recursive_sync_returns now rank fuel :
  ∀ s self,
    ranked_children rank s →
    is_Some (get_task s self) →
    rank self < fuel →
    is_Some (recursive_sync now fuel s self).
Proof.
  induction fuel as [|fuel IH]; intros s self Hr [t Ht] Hfuel; [lia|].
  cbn [recursive_sync]. rewrite Ht. cbn [mbind option_bind].
  assert (evolves (same_on children) s (sync now s self)) as Hsync.
  { apply evolves_sync_r; [exact _..|done|apply evolves_refl, _]. }
  destruct (for_each_returns (evolves (same_on children) s)
              (λ s sub_id, recursive_sync now fuel s sub_id) (children t)
              (sync now s self)) as (s' & Hs' & _); [|done|by eexists].
  intros sx c Hc Hsx. destruct (Hr self t c Ht Hc) as [[tc Htc] Hlt].
  destruct (evolves_Some _ _ _ _ _ Hsx Htc) as (tc' & Htc' & _).
  destruct (IH sx c) as [sy Hsy];
    [by eapply ranked_children_same|by eexists|lia|].
  exists sy. split; [done|].
  eapply evolves_trans; [exact _|exact Hsx|].
  by eapply (recursive_sync_keeps now (same_on children)).
Qed.

Lemma recursive_sync_returns_witness :
  is_Some (recursive_sync 7 3 three_generations "grandparent").
Proof.
  apply (recursive_sync_returns 7 generation 3 three_generations
           "grandparent").
  - apply ranked_children_b_sound. vm_compute. reflexivity.
  - by eexists.
  - vm_compute. lia.
Defined.

(** ** What [set_recurring] leaves alone *)

Section Kept_by_recurrence.
Context (now today : Z) (parse : Date → string → bool → option Date).
Context (R : Task → Task → Prop) `{!Reflexive R} `{!Transitive R}.
Context (Hmod : ∀ v t, R t (with_last_modified v t)).
Context (Hstart : ∀ v t, R t (with_start_date v t)).
Context (Hdue : ∀ v t, R t (with_due_date v t)).
Context (Hrec : ∀ v t, R t (with_recurring v t)).
Context (Hterm : ∀ v t, R t (with_recurring_term v t)).
Context (Hupd : ∀ v t, R t (with_recurring_updated_date v t)).

Lemma set_recurring_keeps fuel :
  ∀ s self r term newtask s',
    set_recurring now today parse fuel s self r term newtask = Some s' →
    evolves R s s'.
Proof using All.
  induction fuel as [|fuel IH]; intros s self r term newtask s' Hrun; [done|].
  cbn [set_recurring] in Hrun. body_step Hrun. body_step Hrun.
  body_bind Hrun Hmid.
  lazymatch type of Hmid with _ = Some ?x => rename x into s2 end.
  assert (evolves R s s2) as H1.
  { clear Hrun. repeat body_step Hmid; try (evolves_steps ltac:(done)).
    eapply evolves_trans; [exact _| |by eapply set_due_date_keeps].
    evolves_steps ltac:(done). }
  body_step Hrun.
  apply (evolves_trans _ _ _ _ H1).
  eapply evolves_trans; [exact _| |].
  - apply (evolves_sync_r R now self s2 s2); [done|apply evolves_refl, _].
  - eapply evolves_for_each; [exact _..| |exact Hrun].
    intros sx x sy _ Hbody. body_step Hbody.
    body_step Hbody; [|body_step Hbody; apply evolves_refl, _].
    body_step Hbody. body_bind Hbody Hcall. body_step Hbody.
    apply (evolves_trans _ _ _ _ (IH _ _ _ _ _ _ Hcall)).
    body_step Hbody; [by eapply set_due_date_keeps|].
    body_step Hbody. apply evolves_refl, _.
Qed.
End Kept_by_recurrence.

(** X18: what [set_recurring] writes.  When a call returns, the store
    holds the same tasks, and on every task only the recurrence (flag,
    term, update stamp), the due date, the start date and the time stamp
    can differ: no status, title, text, tag, closing date or link
    changes. *)
Theorem set_recurring_frame now today parse fuel s self r term newtask s' :
  set_recurring now today parse fuel s self r term newtask = Some s' →
  ∀ x,
    match get_task s x, get_task s' x with
    | Some t, Some t' => but_recurrence t' = but_recurrence t
    | None, None => True
    | _, _ => False
    end.
Proof.
  intros Hrun.
  exact (set_recurring_keeps now today parse (same_on but_recurrence)
           ltac:(done) ltac:(done) ltac:(done) ltac:(done) ltac:(done)
           ltac:(done) _ _ _ _ _ _ _ Hrun).
Qed.

Lemma set_recurring_frame_witness :
  ∃ s',
    set_recurring 7 1 sample_parse 3 lone_task "t" true (Some "day") true
    = Some s' ∧
    ∀ x,
      match get_task lone_task x, get_task s' x with
      | Some t, Some t' => but_recurrence t' = but_recurrence t
      | None, None => True
      | _, _ => False
      end.
Proof.
  destruct (set_recurring 7 1 sample_parse 3 lone_task "t" true (Some "day")
              true) as [s'|] eqn:Hrun; [|discriminate Hrun].
  exists s'. split; [reflexivity|].
  exact (set_recurring_frame 7 1 sample_parse 3 lone_task "t" true
           (Some "day") true s' Hrun).
Defined.

(** ** Calls on a task without parents and children *)

Lemma get_defined_lists_isolated fuel s self t :
  get_task s self = Some t → parents t = [] → children t = [] →
  get_defined_parent_list (S fuel) s self = Some [] ∧
  get_defined_child_list (S fuel) s self = Some [].
Proof.
  intros Ht Hp Hc. cbn [get_defined_parent_list get_defined_child_list].
  rewrite Ht. cbn [mbind option_bind]. by rewrite Hp, Hc.
Qed.

(** [set_due_date] on a task without parents and children touches that
    task alone. *)
Lemma set_due_date_isolated now fuel s self t d s' :
  get_task s self = Some t → parents t = [] → children t = [] →
  set_due_date now fuel s self d = Some s' →
  ∀ x, x ≠ self → get_task s' x = get_task s x.
Proof.
  intros Ht Hp Hc Hrun x Hne. destruct fuel as [|fuel]; [done|].
  cbn [set_due_date] in Hrun. rewrite Ht in Hrun.
  cbn [mbind option_bind] in Hrun.
  set (sa := update_task (with_due_date d) self s) in *.
  assert (get_task sa self = Some (with_due_date d t)) as Hta
    by (subst sa; by rewrite get_task_update_eq, Ht).
  body_bind Hrun Hmid.
  lazymatch type of Hmid with _ = Some ?y => rename y into sb end.
  assert (sb = sa) as ->.
  { destruct (negb (is_fuzzy d)); [|by injection Hmid as <-].
    destruct fuel as [|fuel]; [done|].
    destruct (get_defined_lists_isolated fuel sa self _ Hta Hp Hc)
      as [Hpl Hcl].
    rewrite Hpl in Hmid. cbn [mbind option_bind for_each] in Hmid.
    rewrite Hcl in Hmid. cbn [mbind option_bind for_each] in Hmid.
    by injection Hmid as <-. }
  assert (get_task sa x = get_task s x) as Hxa
    by (subst sa; by rewrite get_task_update_ne).
  destruct (date_neqb (due_date t) d); [|by injection Hrun as <-].
  destruct fuel as [|fuel]; [done|].
  cbn [recursive_sync] in Hrun. rewrite Hta in Hrun.
  cbn [mbind option_bind] in Hrun.
  change (children (with_due_date d t)) with (children t) in Hrun.
  rewrite Hc in Hrun. cbn [for_each] in Hrun. injection Hrun as <-.
  by rewrite sync_other.
Qed.

Section Isolated_recurrence.
Context (now today : Z) (parse : Date → string → bool → option Date).

(** [set_recurring], for a task that is not new and has no children,
    touches that task alone. *)
Lemma set_recurring_leaf_others fuel s self t r term s' :
  get_task s self = Some t → children t = [] →
  set_recurring now today parse fuel s self r term false = Some s' →
  ∀ x, x ≠ self → get_task s' x = get_task s x.
Proof.
  intros Ht Hleaf Hrun x Hne. destruct fuel as [|fuel]; [done|].
  cbn [set_recurring] in Hrun. rewrite Ht in Hrun.
  cbn [mbind option_bind] in Hrun.
  destruct (is_valid_term today parse t term false) as [valid newdate].
  body_bind Hrun Hmid.
  lazymatch type of Hmid with _ = Some ?y => rename y into s2 end.
  assert (get_task s2 x = get_task s x ∧
          ∃ t2, get_task s2 self = Some t2 ∧ children t2 = [])
    as (Hx2 & t2 & Ht2 & Hc2).
  { destruct r, valid; cbn [negb] in Hmid; injection Hmid as <-;
      rewrite !get_task_update_ne by done;
      (split; [done|]); rewrite !get_task_update_eq, Ht; by eexists. }
  rewrite (sync_self _ _ _ _ Ht2) in Hrun. cbn [mbind option_bind] in Hrun.
  assert (children (if sync_disabled t2 then t2
                    else with_last_modified (StampTime now) t2) = [])
    as Hnone by (destruct (sync_disabled t2); simpl; congruence).
  rewrite Hnone in Hrun. cbn [for_each] in Hrun. injection Hrun as <-.
  by rewrite sync_other.
Qed.
End Isolated_recurrence.

Lemma set_title_other now s self x id :
  id ≠ self → get_task (set_title now s self x) id = get_task s id.
Proof.
  intros Hne. unfold set_title. destruct (get_task s self); [|done].
  case_bool_decide; [done|].
  rewrite sync_other by done. by rewrite get_task_update_ne.
Qed.

Lemma set_title_self now s self x t :
  get_task s self = Some t →
  ∃ t', get_task (set_title now s self x) self = Some t' ∧
        title t' = clean_title x ∧
        (content t', tags t', due_date t', copy_frame t')
        = (content t, tags t, due_date t, copy_frame t).
Proof.
  intros Ht. unfold set_title, clean_title. rewrite Ht.
  case_bool_decide as Hsame.
  - exists t. split; [done|]. by split.
  - erewrite sync_self by (by rewrite get_task_update_eq, Ht).
    eexists. split; [done|]. by destruct (sync_disabled (with_title _ t)).
Qed.

(** ** Duplicating a task *)

Section Duplicate.
Context (now today : Z) (parse : Date → string → bool → option Date).

(** The copy and the rest of the store while [duplicate] runs. *)
Lemma duplicate_steps fuel s self me s' copy :
  get_task s self = Some me →
  duplicate now today parse fuel s self = Some (s', copy) →
  get_task s copy = None ∧
  (∀ x, x ≠ copy → get_task s' x = get_task s x) ∧
  ∃ tc, get_task s' copy = Some tc ∧
        title tc = clean_title (title me) ∧
        content tc = content me ∧ tags tc = tags me ∧
        copy_frame tc = copy_frame (init_task now today copy) ∧
        get_next_occurrence today parse fuel s self = Some (due_date tc).
Proof.
  intros Hme Hrun. unfold duplicate in Hrun.
  destruct (new_task now today parse fuel s) as [[s1 id]|] eqn:Hnew;
    cbn [mbind option_bind] in Hrun; [|done].
  unfold new_task in Hnew. body_bind Hnew Hinh. injection Hnew as -> <-.
  set (id := fresh (dom (tasks s))) in *.
  set (s0 := mkState _ _ _) in Hinh.
  assert (get_task s id = None) as Hfresh.
  { unfold get_task. apply not_elem_of_dom. apply is_fresh. }
  assert (self ≠ id) as Hself by (intros ->; congruence).
  assert (get_task s0 id = Some (init_task now today id)) as H0
    by (unfold get_task; simpl; apply lookup_insert_eq).
  assert (∀ x, x ≠ id → get_task s0 x = get_task s x) as Hother0.
  { intros x Hx. unfold get_task. simpl. by rewrite lookup_insert_ne. }
  (* the creation *)
  unfold inherit_recursion in Hinh. rewrite H0 in Hinh.
  cbn [mbind option_bind has_parent parents init_task] in Hinh.
  assert ((∀ x, x ≠ id → get_task s1 x = get_task s x) ∧
          ∃ t1, get_task s1 id = Some t1 ∧
                copy_frame t1 = copy_frame (init_task now today id))
    as (Hother1 & t1 & H1 & Hf1).
  { split.
    - intros x Hx. rewrite <- Hother0 by done.
      by eapply (set_recurring_leaf_others now today parse _ _ _ _ _ _ _ H0).
    - pose proof (set_recurring_keeps now today parse (same_on copy_frame)
                    ltac:(done) ltac:(done) ltac:(done) ltac:(done)
                    ltac:(done) ltac:(done) _ _ _ _ _ _ _ Hinh id) as Hk.
      rewrite H0 in Hk. destruct (get_task s1 id) as [t1|]; [|done].
      by exists t1. }
  (* the recurrence *)
  rewrite (Hother1 self Hself), Hme in Hrun. cbn [mbind option_bind] in Hrun.
  body_bind Hrun Hrec.
  lazymatch type of Hrec with _ = Some ?y => rename y into s2 end.
  assert ((∀ x, x ≠ id → get_task s2 x = get_task s x) ∧
          ∃ t2, get_task s2 id = Some t2 ∧
                copy_frame t2 = copy_frame (init_task now today id))
    as (Hother2 & t2 & H2 & Hf2).
  { split.
    - intros x Hx. rewrite <- Hother1 by done.
      eapply (set_recurring_leaf_others now today parse _ _ _ _ _ _ _ H1);
        [|exact Hrec|done].
      by injection Hf1.
    - pose proof (set_recurring_keeps now today parse (same_on copy_frame)
                    ltac:(done) ltac:(done) ltac:(done) ltac:(done)
                    ltac:(done) ltac:(done) _ _ _ _ _ _ _ Hrec id) as Hk.
      rewrite H1 in Hk. destruct (get_task s2 id) as [t2|]; [|done].
      exists t2. split; [done|]. unfold same_on in Hk. congruence. }
  (* the due date *)
  body_bind Hrun Hnext.
  lazymatch type of Hnext with _ = Some ?y => rename y into nextdate end.
  assert (get_next_occurrence today parse fuel s self = Some nextdate)
    as Hnext0.
  { unfold get_next_occurrence in Hnext |- *.
    by rewrite (Hother2 self Hself) in Hnext. }
  body_bind Hrun Hdue.
  lazymatch type of Hdue with _ = Some ?y => rename y into s3 end.
  assert ((∀ x, x ≠ id → get_task s3 x = get_task s x) ∧
          ∃ t3, get_task s3 id = Some t3 ∧ due_date t3 = nextdate ∧
                copy_frame t3 = copy_frame (init_task now today id))
    as (Hother3 & t3 & H3 & Hd3 & Hf3).
  { split.
    - intros x Hx. rewrite <- Hother2 by done.
      eapply (set_due_date_isolated now _ _ _ _ _ _ H2); [| |exact Hdue|done];
        by injection Hf2.
    - pose proof (set_due_date_keeps now (same_on copy_frame)
                    ltac:(done) ltac:(done) ltac:(done) _ _ _ _ _ Hdue id)
        as Hk.
      pose proof (set_due_date_steps _ _ _ _ _ _ Hdue id) as Hs.
      rewrite get_task_update_eq, H2 in Hs. rewrite H2 in Hk.
      destruct (get_task s3 id) as [t3|]; [|done].
      exists t3. split; [done|]. split.
      + simpl in Hs. by destruct Hs as (_ & _ & _ & [E|[E _]]).
      + unfold same_on in Hk. congruence. }
  (* the title, the text and the tags *)
  rewrite (Hother3 self Hself), Hme in Hrun. cbn [mbind option_bind] in Hrun.
  rewrite set_title_other, (Hother3 self Hself), Hme in Hrun by done.
  cbn [mbind option_bind] in Hrun. injection Hrun as <- <-.
  split; [done|]. split.
  - intros x Hx. rewrite !get_task_update_ne by done.
    rewrite set_title_other by done. by apply Hother3.
  - destruct (set_title_self now s3 id (title me) t3 H3)
      as (t4 & H4 & Htitle & Hrest).
    rewrite !get_task_update_eq, H4. eexists. split; [done|].
    injection Hrest as _ _ Hd4 Hf4. simpl.
    split; [done|]. split; [done|]. split; [done|]. split.
    + unfold copy_frame in *. simpl in *. congruence.
    + congruence.
Qed.
End Duplicate.

(** X19: what [duplicate] makes.  When it returns, the copy is a task
    under an id the store did not hold, and every task that was there is
    exactly as it was.  The copy is Active, has no parent and no child,
    has the text and the tags of the original and its title as
    [set_title] cleans it, and is due on the next occurrence of the
    original. *)
Theorem duplicate_copy now today parse fuel s self me s' copy :
  get_task s self = Some me →
  duplicate now today parse fuel s self = Some (s', copy) →
  get_task s copy = None ∧
  (∀ x, x ≠ copy → get_task s' x = get_task s x) ∧
  ∃ tc, get_task s' copy = Some tc ∧
        status tc = STA_ACTIVE ∧ parents tc = [] ∧ children tc = [] ∧
        title tc = clean_title (title me) ∧
        content tc = content me ∧ tags tc = tags me ∧
        get_next_occurrence today parse fuel s self = Some (due_date tc).
Proof.
  intros Hme Hrun.
  destruct (duplicate_steps now today parse _ _ _ _ _ _ Hme Hrun)
    as (Hfresh & Hother & tc & Hc & Htitle & Hcontent & Htags & Hf & Hnext).
  split; [done|]. split; [done|]. exists tc. split; [done|].
  unfold copy_frame in Hf. simpl in Hf. injection Hf as Hst Hp Hch _ _.
  by repeat split.
Qed.

Lemma duplicate_copy_witness :
  ∃ s' copy tc,
    duplicate 7 1 sample_parse 5 daily_task "t" = Some (s', copy) ∧
    get_task s' copy = Some tc ∧
    content tc = "@work" ∧ tags tc = ["work"] ∧ due_date tc = Concrete 4.
Proof.
  destruct (duplicate 7 1 sample_parse 5 daily_task "t")
    as [[s' copy]|] eqn:Hrun; [|discriminate Hrun].
  destruct (duplicate_copy 7 1 sample_parse 5 daily_task "t"
              (with_tags ["work"]
                 (with_content "@work" (task_due_in 3 "day")))
              s' copy eq_refl Hrun)
    as (_ & _ & tc & Hc & _ & _ & _ & _ & Hcontent & Htags & Hnext).
  exists s', copy, tc. split; [reflexivity|]. split; [exact Hc|].
  split; [exact Hcontent|]. split; [exact Htags|].
  assert (get_next_occurrence 1 sample_parse 5 daily_task "t"
          = Some (Concrete 4)) as Hfour by (vm_compute; reflexivity).
  rewrite Hfour in Hnext. by injection Hnext as <-.
Defined.

(** ** Closing a recurring task *)

Section Spawn.
Context (now today : Z) (parse : Date → string → bool → option Date).

Lemma get_next_occurrence_same fuel s1 s2 self t1 t2 :
  get_task s1 self = Some t1 → get_task s2 self = Some t2 →
  due_date t1 = due_date t2 → recurring_term t1 = recurring_term t2 →
  get_next_occurrence today parse fuel s1 self
  = get_next_occurrence today parse fuel s2 self.
Proof.
  intros H1 H2 Hd Hr. unfold get_next_occurrence. rewrite H1, H2.
  cbn [mbind option_bind]. by rewrite Hd, Hr.
Qed.

(** X20: the next occurrence of a recurring task.  Marking as Done or
    Dismissed a loaded recurring task that has no parent and no subtask,
    directly (not through a parent), makes, when the call returns, exactly
    one new task: it is Active, has the text, the tags and the cleaned
    title of the closed task, and is due on its next occurrence.  The
    closed task has the status and the closing date asked for (today
    without one); every other task is as it was. *)
Theorem closing_spawns_next fuel s self t st donedate init s' :
  get_task s self = Some t →
  loaded t = true → recurring t = true →
  parents t = [] → children t = [] →
  is_closed st = true →
  set_status now today parse (S (S fuel)) s self (Some st) donedate false init
  = Some s' →
  ∃ copy tc t',
    get_task s copy = None ∧
    get_task s' copy = Some tc ∧
    status tc = STA_ACTIVE ∧ title tc = clean_title (title t) ∧
    content tc = content t ∧ tags tc = tags t ∧
    get_next_occurrence today parse fuel s self = Some (due_date tc) ∧
    get_task s' self = Some t' ∧
    status t' = st ∧ closed_date t' = default (Concrete today) donedate ∧
    ∀ x, x ≠ copy → x ≠ self → get_task s' x = get_task s x.
Proof.
  intros Ht Hloaded Hrec Hpar Hch Hst Hrun.
  cbn [set_status] in Hrun. rewrite Ht in Hrun.
  cbn [mbind option_bind] in Hrun. rewrite Hloaded, Hst, Hch in Hrun.
  cbn [for_each mbind option_bind] in Hrun.
  set (sa := update_task (with_can_be_deleted false) self s) in *.
  set (ta := with_can_be_deleted false t).
  assert (get_task sa self = Some ta) as Hta
    by (subst sa; by rewrite get_task_update_eq, Ht).
  assert (∀ x, x ≠ self → get_task sa x = get_task s x) as Hothera
    by (intros x Hx; subst sa; by rewrite get_task_update_ne).
  rewrite Hta in Hrun. cbn [mbind option_bind] in Hrun.
  change (recurring ta) with (recurring t) in Hrun. rewrite Hrec in Hrun.
  cbn [andb negb] in Hrun.
  unfold is_parent_recurring in Hrun. rewrite Hta in Hrun.
  cbn [mbind option_bind] in Hrun.
  change (parents ta) with (parents t) in Hrun. rewrite Hpar in Hrun.
  cbn [mbind option_bind any_parent_recurring negb] in Hrun.
  cbn [duplicate_recursively] in Hrun.
  destruct (duplicate now today parse fuel sa self) as [[sb copy]|] eqn:Hdup;
    cbn [mbind option_bind] in Hrun; [|done].
  destruct (duplicate_steps now today parse _ _ _ _ _ _ Hta Hdup)
    as (Hfresh & Hother & tc & Hc & Htitle & Hcontent & Htags & Hf & Hnext).
  assert (self ≠ copy) as Hne by (intros ->; congruence).
  rewrite (Hother self Hne), Hta in Hrun. cbn [mbind option_bind] in Hrun.
  unfold has_child in Hrun. change (children ta) with (children t) in Hrun.
  rewrite Hch in Hrun. cbn [mbind option_bind] in Hrun.
  rewrite sync_other, (Hother self Hne), Hta in Hrun by done.
  cbn [mbind option_bind] in Hrun.
  unfold has_parent in Hrun. change (parents ta) with (parents t) in Hrun.
  rewrite Hpar in Hrun. cbn [mbind option_bind] in Hrun.
  rewrite sync_other, (Hother self Hne), Hta in Hrun by done.
  cbn [mbind option_bind] in Hrun. injection Hrun as <-.
  set (s2 := sync now sb copy).
  set (s3 := if init then s2
             else emit (StatusChanged self (status ta) st) s2).
  assert (∀ x, get_task s3 x = get_task s2 x) as H3.
  { intros x. subst s3. destruct init; by rewrite ?get_task_emit. }
  assert (∃ tc', get_task s2 copy = Some tc' ∧
                 (status tc', title tc', content tc', tags tc', due_date tc')
                 = (status tc, title tc, content tc, tags tc, due_date tc))
    as (tc' & Hc' & Hsame).
  { subst s2. rewrite (sync_self _ _ _ _ Hc). eexists. split; [done|].
    by destruct (sync_disabled tc). }
  injection Hsame as Hs1 Hs2 Hs3 Hs4 Hs5.
  exists copy, tc'.
  assert (get_task s2 self = Some ta) as Hself2.
  { subst s2. by rewrite sync_other, (Hother self Hne). }
  eexists. split.
  { rewrite <- (Hothera copy) by done. exact Hfresh. }
  split.
  { rewrite sync_other, !get_task_update_ne, H3 by done. exact Hc'. }
  split. { rewrite Hs1. unfold copy_frame in Hf. by injection Hf. }
  split. { by rewrite Hs2, Htitle. }
  split. { by rewrite Hs3, Hcontent. }
  split. { by rewrite Hs4, Htags. }
  split.
  { rewrite Hs5, <- Hnext. by eapply get_next_occurrence_same. }
  split.
  { erewrite sync_self; [done|].
    by rewrite !get_task_update_eq, H3, Hself2. }
  split. { by destruct (sync_disabled _). }
  split. { by destruct (sync_disabled _). }
  intros x Hx1 Hx2. rewrite sync_other, !get_task_update_ne, H3 by done.
  subst s2. rewrite sync_other, Hother by done. by apply Hothera.
Qed.
End Spawn.

Lemma closing_spawns_next_witness :
  ∃ s' copy tc t',
    set_status 7 1 sample_parse 7 daily_task "t" (Some STA_DONE) None false
      false = Some s' ∧
    get_task daily_task copy = None ∧
    get_task s' copy = Some tc ∧
    status tc = STA_ACTIVE ∧ tags tc = ["work"] ∧
    due_date tc = Concrete 4 ∧
    get_task s' "t" = Some t' ∧
    status t' = STA_DONE ∧ closed_date t' = Concrete 1.
Proof.
  destruct (set_status 7 1 sample_parse 7 daily_task "t" (Some STA_DONE) None
              false false) as [s'|] eqn:Hrun; [|discriminate Hrun].
  destruct (closing_spawns_next 7 1 sample_parse 5 daily_task "t"
              (with_tags ["work"]
                 (with_content "@work" (task_due_in 3 "day")))
              STA_DONE None false s'
              eq_refl eq_refl eq_refl eq_refl eq_refl eq_refl Hrun)
    as (copy & tc & t' & Hfresh & Hc & Hst & _ & _ & Htags & Hnext & Ht'
        & Hst' & Hcl & _).
  exists s', copy, tc, t'. split; [reflexivity|]. split; [exact Hfresh|].
  split; [exact Hc|]. split; [exact Hst|]. split; [exact Htags|].
  split; [|split; [exact Ht'|split; [exact Hst'|exact Hcl]]].
  assert (get_next_occurrence 1 sample_parse 5 daily_task "t"
          = Some (Concrete 4)) as Hfour by (vm_compute; reflexivity).
  rewrite Hfour in Hnext. by injection Hnext as <-.
Defined.

(** ** Removing and renaming tags *)

Lemma remove_first_other x y l :
  y ≠ x → y ∈ remove_first x l ↔ y ∈ l.
Proof.
  intros Hne. induction l as [|z l IH]; cbn [remove_first]; [done|].
  case_bool_decide as Hz.
  - subst z. rewrite elem_of_cons. split; [by right|].
    by intros [?|?].
  - by rewrite !elem_of_cons, IH.
Qed.

Lemma iter_remove_first_other x y l m :
  y ≠ x → y ∈ Nat.iter m (remove_first x) l ↔ y ∈ l.
Proof.
  intros Hne. induction m as [|m IH]; [done|].
  rewrite Nat.iter_succ. by rewrite remove_first_other.
Qed.

(** X21: [remove_tag] takes no other tag away.  When it returns, every
    task of the store is still there, and a name other than the removed
    one is among its tags exactly when it was before. *)
Theorem remove_tag_keeps_others fuel s self name s' x t :
  remove_tag fuel s self name = Some s' →
  get_task s x = Some t →
  ∃ t', get_task s' x = Some t' ∧
        ∀ y, y ≠ name → (y ∈ tags t' ↔ y ∈ tags t).
Proof.
  intros Hrun Hx.
  destruct (remove_tag_spec _ _ _ _ _ Hrun) as [Hstep _].
  destruct (Hstep x t Hx) as (t' & Hx' & _ & m & Htags).
  exists t'. split; [done|]. intros y Hy. rewrite Htags.
  by apply iter_remove_first_other.
Qed.

Lemma remove_tag_keeps_others_witness :
  ∃ s' t',
    remove_tag 3 two_tags "t" "a" = Some s' ∧
    get_task s' "t" = Some t' ∧
    ∀ y, y ≠ "a" → (y ∈ tags t' ↔ y ∈ ["a"; "b"]).
Proof.
  destruct (remove_tag 3 two_tags "t" "a") as [s'|] eqn:Hrun;
    [|discriminate Hrun].
  destruct (remove_tag_keeps_others 3 two_tags "t" "a" s' "t"
              (task_with_content "@a, @b" ["a"; "b"]) Hrun eq_refl)
    as (t' & Ht' & Hkeep).
  exists s', t'. split; [reflexivity|]. split; [exact Ht'|exact Hkeep].
Defined.

Lemma tag_added_registry fuel :
  ∀ s self name s' b,
    tag_added fuel s self name = Some (s', b) →
    tag_registry s ⊆ tag_registry s'.
Proof.
  induction fuel as [|fuel IH]; intros s self name s' b Hrun; [done|].
  cbn [tag_added] in Hrun. body_step Hrun.
  body_step Hrun; [by injection Hrun as <- <-|].
  body_bind Hrun Hmid. injection Hrun as <- <-.
  body_step Hmid; [|by injection Hmid as <-].
  body_bind Hmid Hloop.
  lazymatch type of Hloop with _ = Some ?y => rename y into sl end.
  injection Hmid as <-. simpl.
  transitivity (tag_registry sl); [|set_solver].
  revert Hloop.
  apply (for_each_invariant (λ sx, tag_registry s ⊆ tag_registry sx));
    [|done].
  intros sx c sy _ Hsx Hbody. body_step Hbody.
  body_step Hbody; [|by injection Hbody as <-].
  destruct (tag_added fuel sx c name) as [[sz bz]|] eqn:Hcall;
    [|discriminate Hbody].
  injection Hbody as <-. etransitivity; [exact Hsx|]. by eapply IH.
Qed.

(** X22: what [rename_tag] needs and leaves.  A call returns only if the
    old name is a tag of the registry.  When it returns, the new name is a
    tag of the task and of the registry, the other tags of the task are
    still there, and, when the tags had no duplicate and the two names
    differ, the old name is gone. *)
Theorem rename_tag_tags now fuel s self old new t s' :
  get_task s self = Some t →
  rename_tag now fuel s self old new = Some s' →
  old ∈ tag_registry s ∧ new ∈ tag_registry s' ∧
  ∃ t', get_task s' self = Some t' ∧
        new ∈ tags t' ∧
        (∀ y, y ≠ old → y ∈ tags t → y ∈ tags t') ∧
        (NoDup (tags t) → old ≠ new → old ∉ tags t').
Proof.
  intros Ht Hrun. unfold rename_tag in Hrun. rewrite Ht in Hrun.
  cbn [mbind option_bind] in Hrun.
  match type of Hrun with
  | context [remove_tag fuel ?x self old] => set (s0 := x) in *
  end.
  assert (∃ t0, get_task s0 self = Some t0 ∧ tags t0 = tags t)
    as (t0 & Ht0 & Htags0).
  { subst s0. rewrite get_task_update_eq, Ht. by eexists. }
  body_bind Hrun Hrem.
  lazymatch type of Hrem with _ = Some ?y => rename y into s1 end.
  change (tag_registry s0) with (tag_registry s) in Hrun.
  case_bool_decide as Hold; cbn [negb] in Hrun; [|done].
  split; [done|].
  destruct (tag_added fuel (emit (TagModified old) s1) self new)
    as [[s2 b]|] eqn:Hadd; cbn [mbind option_bind] in Hrun; [|done].
  case_bool_decide as Hnew; [|done]. injection Hrun as <-.
  split; [by rewrite sync_registry|].
  destruct (remove_tag_spec _ _ _ _ _ Hrem) as [_ Hself1].
  destruct (Hself1 t0 Ht0) as (t1 & n & m & Ht1 & _ & Htags1).
  destruct (tag_added_spec _ _ _ _ _ _ Hadd) as [_ Hself2].
  destruct (Hself2 t1 (eq_trans (get_task_emit _ _ _) Ht1))
    as (_ & t2 & Ht2 & _ & Htags2).
  erewrite sync_self by (by rewrite get_task_emit, Ht2).
  eexists. split; [done|].
  assert (tags (if sync_disabled t2 then t2
                else with_last_modified (StampTime now) t2) = tags t2)
    as -> by (by destruct (sync_disabled t2)).
  rewrite Htags2, Htags1, Htags0.
  set (l1 := Nat.iter m (remove_first old) (remove_first old (tags t))).
  assert (∀ y, y ≠ old → y ∈ l1 ↔ y ∈ tags t) as Hl1.
  { intros y Hy. subst l1.
    by rewrite iter_remove_first_other, remove_first_other. }
  assert ((if bool_decide (new ∈ l1) then l1 else l1 ++ [new]) = l1 ∧ new ∈ l1
          ∨ (if bool_decide (new ∈ l1) then l1 else l1 ++ [new]) = l1 ++ [new])
    as Hcase.
  { destruct (decide (new ∈ l1)) as [Hin|Hout].
    - left. by rewrite bool_decide_eq_true_2.
    - right. by rewrite bool_decide_eq_false_2. }
  split; [|split].
  - destruct Hcase as [[-> Hin]| ->]; [done|].
    apply elem_of_app. right. by left.
  - intros y Hy Hin. apply Hl1 in Hin; [|done].
    destruct Hcase as [[-> _]| ->]; [done|]. apply elem_of_app. by left.
  - intros Hnd Hne Hin.
    assert (old ∈ l1) as Hin1.
    { destruct Hcase as [[E _]|E]; rewrite E in Hin; [done|].
      apply elem_of_app in Hin as [Hin|Hin%list_elem_of_singleton];
        [done|congruence]. }
    subst l1.
    rewrite iter_remove_first_absent in Hin1 by (by apply remove_first_NoDup).
    exact (remove_first_NoDup _ _ Hnd Hin1).
Qed.

Lemma rename_tag_tags_witness :
  ∃ s' t',
    rename_tag 7 3 two_tags_registered "t" "a" "c" = Some s' ∧
    get_task s' "t" = Some t' ∧
    "c" ∈ tags t' ∧ "c" ∈ tag_registry s' ∧ content t' = "@c, @b".
Proof.
  destruct (rename_tag 7 3 two_tags_registered "t" "a" "c") as [s'|] eqn:Hrun;
    [|discriminate Hrun].
  destruct (rename_tag_tags 7 3 two_tags_registered "t" "a" "c"
              (task_with_content "@a, @b" ["a"; "b"]) s' eq_refl Hrun)
    as (_ & Hreg & t' & Ht' & Hnew & _).
  exists s', t'. split; [reflexivity|]. split; [exact Ht'|].
  split; [exact Hnew|]. split; [exact Hreg|].
  injection Hrun as <-. vm_compute in Ht'. injection Ht' as <-. reflexivity.
Defined.

(** ** Filtering on tags *)

Section Has_tags.
Context (tag_children : string → list string).

Lemma children_tag_loop fuel s t :
  (∀ x b, children_tag tag_children fuel s t x = Some b →
          b = true ↔ tag_reaches tag_children s t x) →
  ∀ l acc b,
    fold_each (λ toreturn tagc_name,
      if negb toreturn then children_tag tag_children fuel s t tagc_name
      else Some toreturn) l acc = Some b →
    b = true ↔ acc = true ∨ ∃ c, c ∈ l ∧ tag_reaches tag_children s t c.
Proof.
  intros IH. induction l as [|c l IHl]; intros acc b Hrun.
  - cbn [fold_each] in Hrun. injection Hrun as <-. split; [by left|].
    intros [?|(c & Hc%elem_of_nil & _)]; done.
  - cbn [fold_each] in Hrun. body_bind Hrun Hbody.
    lazymatch type of Hbody with _ = Some ?y => rename y into acc' end.
    rewrite (IHl _ _ Hrun). destruct acc; cbn [negb] in Hbody.
    + injection Hbody as <-. split; [by left|by left].
    + rewrite (IH _ _ Hbody). split.
      * intros [Hc|(c' & Hc' & Hr)]; right.
        -- exists c. split; [by left|done].
        -- exists c'. split; [by right|done].
      * intros [?|(c' & [->|Hc']%elem_of_cons & Hr)]; [done|by left|].
        right. by exists c'.
Qed.

Lemma children_tag_spec fuel :
  ∀ s t x b,
    children_tag tag_children fuel s t x = Some b →
    b = true ↔ tag_reaches tag_children s t x.
Proof.
  induction fuel as [|fuel IH]; intros s t x b Hrun; [done|].
  cbn [children_tag] in Hrun.
  case_bool_decide as Hin.
  - injection Hrun as <-. split; [|done]. intros _. by apply tag_reaches_here.
  - case_bool_decide as Hreg.
    + rewrite (children_tag_loop fuel s t (IH s t) _ _ _ Hrun). split.
      * intros [?|(c & Hc & Hr)]; [done|]. by eapply tag_reaches_child.
      * intros Hr. right. inversion Hr as [y Hy|y c Hy Hc Hrc]; subst; [done|].
        by exists c.
    + injection Hrun as <-. split; [done|].
      intros Hr. inversion Hr; subst; done.
Qed.

(** The answer of [has_tags], when it gives one.  With [notag_only] it tells whether the
    task has no tag at all; for no list or an empty list it is true; for a
    list of names it is true exactly when one of the names is a tag of the
    task or leads to one through the children of the tags of the
    registry. *)
Lemma has_tags_result fuel s t tag_list notag_only b :
  has_tags tag_children fuel s t tag_list notag_only = Some b →
  b = true ↔
  if notag_only then tags t = []
  else match tag_list with
       | None | Some [] => True
       | Some l => ∃ x, x ∈ l ∧ tag_reaches tag_children s t x
       end.
Proof.
  intros Hrun. unfold has_tags in Hrun. destruct notag_only.
  - injection Hrun as <-. by rewrite bool_decide_eq_true.
  - destruct tag_list as [[|x l]|]; try (by injection Hrun as <-).
    rewrite (children_tag_loop fuel s t (children_tag_spec fuel s t) _ _ _
               Hrun).
    split; [by intros [?|?]|by right].
Qed.
End Has_tags.

(** ** Stripping an absent tag *)

Section Strip_absent.
Import PyStr PyStrFacts.

(** X24: [_strip_tag] leaves a text alone when the tag name does not occur
    in it, whatever the replacement. *)
Theorem strip_tag_absent (text tagname newtag : string) :
  contains text tagname = false → _strip_tag text tagname newtag = text.
Proof.
  intros H. unfold _strip_tag.
  assert (∀ a b, contains text (a +:+ tagname +:+ b) = false) as Habs
    by (intros a b; by apply absent_infix).
  rewrite (replace_absent text) by apply (Habs "@" (nl +:+ nl)).
  rewrite (replace_absent text) by apply (Habs "@" nl).
  rewrite (replace_absent text) by apply (Habs "@" ", ").
  rewrite (replace_absent text)
    by (rewrite <- (append_empty_r tagname); apply (Habs "@" EmptyString)).
  rewrite (replace_absent text) by apply (Habs EmptyString (nl +:+ nl)).
  rewrite (replace_absent text) by apply (Habs EmptyString ", ").
  rewrite (replace_absent text) by apply (Habs EmptyString ",").
  by rewrite (replace_absent text).
Qed.
End Strip_absent.

Lemma strip_tag_absent_witness :
  _strip_tag "call @bob, today" "alice" "@carol" = "call @bob, today".
Proof.
  exact (strip_tag_absent "call @bob, today" "alice" "@carol" eq_refl).
Defined.

(** ** Adding a new subtask *)

Section Leaf_calls.
Context (now today : Z) (parse : Date → string → bool → option Date).

(** [set_recurring], for a task that is not new and has no children,
    writes the recurrence of that task and nothing else. *)
Lemma set_recurring_leaf_frame fuel s self t r term s' :
  get_task s self = Some t → children t = [] →
  set_recurring now today parse fuel s self r term false = Some s' →
  ∃ t', get_task s' self = Some t' ∧
        but_recurrence t' = but_recurrence t ∧
        dates_and_links t' = dates_and_links t.
Proof.
  intros Ht Hleaf Hrun. destruct fuel as [|fuel]; [done|].
  cbn [set_recurring] in Hrun. rewrite Ht in Hrun.
  cbn [mbind option_bind] in Hrun.
  destruct (is_valid_term today parse t term false) as [valid newdate].
  body_bind Hrun Hmid.
  lazymatch type of Hmid with _ = Some ?y => rename y into s2 end.
  assert (∃ t2, get_task s2 self = Some t2 ∧
                but_recurrence t2 = but_recurrence t ∧
                dates_and_links t2 = dates_and_links t)
    as (t2 & Ht2 & Hb2 & Hd2).
  { destruct r, valid; cbn [negb] in Hmid; injection Hmid as <-;
      rewrite !get_task_update_eq, Ht; by eexists. }
  rewrite (sync_self _ _ _ _ Ht2) in Hrun. cbn [mbind option_bind] in Hrun.
  assert (children (if sync_disabled t2 then t2
                    else with_last_modified (StampTime now) t2) = [])
    as Hnone.
  { injection Hd2 as _ _ _ Hc. destruct (sync_disabled t2); simpl; congruence. }
  rewrite Hnone in Hrun. cbn [for_each] in Hrun. injection Hrun as <-.
  rewrite (sync_self _ _ _ _ Ht2). eexists. split; [done|].
  by destruct (sync_disabled t2).
Qed.

(** [set_due_date] with the due date of the only parent, on a task
    without children, writes the due date of the task and nothing else. *)
Lemma set_due_date_settled fuel s self t p tp s' :
  get_task s self = Some t → children t = [] → parents t = [p] →
  p ≠ self → get_task s p = Some tp →
  set_due_date now fuel s self (due_date tp) = Some s' →
  s' = (if date_neqb (due_date t) (due_date tp)
        then sync now (update_task (with_due_date (due_date tp)) self s) self
        else update_task (with_due_date (due_date tp)) self s).
Proof.
  intros Ht Hc Hp Hne Htp Hrun. destruct fuel as [|fuel]; [done|].
  cbn [set_due_date] in Hrun. rewrite Ht in Hrun.
  cbn [mbind option_bind] in Hrun.
  set (d := due_date tp) in *.
  set (sa := update_task (with_due_date d) self s) in *.
  assert (get_task sa self = Some (with_due_date d t)) as Hta
    by (subst sa; by rewrite get_task_update_eq, Ht).
  assert (get_task sa p = Some tp) as Hpa
    by (subst sa; by rewrite get_task_update_ne).
  body_bind Hrun Hmid.
  lazymatch type of Hmid with _ = Some ?y => rename y into sb end.
  assert (sb = sa) as ->.
  { destruct (is_fuzzy d) eqn:Hd; cbn [negb] in Hmid;
      [by injection Hmid as <-|].
    destruct fuel as [|fuel]; [done|].
    cbn [get_defined_parent_list get_defined_child_list] in Hmid.
    rewrite Hta in Hmid. cbn [mbind option_bind] in Hmid.
    change (parents (with_due_date d t)) with (parents t) in Hmid.
    rewrite Hp in Hmid. cbn [mapM] in Hmid. rewrite Hpa in Hmid.
    cbn [mbind option_bind] in Hmid. fold d in Hmid. rewrite Hd in Hmid.
    cbn [mbind option_bind fmap option_fmap option_map mjoin list_join
         mret option_ret for_each app] in Hmid.
    rewrite Hpa in Hmid. cbn [mbind option_bind] in Hmid. fold d in Hmid.
    rewrite date_ltb_irrefl in Hmid.
    cbn [mbind option_bind] in Hmid. rewrite Hta in Hmid.
    cbn [mbind option_bind] in Hmid.
    change (children (with_due_date d t)) with (children t) in Hmid.
    rewrite Hc in Hmid.
    cbn [mapM mbind option_bind fmap option_fmap option_map mjoin list_join
         mret option_ret for_each] in Hmid.
    cbn [mbind option_bind for_each] in Hmid. by injection Hmid as <-. }
  destruct (date_neqb (due_date t) d); [|by injection Hrun as <-].
  destruct fuel as [|fuel]; [done|].
  cbn [recursive_sync] in Hrun. rewrite Hta in Hrun.
  cbn [mbind option_bind] in Hrun.
  change (children (with_due_date d t)) with (children t) in Hrun.
  rewrite Hc in Hrun. cbn [for_each] in Hrun. by injection Hrun as <-.
Qed.

(** [add_tag] on a task without children writes the tags and the text of
    that task and nothing else. *)
Lemma add_tag_leaf fuel s self t name s' :
  get_task s self = Some t → children t = [] →
  add_tag now fuel s self name = Some s' →
  (∀ x, x ≠ self → get_task s' x = get_task s x) ∧
  ∃ t', get_task s' self = Some t' ∧ but_tags t' = but_tags t ∧
        ∀ y, y ∈ tags t' ↔ y ∈ tags t ∨ y = name.
Proof.
  intros Ht Hc Hrun. unfold add_tag in Hrun.
  destruct fuel as [|fuel]; [done|].
  cbn [tag_added] in Hrun. rewrite Ht in Hrun.
  cbn [mbind option_bind] in Hrun.
  case_bool_decide as Hin.
  - cbn [mbind option_bind] in Hrun. injection Hrun as <-.
    split; [done|]. exists t. split; [done|]. split; [done|].
    intros y. split; [by left|]. by intros [?| ->].
  - rewrite Hc in Hrun. cbn [for_each mbind option_bind] in Hrun.
    set (sa := update_task (λ t0, with_tags (tags t0 ++ [name]) t0) self s)
      in *.
    assert (∃ sb, (if loaded t
                   then Some (emit (TagModified name) (register_tag name sa))
                   else Some sa) = Some sb ∧
                  ∀ x, get_task sb x = get_task sa x) as (sb & Hsb & Hget).
    { destruct (loaded t); eexists; (split; [done|]); intros x;
        by rewrite ?get_task_emit, ?get_task_register_tag. }
    rewrite Hsb in Hrun. cbn [mbind option_bind] in Hrun.
    assert (get_task sb self = Some (with_tags (tags t ++ [name]) t)) as Htb.
    { rewrite Hget. subst sa. by rewrite get_task_update_eq, Ht. }
    rewrite Htb in Hrun. cbn [mbind option_bind] in Hrun.
    injection Hrun as <-. split.
    + intros x Hx. rewrite sync_other, get_task_update_ne, Hget by done.
      subst sa. by rewrite get_task_update_ne.
    + erewrite sync_self by (by rewrite get_task_update_eq, Htb).
      eexists. split; [done|]. split.
      * by destruct (sync_disabled _).
      * intros y.
        assert (∀ u, tags (if sync_disabled u then u
                           else with_last_modified (StampTime now) u)
                     = tags u) as -> by (by intros u; destruct (sync_disabled u)).
        simpl. rewrite elem_of_app, list_elem_of_singleton. done.
Qed.
End Leaf_calls.

Section Add_child.
Context (now today : Z) (parse : Date → string → bool → option Date).

Lemma add_tags_leaf fuel s0 c self start due :
  ∀ l T sx sy,
    subtask_state s0 sx c self start due T →
    for_each (λ s name, add_tag now fuel s c name) l sx = Some sy →
    subtask_state s0 sy c self start due (T ++ l).
Proof.
  induction l as [|name l IH]; intros T sx sy Hinv Hrun.
  - cbn [for_each] in Hrun. injection Hrun as <-. by rewrite app_nil_r.
  - cbn [for_each] in Hrun. body_bind Hrun Hadd.
    replace (T ++ name :: l) with ((T ++ [name]) ++ l)
      by (by rewrite <- app_assoc).
    eapply IH; [|exact Hrun]. clear IH Hrun.
    destruct Hinv as (Hother & tcx & Hc & Hdl & Htags).
    destruct (add_tag_leaf now _ _ _ _ _ _ Hc ltac:(by injection Hdl) Hadd)
      as (Hother' & tcy & Hc' & Hbt & Htags').
    split; [intros x Hx; by rewrite Hother', Hother|].
    exists tcy. split; [done|]. split.
    + unfold but_tags in Hbt. unfold dates_and_links in *.
      injection Hbt as _ _ _ _ _ _ -> -> _ _ _ _ _ _ _ -> ->. done.
    + intros y. rewrite Htags', Htags, elem_of_app, list_elem_of_singleton.
      done.
Qed.

(** X25: what a new subtask inherits.  [add_child], on a loaded task,
    with a task that is new ([can_be_deleted]), not recurring and without
    links, when it returns, has made it a child of the task and given it
    the start date and the due date of the task and, besides its own tags,
    the tags of the task.  The task itself becomes permanent and lists the
    child; its dates and tags stay, and every other task is as it was. *)
Theorem add_child_new fuel s self t c tc s' :
  get_task s self = Some t → loaded t = true →
  get_task s c = Some tc → c ≠ self →
  can_be_deleted tc = true → recurring tc = false →
  parents tc = [] → children tc = [] →
  add_child now today parse fuel s self c = Some s' →
  (∃ tc', get_task s' c = Some tc' ∧
          parents tc' = [self] ∧ children tc' = [] ∧
          start_date tc' = start_date t ∧ due_date tc' = due_date t ∧
          ∀ y, y ∈ tags tc' ↔ y ∈ tags tc ∨ y ∈ tags t) ∧
  (∃ t', get_task s' self = Some t' ∧
         can_be_deleted t' = false ∧ c ∈ children t' ∧
         start_date t' = start_date t ∧ due_date t' = due_date t ∧
         tags t' = tags t) ∧
  (∀ x, x ≠ c → x ≠ self → get_task s' x = get_task s x).
Proof.
  intros Ht Hloaded Hc Hne Hnew Hrec Hpar Hch Hrun.
  unfold add_child in Hrun.
  set (sb := tree_add_child (update_task (with_can_be_deleted false) self s)
               self c) in *.
  set (add := λ (x : string) l, if bool_decide (x ∈ l) then l else l ++ [x]).
  set (me := with_children (add c (children t))
               (with_can_be_deleted false t)).
  assert (get_task sb self = Some me) as Hme.
  { subst sb. unfold tree_add_child.
    rewrite get_task_update_ne by done.
    by rewrite !get_task_update_eq, Ht. }
  assert (get_task sb c = Some (with_parents [self] tc)) as Hcb.
  { subst sb. unfold tree_add_child.
    rewrite get_task_update_eq, !get_task_update_ne, Hc by done.
    simpl. by rewrite Hpar. }
  assert (∀ x, x ≠ c → x ≠ self → get_task sb x = get_task s x) as Hotherb.
  { intros x Hx1 Hx2. subst sb. unfold tree_add_child.
    by rewrite !get_task_update_ne. }
  rewrite Hme, Hcb in Hrun. cbn [mbind option_bind] in Hrun.
  change (loaded me) with (loaded t) in Hrun.
  change (can_be_deleted (with_parents [self] tc)) with (can_be_deleted tc)
    in Hrun.
  change (recurring (with_parents [self] tc)) with (recurring tc) in Hrun.
  rewrite Hloaded, Hnew, Hrec in Hrun. cbn [andb negb] in Hrun.
  body_bind Hrun Hmid. injection Hrun as <-.
  lazymatch type of Hmid with _ = Some ?y => rename y into se end.
  assert (subtask_state sb se c self (start_date t) (due_date t)
            (tags tc ++ tags t)) as (Hother & tce & Hce & Hdl & Htags).
  { (* the dates *)
    body_bind Hmid Hdates.
    lazymatch type of Hdates with _ = Some ?y => rename y into sd end.
    set (sc := set_start_date now sb c (start_date me)) in *.
    assert (get_task sc self = Some me) as Hmec.
    { subst sc. unfold set_start_date.
      by rewrite sync_other, get_task_update_ne by done. }
    assert (∃ tcc, get_task sc c = Some tcc ∧
                   dates_and_links tcc = (start_date t, due_date tc, [self], [])
                   ∧ tags tcc = tags tc) as (tcc & Hcc & Hdlc & Htc).
    { subst sc. unfold set_start_date.
      erewrite sync_self by (by rewrite get_task_update_eq, Hcb).
      eexists. split; [done|].
      destruct (sync_disabled _); unfold dates_and_links; simpl;
        by rewrite Hch. }
    rewrite Hmec in Hdates. cbn [mbind option_bind] in Hdates.
    change (due_date me) with (due_date t) in Hdates.
    assert (due_date t = due_date me) as Hdme by done.
    rewrite Hdme in Hdates.
    apply (set_due_date_settled now _ _ _ _ self me _ Hcc) in Hdates;
      [|by injection Hdlc|by injection Hdlc|done|done].
    assert (subtask_state sb sd c self (start_date t) (due_date t) (tags tc))
      as Hinv.
    { split.
      - intros x Hx. rewrite Hdates.
        destruct (date_neqb _ _);
          rewrite ?sync_other, get_task_update_ne by done;
          subst sc; unfold set_start_date;
          by rewrite sync_other, get_task_update_ne by done.
      - assert (get_task (update_task (with_due_date (due_date me)) c sc) c
                = Some (with_due_date (due_date me) tcc)) as Hu
          by (by rewrite get_task_update_eq, Hcc).
        injection Hdlc as Hs _ Hp Hcn.
        destruct (date_neqb _ _); rewrite Hdates.
        + rewrite (sync_self _ _ _ _ Hu). eexists. split; [done|].
          destruct (sync_disabled _); unfold dates_and_links; simpl;
            rewrite Hs, Hp, Hcn, Htc; done.
        + rewrite Hu. eexists. split; [done|].
          unfold dates_and_links; simpl. by rewrite Hs, Hp, Hcn, Htc. }
    clear Hdates. destruct Hinv as (Hotherd & tcd & Hcd & Hdld & Htagsd).
    (* the tags *)
    rewrite (Hotherd self) in Hmid by done. rewrite Hme in Hmid.
    cbn [mbind option_bind] in Hmid.
    change (tags me) with (tags t) in Hmid.
    body_bind Hmid Htagloop.
    lazymatch type of Htagloop with _ = Some ?y => rename y into st end.
    assert (subtask_state sb st c self (start_date t) (due_date t)
              (tags tc ++ tags t)) as Hinvt.
    { eapply add_tags_leaf; [|exact Htagloop]. split.
      - intros x Hx. by rewrite register_tags_get, Hotherd.
      - exists tcd. by rewrite register_tags_get. }
    clear Htagloop. destruct Hinvt as (Hothert & tct & Hct & Hdlt & Htagst).
    (* the recurrence *)
    unfold inherit_recursion in Hmid. rewrite Hct in Hmid.
    cbn [mbind option_bind] in Hmid. unfold has_parent in Hmid.
    assert (parents tct = [self]) as Hpt by (by injection Hdlt).
    rewrite Hpt in Hmid. cbn [for_each] in Hmid.
    rewrite (Hothert self) in Hmid by done. rewrite Hme in Hmid.
    cbn [mbind option_bind] in Hmid.
    destruct (recurring me && loaded me).
    - body_bind Hmid Hset. injection Hmid as <-.
      body_bind Hset Hrecur.
      lazymatch type of Hrecur with _ = Some ?y => rename y into sr end.
      lazymatch type of Hset with _ = Some ?y => rename y into sf end.
      destruct (set_recurring_leaf_frame now today parse _ _ _ _ _ _ _ Hct
                  ltac:(by injection Hdlt) Hrecur)
        as (tcr & Hcr & Hbr & Hdlr).
      pose proof (set_recurring_leaf_others now today parse _ _ _ _ _ _ _ Hct
                    ltac:(by injection Hdlt) Hrecur) as Hotherr.
      assert (get_task sr self = Some me) as Hmer
        by (by rewrite Hotherr, Hothert).
      rewrite Hmer in Hset. cbn [mbind option_bind] in Hset.
      rewrite Hdlt in Hdlr.
      apply (set_due_date_settled now _ _ _ _ self me _ Hcr) in Hset;
        [|by injection Hdlr|by injection Hdlr|done|done].
      assert (date_neqb (due_date tcr) (due_date me) = false) as Hsame.
      { injection Hdlr as _ -> _ _. apply date_neqb_same. }
      rewrite Hsame in Hset. subst sf. split.
      + intros x Hx. by rewrite get_task_update_ne, Hotherr, Hothert.
      + rewrite get_task_update_eq, Hcr. eexists. split; [done|].
        injection Hdlr as Hs Hd Hp Hcn. split.
        * unfold dates_and_links. simpl. by rewrite Hs, Hp, Hcn.
        * intros y. simpl. rewrite <- Htagst.
          unfold but_recurrence in Hbr.
          by injection Hbr as _ _ _ _ _ _ _ _ -> _ _ _ _ _.
    - cbn [mbind option_bind] in Hmid. injection Hmid as <-.
      split; [done|]. by exists tct. }
  split; [|split].
  - rewrite sync_other by done. exists tce. split; [done|].
    injection Hdl as -> -> -> ->. repeat split; try done.
    + intros Hy. by apply elem_of_app, Htags.
    + intros Hy. by apply Htags, elem_of_app.
  - erewrite sync_self by (by rewrite Hother, Hme).
    eexists. split; [done|].
    destruct (sync_disabled me); simpl; repeat split; try done;
      unfold add; case_bool_decide; try done;
      apply elem_of_app; right; by left.
  - intros x Hx1 Hx2. rewrite sync_other, Hother by done. by apply Hotherb.
Qed.
End Add_child.

Lemma add_child_new_witness :
  ∃ s' tc',
    add_child 7 1 sample_parse 4 parent_and_new "p" "n" = Some s' ∧
    get_task s' "n" = Some tc' ∧ parents tc' = ["p"] ∧
    start_date tc' = Concrete 2 ∧ due_date tc' = Concrete 9 ∧
    "work" ∈ tags tc'.
Proof.
  destruct (add_child 7 1 sample_parse 4 parent_and_new "p" "n")
    as [s'|] eqn:Hrun; [|discriminate Hrun].
  destruct (add_child_new 7 1 sample_parse 4 parent_and_new "p"
              (with_tags ["work"]
                 (with_start_date (Concrete 2)
                    (sample_task "p" STA_ACTIVE (Concrete 9) [] [])))
              "n"
              (with_can_be_deleted true
                 (sample_task "n" STA_ACTIVE NoDate [] []))
              s' eq_refl eq_refl eq_refl ltac:(done) eq_refl eq_refl eq_refl
              eq_refl Hrun)
    as ((tc' & Hc & Hp & _ & Hs & Hd & Htags) & _ & _).
  exists s', tc'. split; [reflexivity|]. split; [exact Hc|].
  split; [exact Hp|]. split; [exact Hs|]. split; [exact Hd|].
  apply Htags. right. simpl. by left.
Defined.

(** ** The getters return *)

Lemma fold_each_returns {A B} (body : B → A → option B) (l : list A) :
  (∀ x acc, x ∈ l → is_Some (body acc x)) →
  ∀ acc, is_Some (fold_each body l acc).
Proof.
  induction l as [|x l IH]; intros Hbody acc; [by eexists|].
  cbn [fold_each]. destruct (Hbody x acc ltac:(by left)) as [acc' ->].
  cbn [mbind option_bind]. apply IH. intros y acc0 Hy. apply Hbody.
  by right.
Qed.

Lemma ranked_parents_b_sound rank s :
  ranked_parents_b rank s = true → ranked_parents rank s.
Proof.
  unfold ranked_parents_b. rewrite forallb_forall.
  intros H x t p Hx Hp.
  assert (In (x, t) (map_to_list (tasks s))) as Hin.
  { apply list_elem_of_In, elem_of_map_to_list. exact Hx. }
  apply H in Hin. rewrite forallb_forall in Hin.
  apply list_elem_of_In, Hin in Hp.
  destruct (get_task s p) as [tp|]; [|done].
  split; [by eexists|]. by apply Nat.ltb_lt.
Qed.

Lemma get_due_date_constraint_returns rank s :
  ranked_parents rank s →
  ∀ fuel self,
    is_Some (get_task s self) → rank self < fuel →
    is_Some (get_due_date_constraint fuel s self).
Proof.
  intros Hr. induction fuel as [|fuel IH]; intros self [t Ht] Hfuel; [lia|].
  cbn [get_due_date_constraint]. rewrite Ht. cbn [mbind option_bind].
  destruct (is_fuzzy (due_date t)); [|by eexists].
  apply fold_each_returns. intros p acc Hp.
  destruct (Hr self t p Ht Hp) as [[tp Htp] Hlt].
  rewrite Htp. cbn [mbind option_bind].
  destruct (is_fuzzy (due_date tp)).
  - destruct (IH p) as [d Hd]; [by eexists|lia|]. rewrite Hd.
    cbn [mbind option_bind].
    destruct (is_fuzzy d), (is_fuzzy acc), (date_ltb d acc); by eexists.
  - cbn [mbind option_bind].
    destruct (is_fuzzy (due_date tp)), (is_fuzzy acc),
      (date_ltb (due_date tp) acc); by eexists.
Qed.

(** X3: what [get_due_date_constraint] returns.  On a store where every
    parent id names a task and the parent links go down a rank (so there
    is no cycle) the method returns, given fuel above the task's rank.  For
    a task whose due date is not fuzzy the result is that due date.  For a
    task whose due date is fuzzy or undefined it is the earliest due date
    among the nearest defined ancestors (those with a due date that is not
    fuzzy, reached by parent links through tasks with fuzzy due dates);
    when there is no such ancestor it is the task's own due date. *)
Theorem get_due_date_constraint_spec rank fuel s self t :
  ranked_parents rank s →
  get_task s self = Some t →
  rank self < fuel →
  ∃ r, get_due_date_constraint fuel s self = Some r ∧
       if is_fuzzy (due_date t) then is_constraint s self (due_date t) r
       else r = due_date t.
Proof.
  intros Hr Ht Hfuel.
  destruct (get_due_date_constraint_returns rank s Hr fuel self) as [r Hrun];
    [by eexists|done|].
  exists r. split; [done|]. by eapply get_due_date_constraint_result.
Qed.

Lemma get_due_date_constraint_spec_witness :
  get_due_date_constraint 5 two_grandparents "c" = Some (Concrete 3) ∧
  is_constraint two_grandparents "c" NoDate (Concrete 3).
Proof.
  destruct (get_due_date_constraint_spec grandparents_rank 5 two_grandparents
              "c" (sample_task "c" STA_ACTIVE NoDate ["p"] []))
    as (r & Hrun & Hspec).
  - apply ranked_parents_b_sound. vm_compute. reflexivity.
  - reflexivity.
  - vm_compute. lia.
  - assert (r = Concrete 3) as ->.
    { vm_compute in Hrun. by injection Hrun as <-. }
    split; [exact Hrun|exact Hspec].
Defined.

Lemma get_urgent_date_returns rank s :
  ranked_children rank s →
  ∀ fuel self,
    is_Some (get_task s self) → rank self < fuel →
    is_Some (get_urgent_date fuel s self).
Proof.
  intros Hr. induction fuel as [|fuel IH]; intros self [t Ht] Hfuel; [lia|].
  cbn [get_urgent_date]. rewrite Ht. cbn [mbind option_bind].
  apply fold_each_returns. intros c acc Hc.
  destruct (Hr self t c Ht Hc) as [[tc Htc] Hlt].
  rewrite Htc. cbn [mbind option_bind].
  case_bool_decide; [|by eexists].
  destruct (IH c) as [d Hd]; [by eexists|lia|]. rewrite Hd.
  cbn [mbind option_bind]. by eexists.
Qed.

(** X4: what [get_urgent_date] returns.  On a store where every child id
    names a task and the child links go down a rank (so there is no cycle)
    the method returns, given fuel above the task's rank.  The result is a
    due date of the task or of an Active task below it (reached by child
    links through Active tasks), than which none of these due dates is
    earlier.  Subtasks that are done or dismissed, and what lies below
    them, are not looked at. *)
Theorem get_urgent_date_spec rank fuel s self t :
  ranked_children rank s →
  get_task s self = Some t →
  rank self < fuel →
  ∃ r, get_urgent_date fuel s self = Some r ∧
       is_urgent_date s self (due_date t) r.
Proof.
  intros Hr Ht Hfuel.
  destruct (get_urgent_date_returns rank s Hr fuel self) as [r Hrun];
    [by eexists|done|].
  exists r. split; [done|]. by eapply get_urgent_date_result.
Qed.

Lemma get_urgent_date_spec_witness :
  get_urgent_date 5 urgent_family "top" = Some (Concrete 4) ∧
  is_urgent_date urgent_family "top" (Concrete 9) (Concrete 4).
Proof.
  destruct (get_urgent_date_spec family_rank 5 urgent_family "top"
              (sample_task "top" STA_ACTIVE (Concrete 9) [] ["a"; "b"]))
    as (r & Hrun & Hspec).
  - apply ranked_children_b_sound. vm_compute. reflexivity.
  - reflexivity.
  - vm_compute. lia.
  - assert (r = Concrete 4) as ->.
    { vm_compute in Hrun. by injection Hrun as <-. }
    split; [exact Hrun|exact Hspec].
Defined.

Section Has_tags_returns.
Context (tag_children : string → list string).

Lemma children_tag_returns rank s t :
  ranked_tags tag_children rank s →
  ∀ fuel x, rank x < fuel → is_Some (children_tag tag_children fuel s t x).
Proof.
  intros Hr. induction fuel as [|fuel IH]; intros x Hfuel; [lia|].
  cbn [children_tag]. case_bool_decide; [by eexists|].
  case_bool_decide as Hreg; [|by eexists].
  apply fold_each_returns. intros c acc Hc.
  destruct acc; cbn [negb]; [by eexists|].
  apply IH. specialize (Hr x c Hreg Hc). lia.
Qed.

(** X23: what [has_tags] answers.  With [notag_only] it tells whether the
    task has no tag at all; for no list or an empty list it is true; for a
    list of names it is true exactly when one of the names is a tag of the
    task or leads to one through the children of the tags of the
    registry.  The method answers when the children of the tags go down a
    rank (so there is no cycle), given fuel above the ranks of the names
    of the list. *)
Theorem has_tags_spec rank fuel s t tag_list notag_only :
  ranked_tags tag_children rank s →
  (∀ x, x ∈ default [] tag_list → rank x < fuel) →
  ∃ b, has_tags tag_children fuel s t tag_list notag_only = Some b ∧
       (b = true ↔
        if notag_only then tags t = []
        else match tag_list with
             | None | Some [] => True
             | Some l => ∃ x, x ∈ l ∧ tag_reaches tag_children s t x
             end).
Proof.
  intros Hr Hfuel.
  assert (is_Some (has_tags tag_children fuel s t tag_list notag_only))
    as [b Hrun].
  { unfold has_tags. destruct notag_only; [by eexists|].
    destruct tag_list as [[|x l]|]; try by eexists.
    apply fold_each_returns. intros y acc Hy.
    destruct acc; cbn [negb]; [by eexists|].
    apply children_tag_returns with (rank := rank); [done|].
    by apply Hfuel. }
  exists b. split; [done|]. by eapply has_tags_result.
Qed.
End Has_tags_returns.

Lemma has_tags_spec_witness :
  has_tags sample_tag_children 3 project_registry
    (with_tags ["work"]
       (with_content "@work" (sample_task "p" STA_ACTIVE NoDate [] ["c"])))
    (Some ["project"]) false = Some true ∧
  ∃ x, x ∈ ["project"] ∧
       tag_reaches sample_tag_children project_registry
         (with_tags ["work"]
            (with_content "@work"
               (sample_task "p" STA_ACTIVE NoDate [] ["c"]))) x.
Proof.
  destruct (has_tags_spec sample_tag_children tag_rank 3 project_registry
              (with_tags ["work"]
                 (with_content "@work"
                    (sample_task "p" STA_ACTIVE NoDate [] ["c"])))
              (Some ["project"]) false) as (b & Hrun & Hspec).
  - intros x c Hx Hc. change (x ∈ ({["project"]} : gset string)) in Hx.
    apply elem_of_singleton in Hx as ->.
    apply list_elem_of_singleton in Hc as ->. vm_compute. lia.
  - intros x Hx. apply list_elem_of_singleton in Hx as ->. vm_compute. lia.
  - assert (b = true) as ->.
    { vm_compute in Hrun. by injection Hrun as <-. }
    split; [exact Hrun|]. by apply Hspec.
Defined.

(** ** The next occurrence from a due date that is not a calendar day *)

Lemma advance_while_always parse cond term :
  (∀ d, cond d = true) →
  ∀ fuel d, advance_while parse fuel cond term d = None.
Proof.
  intros Hcond. induction fuel as [|fuel IH]; intros d; [done|].
  cbn [advance_while]. rewrite Hcond.
  destruct (parse d term false) as [d'|]; cbn [mbind option_bind]; [|done].
  apply IH.
Qed.

(** Every date is on or before a fuzzy or undefined due date, and so is
    today: the first loop of [get_next_occurrence] does not end. *)
Lemma get_next_occurrence_fuzzy_due today parse fuel s self t :
  get_task s self = Some t →
  is_fuzzy (due_date t) = true →
  get_next_occurrence today parse fuel s self = None.
Proof.
  intros Ht Hfz. unfold get_next_occurrence. rewrite Ht.
  cbn [mbind option_bind].
  assert (∀ d, date_leb d (due_date t) = true) as Hle.
  { intros d. unfold date_leb. by destruct (due_date t), d. }
  rewrite Hle.
  destruct (recurring_term t) as [term|]; cbn [mbind option_bind]; [|done].
  destruct (parse (due_date t) term false) as [d1|];
    cbn [mbind option_bind]; [|done].
  by apply advance_while_always.
Qed.

(** The claim as stated fails on a task that is due some day: its term
    parses on every date, and the method returns for no fuel. *)
Lemma get_next_occurrence_due_someday :
  recurring_term task_due_someday = Some "day" ∧
  (∀ d, is_Some (daily_parse d "day" false)) ∧
  (∀ fuel,
     get_next_occurrence 10 daily_parse fuel (store_of [task_due_someday])
       "t" = None).
Proof.
  split; [reflexivity|]. split.
  - intros d. unfold daily_parse. rewrite bool_decide_eq_true_2 by done.
    destruct d; by eexists.
  - intros fuel.
    by apply (get_next_occurrence_fuzzy_due 10 daily_parse fuel _ "t"
                task_due_someday).
Qed.

(** C5 (amended): on a task whose due date is a calendar day, when
    [get_next_occurrence] returns, the date is the first one reached from
    the due date, in one advance or more, that is strictly after the due
    date (if today is on or before the due date), or that is no earlier
    than today (if today is after the due date); with a parser that moves
    every calendar day strictly forward, the method does return.  On a
    task whose due date is fuzzy or undefined the method returns no date,
    whatever the term and the parser. *)
Theorem get_next_occurrence_first today parse s self t term :
  get_task s self = Some t →
  recurring_term t = Some term →
  (∀ fuel r,
     get_next_occurrence today parse fuel s self = Some r →
     (date_leb (Concrete today) (due_date t) = true →
      first_advance parse term (λ d, date_leb d (due_date t)) (due_date t) r
      ∧ date_ltb (due_date t) r = true) ∧
     (date_ltb (due_date t) (Concrete today) = true →
      first_advance parse term (λ d, date_ltb d (Concrete today))
        (due_date t) r
      ∧ date_leb (Concrete today) r = true)) ∧
  ((∀ day, ∃ day', parse (Concrete day) term false = Some (Concrete day')
                   ∧ (day < day')%Z) →
   is_fuzzy (due_date t) = false →
   ∃ fuel r, get_next_occurrence today parse fuel s self = Some r) ∧
  (is_fuzzy (due_date t) = true →
   ∀ fuel, get_next_occurrence today parse fuel s self = None).
Proof.
  intros Ht Hterm.
  destruct (get_next_occurrence_dates today parse s self t term Ht Hterm)
    as [Hfirst Hreturns].
  split; [done|]. split; [done|].
  intros Hfz fuel. by eapply get_next_occurrence_fuzzy_due.
Qed.

Lemma get_next_occurrence_first_witness :
  get_next_occurrence 10 sample_parse 5 (store_of [task_due_in 10 "week"]) "t"
  = Some (Concrete 17) ∧
  get_next_occurrence 10 sample_parse 9 (store_of [task_due_in 3 "day"]) "t"
  = Some (Concrete 10) ∧
  first_advance sample_parse "day" (λ d, date_ltb d (Concrete 10))
    (Concrete 3) (Concrete 10).
Proof.
  split; [reflexivity|]. split; [reflexivity|].
  destruct (get_next_occurrence_first 10 sample_parse
              (store_of [task_due_in 3 "day"]) "t" (task_due_in 3 "day") "day"
              eq_refl eq_refl) as [Hfirst _].
  destruct (Hfirst 9 (Concrete 10) eq_refl) as [_ Hlate].
  destruct (Hlate eq_refl) as [H _]. exact H.
Defined.

(** ** What the closing cascade leaves alone *)

Section Closing_frame.
Context (now today : Z) (parse : Date → string → bool → option Date).
Context (st : Status) (donedate : option Date).
Context (Hst : is_closed st = true).

#[local] Instance closing_frame_refl :
  Reflexive (closing_step st (default (Concrete today) donedate)).
Proof. intros t. repeat split. by left. Qed.

#[local] Instance closing_frame_trans :
  Transitive (closing_step st (default (Concrete today) donedate)).
Proof using Hst.
  intros t1 t2 t3 (Hc12 & Hl12 & Hs12) (Hc23 & Hl23 & Hs23).
  split; [congruence|]. split; [congruence|].
  destruct Hs12 as [[E1 E1']|(A1 & E1 & E1')],
    Hs23 as [[E2 E2']|(A2 & E2 & E2')].
  - left. split; congruence.
  - right. repeat split; congruence.
  - right. repeat split; congruence.
  - rewrite E1 in A2. rewrite A2 in Hst. done.
Qed.

(** The cascade is read off the store before the call: a task that is
    Active, or a child link, while the call runs was there before. *)
Lemma cascades_before s sx x d :
  evolves (closing_step st (default (Concrete today) donedate)) s sx →
  cascades sx x d → cascades s x d.
Proof using Hst.
  intros Hev Hcas.
  induction Hcas as [x t' c tc' Hx Hl Hc Htc Hact|x c d _ IH1 _ IH2];
    [|by eapply cascades_step].
  destruct (evolves_Some_inv _ _ _ _ _ Hev Hx) as (t & Ht & Hch & Hld & _).
  destruct (evolves_Some_inv _ _ _ _ _ Hev Htc) as (tc & Htc0 & _ & _ & Hs).
  eapply (cascades_child s x t c tc); try done; try congruence.
  destruct Hs as [[E _]|(_ & E & _)]; [by rewrite <- E|].
  rewrite E in Hact. by destruct st.
Qed.

Lemma closing_frame_loop fuel :
  (∀ s self s',
     set_status now today parse fuel s self (Some st) donedate true false
     = Some s' →
     ∀ y ty, y ≠ self → ¬ cascades s self y → get_task s y = Some ty →
             ∃ ty', get_task s' y = Some ty' ∧ closing_kept ty ty') →
  ∀ s0 self t, get_task s0 self = Some t → loaded t = true →
  ∀ l sx sy,
    (∀ c, c ∈ l → c ∈ children t) →
    evolves (closing_step st (default (Concrete today) donedate)) s0 sx →
    outside_kept s0 self sx →
    for_each (close_child now today parse fuel st donedate) l sx = Some sy →
    evolves (closing_step st (default (Concrete today) donedate)) s0 sy ∧
    outside_kept s0 self sy.
Proof using Hst.
  intros Hcall s0 self t Ht Hl.
  induction l as [|c l IHl]; intros sx sy Hin Hev Hout Hfor.
  - cbn [for_each] in Hfor. by injection Hfor as <-.
  - cbn [for_each] in Hfor. body_bind Hfor Hhead.
    lazymatch type of Hhead with _ = Some ?x => rename x into sm end.
    assert (evolves (closing_step st (default (Concrete today) donedate))
              s0 sm ∧ outside_kept s0 self sm) as [Hevm Houtm].
    { unfold close_child in Hhead. body_bind Hhead Hc.
      lazymatch type of Hc with _ = Some ?x => rename x into tc' end.
      destruct (is_active (status tc')) eqn:Hact;
        [|by injection Hhead as <-].
      assert (status_of sx c = Some STA_ACTIVE) as Hact'.
      { unfold status_of. rewrite Hc. simpl. by destruct (status tc'). }
      pose proof (cascade_evolves now today parse st donedate Hst _ _ _ _ _
                    Hact' Hhead) as Hstep.
      split; [by eapply evolves_trans; [exact _|exact Hev|]|].
      assert (cascades s0 self c) as Hreach.
      { destruct (evolves_Some_inv _ _ _ _ _ Hev Hc)
          as (tc & Htc & _ & _ & Hs).
        apply (cascades_child s0 self t c tc); try done;
          [apply Hin; by left|].
        destruct Hs as [[E _]|(_ & E & _)]; [by rewrite <- E|].
        rewrite E in Hact. by destruct st. }
      intros y ty Hny Hy.
      destruct (Hout y ty Hny Hy) as (tyx & Hyx & Hk1).
      destruct (Hcall sx c sm Hhead y tyx) as (tym & Hym & Hk2); try done.
      - intros ->. by apply Hny.
      - intros Hcy. apply Hny. eapply cascades_step; [exact Hreach|].
        by eapply cascades_before.
      - exists tym. split; [done|]. by etransitivity. }
    apply (IHl sm sy); try done. intros c' Hc'. apply Hin. by right.
Qed.

(** The assignments that end [set_status] touch the task alone. *)
Lemma close_tail_other s2 self init e y :
  y ≠ self →
  get_task (sync now
     (update_task (with_closed_date (default (Concrete today) donedate)) self
        (update_task (with_status st) self
           (if init : bool then s2 else emit e s2))) self) y
  = get_task s2 y.
Proof.
  intros Hy. rewrite sync_other by done.
  rewrite !get_task_update_ne by done. by destruct init.
Qed.

(** A closing changes the status and the closed date of no task outside
    its cascade. *)
Lemma closing_frame fuel :
  ∀ s self propagation init s',
    set_status now today parse fuel s self (Some st) donedate propagation
      init = Some s' →
    ∀ y ty, y ≠ self → ¬ cascades s self y → get_task s y = Some ty →
            ∃ ty', get_task s' y = Some ty' ∧ closing_kept ty ty'.
Proof using Hst.
  induction fuel as [|fuel IH]; intros s self propagation init s' Hrun;
    [done|].
  intros y ty Hy Hny Hty.
  cbn [set_status] in Hrun. body_bind Hrun Ht. rewrite Hst in Hrun.
  lazymatch type of Ht with _ = Some ?x => rename x into t end.
  set (s1 := update_task (with_can_be_deleted false) self s) in Hrun.
  assert (evolves (closing_step st (default (Concrete today) donedate)) s s1)
    as Hev1.
  { subst s1. evolves_steps ltac:(intros; repeat split; auto). }
  assert (outside_kept s self s1) as Hout1.
  { intros z tz _ Hz. subst s1. rewrite get_task_update, Hz.
    case_decide; simpl; eexists; (split; [done|]); by split. }
  body_bind Hrun Hmid.
  lazymatch type of Hmid with _ = Some ?x => rename x into s3 end.
  assert (outside_kept s self s3) as Hout3.
  { clear Hrun. body_step Hmid; [|by injection Hmid as <-].
    body_bind Hmid Hloop.
    lazymatch type of Hloop with _ = Some ?x => rename x into s2 end.
    destruct (closing_frame_loop fuel) with (s0 := s) (self := self) (t := t)
      (l := children t) (sx := s1) (sy := s2) as [Hev2 Hout2]; try done.
    { intros sx c sy. apply IH. }
    assert (preserves closing_kept s2 s3) as Hkept.
    { body_bind Hmid Hme.
      body_step Hmid; [|body_step Hmid; apply preserves_refl, _].
      body_bind Hmid Hpr.
      body_step Hmid; [|body_step Hmid; apply preserves_refl, _].
      destruct (duplicate_recursively now today parse fuel s2 self)
        as [[s4 nid]|] eqn:Hdup; cbn [mbind option_bind] in Hmid; [|done].
      apply (preserves_trans _ _ _ _
               (duplicate_recursively_closing _ _ _ _ _ _ _ _ Hdup)).
      body_bind Hmid Hme3.
      body_step Hmid; [|body_step Hmid; apply preserves_refl, _].
      eapply preserves_for_each; [exact _..| |exact Hmid].
      intros sx p sy _ Hbody. body_bind Hbody Hp.
      body_step Hbody; [|body_step Hbody; apply preserves_refl, _].
      body_bind Hbody Hadd. injection Hbody as <-.
      apply preserves_sync_r; [exact _..|by intros|].
      by eapply add_child_closing. }
    intros z tz Hnz Hz. destruct (Hout2 z tz Hnz Hz) as (tz2 & Hz2 & Hk2).
    destruct (Hkept z tz2 Hz2) as (tz3 & Hz3 & Hk3).
    exists tz3. split; [done|]. by etransitivity. }
  body_bind Hrun Hme. injection Hrun as <-.
  rewrite close_tail_other by done. by apply Hout3.
Qed.

(** C3 (amended): when [set_status] with Done or Dismissed returns on a
    loaded task, the task has that status and the closed date [donedate],
    or today's date when none was supplied, and so has every task the
    cascade reaches: every Active child, every Active child of such a child
    that is loaded, and so on.  Every other task of the store keeps its
    status and its closed date: an Active descendant that every chain of
    child links reaches only through a task that is not Active, or not
    loaded, stays Active. *)
Theorem closing_cascades s self t :
  get_task s self = Some t →
  loaded t = true →
  ∀ fuel propagation init s',
    set_status now today parse fuel s self (Some st) donedate propagation
      init = Some s' →
    (∃ t', get_task s' self = Some t' ∧ status t' = st
           ∧ closed_date t' = default (Concrete today) donedate) ∧
    (∀ d, cascades s self d →
       ∃ td, get_task s' d = Some td ∧ status td = st
             ∧ closed_date td = default (Concrete today) donedate) ∧
    (∀ y ty, y ≠ self → ¬ cascades s self y → get_task s y = Some ty →
       ∃ ty', get_task s' y = Some ty' ∧ status ty' = status ty
              ∧ closed_date ty' = closed_date ty).
Proof using Hst.
  intros Ht Hl fuel propagation init s' Hrun.
  destruct (closing_reaches now today parse st donedate Hst s self t Ht Hl
              fuel propagation init s' Hrun) as [Hself Hdown].
  split; [done|]. split; [done|].
  intros y ty Hy Hny Hty.
  destruct (closing_frame fuel s self propagation init s' Hrun y ty Hy Hny
              Hty) as (ty' & Hty' & Hs & Hc).
  by exists ty'.
Qed.
End Closing_frame.

Lemma two_paths_cascades x d :
  cascades two_paths x d →
  x = "top" ∨ x = "a" ∨ x = "low" → d = "a" ∨ d = "low".
Proof.
  induction 1 as [x t c tc Hx Hl Hc Htc Hact|x c d _ IH1 _ IH2].
  - intros [-> | [-> | ->]]; vm_compute in Hx; injection Hx as <-;
      simpl in Hc.
    + apply elem_of_cons in Hc as [->|Hc]; [by left|].
      apply list_elem_of_singleton in Hc as ->.
      vm_compute in Htc. injection Htc as <-. done.
    + apply list_elem_of_singleton in Hc as ->. by right.
    + by apply elem_of_nil in Hc.
  - intros Hx. destruct (IH1 Hx) as [-> | ->]; apply IH2; auto.
Qed.

Lemma closing_cascades_witness :
  ∃ s',
    set_status 7 1 sample_parse 4 two_paths "top" (Some STA_DONE)
      (Some (Concrete 5)) false false = Some s' ∧
    status_of s' "top" = Some STA_DONE ∧
    status_of s' "low" = Some STA_DONE ∧
    (closed_date <$> get_task s' "low") = Some (Concrete 5) ∧
    status_of s' "under" = Some STA_ACTIVE ∧
    status_of s' "mid" = Some STA_DONE ∧
    (closed_date <$> get_task s' "mid") = Some NoDate.
Proof.
  destruct (set_status 7 1 sample_parse 4 two_paths "top" (Some STA_DONE)
              (Some (Concrete 5)) false false) as [s'|] eqn:Hrun;
    [|discriminate Hrun].
  destruct (closing_cascades 7 1 sample_parse STA_DONE (Some (Concrete 5))
              eq_refl two_paths "top"
              (sample_task "top" STA_ACTIVE NoDate [] ["a"; "mid"])
              eq_refl eq_refl 4 false false s' Hrun)
    as ((t' & Ht' & Hs' & _) & Hdown & Hrest).
  destruct (Hdown "low") as (td & Htd & Hsd & Hcd).
  { apply (cascades_step _ "top" "a" "low").
    - apply (cascades_child _ "top"
               (sample_task "top" STA_ACTIVE NoDate [] ["a"; "mid"]) "a"
               (sample_task "a" STA_ACTIVE NoDate ["top"] ["low"]));
        [reflexivity|reflexivity|by left|reflexivity|reflexivity].
    - apply (cascades_child _ "a"
               (sample_task "a" STA_ACTIVE NoDate ["top"] ["low"]) "low"
               (sample_task "low" STA_ACTIVE NoDate ["a"; "mid"] []));
        [reflexivity|reflexivity|by left|reflexivity|reflexivity]. }
  destruct (Hrest "under" (sample_task "under" STA_ACTIVE NoDate ["mid"] []))
    as (tu & Htu & Hsu & _); [done| |reflexivity|].
  { intros Hcas. by destruct (two_paths_cascades _ _ Hcas ltac:(by left)). }
  destruct (Hrest "mid"
              (sample_task "mid" STA_DONE NoDate ["top"] ["low"; "under"]))
    as (tm & Htm & Hsm & Hcm); [done| |reflexivity|].
  { intros Hcas. by destruct (two_paths_cascades _ _ Hcas ltac:(by left)). }
  exists s'. split; [reflexivity|]. unfold status_of.
  rewrite Ht', Htd, Htu, Htm. simpl. rewrite Hs', Hsd, Hcd, Hsu, Hsm, Hcm.
  repeat split; reflexivity.
Defined.

(** ** Reactivating a task that is not loaded *)

(** On a task that is not loaded the parent loop is skipped, whatever the
    parents are: the call returns, the task becomes Active and every other
    task is as it was. *)
Lemma reactivation_of_unloaded now today parse fuel s self t donedate
    propagation init :
  get_task s self = Some t →
  loaded t = false →
  ∃ s', set_status now today parse (S fuel) s self (Some STA_ACTIVE)
          donedate propagation init = Some s' ∧
        status_of s' self = Some STA_ACTIVE ∧
        ∀ x, x ≠ self → get_task s' x = get_task s x.
Proof.
  intros Ht Hl. cbn [set_status]. rewrite Ht. cbn [mbind option_bind].
  rewrite Hl. cbn [mbind option_bind]. rewrite get_task_update_eq, Ht.
  cbn [fmap option_fmap option_map mbind option_bind is_closed].
  eexists. split; [done|]. split.
  - unfold status_of. erewrite sync_self.
    2:{ rewrite get_task_update_eq. destruct init;
          rewrite ?get_task_emit, get_task_update_eq, Ht; done. }
    simpl. by destruct (sync_disabled _).
  - intros x Hx. rewrite sync_other, get_task_update_ne by done.
    destruct init; rewrite ?get_task_emit, get_task_update_ne; done.
Qed.

(** ** Occurrences that a replacement can create *)

Section Replace_creates.
Import PyStr PyStrFacts.


(** A text that holds [x] holds what [x] holds. *)
Lemma contains_split (x p : string) :
  contains x p = true → ∃ a b, x = a +:+ p +:+ b.
Proof.
  induction x as [|c x IH]; intros H.
  - rewrite contains_nil in H. apply prefix_nil_inv in H as ->.
    by exists EmptyString, EmptyString.
  - rewrite contains_cons in H. apply orb_true_iff in H as [H|H].
    + destruct (prefix_split _ _ H) as [r Hr]. by exists EmptyString, r.
    + destruct (IH H) as (a & b & ->). by exists (String c a), b.
Qed.

Lemma absent_of (s x p : string) :
  contains s p = false → contains x p = true → contains s x = false.
Proof.
  intros Hs Hx. destruct (contains_split _ _ Hx) as (a & b & ->).
  by apply absent_infix.
Qed.




End Replace_creates.

(** ** Stripping [foo] from a safe content *)

Section Strip_safe.
Import PyStr PyStrFacts.







(** *** The comma after [foo] *)






(** *** A pattern replaced by itself *)



(** *** The whole chain *)




(** *** The inserted marker *)



End Strip_safe.

(** ** Adding and removing the tag [foo] *)

Section Tag_calls_return.
Context (now : Z).




End Tag_calls_return.

